(** * The prioritized update queue of the reconciler

    A shallow embedding of
    [packages/react-reconciler/src/ReactUpdateQueue.js]: update records and
    update queues live in a store addressed by references, so that the
    structural sharing between the current queue and the work-in-progress
    queue, and every in-place mutation of the source, is visible.

    Conventions of the embedding.
    - A JavaScript object reference is an address ([addr]); [null] is
      [None]; [===] on objects is equality of addresses.
    - The source is read as a production build: every [if (__DEV__)] block
      is absent.
    - User code reached from the queue is modelled by what the queue
      observes of it: a payload function is a total function of
      [(instance, prevState, nextProps)], and invoking a completion callback
      appends one entry to the store's call log.
    - A [while] loop over a linked list takes a fuel argument; running out
      of fuel is the outcome [OutOfFuel], and the theorems show that a
      well-formed list needs only its length.
    - The constants [NoWork], [Callback], [ShouldCapture] and [DidCapture]
      are imported by the source from files that are not part of this
      development; they are section variables.
    - Effect tags and modes are integers within the 32-bit range, on which
      the operators [&], [|] and [~] of JavaScript are [Z.land], [Z.lor] and
      [Z.lnot].

    The constants of [packages/react-reconciler/src/ReactTypeOfMode.js] are
    embedded as well. *)

From stdpp Require Import gmap strings list fin_maps pretty sorting.
From Stdlib Require Import ZArith Lia.

#[local] Open Scope Z_scope.

(** ** JavaScript values *)

(** States, props and instances have Flow type [any]. Objects are kept as
    finite maps from property names to values: enough for the shallow merge
    of [Object.assign]. *)
#[warnings="-register-all"]
Inductive value : Type :=
| VUndefined
| VNull
| VBool (b : bool)
| VNumber (n : Z)
| VString (s : string)
| VObject (props : gmap string value).

(** The own enumerable properties that [Object.assign] copies from a source:
    none for [null], [undefined], booleans and numbers, the indexed
    characters for a string, every property for an object. *)
Definition ownEnumerable (v : value) : gmap string value :=
  match v with
  | VObject props => props
  | VString s =>
      list_to_map
        (imap (fun i c => (pretty i, VString (String c EmptyString)))
              (String.list_ascii_of_string s))
  | _ => ∅
  end.

(** [Object.assign(target, ...sources)]: sources are copied left to right,
    a later source overwriting the keys it shares with what is there. *)
Definition Object_assign (target : gmap string value) (sources : list value)
  : value :=
  VObject (foldl (fun t s => ownEnumerable s ∪ t) target sources).

(** ** Update records, queues and fibers *)

Definition addr := nat.

(** [export const UpdateState = 0; ReplaceState = 1; ForceUpdate = 2;
    CaptureUpdate = 3], the Flow type of [Update.tag]. *)
Inductive UpdateTag := UpdateState | ReplaceState | ForceUpdate | CaptureUpdate.

(** [payload: any], told apart by [typeof payload === 'function']. The
    function receives [this = instance], then [prevState] and [nextProps]. *)
Inductive Payload :=
| PValue (v : value)
| PFunction (f : value -> value -> value -> value).

(** [callback], as [commitUpdateEffects] and [callCallback] tell it apart:
    [null], a function (named by an identifier), or any other value, kept by
    the text that the invariant message prints for it. *)
Inductive JsCallback :=
| CNull
| CFunction (id : nat)
| CNotCallable (shown : string).

Module Update.
Record t := mk {
  expirationTime : Z;
  tag : UpdateTag;
  payload : Payload;
  callback : JsCallback;
  next : option addr;
  nextEffect : option addr
}.
Definition set_next (v : option addr) (u : t) : t :=
  mk (expirationTime u) (tag u) (payload u) (callback u) v (nextEffect u).
Definition set_nextEffect (v : option addr) (u : t) : t :=
  mk (expirationTime u) (tag u) (payload u) (callback u) (next u) v.
Definition set_callback (v : JsCallback) (u : t) : t :=
  mk (expirationTime u) (tag u) (payload u) v (next u) (nextEffect u).
End Update.

Module Queue.
Record t := mk {
  baseState : value;
  firstUpdate : option addr;
  lastUpdate : option addr;
  firstCapturedUpdate : option addr;
  lastCapturedUpdate : option addr;
  firstEffect : option addr;
  lastEffect : option addr;
  firstCapturedEffect : option addr;
  lastCapturedEffect : option addr
}.
Definition set_baseState (v : value) (q : t) : t :=
  mk v (firstUpdate q) (lastUpdate q) (firstCapturedUpdate q)
     (lastCapturedUpdate q) (firstEffect q) (lastEffect q)
     (firstCapturedEffect q) (lastCapturedEffect q).
Definition set_firstUpdate (v : option addr) (q : t) : t :=
  mk (baseState q) v (lastUpdate q) (firstCapturedUpdate q)
     (lastCapturedUpdate q) (firstEffect q) (lastEffect q)
     (firstCapturedEffect q) (lastCapturedEffect q).
Definition set_lastUpdate (v : option addr) (q : t) : t :=
  mk (baseState q) (firstUpdate q) v (firstCapturedUpdate q)
     (lastCapturedUpdate q) (firstEffect q) (lastEffect q)
     (firstCapturedEffect q) (lastCapturedEffect q).
Definition set_firstCapturedUpdate (v : option addr) (q : t) : t :=
  mk (baseState q) (firstUpdate q) (lastUpdate q) v
     (lastCapturedUpdate q) (firstEffect q) (lastEffect q)
     (firstCapturedEffect q) (lastCapturedEffect q).
Definition set_lastCapturedUpdate (v : option addr) (q : t) : t :=
  mk (baseState q) (firstUpdate q) (lastUpdate q) (firstCapturedUpdate q)
     v (firstEffect q) (lastEffect q)
     (firstCapturedEffect q) (lastCapturedEffect q).
Definition set_firstEffect (v : option addr) (q : t) : t :=
  mk (baseState q) (firstUpdate q) (lastUpdate q) (firstCapturedUpdate q)
     (lastCapturedUpdate q) v (lastEffect q)
     (firstCapturedEffect q) (lastCapturedEffect q).
Definition set_lastEffect (v : option addr) (q : t) : t :=
  mk (baseState q) (firstUpdate q) (lastUpdate q) (firstCapturedUpdate q)
     (lastCapturedUpdate q) (firstEffect q) v
     (firstCapturedEffect q) (lastCapturedEffect q).
Definition set_firstCapturedEffect (v : option addr) (q : t) : t :=
  mk (baseState q) (firstUpdate q) (lastUpdate q) (firstCapturedUpdate q)
     (lastCapturedUpdate q) (firstEffect q) (lastEffect q)
     v (lastCapturedEffect q).
Definition set_lastCapturedEffect (v : option addr) (q : t) : t :=
  mk (baseState q) (firstUpdate q) (lastUpdate q) (firstCapturedUpdate q)
     (lastCapturedUpdate q) (firstEffect q) (lastEffect q)
     (firstCapturedEffect q) v.
End Queue.

(** The fields of a fiber that the update queue reads or writes. *)
Module Fiber.
Record t := mk {
  alternate : option addr;
  updateQueue : option addr;
  memoizedState : value;
  expirationTime : Z;
  effectTag : Z
}.
Definition set_updateQueue (v : option addr) (f : t) : t :=
  mk (alternate f) v (memoizedState f) (expirationTime f) (effectTag f).
Definition set_memoizedState (v : value) (f : t) : t :=
  mk (alternate f) (updateQueue f) v (expirationTime f) (effectTag f).
Definition set_expirationTime (v : Z) (f : t) : t :=
  mk (alternate f) (updateQueue f) (memoizedState f) v (effectTag f).
Definition set_effectTag (v : Z) (f : t) : t :=
  mk (alternate f) (updateQueue f) (memoizedState f) (expirationTime f) v.
End Fiber.

(** ** The store *)

(** [hasForceUpdate] is the module-level variable of the source; [calls] is
    the log of completion callbacks invoked so far, oldest first, each with
    the [this] it was called on. *)
Record Heap := mkHeap {
  updates : gmap addr Update.t;
  queues : gmap addr Queue.t;
  fibers : gmap addr Fiber.t;
  hasForceUpdate : bool;
  calls : list (nat * value)
}.

Definition with_updates (m : gmap addr Update.t) (h : Heap) : Heap :=
  mkHeap m (queues h) (fibers h) (hasForceUpdate h) (calls h).
Definition with_queues (m : gmap addr Queue.t) (h : Heap) : Heap :=
  mkHeap (updates h) m (fibers h) (hasForceUpdate h) (calls h).
Definition with_fibers (m : gmap addr Fiber.t) (h : Heap) : Heap :=
  mkHeap (updates h) (queues h) m (hasForceUpdate h) (calls h).
Definition with_hasForceUpdate (b : bool) (h : Heap) : Heap :=
  mkHeap (updates h) (queues h) (fibers h) b (calls h).
Definition with_calls (l : list (nat * value)) (h : Heap) : Heap :=
  mkHeap (updates h) (queues h) (fibers h) (hasForceUpdate h) l.

(** Outcome of running a piece of the source on a store. [Throw] is a
    JavaScript exception, with the store as the exception leaves it; [Stuck]
    is a dereference of an address that holds no object, which no JavaScript
    program reaches. *)
Inductive Res (A : Type) : Type :=
| Done (a : A) (h : Heap)
| Throw (msg : string) (h : Heap)
| Stuck
| OutOfFuel.
Arguments Done {A} a h.
Arguments Throw {A} msg h.
Arguments Stuck {A}.
Arguments OutOfFuel {A}.

Definition M (A : Type) : Type := Heap -> Res A.

Definition ret {A} (a : A) : M A := fun h => Done a h.

Definition bind {A B} (m : M A) (k : A -> M B) : M B :=
  fun h =>
    match m h with
    | Done a h' => k a h'
    | Throw msg h' => Throw msg h'
    | Stuck => Stuck
    | OutOfFuel => OutOfFuel
    end.

Notation "'let*' x ':=' m 'in' k" := (bind m (fun x => k))
  (at level 10, x pattern, m at level 100, k at level 200).

Definition throw {A} (msg : string) : M A := fun h => Throw msg h.

Definition readUpdate (a : addr) : M Update.t :=
  fun h => match updates h !! a with Some u => Done u h | None => Stuck end.
Definition readQueue (a : addr) : M Queue.t :=
  fun h => match queues h !! a with Some q => Done q h | None => Stuck end.
Definition readFiber (a : addr) : M Fiber.t :=
  fun h => match fibers h !! a with Some f => Done f h | None => Stuck end.

(** A field assignment [obj.field = v]: the object at the address is
    replaced by the updated record. *)
Definition modifyUpdate (a : addr) (f : Update.t -> Update.t) : M unit :=
  fun h =>
    match updates h !! a with
    | Some u => Done tt (with_updates (<[a := f u]> (updates h)) h)
    | None => Stuck
    end.
Definition modifyQueue (a : addr) (f : Queue.t -> Queue.t) : M unit :=
  fun h =>
    match queues h !! a with
    | Some q => Done tt (with_queues (<[a := f q]> (queues h)) h)
    | None => Stuck
    end.
Definition modifyFiber (a : addr) (f : Fiber.t -> Fiber.t) : M unit :=
  fun h =>
    match fibers h !! a with
    | Some fb => Done tt (with_fibers (<[a := f fb]> (fibers h)) h)
    | None => Stuck
    end.

(** An object literal of queue shape: stored at an address that holds no
    queue yet. *)
Definition allocQueue (q : Queue.t) : M addr :=
  fun h =>
    let a := fresh (dom (queues h)) in
    Done a (with_queues (<[a := q]> (queues h)) h).

Definition setHasForceUpdate (b : bool) : M unit :=
  fun h => Done tt (with_hasForceUpdate b h).

(** ** The operations of [ReactUpdateQueue.js] *)

Section UpdateQueue.

(** [NoWork] comes from [./ReactFiberExpirationTime]; [Callback],
    [ShouldCapture] and [DidCapture] from [shared/ReactSideEffectTags]. *)
Variable NoWork : Z.
Variables Callback ShouldCapture DidCapture : Z.

Definition createUpdateQueue (baseState : value) : M addr :=
  allocQueue
    (Queue.mk baseState None None None None None None None None).

Definition cloneUpdateQueue (currentQueue : addr) : M addr :=
  let* cq := readQueue currentQueue in
  allocQueue
    (Queue.mk (Queue.baseState cq) (Queue.firstUpdate cq)
       (Queue.lastUpdate cq) None None None None None None).

(** The record that [createUpdate(expirationTime)] returns. *)
Definition createUpdate (expirationTime : Z) : Update.t :=
  Update.mk expirationTime UpdateState (PValue VNull) CNull None None.

Definition appendUpdateToQueue (queue update : addr) : M unit :=
  let* q := readQueue queue in
  match Queue.lastUpdate q with
  | None =>
      (* Queue is empty *)
      modifyQueue queue
        (fun q => Queue.set_firstUpdate (Some update)
                    (Queue.set_lastUpdate (Some update) q))
  | Some last =>
      let* _ := modifyUpdate last (Update.set_next (Some update)) in
      modifyQueue queue (Queue.set_lastUpdate (Some update))
  end.

Definition enqueueUpdate (fiber update : addr) : M unit :=
  let* fb := readFiber fiber in
  let* qs :=
    match Fiber.alternate fb with
    | None =>
        (* There's only one fiber. *)
        match Fiber.updateQueue fb with
        | None =>
            let* q1 := createUpdateQueue (Fiber.memoizedState fb) in
            let* _ := modifyFiber fiber (Fiber.set_updateQueue (Some q1)) in
            ret (q1, None)
        | Some q1 => ret (q1, None)
        end
    | Some alternate =>
        (* There are two owners. *)
        let* alt := readFiber alternate in
        match Fiber.updateQueue fb, Fiber.updateQueue alt with
        | None, None =>
            (* Neither fiber has an update queue. Create new ones. *)
            let* q1 := createUpdateQueue (Fiber.memoizedState fb) in
            let* _ := modifyFiber fiber (Fiber.set_updateQueue (Some q1)) in
            let* alt := readFiber alternate in
            let* q2 := createUpdateQueue (Fiber.memoizedState alt) in
            let* _ :=
              modifyFiber alternate (Fiber.set_updateQueue (Some q2)) in
            ret (q1, Some q2)
        | None, Some q2 =>
            (* Only one fiber has an update queue. Clone to create a new
               one. *)
            let* q1 := cloneUpdateQueue q2 in
            let* _ := modifyFiber fiber (Fiber.set_updateQueue (Some q1)) in
            ret (q1, Some q2)
        | Some q1, None =>
            let* q2 := cloneUpdateQueue q1 in
            let* _ :=
              modifyFiber alternate (Fiber.set_updateQueue (Some q2)) in
            ret (q1, Some q2)
        | Some q1, Some q2 =>
            (* Both owners have an update queue. *)
            ret (q1, Some q2)
        end
    end in
  let (queue1, queue2) := (qs : addr * option addr) in
  match queue2 with
  | None =>
      (* There's only a single queue. *)
      appendUpdateToQueue queue1 update
  | Some queue2 =>
      if decide (queue1 = queue2) then appendUpdateToQueue queue1 update
      else
        (* There are two queues. *)
        let* q1 := readQueue queue1 in
        let* q2 := readQueue queue2 in
        match Queue.lastUpdate q1, Queue.lastUpdate q2 with
        | Some _, Some _ =>
            (* Both queues are non-empty. The last update is the same in
               both lists, because of structural sharing. So, only append
               to one of the lists. *)
            let* _ := appendUpdateToQueue queue1 update in
            (* But we still need to update the `lastUpdate` pointer of
               queue2. *)
            modifyQueue queue2 (Queue.set_lastUpdate (Some update))
        | _, _ =>
            (* One of the queues is not empty. We must add the update to
               both queues. *)
            let* _ := appendUpdateToQueue queue1 update in
            appendUpdateToQueue queue2 update
        end
  end.

Definition ensureWorkInProgressQueueIsAClone (workInProgress queue : addr)
  : M addr :=
  let* wip := readFiber workInProgress in
  match Fiber.alternate wip with
  | Some current =>
      let* cur := readFiber current in
      (* If the work-in-progress queue is equal to the current queue, we
         need to clone it first. *)
      if decide (Some queue = Fiber.updateQueue cur) then
        let* queue' := cloneUpdateQueue queue in
        let* _ :=
          modifyFiber workInProgress (Fiber.set_updateQueue (Some queue')) in
        ret queue'
      else ret queue
  | None => ret queue
  end.

Definition enqueueCapturedUpdate (workInProgress update : addr) : M unit :=
  (* Captured updates go into a separate list, and only on the work-in-
     progress queue. *)
  let* wip := readFiber workInProgress in
  let* workInProgressQueue :=
    match Fiber.updateQueue wip with
    | None =>
        let* q := createUpdateQueue (Fiber.memoizedState wip) in
        let* _ := modifyFiber workInProgress (Fiber.set_updateQueue (Some q)) in
        ret q
    | Some q => ensureWorkInProgressQueueIsAClone workInProgress q
    end in
  (* Append the update to the end of the list. *)
  let* q := readQueue workInProgressQueue in
  match Queue.lastCapturedUpdate q with
  | None =>
      (* This is the first render phase update *)
      modifyQueue workInProgressQueue
        (fun q => Queue.set_firstCapturedUpdate (Some update)
                    (Queue.set_lastCapturedUpdate (Some update) q))
  | Some last =>
      let* _ := modifyUpdate last (Update.set_next (Some update)) in
      modifyQueue workInProgressQueue
        (Queue.set_lastCapturedUpdate (Some update))
  end.

(** The [UpdateState] case of [getStateFromUpdate], which the
    [CaptureUpdate] case falls through to. *)
Definition mergePartialState (u : Update.t)
    (prevState nextProps instance : value) : value :=
  let partialState :=
    match Update.payload u with
    | PFunction f => (* Updater function *) f instance prevState nextProps
    | PValue v => (* Partial state object *) v
    end in
  match partialState with
  | VNull | VUndefined =>
      (* Null and undefined are treated as no-ops. *)
      prevState
  | _ =>
      (* Merge the partial state and the previous state. *)
      Object_assign ∅ [prevState; partialState]
  end.

Definition getStateFromUpdate (workInProgress queue update : addr)
    (prevState nextProps instance : value) : M value :=
  let* u := readUpdate update in
  match Update.tag u with
  | ReplaceState =>
      match Update.payload u with
      | PFunction f => ret (f instance prevState nextProps)
      | PValue v => (* State object *) ret v
      end
  | CaptureUpdate =>
      let* _ :=
        modifyFiber workInProgress
          (fun fb =>
             Fiber.set_effectTag
               (Z.lor (Z.land (Fiber.effectTag fb) (Z.lnot ShouldCapture))
                      DidCapture) fb) in
      (* Intentional fallthrough *)
      ret (mergePartialState u prevState nextProps instance)
  | UpdateState => ret (mergePartialState u prevState nextProps instance)
  | ForceUpdate =>
      let* _ := setHasForceUpdate true in
      ret prevState
  end.

(** The local variables of [processUpdateQueue] that its two loops share. *)
Record Locals := mkLocals {
  update : option addr;
  newBaseState : value;
  newFirstUpdate : option addr;
  newExpirationTime : Z;
  resultState : value;
  newFirstCapturedUpdate : option addr
}.

Definition set_update (v : option addr) (s : Locals) : Locals :=
  mkLocals v (newBaseState s) (newFirstUpdate s) (newExpirationTime s)
    (resultState s) (newFirstCapturedUpdate s).
Definition set_newBaseState (v : value) (s : Locals) : Locals :=
  mkLocals (update s) v (newFirstUpdate s) (newExpirationTime s)
    (resultState s) (newFirstCapturedUpdate s).
Definition set_newFirstUpdate (v : option addr) (s : Locals) : Locals :=
  mkLocals (update s) (newBaseState s) v (newExpirationTime s)
    (resultState s) (newFirstCapturedUpdate s).
Definition set_newExpirationTime (v : Z) (s : Locals) : Locals :=
  mkLocals (update s) (newBaseState s) (newFirstUpdate s) v
    (resultState s) (newFirstCapturedUpdate s).
Definition set_resultState (v : value) (s : Locals) : Locals :=
  mkLocals (update s) (newBaseState s) (newFirstUpdate s)
    (newExpirationTime s) v (newFirstCapturedUpdate s).
Definition set_newFirstCapturedUpdate (v : option addr) (s : Locals)
  : Locals :=
  mkLocals (update s) (newBaseState s) (newFirstUpdate s)
    (newExpirationTime s) (resultState s) v.

(** [while (update !== null) { body }], the header of both loops. *)
Fixpoint whileUpdate (fuel : nat) (body : addr -> Locals -> M Locals)
    (s : Locals) : M Locals :=
  match update s with
  | None => ret s
  | Some a =>
      match fuel with
      | O => fun _ => OutOfFuel
      | S fuel' => let* s' := body a s in whileUpdate fuel' body s'
      end
  end.

(** Since this update will remain in the list, update the remaining
    expiration time. *)
Definition keepRemaining (updateExpirationTime : Z) (s : Locals) : Locals :=
  if newExpirationTime s <? updateExpirationTime
  then set_newExpirationTime updateExpirationTime s
  else s.

(** One turn of the first loop, on the normal list. *)
Definition processNormalUpdate (workInProgress queue : addr)
    (props instance : value) (renderExpirationTime : Z)
    (a : addr) (s : Locals) : M Locals :=
  let* u := readUpdate a in
  let updateExpirationTime := Update.expirationTime u in
  if updateExpirationTime <? renderExpirationTime then
    (* This update does not have sufficient priority. Skip it. *)
    let s :=
      match newFirstUpdate s with
      | None =>
          (* This is the first skipped update. *)
          set_newBaseState (resultState s) (set_newFirstUpdate (Some a) s)
      | Some _ => s
      end in
    let s := keepRemaining updateExpirationTime s in
    let* u := readUpdate a in
    ret (set_update (Update.next u) s)
  else
    (* This update does have sufficient priority. Process it and compute a
       new result. *)
    let* r :=
      getStateFromUpdate workInProgress queue a (resultState s) props
        instance in
    let s := set_resultState r s in
    let* u := readUpdate a in
    let* _ :=
      match Update.callback u with
      | CNull => ret tt
      | _ =>
          let* _ :=
            modifyFiber workInProgress
              (fun fb =>
                 Fiber.set_effectTag (Z.lor (Fiber.effectTag fb) Callback)
                   fb) in
          (* Set this to null, in case it was mutated during an aborted
             render. *)
          let* _ := modifyUpdate a (Update.set_nextEffect None) in
          let* q := readQueue queue in
          match Queue.lastEffect q with
          | None =>
              modifyQueue queue
                (fun q => Queue.set_firstEffect (Some a)
                            (Queue.set_lastEffect (Some a) q))
          | Some le =>
              let* _ := modifyUpdate le (Update.set_nextEffect (Some a)) in
              modifyQueue queue (Queue.set_lastEffect (Some a))
          end
      end in
    (* Continue to the next update. *)
    let* u := readUpdate a in
    ret (set_update (Update.next u) s).

(** One turn of the second loop, on the list of captured updates. *)
Definition processCapturedUpdate (workInProgress queue : addr)
    (props instance : value) (renderExpirationTime : Z)
    (a : addr) (s : Locals) : M Locals :=
  let* u := readUpdate a in
  let updateExpirationTime := Update.expirationTime u in
  if updateExpirationTime <? renderExpirationTime then
    (* This update does not have sufficient priority. Skip it. *)
    let s :=
      match newFirstCapturedUpdate s with
      | None =>
          (* This is the first skipped captured update. *)
          let s := set_newFirstCapturedUpdate (Some a) s in
          (* If this is the first update that was skipped, the current
             result is the new base state. *)
          match newFirstUpdate s with
          | None => set_newBaseState (resultState s) s
          | Some _ => s
          end
      | Some _ => s
      end in
    let s := keepRemaining updateExpirationTime s in
    let* u := readUpdate a in
    ret (set_update (Update.next u) s)
  else
    let* r :=
      getStateFromUpdate workInProgress queue a (resultState s) props
        instance in
    let s := set_resultState r s in
    let* u := readUpdate a in
    let* _ :=
      match Update.callback u with
      | CNull => ret tt
      | _ =>
          let* _ :=
            modifyFiber workInProgress
              (fun fb =>
                 Fiber.set_effectTag (Z.lor (Fiber.effectTag fb) Callback)
                   fb) in
          let* _ := modifyUpdate a (Update.set_nextEffect None) in
          let* q := readQueue queue in
          match Queue.lastCapturedEffect q with
          | None =>
              modifyQueue queue
                (fun q => Queue.set_firstCapturedEffect (Some a)
                            (Queue.set_lastCapturedEffect (Some a) q))
          | Some le =>
              let* _ := modifyUpdate le (Update.set_nextEffect (Some a)) in
              modifyQueue queue (Queue.set_lastCapturedEffect (Some a))
          end
      end in
    let* u := readUpdate a in
    ret (set_update (Update.next u) s).

Definition processUpdateQueue (fuel : nat) (workInProgress queue : addr)
    (props instance : value) (renderExpirationTime : Z) : M unit :=
  let* _ := setHasForceUpdate false in
  let* queue := ensureWorkInProgressQueueIsAClone workInProgress queue in
  (* These values may change as we process the queue. *)
  let* q := readQueue queue in
  let s :=
    {| update := Queue.firstUpdate q;
       newBaseState := Queue.baseState q;
       newFirstUpdate := None;
       newExpirationTime := NoWork;
       resultState := Queue.baseState q;
       newFirstCapturedUpdate := None |} in
  (* Iterate through the list of updates to compute the result. *)
  let* s :=
    whileUpdate fuel
      (processNormalUpdate workInProgress queue props instance
         renderExpirationTime) s in
  (* Separately, iterate though the list of captured updates. *)
  let* q := readQueue queue in
  let s := set_update (Queue.firstCapturedUpdate q) s in
  let* s :=
    whileUpdate fuel
      (processCapturedUpdate workInProgress queue props instance
         renderExpirationTime) s in
  let* _ :=
    match newFirstUpdate s with
    | None => modifyQueue queue (Queue.set_lastUpdate None)
    | Some _ => ret tt
    end in
  let* _ :=
    match newFirstCapturedUpdate s with
    | None => modifyQueue queue (Queue.set_lastCapturedUpdate None)
    | Some _ =>
        modifyFiber workInProgress
          (fun fb =>
             Fiber.set_effectTag (Z.lor (Fiber.effectTag fb) Callback) fb)
    end in
  let s :=
    match newFirstUpdate s, newFirstCapturedUpdate s with
    | None, None =>
        (* We processed every update, without skipping. That means the new
           base state is the same as the result state. *)
        set_newBaseState (resultState s) s
    | _, _ => s
    end in
  let* _ :=
    modifyQueue queue
      (fun q =>
         Queue.set_firstCapturedUpdate (newFirstCapturedUpdate s)
           (Queue.set_firstUpdate (newFirstUpdate s)
              (Queue.set_baseState (newBaseState s) q))) in
  (* Set the remaining expiration time to be whatever is remaining in the
     queue. *)
  modifyFiber workInProgress
    (fun fb =>
       Fiber.set_memoizedState (resultState s)
         (Fiber.set_expirationTime (newExpirationTime s) fb)).

Definition invalidCallbackMessage (shown : string) : string :=
  "Invalid argument passed as callback. Expected a function. Instead received: "
  +:+ shown.

(** [invariant(typeof callback === 'function', ...)] throws unless the
    callback is a function; [callback.call(context)] is then one entry of
    the call log. *)
Definition callCallback (callback : JsCallback) (context : value) : M unit :=
  match callback with
  | CFunction id =>
      fun h => Done tt (with_calls (calls h ++ [(id, context)]) h)
  | CNull => throw (invalidCallbackMessage "null")
  | CNotCallable shown => throw (invalidCallbackMessage shown)
  end.

Definition resetHasForceUpdateBeforeProcessing : M unit :=
  setHasForceUpdate false.

Definition checkHasForceUpdateAfterProcessing : M bool :=
  fun h => Done (hasForceUpdate h) h.

Fixpoint commitUpdateEffects (fuel : nat) (effect : option addr)
    (instance : value) : M unit :=
  match effect with
  | None => ret tt
  | Some e =>
      match fuel with
      | O => fun _ => OutOfFuel
      | S fuel' =>
          let* u := readUpdate e in
          let callback := Update.callback u in
          let* _ :=
            match callback with
            | CNull => ret tt
            | _ =>
                let* _ := modifyUpdate e (Update.set_callback CNull) in
                callCallback callback instance
            end in
          let* u := readUpdate e in
          commitUpdateEffects fuel' (Update.nextEffect u) instance
      end
  end.

Definition commitUpdateQueue (fuel : nat) (finishedWork finishedQueue : addr)
    (instance : value) (renderExpirationTime : Z) : M unit :=
  let* q := readQueue finishedQueue in
  let* _ :=
    match Queue.firstCapturedUpdate q with
    | Some firstCaptured =>
        (* Join the captured update list to the end of the normal list. *)
        let* _ :=
          match Queue.lastUpdate q with
          | Some last =>
              let* _ :=
                modifyUpdate last (Update.set_next (Some firstCaptured)) in
              modifyQueue finishedQueue
                (fun q => Queue.set_lastUpdate (Queue.lastCapturedUpdate q) q)
          | None => ret tt
          end in
        (* Clear the list of captured updates. *)
        modifyQueue finishedQueue
          (fun q => Queue.set_firstCapturedUpdate None
                      (Queue.set_lastCapturedUpdate None q))
    | None => ret tt
    end in
  (* Commit the effects *)
  let* q := readQueue finishedQueue in
  let* _ := commitUpdateEffects fuel (Queue.firstEffect q) instance in
  let* _ :=
    modifyQueue finishedQueue
      (fun q => Queue.set_firstEffect None (Queue.set_lastEffect None q)) in
  let* q := readQueue finishedQueue in
  let* _ := commitUpdateEffects fuel (Queue.firstCapturedEffect q) instance in
  modifyQueue finishedQueue
    (fun q => Queue.set_firstCapturedEffect None
                (Queue.set_lastCapturedEffect None q)).

End UpdateQueue.

(** ** Reading the store as lists *)

(** [linked sel us p l]: following the link [sel] from the reference [p]
    visits exactly the addresses [l], each holding a record, and then
    reaches [null]. *)
Fixpoint linked (sel : Update.t -> option addr) (us : gmap addr Update.t)
    (p : option addr) (l : list addr) : Prop :=
  match l with
  | [] => p = None
  | a :: l' =>
      p = Some a /\
      match us !! a with
      | Some u => linked sel us (sel u) l'
      | None => False
      end
  end.

(** The list of updates from a head pointer, and the list of effects. *)
Definition chain := linked Update.next.
Definition effectChain := linked Update.nextEffect.

(** A record without its effect link, the one field of a record that a
    replay pass rewrites. *)
Definition stripEffect (u : Update.t) : Update.t := Update.set_nextEffect None u.

#[local] Instance Update_inhabited : Inhabited Update.t :=
  populate (createUpdate 0).

(** The records of a list of addresses, each with its address. *)
Definition entries (us : gmap addr Update.t) (l : list addr)
  : list (addr * Update.t) :=
  (fun a => (a, stripEffect (us !!! a))) <$> l.

(** The tail pointers of the two effect lists reference records. *)
Definition effectTailsAllocated (us : gmap addr Update.t) (q : Queue.t)
  : Prop :=
  (forall e, Queue.lastEffect q = Some e -> is_Some (us !! e)) /\
  (forall e, Queue.lastCapturedEffect q = Some e -> is_Some (us !! e)).

(** ** What a pass computes, on lists *)

(** The state that [getStateFromUpdate] returns. *)
Definition nextState (u : Update.t) (prevState nextProps instance : value)
  : value :=
  match Update.tag u with
  | ReplaceState =>
      match Update.payload u with
      | PFunction f => f instance prevState nextProps
      | PValue v => v
      end
  | CaptureUpdate | UpdateState =>
      mergePartialState u prevState nextProps instance
  | ForceUpdate => prevState
  end.

(** The test of both loops: [updateExpirationTime < renderExpirationTime]. *)
Definition insufficient (renderExpirationTime : Z) (e : addr * Update.t)
  : bool :=
  Update.expirationTime e.2 <? renderExpirationTime.

Definition appliedBy (D : Z) (es : list (addr * Update.t))
  : list (addr * Update.t) :=
  filter (fun e => insufficient D e = false) es.

Definition skippedBy (D : Z) (es : list (addr * Update.t))
  : list (addr * Update.t) :=
  filter (fun e => insufficient D e = true) es.

(** The records in front of the first skipped one, and the rest of the
    list, which starts with the first skipped record. *)
Fixpoint settled (D : Z) (es : list (addr * Update.t))
  : list (addr * Update.t) :=
  match es with
  | [] => []
  | e :: es' => if insufficient D e then [] else e :: settled D es'
  end.

Fixpoint remaining (D : Z) (es : list (addr * Update.t))
  : list (addr * Update.t) :=
  match es with
  | [] => []
  | e :: es' => if insufficient D e then es else remaining D es'
  end.

(** Applying records in order, each to the state the previous one left. *)
Definition applyAll (props instance : value) (base : value)
    (es : list (addr * Update.t)) : value :=
  foldl (fun s e => nextState e.2 s props instance) base es.

(** The most urgent of a start value and some deadlines, most urgent being
    numerically largest, as the aggregate of the loops keeps it. *)
Definition mostUrgent (start : Z) (es : list (addr * Update.t)) : Z :=
  foldl (fun m e => Z.max m (Update.expirationTime e.2)) start es.

(** The records of an effect list that hold a callback, as log entries. *)
Definition callbackId (c : JsCallback) : option nat :=
  match c with CFunction id => Some id | _ => None end.

Definition hasCallback (e : addr * Update.t) : bool :=
  match Update.callback e.2 with CNull => false | _ => true end.

Definition callable (e : addr * Update.t) : bool :=
  match Update.callback e.2 with CNotCallable _ => false | _ => true end.

Definition callsOf (instance : value) (es : list (addr * Update.t))
  : list (nat * value) :=
  omap (fun e => (fun id => (id, instance)) <$> callbackId (Update.callback e.2))
       es.

(** One turn of each loop on the local variables alone. *)
Definition normalStep (props instance : value) (D : Z) (s : Locals)
    (e : addr * Update.t) : Locals :=
  if insufficient D e then
    set_update (Update.next e.2)
      (keepRemaining (Update.expirationTime e.2)
         match newFirstUpdate s with
         | None =>
             set_newBaseState (resultState s)
               (set_newFirstUpdate (Some e.1) s)
         | Some _ => s
         end)
  else
    set_update (Update.next e.2)
      (set_resultState (nextState e.2 (resultState s) props instance) s).

Definition capturedStep (props instance : value) (D : Z) (s : Locals)
    (e : addr * Update.t) : Locals :=
  if insufficient D e then
    set_update (Update.next e.2)
      (keepRemaining (Update.expirationTime e.2)
         match newFirstCapturedUpdate s with
         | None =>
             match newFirstUpdate s with
             | None =>
                 set_newBaseState (resultState s)
                   (set_newFirstCapturedUpdate (Some e.1) s)
             | Some _ => set_newFirstCapturedUpdate (Some e.1) s
             end
         | Some _ => s
         end)
  else
    set_update (Update.next e.2)
      (set_resultState (nextState e.2 (resultState s) props instance) s).

(** ** Running a computation to a result *)

(** [wp m h Q]: from the store [h], [m] returns normally, with a result and
    a store that satisfy [Q]. *)
Definition wp {A} (m : M A) (h : Heap) (Q : A -> Heap -> Prop) : Prop :=
  match m h with
  | Done a h' => Q a h'
  | _ => False
  end.

(** A queue and a fiber without the fields that a replay pass uses for its
    effect bookkeeping. *)
Definition stripQueue (q : Queue.t) : Queue.t :=
  Queue.mk (Queue.baseState q) (Queue.firstUpdate q) (Queue.lastUpdate q)
    (Queue.firstCapturedUpdate q) (Queue.lastCapturedUpdate q)
    None None None None.

Definition stripFiber (f : Fiber.t) : Fiber.t := Fiber.set_effectTag 0 f.

(** What the two loops leave alone: every record but for its effect link,
    every queue but the effect pointers of the one being replayed, every
    fiber but the effect tag of the work-in-progress one, and the call
    log. *)
Definition loopFrame (wip q : addr) (h h' : Heap) : Prop :=
  stripEffect <$> updates h' = stripEffect <$> updates h /\
  (forall x, x <> q -> queues h' !! x = queues h !! x) /\
  stripQueue <$> queues h' !! q = stripQueue <$> queues h !! q /\
  (forall x, x <> wip -> fibers h' !! x = fibers h !! x) /\
  stripFiber <$> fibers h' !! wip = stripFiber <$> fibers h !! wip /\
  calls h' = calls h.

Definition tailsAllocated (q : addr) (h : Heap) : Prop :=
  forall qr, queues h !! q = Some qr -> effectTailsAllocated (updates h) qr.

(** The two pointers of an effect list of a queue: of the captured effects
    or of the normal ones. *)
Definition effectPointers (captured : bool) (q : Queue.t)
  : option addr * option addr :=
  if captured
  then (Queue.firstCapturedEffect q, Queue.lastCapturedEffect q)
  else (Queue.firstEffect q, Queue.lastEffect q).

(** The records that a pass at [D] puts on an effect list: those it applies
    and that hold a callback. *)
Definition effectsOf (D : Z) (es : list (addr * Update.t)) : list addr :=
  (filter (fun e => insufficient D e = false /\ hasCallback e = true) es).*1.

(** How a loop over the records [l] extends its effect list: whenever that
    list is well formed and apart from [l], the records [new] are linked
    behind it, the other effect list keeps its pointers, and no record off
    [l] and off the effect list is written. *)
Definition effectsLinked (captured : bool) (q : addr) (l new : list addr)
    (h h' : Heap) : Prop :=
  forall qr eff,
    queues h !! q = Some qr ->
    effectChain (updates h) (effectPointers captured qr).1 eff ->
    (effectPointers captured qr).2 = last eff ->
    (forall x, x ∈ l -> x ∉ eff) ->
    exists qr',
      queues h' !! q = Some qr' /\
      effectChain (updates h') (effectPointers captured qr').1 (eff ++ new) /\
      (effectPointers captured qr').2 = last (eff ++ new) /\
      effectPointers (negb captured) qr' = effectPointers (negb captured) qr /\
      (forall x, x ∉ l ++ eff -> updates h' !! x = updates h !! x).


(** The statements by which either loop puts the record [a] at the end of
    its effect list; [processNormalUpdate] holds them with the pointers of
    the normal effects, [processCapturedUpdate] with those of the captured
    effects. *)
Definition setEffectPointers (captured : bool) (first last : option addr)
    (q : Queue.t) : Queue.t :=
  if captured
  then Queue.set_firstCapturedEffect first (Queue.set_lastCapturedEffect last q)
  else Queue.set_firstEffect first (Queue.set_lastEffect last q).

Definition setLastEffectPointer (captured : bool) (last : option addr)
    (q : Queue.t) : Queue.t :=
  if captured then Queue.set_lastCapturedEffect last q
  else Queue.set_lastEffect last q.

Definition appendEffect (captured : bool) (Callback : Z)
    (workInProgress queue a : addr) : M unit :=
  let* _ :=
    modifyFiber workInProgress
      (fun fb =>
         Fiber.set_effectTag (Z.lor (Fiber.effectTag fb) Callback) fb) in
  let* _ := modifyUpdate a (Update.set_nextEffect None) in
  let* q := readQueue queue in
  match (effectPointers captured q).2 with
  | None => modifyQueue queue (setEffectPointers captured (Some a) (Some a))
  | Some le =>
      let* _ := modifyUpdate le (Update.set_nextEffect (Some a)) in
      modifyQueue queue (setLastEffectPointer captured (Some a))
  end.


(** The local variables of [processUpdateQueue] as it enters its first
    loop on a queue, and as it leaves its second loop, when the normal list
    holds the records [es] and the captured list the records [cs]. *)
Definition initialLocals (NoWork : Z) (q : Queue.t) : Locals :=
  {| update := Queue.firstUpdate q;
     newBaseState := Queue.baseState q;
     newFirstUpdate := None;
     newExpirationTime := NoWork;
     resultState := Queue.baseState q;
     newFirstCapturedUpdate := None |}.

Definition passLocals (NoWork : Z) (props instance : value) (D : Z)
    (q : Queue.t) (es cs : list (addr * Update.t)) : Locals :=
  foldl (capturedStep props instance D)
    (set_update (Queue.firstCapturedUpdate q)
       (foldl (normalStep props instance D) (initialLocals NoWork q) es))
    cs.

(** The base state that the pass writes back. *)
Definition finalBaseState (s : Locals) : value :=
  match newFirstUpdate s, newFirstCapturedUpdate s with
  | None, None => resultState s
  | _, _ => newBaseState s
  end.

(** The store [h'] that a pass leaves, against the store [h1] in which its
    loops start on the queue [q] (holding [qw]) of the fiber [wip] (holding
    [fbw]), with final local variables [s]. *)
Definition passResult (wip q : addr) (qw : Queue.t) (fbw : Fiber.t)
    (s : Locals) (h1 h' : Heap) : Prop :=
  stripEffect <$> updates h' = stripEffect <$> updates h1 /\
  (forall x, x <> q -> queues h' !! x = queues h1 !! x) /\
  (exists qf,
     queues h' !! q = Some qf /\
     Queue.baseState qf = finalBaseState s /\
     Queue.firstUpdate qf = newFirstUpdate s /\
     Queue.firstCapturedUpdate qf = newFirstCapturedUpdate s /\
     Queue.lastUpdate qf =
       match newFirstUpdate s with
       | None => None
       | Some _ => Queue.lastUpdate qw
       end /\
     Queue.lastCapturedUpdate qf =
       match newFirstCapturedUpdate s with
       | None => None
       | Some _ => Queue.lastCapturedUpdate qw
       end /\
     effectTailsAllocated (updates h') qf) /\
  (forall x, x <> wip -> fibers h' !! x = fibers h1 !! x) /\
  (exists ff,
     fibers h' !! wip = Some ff /\
     Fiber.memoizedState ff = resultState s /\
     Fiber.expirationTime ff = newExpirationTime s /\
     Fiber.alternate ff = Fiber.alternate fbw /\
     Fiber.updateQueue ff = Fiber.updateQueue fbw) /\
  calls h' = calls h1.

(** The effect lists that a pass at [D] leaves on a queue whose effect
    lists were empty. *)
Definition passEffects (q : addr) (D : Z) (es cs : list (addr * Update.t))
    (h' : Heap) : Prop :=
  exists qf,
    queues h' !! q = Some qf /\
    effectChain (updates h') (Queue.firstEffect qf) (effectsOf D es) /\
    effectChain (updates h') (Queue.firstCapturedEffect qf) (effectsOf D cs).


(** The queue handed to [processUpdateQueue] is the very queue of the
    current fiber, the alternate of the work-in-progress fiber. *)
Definition sharedWithCurrent (h : Heap) (wip q : addr) : Prop :=
  exists fb c fc,
    fibers h !! wip = Some fb /\ Fiber.alternate fb = Some c /\
    fibers h !! c = Some fc /\ Fiber.updateQueue fc = Some q.

(** The queue [q'] that a pass on [(wip, q)] replays and writes, and the
    fiber record [fbw] it starts from: the queue [q] itself, or, when [q]
    is shared with the current fiber, a clone at an address new to the
    store, which becomes the queue of [wip]. *)
Definition replayedOn (h : Heap) (wip q : addr) (fb : Fiber.t)
    (q' : addr) (fbw : Fiber.t) : Prop :=
  (~ sharedWithCurrent h wip q /\ q' = q /\ fbw = fb) \/
  (sharedWithCurrent h wip q /\ queues h !! q' = None /\
   fbw = Fiber.set_updateQueue (Some q') fb).


(** ** Urgency *)

(** The order on deadlines that the loops use: the test
    [updateExpirationTime < renderExpirationTime] finds the update of
    insufficient priority, so the numerically smaller deadline is the less
    urgent one. *)
Definition lessUrgent (a b : Z) : Prop := a < b.

(** The order as the specification words it: the lower numeric value is the
    more urgent one, so the less urgent deadline is the numerically
    larger. *)
Definition lessUrgentAsSpecified (a b : Z) : Prop := b < a.

#[local] Instance lessUrgent_dec a b : Decision (lessUrgent a b).
Proof. unfold lessUrgent. apply _. Defined.

(** [x] is the most urgent deadline among the records [es]. *)
Definition mostUrgentAmong (x : Z) (es : list (addr * Update.t)) : Prop :=
  (exists e, e ∈ es /\ Update.expirationTime e.2 = x) /\
  (forall e, e ∈ es -> ~ lessUrgent x (Update.expirationTime e.2)).

(** ** Rendering a fiber at several priority levels *)

(** What a caller of [processUpdateQueue] does with a work-in-progress
    fiber: replay its own queue, if it has one. *)
Definition renderAt (NoWork Callback ShouldCapture DidCapture : Z)
    (fuel : nat) (wip : addr) (props instance : value) (D : Z) : M unit :=
  let* fb := readFiber wip in
  match Fiber.updateQueue fb with
  | Some q =>
      processUpdateQueue NoWork Callback ShouldCapture DidCapture fuel wip q
        props instance D
  | None => ret tt
  end.

(** One pass per level, in the order of the list, each pass on what the
    pass before it left in the store. *)
Fixpoint renderLevels (NoWork Callback ShouldCapture DidCapture : Z)
    (fuel : nat) (wip : addr) (props instance : value) (levels : list Z)
  : M unit :=
  match levels with
  | [] => ret tt
  | D :: rest =>
      let* _ :=
        renderAt NoWork Callback ShouldCapture DidCapture fuel wip props
          instance D in
      renderLevels NoWork Callback ShouldCapture DidCapture fuel wip props
        instance rest
  end.

Definition urgentFirst (a b : Z) : Prop := b <= a.

#[local] Instance urgentFirst_dec : RelDecision urgentFirst.
Proof. intros a b. unfold urgentFirst. apply _. Defined.

(** The distinct deadlines of some records, the most urgent level first. *)
Definition priorityLevels (es : list (addr * Update.t)) : list Z :=
  merge_sort urgentFirst
    (remove_dups ((fun e => Update.expirationTime e.2) <$> es)).

(** The state of a fiber, for the statements. *)
Definition memoizedStateOf (h : Heap) (fiber : addr) : option value :=
  Fiber.memoizedState <$> fibers h !! fiber.


(** ** Well-formed input of a pass *)

(** What a store offers a call [processUpdateQueue(wip, q, ...)]: the fiber
    and the queue exist, as does the alternate when the fiber names one;
    the two lists of the queue are linked lists ending in [null], no longer
    than the fuel; a queue shared with the current fiber holds no captured
    update; the effect tails reference records. *)
Definition replayable (fuel : nat) (h : Heap) (wip q : addr)
    (fb : Fiber.t) (qr : Queue.t) (l lc : list addr) : Prop :=
  fibers h !! wip = Some fb /\
  queues h !! q = Some qr /\
  (forall c, Fiber.alternate fb = Some c -> is_Some (fibers h !! c)) /\
  chain (updates h) (Queue.firstUpdate qr) l /\
  chain (updates h) (Queue.firstCapturedUpdate qr) lc /\
  (sharedWithCurrent h wip q -> lc = []) /\
  effectTailsAllocated (updates h) qr /\
  (length l <= fuel)%nat /\ (length lc <= fuel)%nat.

(** ** Example stores *)

(** An updater function that appends a letter, as in the example at the
    head of [ReactUpdateQueue.js]. *)
Definition appendLetter (c : string) : Payload :=
  PFunction
    (fun _ prevState _ =>
       match prevState with
       | VString s => VString (s +:+ c)
       | _ => VString c
       end).

Definition letter (deadline : Z) (c : string) (cb : JsCallback)
    (next : option addr) : Update.t :=
  Update.mk deadline ReplaceState (appendLetter c) cb next None.

(** The list A2 - B1 - C2 - D1 of the source's example (the larger
    deadline being the more urgent one), and a captured list E2 - F1. *)
Definition exampleUpdates : gmap addr Update.t :=
  {[ 10%nat := letter 2 "A" (CFunction 1) (Some 11%nat);
     11%nat := letter 1 "B" (CFunction 2) (Some 12%nat);
     12%nat := letter 2 "C" (CFunction 3) (Some 13%nat);
     13%nat := letter 1 "D" CNull None;
     14%nat := letter 2 "E" (CFunction 4) (Some 15%nat);
     15%nat := letter 1 "F" CNull None ]}.

Definition exampleQueue : Queue.t :=
  Queue.mk (VString "") (Some 10%nat) (Some 13%nat) (Some 14%nat)
    (Some 15%nat) None None None None.

Definition exampleFiber : Fiber.t :=
  Fiber.mk None (Some 0%nat) (VString "") 0 0.

(** One fiber, without alternate, owning the queue. *)
Definition exampleHeap : Heap :=
  mkHeap exampleUpdates {[ 0%nat := exampleQueue ]}
    {[ 0%nat := exampleFiber ]} false [].


(** A store whose queue holds one record, of the given deadline, and the
    observation that a pass at [D] skips that record: the pass returns, the
    state is still the base state, and the record is the head of what
    remains. [NoWork] is taken as 0 and the effect tags as 32, 1024 and 64
    in the examples. *)
Definition singleRecordHeap (deadline : Z) : Heap :=
  mkHeap {[ 10%nat := letter deadline "A" CNull None ]}
    {[ 0%nat := Queue.mk (VString "") (Some 10%nat) (Some 10%nat) None None
                  None None None None ]}
    {[ 0%nat := exampleFiber ]} false [].

Definition skipsAlone (deadline D : Z) : Prop :=
  exists h',
    processUpdateQueue 0 32 1024 64 1 0%nat 0%nat VNull VNull D
      (singleRecordHeap deadline) = Done tt h' /\
    memoizedStateOf h' 0%nat = Some (VString "") /\
    Queue.firstUpdate <$> queues h' !! 0%nat = Some (Some 10%nat).


(** A store whose queue has an empty normal list and one captured record,
    of deadline 1. *)
Definition capturedOnlyHeap : Heap :=
  mkHeap {[ 14%nat := letter 1 "E" CNull None ]}
    {[ 0%nat := Queue.mk (VString "") None None (Some 14%nat) (Some 14%nat)
                  None None None None ]}
    {[ 0%nat := exampleFiber ]} false [].


(** A work-in-progress fiber (0) and its current fiber (1) that share one
    queue, holding the normal list A2 - B1 - C2 - D1 and no captured
    update. *)
Definition sharedQueue : Queue.t :=
  Queue.mk (VString "") (Some 10%nat) (Some 13%nat) None None
    None None None None.

Definition workInProgressFiber : Fiber.t :=
  Fiber.mk (Some 1%nat) (Some 0%nat) (VString "") 0 0.

Definition currentFiber : Fiber.t :=
  Fiber.mk (Some 0%nat) (Some 0%nat) (VString "") 0 0.

Definition sharedHeap : Heap :=
  mkHeap exampleUpdates {[ 0%nat := sharedQueue ]}
    {[ 0%nat := workInProgressFiber; 1%nat := currentFiber ]} false [].


(** ** Running a computation that may throw *)

(** [wpx m h Q E]: from the store [h], [m] returns normally with [Q], or
    throws with a message and a store that satisfy [E]. *)
Definition wpx {A} (m : M A) (h : Heap) (Q : A -> Heap -> Prop)
    (E : string -> Heap -> Prop) : Prop :=
  match m h with
  | Done a h' => Q a h'
  | Throw msg h' => E msg h'
  | _ => False
  end.

(** A record without its callback, the one field of a record that a commit
    of the effects rewrites. *)
Definition stripCallback (u : Update.t) : Update.t :=
  Update.set_callback CNull u.

(** The text that the invariant message shows for a callback. *)
Definition shownCallback (c : JsCallback) : string :=
  match c with
  | CNotCallable shown => shown
  | CNull => "null"
  | CFunction _ => "function"
  end.

(** What [commitUpdateEffects] leaves of a store as it walks the effect
    list [l]: every record but for its callback, the records off the list
    entirely, the cleared callback of the records [done] that it has
    visited, and the queues and fibers. *)
Definition effectsCommitted (l done : list addr) (h h' : Heap) : Prop :=
  stripCallback <$> updates h' = stripCallback <$> updates h /\
  (forall x, x ∉ l -> updates h' !! x = updates h !! x) /\
  (forall x, x ∈ done ->
     Update.callback <$> updates h' !! x = Some CNull) /\
  queues h' = queues h /\ fibers h' = fibers h.


(** The queue that [commitUpdateQueue] leaves of a queue holding [qr], with
    normal list [l] and captured list [lc]: a non-empty captured list is
    joined to the end of a non-empty normal list, and dropped when the
    normal list is empty. *)
Definition commitQueueResult (q : addr) (qr : Queue.t) (l lc : list addr)
    (h' : Heap) : Prop :=
  exists qf,
    queues h' !! q = Some qf /\
    Queue.baseState qf = Queue.baseState qr /\
    Queue.firstUpdate qf = Queue.firstUpdate qr /\
    match lc, l with
    | [], _ =>
        Queue.lastUpdate qf = Queue.lastUpdate qr /\
        Queue.firstCapturedUpdate qf = Queue.firstCapturedUpdate qr /\
        Queue.lastCapturedUpdate qf = Queue.lastCapturedUpdate qr /\
        chain (updates h') (Queue.firstUpdate qf) l
    | _ :: _, _ :: _ =>
        Queue.lastUpdate qf = Queue.lastCapturedUpdate qr /\
        Queue.firstCapturedUpdate qf = None /\
        Queue.lastCapturedUpdate qf = None /\
        chain (updates h') (Queue.firstUpdate qf) (l ++ lc)
    | _ :: _, [] =>
        Queue.lastUpdate qf = None /\
        Queue.firstCapturedUpdate qf = None /\
        Queue.lastCapturedUpdate qf = None /\
        chain (updates h') (Queue.firstUpdate qf) []
    end.

(** What a store offers a call [commitUpdateQueue(_, q, ...)]: the queue
    exists, its two update lists and its two effect lists are linked lists
    ending in [null], the update lists apart from each other and the effect
    lists likewise, the tail pointer of the normal list is its last record,
    and the effect lists are no longer than the fuel. *)
Definition committable (fuel : nat) (h : Heap) (q : addr) (qr : Queue.t)
    (l lc le lce : list addr) : Prop :=
  queues h !! q = Some qr /\
  chain (updates h) (Queue.firstUpdate qr) l /\
  Queue.lastUpdate qr = last l /\
  chain (updates h) (Queue.firstCapturedUpdate qr) lc /\
  (forall x, x ∈ l -> x ∉ lc) /\
  effectChain (updates h) (Queue.firstEffect qr) le /\
  effectChain (updates h) (Queue.firstCapturedEffect qr) lce /\
  (forall x, x ∈ le -> x ∉ lce) /\
  (length le <= fuel)%nat /\ (length lce <= fuel)%nat.


(** A pass on the queue of a fiber followed by the commit of that queue, as
    the commit phase does for a finished work-in-progress fiber. *)
Definition renderAndCommit (NoWork Callback ShouldCapture DidCapture : Z)
    (fuel : nat) (wip : addr) (props instance : value) (D : Z) : M unit :=
  let* _ :=
    renderAt NoWork Callback ShouldCapture DidCapture fuel wip props
      instance D in
  let* fb := readFiber wip in
  match Fiber.updateQueue fb with
  | Some q => commitUpdateQueue fuel wip q instance D
  | None => ret tt
  end.

(** The records that a pass at [D] applies and that hold a callback, the
    normal list first, each list in its order. *)
Definition appliedWithCallback (D : Z) (es cs : list (addr * Update.t))
  : list (addr * Update.t) :=
  filter (fun e => hasCallback e = true) (appliedBy D es ++ appliedBy D cs).


(** ** More example stores *)

(** A work-in-progress fiber (0) and its current fiber (1) with queues of
    their own, 0 and 1: the current queue has resolved A and B already, and
    both lists end in the record D1. The record 16 is a new update G1. *)
Definition twoQueuesHeap : Heap :=
  mkHeap (<[16%nat := letter 1 "G" CNull None]> exampleUpdates)
    {[ 0%nat := sharedQueue;
       1%nat := Queue.mk (VString "AB") (Some 12%nat) (Some 13%nat) None None
                  None None None None ]}
    {[ 0%nat := Fiber.mk (Some 1%nat) (Some 0%nat) (VString "") 0 0;
       1%nat := Fiber.mk (Some 0%nat) (Some 1%nat) (VString "AB") 0 0 ]}
    false [].

(** A store with a MERGE record whose payload is an object, one whose
    payload is [null], and a REPLACE record. *)
Definition mergeHeap : Heap :=
  mkHeap
    {[ 20%nat := Update.mk 1 UpdateState
                   (PValue (VObject {[ "b" := VNumber 2 ]})) CNull None None;
       21%nat := Update.mk 1 UpdateState (PValue VNull) CNull None None;
       22%nat := Update.mk 1 ReplaceState (PValue (VString "R")) CNull None
                   None ]}
    {[ 0%nat := Queue.mk VNull (Some 20%nat) (Some 20%nat) None None
                  None None None None ]}
    {[ 0%nat := exampleFiber ]} false [].

Definition previousState : value :=
  VObject {[ "a" := VNumber 1; "b" := VNumber 1 ]}.

(** A store whose queue is fully resolved, with base state ABCD. *)
Definition resolvedHeap : Heap :=
  mkHeap ∅
    {[ 0%nat := Queue.mk (VString "ABCD") None None None None
                  None None None None ]}
    {[ 0%nat := exampleFiber ]} false [].

(** The store [exampleHeap] with a callback on D1 that is not callable. *)
Definition invalidCallbackHeap : Heap :=
  with_updates
    (<[13%nat := letter 2 "D" (CNotCallable "42") None]> exampleUpdates)
    exampleHeap.


(** A store whose queue holds the normal record A1 and the captured record
    E2, the captured record being the more urgent one. *)
Definition capturedAheadHeap : Heap :=
  mkHeap {[ 10%nat := letter 1 "A" CNull None;
            14%nat := letter 2 "E" CNull None ]}
    {[ 0%nat := Queue.mk (VString "") (Some 10%nat) (Some 10%nat)
                  (Some 14%nat) (Some 14%nat) None None None None ]}
    {[ 0%nat := exampleFiber ]} false [].


(** ** The pending updates of a fiber *)

(** The queue [q] holds the normal list [l]: the records [l] are linked from
    its [firstUpdate], and its [lastUpdate] is the last of them. *)
Definition listOf (h : Heap) (q : addr) (l : list addr) : Prop :=
  exists qr,
    queues h !! q = Some qr /\
    chain (updates h) (Queue.firstUpdate qr) l /\
    Queue.lastUpdate qr = last l.

(** The updates that wait on a fiber: the normal list of its queue, none
    when it has no queue. *)
Definition pending (h : Heap) (fb : Fiber.t) (l : list addr) : Prop :=
  match Fiber.updateQueue fb with
  | Some q => listOf h q l
  | None => l = []
  end.

(** The records after [u] is linked behind the tail [t] of a list: the one
    assignment [t.next = u], and none for an empty list. *)
Definition linkAfter (t : option addr) (u : addr) (us : gmap addr Update.t)
  : gmap addr Update.t :=
  match t with
  | Some t => alter (Update.set_next (Some u)) t us
  | None => us
  end.

(** A queue record without the two pointers of its normal list. *)
Definition unlisted (q : Queue.t) : Queue.t :=
  Queue.set_firstUpdate None (Queue.set_lastUpdate None q).

(** What an append of [u] to the queue [q] with list [l] writes: the link
    of the tail, and the two list pointers of [q]. *)
Definition appended (q u : addr) (l : list addr) (h h' : Heap) : Prop :=
  updates h' = linkAfter (last l) u (updates h) /\
  listOf h' q (l ++ [u]) /\
  unlisted <$> queues h' !! q = unlisted <$> queues h !! q /\
  (forall x, x <> q -> queues h' !! x = queues h !! x) /\
  fibers h' = fibers h /\ calls h' = calls h /\
  hasForceUpdate h' = hasForceUpdate h.


(** The tail that [enqueueUpdate] links the new record behind, for a pair
    of lists that end in the same record when both are non-empty. *)
Definition sharedTail (l1 l2 : list addr) : option addr :=
  match last l1 with
  | Some t => Some t
  | None => last l2
  end.

(** The queue record that [enqueueUpdate] finds or makes for a fiber before
    it appends: the fiber's own queue; else a clone of the queue of the
    other fiber of the pair; else a fresh queue on the fiber's
    [memoizedState]. *)
Definition seedQueue (h : Heap) (fb other : Fiber.t) : option Queue.t :=
  match Fiber.updateQueue fb with
  | Some q => queues h !! q
  | None =>
      match Fiber.updateQueue other with
      | Some q2 =>
          (fun c => Queue.mk (Queue.baseState c) (Queue.firstUpdate c)
                      (Queue.lastUpdate c) None None None None None None)
            <$> queues h !! q2
      | None =>
          Some (Queue.mk (Fiber.memoizedState fb) None None None None None
                  None None None)
      end
  end.

(** What the appends of [enqueueUpdate] to the queues [q1] and [q2], with
    lists [l1] and [l2], write. *)
Definition pairAppended (q1 q2 u : addr) (l1 l2 : list addr) (h h' : Heap)
  : Prop :=
  updates h' = linkAfter (sharedTail l1 l2) u (updates h) /\
  listOf h' q1 (l1 ++ [u]) /\ listOf h' q2 (l2 ++ [u]) /\
  unlisted <$> queues h' !! q1 = unlisted <$> queues h !! q1 /\
  unlisted <$> queues h' !! q2 = unlisted <$> queues h !! q2 /\
  (forall x, x <> q1 -> x <> q2 -> queues h' !! x = queues h !! x) /\
  fibers h' = fibers h /\ calls h' = calls h.


(** The queue [q] holds the captured list [lc]. *)
Definition capturedListOf (h : Heap) (q : addr) (lc : list addr) : Prop :=
  exists qr,
    queues h !! q = Some qr /\
    chain (updates h) (Queue.firstCapturedUpdate qr) lc /\
    Queue.lastCapturedUpdate qr = last lc.

(** The captured updates that wait on a work-in-progress fiber. *)
Definition capturedPending (h : Heap) (fb : Fiber.t) (lc : list addr)
  : Prop :=
  match Fiber.updateQueue fb with
  | Some q => capturedListOf h q lc
  | None => lc = []
  end.

(** A queue record without the two pointers of its captured list. *)
Definition uncaptured (q : Queue.t) : Queue.t :=
  Queue.set_firstCapturedUpdate None (Queue.set_lastCapturedUpdate None q).


(** ** What a pass leaves in the flags *)

(** [wlp m h R]: if [m] returns from the store [h], its result and store
    satisfy [R]. Used beside [wp], which gives the return itself. *)
Definition wlp {A} (m : M A) (h : Heap) (R : A -> Heap -> Prop) : Prop :=
  forall a h', m h = Done a h' -> R a h'.

(** The record asks for a forced re-render. *)
Definition forces (e : addr * Update.t) : bool :=
  match Update.tag e.2 with ForceUpdate => true | _ => false end.

Definition captures (e : addr * Update.t) : bool :=
  match Update.tag e.2 with CaptureUpdate => true | _ => false end.

(** The effect tag of the work-in-progress fiber after a pass applies the
    record [e]: [getStateFromUpdate] turns [ShouldCapture] into
    [DidCapture] for a [CaptureUpdate], then the loop sets [Callback] for a
    record that holds a callback. *)
Definition tagAfter (Callback ShouldCapture DidCapture : Z) (tag : Z)
    (e : addr * Update.t) : Z :=
  let tag :=
    if captures e
    then Z.lor (Z.land tag (Z.lnot ShouldCapture)) DidCapture
    else tag in
  if hasCallback e then Z.lor tag Callback else tag.

(** The two flags that a pass leaves for its caller, as the loops find
    them and as they leave them after the record [e]. *)
Definition flagsOf (wip : addr) (h : Heap) : bool * option Z :=
  (hasForceUpdate h, Fiber.effectTag <$> fibers h !! wip).

Definition flagsAfter (Callback ShouldCapture DidCapture D : Z)
    (o : bool * option Z) (e : addr * Update.t) : bool * option Z :=
  if insufficient D e then o
  else (o.1 || forces e,
        (fun t => tagAfter Callback ShouldCapture DidCapture t e) <$> o.2).


(** ** [ReactTypeOfMode.js] *)

(** [export const NoContext = 0b000; ConcurrentMode = 0b001;
    StrictMode = 0b010; ProfileMode = 0b100], of type [TypeOfMode =
    number]; a mode is mixed with [|] and tested with [&]. *)
Definition TypeOfMode := Z.
Definition NoContext : TypeOfMode := 0.
Definition ConcurrentMode : TypeOfMode := 1.
Definition StrictMode : TypeOfMode := 2.
Definition ProfileMode : TypeOfMode := 4.

(** ** Further example stores *)

(** A fiber without alternate whose queue holds the record A2 and nothing
    else; the record 16 is a new update G1. *)
Definition enqueueHeap : Heap :=
  mkHeap {[ 10%nat := letter 2 "A" CNull None;
            16%nat := letter 1 "G" CNull None ]}
    {[ 0%nat := Queue.mk (VString "") (Some 10%nat) (Some 10%nat) None None
                  None None None None ]}
    {[ 0%nat := exampleFiber ]} false [].

(** A store with a [CaptureUpdate] record and a [ForceUpdate] record, and
    a fiber whose effect tag is [ShouldCapture] (1024 in the examples). *)
Definition captureHeap : Heap :=
  mkHeap
    {[ 30%nat := Update.mk 2 CaptureUpdate
                   (PValue (VObject {[ "error" := VBool true ]})) CNull
                   (Some 31%nat) None;
       31%nat := Update.mk 2 ForceUpdate (PValue VNull) CNull (Some 32%nat)
                   None;
       32%nat := Update.mk 1 ForceUpdate (PValue VNull) CNull None None ]}
    {[ 0%nat := Queue.mk (VObject ∅) (Some 30%nat) (Some 32%nat) None None
                  None None None None ]}
    {[ 0%nat := Fiber.mk None (Some 0%nat) (VObject ∅) 0 1024 ]} false [].

(** Two MERGE records whose payloads share no key. *)
Definition disjointMergeHeap : Heap :=
  mkHeap
    {[ 20%nat := Update.mk 1 UpdateState
                   (PValue (VObject {[ "b" := VNumber 2 ]})) CNull None None;
       23%nat := Update.mk 1 UpdateState
                   (PValue (VObject {[ "c" := VNumber 3 ]})) CNull None None ]}
    ∅ ∅ false [].

(** A queue whose list is resolved and whose effect list holds the records
    10, 11 and 12, the callback of 11 being [middle]. *)
Definition effectsHeap (middle : JsCallback) : Heap :=
  mkHeap
    {[ 10%nat := Update.mk 2 ReplaceState (appendLetter "A") (CFunction 1)
                   None (Some 11%nat);
       11%nat := Update.mk 2 ReplaceState (appendLetter "B") middle
                   None (Some 12%nat);
       12%nat := Update.mk 2 ReplaceState (appendLetter "C") (CFunction 3)
                   None None ]}
    {[ 0%nat := Queue.mk (VString "ABC") None None None None
                  (Some 10%nat) (Some 12%nat) None None ]}
    {[ 0%nat := exampleFiber ]} false [].


(** A pair of fibers (0 and 1) whose queues, 0 and 1, hold lists with no
    record in common, A1 and E1; the record 16 is a new update G1. *)
Definition apartQueuesHeap : Heap :=
  mkHeap {[ 10%nat := letter 1 "A" CNull None;
            14%nat := letter 1 "E" CNull None;
            16%nat := letter 1 "G" CNull None ]}
    {[ 0%nat := Queue.mk (VString "") (Some 10%nat) (Some 10%nat) None None
                  None None None None;
       1%nat := Queue.mk (VString "") (Some 14%nat) (Some 14%nat) None None
                  None None None None ]}
    {[ 0%nat := Fiber.mk (Some 1%nat) (Some 0%nat) (VString "") 0 0;
       1%nat := Fiber.mk (Some 0%nat) (Some 1%nat) (VString "") 0 0 ]}
    false [].

(** A fiber without alternate whose queue holds the list B1 - C2, the
    record C2 with a callback. *)
Definition callbackBehindHeap : Heap :=
  mkHeap {[ 11%nat := letter 1 "B" CNull (Some 12%nat);
            12%nat := letter 2 "C" (CFunction 3) None ]}
    {[ 0%nat := Queue.mk (VString "") (Some 11%nat) (Some 12%nat) None None
                  None None None None ]}
    {[ 0%nat := exampleFiber ]} false [].

(** ** Lists that do not end *)

(** The records [l] lead around in a circle: each of them holds a record
    whose [next] is again one of [l], so that none leads to [null]. *)
Definition circular (us : gmap addr Update.t) (l : list addr) : Prop :=
  forall a, a ∈ l ->
    exists r b, us !! a = Some r /\ Update.next r = Some b /\ b ∈ l.


(** ** What no operation writes *)

(** What a record says: its deadline, its kind and its payload. The other
    fields, [callback], [next] and [nextEffect], are the bookkeeping of the
    queue. *)
Definition content (u : Update.t) : Z * UpdateTag * Payload :=
  (Update.expirationTime u, Update.tag u, Update.payload u).

(** The records of the store [h] are those of [c], each saying what it
    says there. *)
Definition contentIs (c : gmap addr (Z * UpdateTag * Payload)) (h : Heap)
  : Prop :=
  content <$> updates h = c.

(** The store that a call leaves, whether it returns or throws, satisfies
    [R]. *)
Definition leaves {A} (r : Res A) (R : Heap -> Prop) : Prop :=
  match r with
  | Done _ h' | Throw _ h' => R h'
  | Stuck | OutOfFuel => True
  end.

(** [m] keeps [J]: from a store that satisfies [J] it leaves one that
    does. *)
Definition keeps {A} (J : Heap -> Prop) (m : M A) : Prop :=
  forall h, J h -> leaves (m h) J.


(** ** The writes of a pass to the effect list *)

(** What one turn of the first loop writes to the records and to the
    queues, on the record [a] of the queue [q]: nothing when the record is
    skipped or holds no callback; else the statements that put the record
    at the end of the effect list. *)
Definition effectStep (D : Z) (q : addr)
    (st : gmap addr Update.t * gmap addr Queue.t) (a : addr)
  : gmap addr Update.t * gmap addr Queue.t :=
  match st.1 !! a, st.2 !! q with
  | Some r, Some qr =>
      if insufficient D (a, r) || negb (hasCallback (a, r)) then st
      else
        let us := <[a := Update.set_nextEffect None r]> st.1 in
        match Queue.lastEffect qr with
        | None =>
            (us,
             <[q := Queue.set_firstEffect (Some a)
                      (Queue.set_lastEffect (Some a) qr)]> st.2)
        | Some le =>
            (alter (Update.set_nextEffect (Some a)) le us,
             <[q := Queue.set_lastEffect (Some a) qr]> st.2)
        end
  | _, _ => st
  end.


(** * Proofs *)

(** ** The rules of [wp] *)

Lemma wp_elim {A} (m : M A) h Q :
  wp m h Q -> exists a h', m h = Done a h' /\ Q a h'.
Proof. unfold wp. destruct (m h); try tauto. eauto. Qed.

Lemma wp_intro {A} (m : M A) h Q a h' :
  m h = Done a h' -> Q a h' -> wp m h Q.
Proof. unfold wp. intros ->. auto. Qed.

Lemma wp_mono {A} (m : M A) h (Q Q' : A -> Heap -> Prop) :
  wp m h Q -> (forall a h', Q a h' -> Q' a h') -> wp m h Q'.
Proof. unfold wp. destruct (m h); auto. Qed.

Lemma wp_ret {A} (a : A) h (Q : A -> Heap -> Prop) : Q a h -> wp (ret a) h Q.
Proof. auto. Qed.

Lemma wp_bind {A B} (m : M A) (k : A -> M B) h Q :
  wp m h (fun a h' => wp (k a) h' Q) -> wp (bind m k) h Q.
Proof. unfold wp, bind. destruct (m h); auto. Qed.

Lemma wp_readUpdate a u h Q :
  updates h !! a = Some u -> Q u h -> wp (readUpdate a) h Q.
Proof. unfold wp, readUpdate. intros ->. auto. Qed.

Lemma wp_readQueue a q h Q :
  queues h !! a = Some q -> Q q h -> wp (readQueue a) h Q.
Proof. unfold wp, readQueue. intros ->. auto. Qed.

Lemma wp_readFiber a f h Q :
  fibers h !! a = Some f -> Q f h -> wp (readFiber a) h Q.
Proof. unfold wp, readFiber. intros ->. auto. Qed.

Lemma wp_modifyUpdate a f u h (Q : unit -> Heap -> Prop) :
  updates h !! a = Some u ->
  Q tt (with_updates (<[a := f u]> (updates h)) h) ->
  wp (modifyUpdate a f) h Q.
Proof. unfold wp, modifyUpdate. intros ->. auto. Qed.

Lemma wp_modifyQueue a f q h (Q : unit -> Heap -> Prop) :
  queues h !! a = Some q ->
  Q tt (with_queues (<[a := f q]> (queues h)) h) ->
  wp (modifyQueue a f) h Q.
Proof. unfold wp, modifyQueue. intros ->. auto. Qed.

Lemma wp_modifyFiber a f fb h (Q : unit -> Heap -> Prop) :
  fibers h !! a = Some fb ->
  Q tt (with_fibers (<[a := f fb]> (fibers h)) h) ->
  wp (modifyFiber a f) h Q.
Proof. unfold wp, modifyFiber. intros ->. auto. Qed.

Lemma wp_setHasForceUpdate b h (Q : unit -> Heap -> Prop) :
  Q tt (with_hasForceUpdate b h) -> wp (setHasForceUpdate b) h Q.
Proof. auto. Qed.

Lemma wp_allocQueue q h (Q : addr -> Heap -> Prop) :
  (forall a, queues h !! a = None ->
             Q a (with_queues (<[a := q]> (queues h)) h)) ->
  wp (allocQueue q) h Q.
Proof.
  intros HQ. unfold wp, allocQueue. apply HQ.
  apply not_elem_of_dom, is_fresh.
Qed.

(** ** The frame of the loops *)

Lemma loopFrame_refl wip q h : loopFrame wip q h h.
Proof. repeat split. Qed.

Lemma loopFrame_trans wip q h1 h2 h3 :
  loopFrame wip q h1 h2 -> loopFrame wip q h2 h3 -> loopFrame wip q h1 h3.
Proof.
  intros (U1 & Q1 & Q1' & F1 & F1' & C1) (U2 & Q2 & Q2' & F2 & F2' & C2).
  repeat split; try congruence.
  - intros x Hx. rewrite Q2, Q1; auto.
  - intros x Hx. rewrite F2, F1; auto.
Qed.

(** ** Linked lists in the store *)

Section Linked.
Variable sel : Update.t -> option addr.
Implicit Types (us : gmap addr Update.t) (l : list addr) (p : option addr).

Lemma linked_cons us p a l :
  linked sel us p (a :: l) <->
  p = Some a /\ exists u, us !! a = Some u /\ linked sel us (sel u) l.
Proof.
  simpl. split.
  - intros [-> H]. split; [done|]. destruct (us !! a); [eauto|done].
  - intros [-> (u & -> & H)]. auto.
Qed.

Lemma linked_ext us us' p l :
  (forall x, x ∈ l -> sel <$> us' !! x = sel <$> us !! x) ->
  linked sel us p l -> linked sel us' p l.
Proof.
  revert p. induction l as [|a l IH]; intros p Hag; [done|].
  rewrite !linked_cons. intros [-> (u & Hu & Hl)]. split; [done|].
  pose proof (Hag a (list_elem_of_here _ _)) as Ha. rewrite Hu in Ha.
  destruct (us' !! a) as [u'|] eqn:Hu'; [|done]. simpl in Ha.
  exists u'. split; [done|]. injection Ha as ->.
  apply IH; [|done]. intros x Hx. apply Hag. by right.
Qed.

Lemma linked_fun us p l1 l2 :
  linked sel us p l1 -> linked sel us p l2 -> l1 = l2.
Proof.
  revert p l2. induction l1 as [|a l1 IH]; intros p [|b l2].
  - done.
  - simpl. intros -> [? _]. done.
  - simpl. intros [-> _] ?. done.
  - rewrite !linked_cons. intros [-> (u & Hu & H1)] [[= <-] (u' & Hu' & H2)].
    rewrite Hu in Hu'. injection Hu' as <-. f_equal. eauto.
Qed.

Lemma linked_app_inv us p l1 l2 :
  linked sel us p (l1 ++ l2) ->
  exists p', linked sel us p' l2 /\ (l1 = [] -> p' = p).
Proof.
  revert p. induction l1 as [|a l1 IH]; intros p; simpl.
  - eauto.
  - intros [-> H]. destruct (us !! a) as [u|]; [|done].
    destruct (IH _ H) as (p' & Hp' & _). by exists p'.
Qed.

Lemma linked_head us p l : linked sel us p l -> p = head l.
Proof. destruct l; simpl; [done|]. by intros [-> _]. Qed.

Lemma linked_drop us p l i :
  linked sel us p l -> linked sel us (head (drop i l)) (drop i l).
Proof.
  intros H. rewrite <- (take_drop i l) in H.
  apply linked_app_inv in H as (p' & H & _).
  by rewrite <- (linked_head _ _ _ H).
Qed.

Lemma linked_NoDup us p l : linked sel us p l -> NoDup l.
Proof.
  revert p. induction l as [|a l IH]; intros p H; [constructor|].
  pose proof H as H'. rewrite linked_cons in H'. destruct H' as [-> (u & Hu & Hl)].
  constructor; [|eauto].
  intros Hin. apply list_elem_of_split in Hin as (l1 & l2 & ->).
  apply linked_app_inv in Hl as (p' & Hl & _).
  pose proof (linked_head _ _ _ Hl) as Hp. simpl in Hp. subst p'.
  pose proof (linked_fun _ _ _ _ H Hl) as Heq.
  apply (f_equal length) in Heq. simpl in Heq. rewrite length_app in Heq.
  simpl in Heq. lia.
Qed.

Lemma linked_lookup us p l a :
  linked sel us p l -> a ∈ l -> is_Some (us !! a).
Proof.
  revert p. induction l as [|b l IH]; intros p H Hin.
  - by apply elem_of_nil in Hin.
  - rewrite linked_cons in H. destruct H as [-> (u & Hu & Hl)].
    apply elem_of_cons in Hin as [->|Hin]; eauto.
Qed.

(** Redirecting the link of the last record of a list appends another
    list. *)
Lemma linked_app us us' p l t p2 l2 :
  linked sel us p l -> last l = Some t ->
  (forall x, x ∈ l -> x <> t -> sel <$> us' !! x = sel <$> us !! x) ->
  sel <$> us' !! t = Some p2 ->
  linked sel us' p2 l2 ->
  linked sel us' p (l ++ l2).
Proof.
  intros Hl. pose proof (linked_NoDup _ _ _ Hl) as Hnd.
  revert p Hl Hnd. induction l as [|a l IH]; intros p Hl Hnd Hlast Hag Ht H2.
  - done.
  - rewrite linked_cons in Hl. destruct Hl as [-> (u & Hu & Hl)].
    apply NoDup_cons in Hnd as [Hna Hnd]. simpl. split; [done|].
    destruct l as [|b l].
    + simpl in Hlast. injection Hlast as ->. simpl in Hl.
      destruct (us' !! t) as [ut|]; [|done]. simpl in Ht. injection Ht as ->.
      done.
    + assert (a <> t) as Hat.
      { intros ->. apply Hna. rewrite last_cons_cons in Hlast.
        by apply last_Some_elem_of. }
      pose proof (Hag a (list_elem_of_here _ _) Hat) as Ha. rewrite Hu in Ha.
      destruct (us' !! a) as [u'|]; [|done]. simpl in Ha. injection Ha as ->.
      apply IH; auto.
      intros x Hx Hxt. apply Hag; [by right|done].
Qed.

Lemma linked_last_None us p l t u :
  linked sel us p l -> last l = Some t -> us !! t = Some u -> sel u = None.
Proof.
  revert p. induction l as [|a l IH]; intros p Hl Hlast Hu; [done|].
  rewrite linked_cons in Hl. destruct Hl as [-> (u' & Hu' & Hl)].
  destruct l as [|b l].
  - simpl in *. injection Hlast as ->. congruence.
  - rewrite last_cons_cons in Hlast. eauto.
Qed.
End Linked.

Ltac heap_simpl :=
  cbn [updates queues fibers calls hasForceUpdate with_updates with_queues
       with_fibers with_calls with_hasForceUpdate] in *.

Ltac wp_go :=
  lazymatch goal with
  | |- wp (bind _ _) _ _ => apply wp_bind; wp_go
  | _ => idtac
  end.

Lemma strip_insert (us : gmap addr Update.t) a u u' :
  us !! a = Some u -> stripEffect u' = stripEffect u ->
  stripEffect <$> <[a := u']> us = stripEffect <$> us.
Proof.
  intros Ha Hs. rewrite fmap_insert, Hs. apply insert_id.
  by rewrite lookup_fmap, Ha.
Qed.

Lemma strip_lookup (us us' : gmap addr Update.t) a :
  stripEffect <$> us' = stripEffect <$> us ->
  stripEffect <$> us' !! a = stripEffect <$> us !! a.
Proof. intros H. by rewrite <- !lookup_fmap, H. Qed.

(** ** One replay pass *)

Section Pass.
Variables (NoWork Callback ShouldCapture DidCapture : Z).

Lemma getStateFromUpdate_wp wip q a u fb prev props inst h (Q : value -> Heap -> Prop) :
  updates h !! a = Some u -> fibers h !! wip = Some fb ->
  (forall h', updates h' = updates h -> queues h' = queues h -> calls h' = calls h ->
      (forall x, x <> wip -> fibers h' !! x = fibers h !! x) ->
      (exists fb', fibers h' !! wip = Some fb' /\ stripFiber fb' = stripFiber fb) ->
      Q (nextState u prev props inst) h') ->
  wp (getStateFromUpdate ShouldCapture DidCapture wip q a prev props inst) h Q.
Proof.
  intros Ha Hf HQ. unfold getStateFromUpdate.
  apply wp_bind, (wp_readUpdate _ _ _ _ Ha).
  unfold nextState in HQ. destruct (Update.tag u).
  - apply wp_ret, HQ; eauto.
  - destruct (Update.payload u); apply wp_ret, HQ; eauto.
  - apply wp_bind, wp_setHasForceUpdate, wp_ret, HQ; eauto.
  - apply wp_bind. eapply wp_modifyFiber; [done|].
    apply wp_ret, HQ; heap_simpl; auto.
    + intros x Hx. by rewrite lookup_insert_ne.
    + rewrite lookup_insert_eq. eauto.
Qed.
Lemma strip_is_Some (us us' : gmap addr Update.t) a :
  stripEffect <$> us' = stripEffect <$> us ->
  is_Some (us !! a) -> is_Some (us' !! a).
Proof.
  intros H [u Hu]. apply (strip_lookup _ _ a) in H. rewrite Hu in H.
  destruct (us' !! a); [eauto|done].
Qed.

Lemma effectsOf_one D a u :
  effectsOf D [(a, u)] =
  if insufficient D (a, u) then []
  else if hasCallback (a, u) then [a] else [].
Proof.
  unfold effectsOf. rewrite filter_cons, filter_nil.
  destruct (insufficient D (a, u)), (hasCallback (a, u));
    destruct (decide _) as [[? ?]|Hn]; try done; destruct Hn; done.
Qed.

Lemma loopFrame_getState wip q h h1 fb fb1 :
  fibers h !! wip = Some fb ->
  updates h1 = updates h -> queues h1 = queues h -> calls h1 = calls h ->
  (forall x, x <> wip -> fibers h1 !! x = fibers h !! x) ->
  fibers h1 !! wip = Some fb1 -> stripFiber fb1 = stripFiber fb ->
  loopFrame wip q h h1.
Proof.
  intros Hf HU HQ HC HF Hf1 Hfb1. unfold loopFrame.
  rewrite HU, HQ, HC, Hf, Hf1. simpl. rewrite Hfb1. repeat split; auto.
Qed.

Lemma appendEffect_wp c wip q a h u fb qr (Q : unit -> Heap -> Prop) :
  updates h !! a = Some u -> fibers h !! wip = Some fb ->
  queues h !! q = Some qr -> effectTailsAllocated (updates h) qr ->
  (forall h', loopFrame wip q h h' -> tailsAllocated q h' ->
              effectsLinked c q [a] [a] h h' -> Q tt h') ->
  wp (appendEffect c Callback wip q a) h Q.
Proof.
  intros Ha Hf Hq Htl HQ. unfold appendEffect.
  wp_go. eapply wp_modifyFiber; [exact Hf|].
  wp_go. eapply wp_modifyUpdate; [exact Ha|].
  wp_go. eapply wp_readQueue; [exact Hq|]. heap_simpl.
  set (us1 := <[a:=Update.set_nextEffect None u]> (updates h)).
  set (fs1 := <[wip:=Fiber.set_effectTag
                     (Z.lor (Fiber.effectTag fb) Callback) fb]> (fibers h)).
  assert (stripEffect <$> us1 = stripEffect <$> updates h) as Hus1
    by (by apply (strip_insert _ _ u)).
  assert (forall x, x <> wip -> fs1 !! x = fibers h !! x) as Hfs1
    by (intros x Hx; unfold fs1; by rewrite lookup_insert_ne).
  assert (stripFiber <$> fs1 !! wip = stripFiber <$> fibers h !! wip) as Hfs1'
    by (unfold fs1; by rewrite lookup_insert_eq, Hf).
  destruct ((effectPointers c qr).2) as [le|] eqn:Hle.
  - assert (is_Some (updates h !! le)) as [ule Hule].
    { destruct Htl as [T1 T2]. destruct c; [apply T2|apply T1]; exact Hle. }
    assert (exists ule1, us1 !! le = Some ule1) as (ule1 & Hule1).
    { apply (strip_is_Some (updates h)); eauto. }
    wp_go. eapply wp_modifyUpdate; [exact Hule1|].
    eapply wp_modifyQueue; [exact Hq|]. heap_simpl.
    set (us2 := <[le:=Update.set_nextEffect (Some a) ule1]> us1).
    assert (stripEffect <$> us2 = stripEffect <$> updates h) as Hus2.
    { rewrite <- Hus1. by apply (strip_insert _ _ ule1). }
    apply HQ.
    + unfold loopFrame. heap_simpl. split; [done|].
      split; [intros x Hx; by rewrite lookup_insert_ne|].
      split; [rewrite lookup_insert_eq, Hq; by destruct c|]. done.
    + intros qr'. heap_simpl. rewrite lookup_insert_eq. intros [= <-].
      destruct Htl as [T1 T2].
      split; intros e He; apply (strip_is_Some (updates h)); try done;
        destruct c; simpl in He;
        first [injection He as <-; eauto | by apply T1 | by apply T2].
    + intros qr0 eff Hq0 Hch Hlast Hnin. heap_simpl.
      assert (qr0 = qr) as -> by congruence. rewrite Hle in Hlast.
      assert (a ∉ eff) as Ha_eff by (apply Hnin; left).
      assert (le ∈ eff) as Hle_eff by (by apply last_Some_elem_of).
      assert (le <> a) as Hlea by congruence.
      exists (setLastEffectPointer c (Some a) qr).
      split; [by rewrite lookup_insert_eq|].
      split.
      { replace (effectPointers c (setLastEffectPointer c (Some a) qr)).1
          with (effectPointers c qr).1 by (by destruct c).
        eapply (linked_app _ (updates h) us2 _ eff le (Some a) [a]);
          [done|done| | |].
        - intros x Hx Hxle. unfold us2, us1.
          rewrite !lookup_insert_ne; [done|congruence|congruence].
        - unfold us2. by rewrite lookup_insert_eq.
        - simpl. split; [done|]. unfold us2, us1.
          rewrite lookup_insert_ne, lookup_insert_eq by done. done. }
      split; [rewrite last_snoc; by destruct c|].
      split; [by destruct c|].
      intros x Hx. unfold us2, us1.
      rewrite !lookup_insert_ne; [done|..]; intros ->; apply Hx; set_solver.
  - eapply wp_modifyQueue; [exact Hq|]. heap_simpl.
    apply HQ.
    + unfold loopFrame. heap_simpl. split; [done|].
      split; [intros x Hx; by rewrite lookup_insert_ne|].
      split; [rewrite lookup_insert_eq, Hq; by destruct c|]. done.
    + intros qr'. heap_simpl. rewrite lookup_insert_eq. intros [= <-].
      destruct Htl as [T1 T2].
      split; intros e He; apply (strip_is_Some (updates h)); try done;
        destruct c; simpl in He;
        first [injection He as <-; eauto | by apply T1 | by apply T2].
    + intros qr0 eff Hq0 Hch Hlast Hnin. heap_simpl.
      assert (qr0 = qr) as -> by congruence. rewrite Hle in Hlast.
      symmetry in Hlast. apply last_None in Hlast as ->.
      exists (setEffectPointers c (Some a) (Some a) qr).
      split; [by rewrite lookup_insert_eq|].
      split.
      { replace (effectPointers c (setEffectPointers c (Some a) (Some a) qr)).1
          with (Some a) by (by destruct c).
        simpl. split; [done|]. unfold us1. by rewrite lookup_insert_eq. }
      split; [by destruct c|].
      split; [by destruct c|].
      intros x Hx. unfold us1.
      rewrite lookup_insert_ne; [done|]; intros ->; apply Hx; set_solver.
Qed.

Lemma effectsLinked_nil c q l h : effectsLinked c q l [] h h.
Proof.
  intros qr eff Hq Hch Hlast Hnin. exists qr. rewrite app_nil_r. auto.
Qed.

Lemma effectsLinked_pre c q l new h h1 h' :
  updates h1 = updates h -> queues h1 = queues h ->
  effectsLinked c q l new h1 h' -> effectsLinked c q l new h h'.
Proof. unfold effectsLinked. intros -> ->. auto. Qed.

Lemma tailsAllocated_same q h h1 :
  updates h1 = updates h -> queues h1 = queues h ->
  tailsAllocated q h -> tailsAllocated q h1.
Proof. unfold tailsAllocated. intros -> ->. auto. Qed.

Lemma processNormalUpdate_wp wip q props inst D a s h u fb qr :
  updates h !! a = Some u -> fibers h !! wip = Some fb ->
  queues h !! q = Some qr -> effectTailsAllocated (updates h) qr ->
  wp (processNormalUpdate Callback ShouldCapture DidCapture wip q props inst
        D a s) h
     (fun s' h' =>
        s' = normalStep props inst D s (a, stripEffect u) /\
        loopFrame wip q h h' /\ tailsAllocated q h' /\
        effectsLinked false q [a] (effectsOf D [(a, stripEffect u)]) h h').
Proof.
  intros Ha Hf Hq Htl. unfold processNormalUpdate.
  wp_go. apply (wp_readUpdate _ _ _ _ Ha).
  rewrite effectsOf_one. unfold normalStep, insufficient, hasCallback.
  cbn [fst snd stripEffect Update.set_nextEffect Update.expirationTime
       Update.next Update.callback].
  destruct (Update.expirationTime u <? D) eqn:HD.
  - wp_go. apply (wp_readUpdate _ _ _ _ Ha), wp_ret.
    split; [done|]. split; [apply loopFrame_refl|].
    split; [intros ? ?; congruence|apply effectsLinked_nil].
  - wp_go. eapply getStateFromUpdate_wp; [done..|].
    intros h1 HU HQ HC HF (fb1 & Hf1 & Hfb1).
    pose proof (loopFrame_getState wip q h h1 fb fb1 Hf HU HQ HC HF Hf1 Hfb1)
      as Hbase.
    wp_go. eapply wp_readUpdate; [by rewrite HU|].
    assert (Update.callback u = CNull \/ Update.callback u <> CNull) as [Hcb|Hcb]
      by (destruct (Update.callback u); auto).
    + rewrite Hcb. wp_go. apply wp_ret.
      wp_go. eapply wp_readUpdate; [by rewrite HU|]. apply wp_ret.
      split; [done|]. split; [done|].
      split; [intros ?; rewrite HQ, HU; congruence|].
      eapply effectsLinked_pre; [done..|apply effectsLinked_nil].
    + assert (forall X : M unit,
                match Update.callback u with CNull => ret tt | _ => X end = X)
        as -> by (intros X; destruct (Update.callback u); done).
      assert (match Update.callback u with CNull => false | _ => true end
              = true) as -> by (destruct (Update.callback u); done).
      apply wp_bind.
      eapply (appendEffect_wp false wip q a h1 u fb1 qr);
        [by rewrite HU|done|by rewrite HQ|by rewrite HU|].
      intros h2 Hfr Htl2 Heff.
      destruct (strip_is_Some (updates h) (updates h2) a) as [ua Hua];
        [destruct Hfr as [-> _]; by rewrite HU|eauto|].
      wp_go. eapply wp_readUpdate; [exact Hua|]. apply wp_ret.
      assert (stripEffect ua = stripEffect u) as Hsa.
      { destruct Hfr as [Hfr _]. apply (strip_lookup _ _ a) in Hfr.
        rewrite Hua, HU, Ha in Hfr. simpl in Hfr. congruence. }
      split.
      { apply (f_equal Update.next) in Hsa. simpl in Hsa. by rewrite Hsa. }
      split; [by eapply loopFrame_trans|].
      split; [done|by eapply effectsLinked_pre].
Qed.

Lemma processCapturedUpdate_wp wip q props inst D a s h u fb qr :
  updates h !! a = Some u -> fibers h !! wip = Some fb ->
  queues h !! q = Some qr -> effectTailsAllocated (updates h) qr ->
  wp (processCapturedUpdate Callback ShouldCapture DidCapture wip q props inst
        D a s) h
     (fun s' h' =>
        s' = capturedStep props inst D s (a, stripEffect u) /\
        loopFrame wip q h h' /\ tailsAllocated q h' /\
        effectsLinked true q [a] (effectsOf D [(a, stripEffect u)]) h h').
Proof.
  intros Ha Hf Hq Htl. unfold processCapturedUpdate.
  wp_go. apply (wp_readUpdate _ _ _ _ Ha).
  rewrite effectsOf_one. unfold capturedStep, insufficient, hasCallback.
  cbn [fst snd stripEffect Update.set_nextEffect Update.expirationTime
       Update.next Update.callback].
  destruct (Update.expirationTime u <? D) eqn:HD.
  - wp_go. apply (wp_readUpdate _ _ _ _ Ha), wp_ret.
    split; [done|]. split; [apply loopFrame_refl|].
    split; [intros ? ?; congruence|apply effectsLinked_nil].
  - wp_go. eapply getStateFromUpdate_wp; [done..|].
    intros h1 HU HQ HC HF (fb1 & Hf1 & Hfb1).
    pose proof (loopFrame_getState wip q h h1 fb fb1 Hf HU HQ HC HF Hf1 Hfb1)
      as Hbase.
    wp_go. eapply wp_readUpdate; [by rewrite HU|].
    assert (Update.callback u = CNull \/ Update.callback u <> CNull) as [Hcb|Hcb]
      by (destruct (Update.callback u); auto).
    + rewrite Hcb. wp_go. apply wp_ret.
      wp_go. eapply wp_readUpdate; [by rewrite HU|]. apply wp_ret.
      split; [done|]. split; [done|].
      split; [intros ?; rewrite HQ, HU; congruence|].
      eapply effectsLinked_pre; [done..|apply effectsLinked_nil].
    + assert (forall X : M unit,
                match Update.callback u with CNull => ret tt | _ => X end = X)
        as -> by (intros X; destruct (Update.callback u); done).
      assert (match Update.callback u with CNull => false | _ => true end
              = true) as -> by (destruct (Update.callback u); done).
      apply wp_bind.
      eapply (appendEffect_wp true wip q a h1 u fb1 qr);
        [by rewrite HU|done|by rewrite HQ|by rewrite HU|].
      intros h2 Hfr Htl2 Heff.
      destruct (strip_is_Some (updates h) (updates h2) a) as [ua Hua];
        [destruct Hfr as [-> _]; by rewrite HU|eauto|].
      wp_go. eapply wp_readUpdate; [exact Hua|]. apply wp_ret.
      assert (stripEffect ua = stripEffect u) as Hsa.
      { destruct Hfr as [Hfr _]. apply (strip_lookup _ _ a) in Hfr.
        rewrite Hua, HU, Ha in Hfr. simpl in Hfr. congruence. }
      split.
      { apply (f_equal Update.next) in Hsa. simpl in Hsa. by rewrite Hsa. }
      split; [by eapply loopFrame_trans|].
      split; [done|by eapply effectsLinked_pre].
Qed.

Lemma entries_strip (us us' : gmap addr Update.t) l :
  stripEffect <$> us' = stripEffect <$> us -> entries us' l = entries us l.
Proof.
  intros H. unfold entries. apply list_fmap_ext. intros _ a _. f_equal.
  apply (strip_lookup _ _ a) in H. rewrite !lookup_total_alt.
  destruct (us' !! a), (us !! a); simpl in *; congruence.
Qed.

Lemma entries_cons (us : gmap addr Update.t) a u l :
  us !! a = Some u ->
  entries us (a :: l) = (a, stripEffect u) :: entries us l.
Proof.
  intros Ha. unfold entries. rewrite fmap_cons.
  by rewrite (lookup_total_correct _ _ _ Ha).
Qed.

Lemma chain_strip (us us' : gmap addr Update.t) p l :
  stripEffect <$> us' = stripEffect <$> us ->
  chain us p l -> chain us' p l.
Proof.
  intros H. apply linked_ext. intros x _.
  apply (strip_lookup _ _ x) in H.
  destruct (us' !! x) as [[]|], (us !! x) as [[]|];
    unfold stripEffect, Update.set_nextEffect in *; simpl in *; congruence.
Qed.

Lemma effectsOf_cons D e es :
  effectsOf D (e :: es) = effectsOf D [e] ++ effectsOf D es.
Proof.
  unfold effectsOf. change (e :: es) with ([e] ++ es).
  by rewrite filter_app, fmap_app.
Qed.

Lemma effectsOf_subseteq D es : effectsOf D es ⊆ es.*1.
Proof.
  unfold effectsOf. intros x Hx.
  apply list_elem_of_fmap in Hx as (e & -> & He).
  apply list_elem_of_fmap. exists e. split; [done|].
  by apply list_elem_of_filter in He as [_ He].
Qed.

Lemma entries_fst us l : (entries us l).*1 = l.
Proof.
  unfold entries. induction l as [|a l IH]; [done|].
  rewrite !fmap_cons. simpl. by f_equal.
Qed.

Lemma effectsLinked_trans c q l1 l2 new1 new2 h h1 h2 :
  new1 ⊆ l1 -> (forall x, x ∈ l1 -> x ∉ l2) ->
  effectsLinked c q l1 new1 h h1 -> effectsLinked c q l2 new2 h1 h2 ->
  effectsLinked c q (l1 ++ l2) (new1 ++ new2) h h2.
Proof.
  intros Hsub Hdisj E1 E2 qr eff Hq Hch Hlast Hnin.
  destruct (E1 qr eff Hq Hch Hlast) as (qr1 & Hq1 & Hch1 & Hlast1 & Ho1 & Hu1).
  { intros x Hx. apply Hnin. set_solver. }
  destruct (E2 qr1 (eff ++ new1) Hq1 Hch1 Hlast1)
    as (qr2 & Hq2 & Hch2 & Hlast2 & Ho2 & Hu2).
  { intros x Hx Hin. apply elem_of_app in Hin as [Hin|Hin].
    - apply (Hnin x); [set_solver|done].
    - apply (Hdisj x); [by apply Hsub|done]. }
  exists qr2. rewrite app_assoc. split; [done|]. split; [done|].
  split; [done|]. split; [congruence|].
  intros x Hx. rewrite Hu2, Hu1; [done|set_solver|].
  intros Hin. apply Hx. set_solver.
Qed.

Lemma whileUpdate_wp c body step wip q D :
  (forall a s h u fb qr,
     updates h !! a = Some u -> fibers h !! wip = Some fb ->
     queues h !! q = Some qr -> effectTailsAllocated (updates h) qr ->
     wp (body a s) h
        (fun s' h' =>
           s' = step s (a, stripEffect u) /\
           loopFrame wip q h h' /\ tailsAllocated q h' /\
           effectsLinked c q [a] (effectsOf D [(a, stripEffect u)]) h h')) ->
  (forall s e, update (step s e) = Update.next e.2) ->
  forall l fuel s h,
    chain (updates h) (update s) l -> (length l <= fuel)%nat ->
    is_Some (fibers h !! wip) -> is_Some (queues h !! q) ->
    tailsAllocated q h ->
    wp (whileUpdate fuel body s) h
       (fun s' h' =>
          s' = foldl step s (entries (updates h) l) /\
          loopFrame wip q h h' /\ tailsAllocated q h' /\
          effectsLinked c q l (effectsOf D (entries (updates h) l)) h h').
Proof.
  intros Hbody Hstep. induction l as [|a l IH]; intros fuel s h Hch Hfuel Hf Hq Htl.
  - simpl in Hch. destruct fuel; simpl; rewrite Hch; apply wp_ret;
      (split; [done|]); (split; [apply loopFrame_refl|]);
      (split; [done|apply effectsLinked_nil]).
  - pose proof (linked_NoDup _ _ _ _ Hch) as Hnd.
    apply NoDup_cons in Hnd as [Hnotin _].
    apply linked_cons in Hch as [Hs (u & Hu & Hch)].
    destruct fuel as [|fuel]; [simpl in Hfuel; lia|].
    cbn [whileUpdate]. rewrite Hs.
    destruct Hf as [fb Hf], Hq as [qr Hq].
    apply wp_bind. eapply wp_mono; [eapply Hbody; eauto|].
    intros s1 h1 (-> & Hfr & Htl1 & Heff1). cbv beta.
    pose proof Hfr as (HU & _ & HQ & _ & HF & _).
    eapply wp_mono.
    { apply IH.
      - rewrite Hstep. simpl. by apply (chain_strip (updates h)).
      - simpl in Hfuel. lia.
      - rewrite Hf in HF. destruct (fibers h1 !! wip); [eauto|done].
      - rewrite Hq in HQ. destruct (queues h1 !! q); [eauto|done].
      - done. }
    intros s2 h2 (-> & Hfr2 & Htl2 & Heff2). cbv beta.
    rewrite (entries_strip _ _ _ HU) in Heff2.
    rewrite (entries_cons _ _ _ _ Hu), (entries_strip _ _ _ HU). simpl.
    split; [done|]. split; [by eapply loopFrame_trans|]. split; [done|].
    rewrite effectsOf_cons.
    apply (effectsLinked_trans c q [a] l _ _ h h1 h2); try done.
    + intros x Hx. apply effectsOf_subseteq in Hx. simpl in Hx. done.
    + intros x Hx. apply list_elem_of_singleton in Hx as ->. done.
Qed.

Lemma wp_bind_done {A B} (m : M A) (k : A -> M B) h a h1 Q :
  m h = Done a h1 -> wp (k a) h1 Q -> wp (bind m k) h Q.
Proof. intros Hm Hk. apply wp_bind. by eapply wp_intro. Qed.

Lemma normalStep_update props inst D s e :
  update (normalStep props inst D s e) = Update.next e.2.
Proof. unfold normalStep. by destruct (insufficient D e). Qed.

Lemma capturedStep_update props inst D s e :
  update (capturedStep props inst D s e) = Update.next e.2.
Proof. unfold capturedStep. by destruct (insufficient D e). Qed.

Lemma stripQueue_eq a b :
  stripQueue a = stripQueue b ->
  Queue.baseState a = Queue.baseState b /\
  Queue.firstUpdate a = Queue.firstUpdate b /\
  Queue.lastUpdate a = Queue.lastUpdate b /\
  Queue.firstCapturedUpdate a = Queue.firstCapturedUpdate b /\
  Queue.lastCapturedUpdate a = Queue.lastCapturedUpdate b.
Proof. destruct a, b. unfold stripQueue. simpl. intros [= -> -> -> -> ->]. done. Qed.

Lemma stripFiber_eq a b :
  stripFiber a = stripFiber b ->
  Fiber.alternate a = Fiber.alternate b /\
  Fiber.updateQueue a = Fiber.updateQueue b /\
  Fiber.memoizedState a = Fiber.memoizedState b /\
  Fiber.expirationTime a = Fiber.expirationTime b.
Proof.
  destruct a, b. unfold stripFiber, Fiber.set_effectTag. simpl.
  intros [= -> -> -> ->]. done.
Qed.

Lemma processUpdateQueue_run fuel wip q q' props inst D h h1 qw fbw l lc :
  ensureWorkInProgressQueueIsAClone wip q (with_hasForceUpdate false h)
    = Done q' h1 ->
  queues h1 !! q' = Some qw -> fibers h1 !! wip = Some fbw ->
  chain (updates h1) (Queue.firstUpdate qw) l ->
  chain (updates h1) (Queue.firstCapturedUpdate qw) lc ->
  effectTailsAllocated (updates h1) qw ->
  (length l <= fuel)%nat -> (length lc <= fuel)%nat ->
  wp (processUpdateQueue NoWork Callback ShouldCapture DidCapture fuel wip q
        props inst D) h
     (fun _ h' =>
        passResult wip q' qw fbw
          (passLocals NoWork props inst D qw (entries (updates h1) l)
             (entries (updates h1) lc)) h1 h' /\
        (effectPointers false qw = (None, None) ->
         effectPointers true qw = (None, None) ->
         (forall x, x ∈ l -> x ∉ lc) ->
         passEffects q' D (entries (updates h1) l) (entries (updates h1) lc)
           h')).
Proof.
  intros Hens Hq Hf Hl Hlc Htl Hfl Hflc. unfold processUpdateQueue.
  apply wp_bind, wp_setHasForceUpdate.
  eapply wp_bind_done; [exact Hens|].
  wp_go. eapply wp_readQueue; [exact Hq|].
  wp_go. eapply wp_mono.
  { eapply (whileUpdate_wp false _ (normalStep props inst D) wip q' D
              (processNormalUpdate_wp wip q' props inst D)
              (normalStep_update props inst D) l); eauto.
    intros qr Hqr. congruence. }
  intros s2 h2 (Hs2 & Hfr2 & Htl2 & Heff2). cbv beta.
  pose proof Hfr2 as (HU2 & _ & HQ2 & _ & HF2 & _).
  rewrite Hq in HQ2. rewrite Hf in HF2.
  destruct (queues h2 !! q') as [qr2|] eqn:Hq2; [|done].
  destruct (fibers h2 !! wip) as [fb2|] eqn:Hf2; [|done].
  simpl in HQ2, HF2. apply (inj Some) in HQ2. apply (inj Some) in HF2.
  apply stripQueue_eq in HQ2 as (Hq2a & Hq2b & Hq2c & Hq2d & Hq2e).
  apply stripFiber_eq in HF2 as (Hf2a & Hf2b & Hf2c & Hf2d).
  wp_go. eapply wp_readQueue; [exact Hq2|].
  wp_go. eapply wp_mono.
  { eapply (whileUpdate_wp true _ (capturedStep props inst D) wip q' D
              (processCapturedUpdate_wp wip q' props inst D)
              (capturedStep_update props inst D) lc); eauto.
    simpl. rewrite Hq2d. by apply (chain_strip (updates h1)). }
  intros s3 h3 (Hs3 & Hfr3 & Htl3 & Heff3). cbv beta.
  rewrite (entries_strip _ _ _ HU2) in Hs3, Heff3.
  rewrite Hq2d in Hs3. subst s2.
  change (foldl _ (set_update _ _) _)
    with (passLocals NoWork props inst D qw (entries (updates h1) l)
            (entries (updates h1) lc)) in Hs3.
  set (sF := passLocals _ _ _ _ _ _ _) in *. subst s3.
  pose proof Hfr3 as (HU3 & HQo3 & HQ3 & HFo3 & HF3 & HC3).
  pose proof Hfr2 as (_ & HQo2 & _ & HFo2 & _ & HC2).
  rewrite Hq2 in HQ3. rewrite Hf2 in HF3.
  destruct (queues h3 !! q') as [qr3|] eqn:Hq3; [|done].
  destruct (fibers h3 !! wip) as [fb3|] eqn:Hf3; [|done].
  simpl in HQ3, HF3. apply (inj Some) in HQ3. apply (inj Some) in HF3.
  apply stripQueue_eq in HQ3 as (Hq3a & Hq3b & Hq3c & Hq3d & Hq3e).
  apply stripFiber_eq in HF3 as (Hf3a & Hf3b & Hf3c & Hf3d).
  pose proof (Htl3 _ Hq3) as [T1 T2].
  assert (forall (h' : Heap) e,
    updates h' = updates h3 -> calls h' = calls h3 ->
    (forall x, x <> wip -> fibers h' !! x = fibers h3 !! x) ->
    fibers h' !! wip =
      Some (Fiber.set_memoizedState (resultState sF)
              (Fiber.set_expirationTime (newExpirationTime sF)
                 (Fiber.set_effectTag e fb3))) ->
    (forall x, x <> q' -> queues h' !! x = queues h3 !! x) ->
    queues h' !! q' =
      Some (Queue.mk (finalBaseState sF) (newFirstUpdate sF)
              match newFirstUpdate sF with
              | None => None | Some _ => Queue.lastUpdate qr3 end
              (newFirstCapturedUpdate sF)
              match newFirstCapturedUpdate sF with
              | None => None | Some _ => Queue.lastCapturedUpdate qr3 end
              (Queue.firstEffect qr3) (Queue.lastEffect qr3)
              (Queue.firstCapturedEffect qr3) (Queue.lastCapturedEffect qr3)) ->
    passResult wip q' qw fbw sF h1 h' /\
    (effectPointers false qw = (None, None) ->
     effectPointers true qw = (None, None) ->
     (forall x, x ∈ l -> x ∉ lc) ->
     passEffects q' D (entries (updates h1) l) (entries (updates h1) lc) h'))
    as Hfinish.
  { intros h' e HU' HC' HFo' HF' HQo' HQ'. split.
    - unfold passResult. rewrite HU', HC'.
      split; [congruence|].
      split; [intros x Hx; rewrite HQo', HQo3, HQo2; auto|].
      split.
      { eexists. split; [exact HQ'|]. simpl.
        rewrite Hq3c, Hq3e, Hq2c, Hq2e. do 5 (split; [done|]).
        split; simpl; [exact T1|exact T2]. }
      split; [intros x Hx; rewrite HFo', HFo3, HFo2; auto|].
      split; [|congruence].
      eexists. split; [exact HF'|]. simpl. split; [done|]. split; [done|].
      split; congruence.
    - intros Hn Hc Hdisj.
      destruct (Heff2 qw [] Hq) as (qa & Hqa & Hcha & _ & Hoa & Hua);
        [by rewrite Hn|by rewrite Hn|intros ? ?; apply not_elem_of_nil|].
      simpl in Hcha. rewrite Hq2 in Hqa. injection Hqa as <-.
      simpl in Hoa, Hc. rewrite Hc in Hoa. injection Hoa as Hoa1 Hoa2.
      destruct (Heff3 qr2 [] Hq2) as (qb & Hqb & Hchb & _ & Hob & Hub);
        [done|done|intros ? ?; apply not_elem_of_nil|].
      simpl in Hchb. rewrite Hq3 in Hqb. injection Hqb as <-.
      eexists. split; [exact HQ'|]. simpl. rewrite HU'.
      split; [|done].
      simpl in Hob. injection Hob as -> _.
      eapply linked_ext; [|exact Hcha].
      intros x Hx. rewrite Hub; [done|]. rewrite app_nil_r.
      apply effectsOf_subseteq in Hx. rewrite entries_fst in Hx. auto. }
  clearbody sF. unfold finalBaseState in Hfinish.
  destruct (newFirstUpdate sF) as [nf|] eqn:E1,
           (newFirstCapturedUpdate sF) as [nfc|] eqn:E2.
  all: wp_go;
    repeat first
      [ apply wp_ret
      | eapply wp_modifyQueue;
        [heap_simpl; first [exact Hq3 | apply lookup_insert_eq]|]
      | eapply wp_modifyFiber;
        [heap_simpl; first [exact Hf3 | apply lookup_insert_eq]|] ];
    wp_go;
    repeat first
      [ eapply wp_modifyQueue;
        [heap_simpl; first [exact Hq3 | apply lookup_insert_eq]|]; wp_go
      | eapply wp_modifyFiber;
        [heap_simpl; first [exact Hf3 | apply lookup_insert_eq]|]; wp_go ].
  all: try (eapply Hfinish; heap_simpl; rewrite ?E1, ?E2;
    rewrite ?lookup_insert_eq; try reflexivity;
    try (intros x Hx; rewrite ?lookup_insert_ne by done; reflexivity)).
  simpl. rewrite E1, E2. reflexivity.
Qed.

End Pass.

(** ** The local variables after the loops, on lists *)

Section Locals.
Variables (props inst : value) (D : Z).

Lemma keepRemaining_max e s :
  newExpirationTime (keepRemaining e s) = Z.max (newExpirationTime s) e.
Proof.
  unfold keepRemaining. destruct (Z.ltb_spec (newExpirationTime s) e); simpl; lia.
Qed.

Lemma keepRemaining_other e s :
  resultState (keepRemaining e s) = resultState s /\
  newBaseState (keepRemaining e s) = newBaseState s /\
  newFirstUpdate (keepRemaining e s) = newFirstUpdate s /\
  newFirstCapturedUpdate (keepRemaining e s) = newFirstCapturedUpdate s.
Proof. unfold keepRemaining. by destruct (_ <? _). Qed.

Lemma appliedBy_cons e es :
  appliedBy D (e :: es) =
  if insufficient D e then appliedBy D es else e :: appliedBy D es.
Proof.
  unfold appliedBy. rewrite filter_cons.
  destruct (insufficient D e); by case_decide.
Qed.

Lemma skippedBy_cons e es :
  skippedBy D (e :: es) =
  if insufficient D e then e :: skippedBy D es else skippedBy D es.
Proof.
  unfold skippedBy. rewrite filter_cons.
  destruct (insufficient D e); by case_decide.
Qed.

Lemma normalStep_skip s e :
  insufficient D e = true ->
  let s' := normalStep props inst D s e in
  resultState s' = resultState s /\
  newExpirationTime s' = Z.max (newExpirationTime s) (Update.expirationTime e.2) /\
  newFirstCapturedUpdate s' = newFirstCapturedUpdate s /\
  newFirstUpdate s' =
    match newFirstUpdate s with None => Some e.1 | Some x => Some x end /\
  newBaseState s' =
    match newFirstUpdate s with
    | None => resultState s
    | Some _ => newBaseState s
    end.
Proof.
  intros He. unfold normalStep. rewrite He. cbv zeta.
  cbn [set_update resultState newExpirationTime newFirstCapturedUpdate
       newFirstUpdate newBaseState].
  match goal with |- context [keepRemaining ?x ?y] =>
    destruct (keepRemaining_other x y) as (-> & -> & -> & ->);
    rewrite (keepRemaining_max x y) end.
  destruct (newFirstUpdate s) eqn:E; repeat split; done.
Qed.

Lemma normalStep_apply s e :
  insufficient D e = false ->
  let s' := normalStep props inst D s e in
  resultState s' = nextState e.2 (resultState s) props inst /\
  newExpirationTime s' = newExpirationTime s /\
  newFirstCapturedUpdate s' = newFirstCapturedUpdate s /\
  newFirstUpdate s' = newFirstUpdate s /\
  newBaseState s' = newBaseState s.
Proof. intros He. unfold normalStep. rewrite He. repeat split; done. Qed.

Lemma capturedStep_skip s e :
  insufficient D e = true ->
  let s' := capturedStep props inst D s e in
  resultState s' = resultState s /\
  newExpirationTime s' = Z.max (newExpirationTime s) (Update.expirationTime e.2) /\
  newFirstUpdate s' = newFirstUpdate s /\
  newFirstCapturedUpdate s' =
    match newFirstCapturedUpdate s with None => Some e.1 | Some x => Some x end /\
  newBaseState s' =
    match newFirstCapturedUpdate s, newFirstUpdate s with
    | None, None => resultState s
    | _, _ => newBaseState s
    end.
Proof.
  intros He. unfold capturedStep. rewrite He. cbv zeta.
  cbn [set_update resultState newExpirationTime newFirstCapturedUpdate
       newFirstUpdate newBaseState].
  match goal with |- context [keepRemaining ?x ?y] =>
    destruct (keepRemaining_other x y) as (-> & -> & -> & ->);
    rewrite (keepRemaining_max x y) end.
  destruct (newFirstCapturedUpdate s) eqn:E1, (newFirstUpdate s) eqn:E2;
    repeat split; done.
Qed.

Lemma capturedStep_apply s e :
  insufficient D e = false ->
  let s' := capturedStep props inst D s e in
  resultState s' = nextState e.2 (resultState s) props inst /\
  newExpirationTime s' = newExpirationTime s /\
  newFirstUpdate s' = newFirstUpdate s /\
  newFirstCapturedUpdate s' = newFirstCapturedUpdate s /\
  newBaseState s' = newBaseState s.
Proof. intros He. unfold capturedStep. rewrite He. repeat split; done. Qed.

Lemma normal_fold es : forall s,
  let s' := foldl (normalStep props inst D) s es in
  resultState s' = applyAll props inst (resultState s) (appliedBy D es) /\
  newExpirationTime s' = mostUrgent (newExpirationTime s) (skippedBy D es) /\
  newFirstCapturedUpdate s' = newFirstCapturedUpdate s /\
  (newFirstUpdate s = None ->
   newFirstUpdate s' = head (remaining D es).*1 /\
   newBaseState s' =
     match remaining D es with
     | [] => newBaseState s
     | _ :: _ => applyAll props inst (resultState s) (settled D es)
     end) /\
  (forall x, newFirstUpdate s = Some x ->
             newFirstUpdate s' = Some x /\ newBaseState s' = newBaseState s).
Proof.
  induction es as [|e es IH]; intros s.
  { simpl. repeat split; auto. }
  cbn [foldl]. cbv zeta in *.
  destruct (IH (normalStep props inst D s e)) as (R & X & C & N & S).
  rewrite appliedBy_cons, skippedBy_cons. cbn [settled remaining].
  rewrite R, X, C. clear R X C.
  destruct (insufficient D e) eqn:Hin.
  - destruct (normalStep_skip s e Hin) as (K1 & K2 & K3 & K4 & K5).
    rewrite K1, K2, K3. rewrite K4, K5 in S.
    split; [done|]. split; [done|]. split; [done|]. split.
    + intros Hn. rewrite Hn in S. by destruct (S e.1 eq_refl) as [-> ->].
    + intros x Hx. rewrite Hx in S. by apply S.
  - destruct (normalStep_apply s e Hin) as (K1 & K2 & K3 & K4 & K5).
    rewrite K1, K2, K3. rewrite K4, K5 in N, S. rewrite K1 in N.
    split; [done|]. split; [done|]. split; [done|]. split; [|done].
    intros Hn. destruct (N Hn) as [-> ->]. split; [done|].
    by destruct (remaining D es).
Qed.

Lemma captured_fold cs : forall s,
  let s' := foldl (capturedStep props inst D) s cs in
  resultState s' = applyAll props inst (resultState s) (appliedBy D cs) /\
  newExpirationTime s' = mostUrgent (newExpirationTime s) (skippedBy D cs) /\
  newFirstUpdate s' = newFirstUpdate s /\
  (newFirstCapturedUpdate s = None ->
   newFirstCapturedUpdate s' = head (remaining D cs).*1 /\
   newBaseState s' =
     match remaining D cs, newFirstUpdate s with
     | _ :: _, None => applyAll props inst (resultState s) (settled D cs)
     | _, _ => newBaseState s
     end) /\
  (forall x, newFirstCapturedUpdate s = Some x ->
             newFirstCapturedUpdate s' = Some x /\
             newBaseState s' = newBaseState s).
Proof.
  induction cs as [|e cs IH]; intros s.
  { simpl. repeat split; auto. }
  cbn [foldl]. cbv zeta in *.
  destruct (IH (capturedStep props inst D s e)) as (R & X & C & N & S).
  rewrite appliedBy_cons, skippedBy_cons. cbn [settled remaining].
  rewrite R, X, C. clear R X C.
  destruct (insufficient D e) eqn:Hin.
  - destruct (capturedStep_skip s e Hin) as (K1 & K2 & K3 & K4 & K5).
    rewrite K1, K2, K3. rewrite K4, K5 in S.
    split; [done|]. split; [done|]. split; [done|]. split.
    + intros Hn. rewrite Hn in S. destruct (S e.1 eq_refl) as [-> ->].
      by destruct (newFirstUpdate s).
    + intros x Hx. rewrite Hx in S. by apply S.
  - destruct (capturedStep_apply s e Hin) as (K1 & K2 & K3 & K4 & K5).
    rewrite K1, K2, K3. rewrite K4, K5 in N, S. rewrite K1, K3 in N.
    split; [done|]. split; [done|]. split; [done|]. split; [|done].
    intros Hn. destruct (N Hn) as [-> ->]. split; [done|].
    by destruct (remaining D cs), (newFirstUpdate s).
Qed.
End Locals.

Section PassAgain.
Variables (NoWork Callback ShouldCapture DidCapture : Z).

Lemma ensure_private wip q h fb :
  fibers h !! wip = Some fb ->
  (forall c, Fiber.alternate fb = Some c -> is_Some (fibers h !! c)) ->
  ~ sharedWithCurrent h wip q ->
  ensureWorkInProgressQueueIsAClone wip q h = Done q h.
Proof.
  intros Hf Hc Hns. unfold ensureWorkInProgressQueueIsAClone, bind, readFiber.
  rewrite Hf. destruct (Fiber.alternate fb) as [c|] eqn:Ha; [|done].
  destruct (Hc c eq_refl) as [fc Hfc]. rewrite Hfc.
  case_decide as Hd; [|done].
  destruct Hns. exists fb, c, fc. auto.
Qed.

Lemma ensure_shared wip q h qr fb :
  fibers h !! wip = Some fb -> queues h !! q = Some qr ->
  sharedWithCurrent h wip q ->
  exists q',
    queues h !! q' = None /\
    ensureWorkInProgressQueueIsAClone wip q h =
      Done q'
        (with_fibers (<[wip := Fiber.set_updateQueue (Some q') fb]> (fibers h))
           (with_queues
              (<[q' := Queue.mk (Queue.baseState qr) (Queue.firstUpdate qr)
                         (Queue.lastUpdate qr) None None None None None None]>
                 (queues h)) h)).
Proof.
  intros Hf Hq (fb' & c & fc & Hf' & Ha & Hfc & Hqc).
  assert (fb' = fb) as -> by congruence.
  exists (fresh (dom (queues h))). split.
  { apply not_elem_of_dom, is_fresh. }
  unfold ensureWorkInProgressQueueIsAClone, bind, readFiber.
  rewrite Hf, Ha, Hfc, Hqc. rewrite decide_True by done.
  unfold cloneUpdateQueue, bind, readQueue. rewrite Hq.
  unfold allocQueue, modifyFiber. heap_simpl. rewrite Hf. done.
Qed.

Lemma sharedWithCurrent_force h wip q b :
  sharedWithCurrent (with_hasForceUpdate b h) wip q <->
  sharedWithCurrent h wip q.
Proof. done. Qed.

Lemma skippedBy_app D es cs :
  skippedBy D (es ++ cs) = skippedBy D es ++ skippedBy D cs.
Proof. unfold skippedBy. apply filter_app. Qed.

Lemma mostUrgent_app start es cs :
  mostUrgent start (es ++ cs) = mostUrgent (mostUrgent start es) cs.
Proof. unfold mostUrgent. apply foldl_app. Qed.

Lemma passLocals_fields props inst D q es cs :
  let s := passLocals NoWork props inst D q es cs in
  resultState s =
    applyAll props inst
      (applyAll props inst (Queue.baseState q) (appliedBy D es))
      (appliedBy D cs) /\
  newExpirationTime s = mostUrgent NoWork (skippedBy D (es ++ cs)) /\
  newFirstUpdate s = head (remaining D es).*1 /\
  newFirstCapturedUpdate s = head (remaining D cs).*1 /\
  finalBaseState s =
    match remaining D es, remaining D cs with
    | _ :: _, _ => applyAll props inst (Queue.baseState q) (settled D es)
    | [], _ :: _ =>
        applyAll props inst
          (applyAll props inst (Queue.baseState q) (appliedBy D es))
          (settled D cs)
    | [], [] => resultState s
    end.
Proof.
  cbv zeta. unfold passLocals.
  set (sN := foldl (normalStep props inst D) (initialLocals NoWork q) es).
  destruct (normal_fold props inst D es (initialLocals NoWork q))
    as (R1 & X1 & C1 & N1 & _).
  fold sN in R1, X1, C1, N1. simpl in R1, X1, C1, N1.
  destruct (N1 eq_refl) as [F1 B1]. clear N1.
  destruct (captured_fold props inst D cs
              (set_update (Queue.firstCapturedUpdate q) sN))
    as (R2 & X2 & U2 & N2 & _).
  set (sF := foldl (capturedStep props inst D) _ cs) in *.
  simpl in R2, X2, U2, N2. destruct (N2 C1) as [F2 B2]. clear N2.
  rewrite R2, R1, X2, X1, U2, F1, F2, skippedBy_app, mostUrgent_app.
  do 4 (split; [done|]).
  unfold finalBaseState. rewrite U2, F1, F2, B2, F1, B1, R2, R1.
  destruct (remaining D es) as [|e1 r1], (remaining D cs) as [|e2 r2]; done.
Qed.

Lemma sharedWithCurrent_dec h wip q fb :
  fibers h !! wip = Some fb ->
  (forall c, Fiber.alternate fb = Some c -> is_Some (fibers h !! c)) ->
  sharedWithCurrent h wip q \/ ~ sharedWithCurrent h wip q.
Proof.
  intros Hf Hc. destruct (Fiber.alternate fb) as [c|] eqn:Ha.
  - destruct (Hc c eq_refl) as [fc Hfc].
    destruct (decide (Fiber.updateQueue fc = Some q)) as [Hq|Hq].
    + left. exists fb, c, fc. auto.
    + right. intros (fb' & c' & fc' & H1 & H2 & H3 & H4). congruence.
  - right. intros (fb' & c' & fc' & H1 & H2 & H3 & H4). congruence.
Qed.

Lemma passResult_pre wip q qw qw' fbw s h h1 h' :
  updates h1 = updates h -> calls h1 = calls h ->
  (forall x, x <> q -> queues h1 !! x = queues h !! x) ->
  (forall x, x <> wip -> fibers h1 !! x = fibers h !! x) ->
  Queue.lastUpdate qw = Queue.lastUpdate qw' ->
  (newFirstCapturedUpdate s = None \/
   Queue.lastCapturedUpdate qw = Queue.lastCapturedUpdate qw') ->
  passResult wip q qw fbw s h1 h' -> passResult wip q qw' fbw s h h'.
Proof.
  intros HU HC HQ HF HL HLC (P1 & P2 & (qf & P3) & P4 & P5 & P6).
  unfold passResult. rewrite <- HU, <- HC.
  split; [done|]. split; [intros x Hx; rewrite P2, HQ; auto|].
  split.
  { exists qf. rewrite <- HL.
    destruct P3 as (? & ? & ? & ? & ? & P3 & ?). do 5 (split; [done|]).
    split; [|done]. rewrite P3. destruct HLC as [->| ->]; done. }
  split; [intros x Hx; rewrite P4, HF; auto|]. done.
Qed.

Lemma processUpdateQueue_spec fuel wip q props inst D h fb qr l lc :
  fibers h !! wip = Some fb -> queues h !! q = Some qr ->
  (forall c, Fiber.alternate fb = Some c -> is_Some (fibers h !! c)) ->
  chain (updates h) (Queue.firstUpdate qr) l ->
  chain (updates h) (Queue.firstCapturedUpdate qr) lc ->
  (sharedWithCurrent h wip q -> lc = []) ->
  effectTailsAllocated (updates h) qr ->
  (length l <= fuel)%nat -> (length lc <= fuel)%nat ->
  wp (processUpdateQueue NoWork Callback ShouldCapture DidCapture fuel wip q
        props inst D) h
     (fun _ h' =>
        exists q' fbw,
          replayedOn h wip q fb q' fbw /\
          passResult wip q' qr fbw
            (passLocals NoWork props inst D qr (entries (updates h) l)
               (entries (updates h) lc)) h h' /\
          (effectPointers false qr = (None, None) ->
           effectPointers true qr = (None, None) ->
           (forall x, x ∈ l -> x ∉ lc) ->
           passEffects q' D (entries (updates h) l) (entries (updates h) lc)
             h')).
Proof.
  intros Hf Hq Hc Hl Hlc Hsh Htl Hfl Hflc.
  destruct (sharedWithCurrent_dec h wip q fb Hf Hc) as [Hs|Hs].
  - specialize (Hsh Hs). subst lc. simpl in Hlc.
    destruct (ensure_shared wip q (with_hasForceUpdate false h) qr fb Hf Hq)
      as (q' & Hfresh & Hens); [done|].
    heap_simpl.
    set (qw := Queue.mk (Queue.baseState qr) (Queue.firstUpdate qr)
                 (Queue.lastUpdate qr) None None None None None None) in *.
    eapply wp_mono.
    { eapply (processUpdateQueue_run NoWork Callback ShouldCapture DidCapture fuel wip q q' props inst D h _ qw
                (Fiber.set_updateQueue (Some q') fb) l []);
        [exact Hens|heap_simpl; apply lookup_insert_eq
        |heap_simpl; apply lookup_insert_eq|exact Hl|done| |done|simpl; lia].
      split; intros e He; done. }
    intros _ h' [Hres Heff]. heap_simpl. exists q', (Fiber.set_updateQueue (Some q') fb).
    split; [right; done|].
    replace (passLocals NoWork props inst D qr (entries (updates h) l)
               (entries (updates h) []))
      with (passLocals NoWork props inst D qw (entries (updates h) l)
              (entries (updates h) []))
      by (unfold passLocals; by rewrite Hlc).
    split.
    + eapply passResult_pre; [..|exact Hres]; heap_simpl; try done.
      * intros x Hx. by rewrite lookup_insert_ne.
      * intros x Hx. by rewrite lookup_insert_ne.
      * left.
        by destruct (passLocals_fields props inst D qw
                       (entries (updates h) l) (entries (updates h) []))
          as (_ & _ & _ & -> & _).
    + intros _ _ Hd. apply Heff; done.
  - pose proof (ensure_private wip q (with_hasForceUpdate false h) fb Hf Hc Hs)
      as Hens.
    eapply wp_mono.
    { eapply (processUpdateQueue_run NoWork Callback ShouldCapture DidCapture fuel wip q q props inst D h _ qr fb l lc);
        [exact Hens|done..]. }
    intros _ h' [Hres Heff]. heap_simpl. exists q, fb.
    split; [left; done|]. split; [|done].
    eapply passResult_pre; [..|exact Hres]; heap_simpl; auto.
Qed.

End PassAgain.

(** ** Facts on the lists of a pass *)

Section Lists.
Variable D : Z.
Implicit Types (e : addr * Update.t) (es : list (addr * Update.t)).

Lemma settled_remaining es : settled D es ++ remaining D es = es.
Proof.
  induction es as [|e es IH]; [done|]. simpl.
  destruct (insufficient D e); simpl; congruence.
Qed.

Lemma remaining_drop es : exists i, remaining D es = drop i es.
Proof.
  induction es as [|e es [i IH]]; [by exists 0%nat|]. simpl.
  destruct (insufficient D e); [by exists 0%nat|by exists (S i)].
Qed.

Lemma remaining_head es e r :
  remaining D es = e :: r -> insufficient D e = true.
Proof.
  induction es as [|e' es IH]; [done|]. simpl.
  destruct (insufficient D e') eqn:He; [|done]. by intros [= <- <-].
Qed.

Lemma applied_settled es : appliedBy D (settled D es) = settled D es.
Proof.
  induction es as [|e es IH]; [done|]. simpl.
  destruct (insufficient D e) eqn:He; [done|].
  rewrite appliedBy_cons, He. by f_equal.
Qed.

Lemma remaining_nil es : remaining D es = [] <-> skippedBy D es = [].
Proof.
  induction es as [|e es IH]; [done|]. simpl. rewrite skippedBy_cons.
  destruct (insufficient D e); [done|exact IH].
Qed.

Lemma applied_all es : skippedBy D es = [] -> appliedBy D es = es.
Proof.
  induction es as [|e es IH]; [done|]. rewrite skippedBy_cons, appliedBy_cons.
  destruct (insufficient D e); [done|]. intros H. f_equal. auto.
Qed.

Lemma skipped_none es :
  (forall e, e ∈ es -> D <= Update.expirationTime e.2) -> skippedBy D es = [].
Proof.
  intros H. induction es as [|e es IH]; [done|]. rewrite skippedBy_cons.
  unfold insufficient.
  destruct (Z.ltb_spec (Update.expirationTime e.2) D) as [Hlt|_].
  - specialize (H e (list_elem_of_here _ _)). lia.
  - apply IH. intros e' He'. apply H. by right.
Qed.

Lemma elem_of_skippedBy es e :
  e ∈ skippedBy D es <-> e ∈ es /\ lessUrgent (Update.expirationTime e.2) D.
Proof.
  unfold skippedBy, insufficient, lessUrgent. rewrite list_elem_of_filter.
  rewrite Z.ltb_lt. tauto.
Qed.

Lemma elem_of_appliedBy es e :
  e ∈ appliedBy D es <->
  e ∈ es /\ ~ lessUrgent (Update.expirationTime e.2) D.
Proof.
  unfold appliedBy, insufficient, lessUrgent. rewrite list_elem_of_filter.
  rewrite Z.ltb_ge. split; intros [? ?]; split; auto; lia.
Qed.
End Lists.

Lemma mostUrgent_ge start es : start <= mostUrgent start es.
Proof.
  revert start. induction es as [|e es IH]; intros start; simpl; [lia|].
  etrans; [|apply IH]. lia.
Qed.

Lemma mostUrgent_bound start es e :
  e ∈ es -> Update.expirationTime e.2 <= mostUrgent start es.
Proof.
  revert start. induction es as [|e' es IH]; intros start Hin.
  - by apply elem_of_nil in Hin.
  - simpl. apply elem_of_cons in Hin as [->|Hin]; [|by apply IH].
    etrans; [|apply mostUrgent_ge]. lia.
Qed.

Lemma mostUrgent_attained start es :
  mostUrgent start es = start \/
  exists e, e ∈ es /\ Update.expirationTime e.2 = mostUrgent start es.
Proof.
  revert start. induction es as [|e es IH]; intros start; simpl; [auto|].
  destruct (IH (Z.max start (Update.expirationTime e.2))) as [->|(e' & H1 & H2)].
  - destruct (Z.max_spec start (Update.expirationTime e.2)) as [[_ ->]|[_ ->]].
    + right. exists e. split; [left|done].
    + by left.
  - right. exists e'. split; [by right|done].
Qed.

Lemma mostUrgent_among start es :
  es <> [] ->
  (forall e, e ∈ es -> start <= Update.expirationTime e.2) ->
  mostUrgentAmong (mostUrgent start es) es.
Proof.
  intros Hne Hlow. split.
  - destruct (mostUrgent_attained start es) as [Heq|?]; [|done].
    destruct es as [|e es]; [done|]. exists e. split; [left|].
    pose proof (mostUrgent_bound start (e :: es) e (list_elem_of_here _ _)).
    pose proof (Hlow e (list_elem_of_here _ _)). lia.
  - intros e He. unfold lessUrgent.
    pose proof (mostUrgent_bound start es e He). lia.
Qed.

Section Claims.
Variables (NoWork Callback ShouldCapture DidCapture : Z).

Lemma whileUpdate_null fuel body s h :
  update s = None -> whileUpdate fuel body s h = Done s h.
Proof. intros Hs. destruct fuel; simpl; by rewrite Hs. Qed.

(** C9. Replaying a fully resolved queue is a no-op: when the normal head
    and the captured head of the queue are both empty, a pass at any
    deadline, with any fuel, returns; the result state written to the fiber
    is the queue's base state; the queue object handed in keeps its record
    (base state and every pointer but an already empty tail), and the queue
    that the pass wrote, the same object or its fresh clone, has that base
    state and both heads empty. *)
Theorem C9_replay_of_resolved_queue_is_noop
    fuel wip q props inst D h fb qr :
  fibers h !! wip = Some fb -> queues h !! q = Some qr ->
  (forall c, Fiber.alternate fb = Some c -> is_Some (fibers h !! c)) ->
  Queue.firstUpdate qr = None -> Queue.firstCapturedUpdate qr = None ->
  exists h' q' qf,
    processUpdateQueue NoWork Callback ShouldCapture DidCapture fuel wip q
      props inst D h = Done tt h' /\
    memoizedStateOf h' wip = Some (Queue.baseState qr) /\
    (q' = q \/ (sharedWithCurrent h wip q /\ queues h !! q' = None /\
                queues h' !! q = Some qr)) /\
    queues h' !! q' = Some qf /\
    Queue.baseState qf = Queue.baseState qr /\
    Queue.firstUpdate qf = None /\ Queue.firstCapturedUpdate qf = None /\
    updates h' = updates h /\ calls h' = calls h.
Proof.
  intros Hf Hq Hc Hfu Hfc.
  assert (forall q' h1 qw fbw,
    ensureWorkInProgressQueueIsAClone wip q (with_hasForceUpdate false h)
      = Done q' h1 ->
    queues h1 !! q' = Some qw -> fibers h1 !! wip = Some fbw ->
    Queue.firstUpdate qw = None -> Queue.firstCapturedUpdate qw = None ->
    wp (processUpdateQueue NoWork Callback ShouldCapture DidCapture fuel wip q
          props inst D) h
       (fun _ h' =>
          memoizedStateOf h' wip = Some (Queue.baseState qw) /\
          (forall x, x <> q' -> queues h' !! x = queues h1 !! x) /\
          (exists qf, queues h' !! q' = Some qf /\
             Queue.baseState qf = Queue.baseState qw /\
             Queue.firstUpdate qf = None /\
             Queue.firstCapturedUpdate qf = None) /\
          updates h' = updates h1 /\ calls h' = calls h1)) as Hrun.
  { intros q' h1 qw fbw Hens Hq1 Hf1 Hfu1 Hfc1. unfold processUpdateQueue.
    apply wp_bind, wp_setHasForceUpdate.
    eapply wp_bind_done; [exact Hens|].
    wp_go. eapply wp_readQueue; [exact Hq1|].
    wp_go. eapply wp_intro; [by apply whileUpdate_null|].
    wp_go. eapply wp_readQueue; [exact Hq1|].
    wp_go. eapply wp_intro; [by apply whileUpdate_null|].
    cbn [newFirstUpdate newFirstCapturedUpdate set_update].
    wp_go. eapply wp_modifyQueue; [exact Hq1|].
    wp_go. eapply wp_modifyQueue; [heap_simpl; apply lookup_insert_eq|].
    wp_go. eapply wp_modifyQueue; [heap_simpl; apply lookup_insert_eq|].
    eapply wp_modifyFiber; [heap_simpl; exact Hf1|].
    unfold memoizedStateOf. heap_simpl. rewrite !lookup_insert_eq.
    split; [done|].
    split; [intros x Hx; by rewrite !lookup_insert_ne|].
    split; [|done]. eexists. split; [done|]. done. }
  destruct (sharedWithCurrent_dec h wip q fb Hf Hc) as [Hs|Hs].
  - destruct (ensure_shared wip q (with_hasForceUpdate false h) qr fb Hf Hq)
      as (q' & Hfresh & Hens); [done|]. heap_simpl.
    destruct (wp_elim _ _ _ (Hrun q' _ _ _ Hens
                (lookup_insert_eq _ _ _) (lookup_insert_eq _ _ _)
                Hfu eq_refl))
      as ([] & h' & Hp & Hm & Ho & (qf & Hqf & Hb & H1 & H2) & HU & HC).
    exists h', q', qf. heap_simpl. do 2 (split; [done|]).
    split; [|done].
    right. split; [done|]. split; [done|].
    rewrite Ho by congruence. heap_simpl. rewrite lookup_insert_ne by congruence.
    done.
  - pose proof (ensure_private wip q (with_hasForceUpdate false h) fb Hf Hc Hs)
      as Hens.
    destruct (wp_elim _ _ _ (Hrun _ _ _ _ Hens Hq Hf Hfu Hfc))
      as ([] & h' & Hp & Hm & Ho & (qf & Hqf & Hb & H1 & H2) & HU & HC).
    exists h', q, qf. do 2 (split; [done|]). split; [by left|]. done.
Qed.

(** C8. Within one pass the captured list is replayed after the normal
    list, whatever the deadlines: the pass returns, the state it writes to
    the fiber is the base state with the applied normal records applied in
    list order and then the applied captured records, and the remaining
    priority it writes is one aggregate over the skipped records of the
    normal list followed by those of the captured list. *)
Theorem C8_captured_after_normal
    fuel wip q props inst D h fb qr l lc :
  replayable fuel h wip q fb qr l lc ->
  exists h' ff,
    processUpdateQueue NoWork Callback ShouldCapture DidCapture fuel wip q
      props inst D h = Done tt h' /\
    fibers h' !! wip = Some ff /\
    Fiber.memoizedState ff =
      applyAll props inst (Queue.baseState qr)
        (appliedBy D (entries (updates h) l) ++
         appliedBy D (entries (updates h) lc)) /\
    Fiber.expirationTime ff =
      mostUrgent NoWork
        (skippedBy D (entries (updates h) l) ++
         skippedBy D (entries (updates h) lc)).
Proof.
  intros (Hf & Hq & Hc & Hl & Hlc & Hsh & Htl & Hfl & Hflc).
  destruct (wp_elim _ _ _
    (processUpdateQueue_spec NoWork Callback ShouldCapture DidCapture fuel
       wip q props inst D h fb qr l lc Hf Hq Hc Hl Hlc Hsh Htl Hfl Hflc))
    as ([] & h' & Hrun & q' & fbw & _ & Hres & _).
  destruct Hres as (_ & _ & _ & _ & (ff & Hff & Hm & He & _) & _).
  destruct (passLocals_fields NoWork props inst D qr (entries (updates h) l)
              (entries (updates h) lc)) as (R & X & _).
  exists h', ff. split; [done|]. split; [done|].
  rewrite Hm, He, R, X, skippedBy_app. split; [|done].
  unfold applyAll. by rewrite foldl_app.
Qed.


Lemma appliedBy_not_lessUrgent D es :
  appliedBy D es =
  filter (fun e => ~ lessUrgent (Update.expirationTime e.2) D) es.
Proof.
  unfold appliedBy. apply list_filter_iff. intros e.
  unfold insufficient, lessUrgent. rewrite Z.ltb_ge. lia.
Qed.

(** C5, as amended. Deadlines are totally ordered by their numeric value,
    the numerically larger deadline being the more urgent one, and [NoWork]
    is the value from which the remaining priority is aggregated, so never
    more urgent than it. A pass at the deadline [D] skips exactly the
    records whose deadline is less urgent than [D]: the state it computes
    is the base state with exactly the other records applied, in order; the
    remaining priority it writes is at least as urgent as [NoWork] and as
    every skipped record; and when no record is less urgent than [D] the
    remaining priority is [NoWork] and both lists are emptied. *)
Theorem C5_skip_rule
    fuel wip q props inst D h fb qr l lc :
  replayable fuel h wip q fb qr l lc ->
  (forall a b, lessUrgent a b <-> a < b) /\
  (forall a b, lessUrgent a b \/ a = b \/ lessUrgent b a) /\
  (forall a b c, lessUrgent a b -> lessUrgent b c -> lessUrgent a c) /\
  exists h' q' qf ff,
    let es := entries (updates h) l ++ entries (updates h) lc in
    processUpdateQueue NoWork Callback ShouldCapture DidCapture fuel wip q
      props inst D h = Done tt h' /\
    fibers h' !! wip = Some ff /\
    (exists fbw, replayedOn h wip q fb q' fbw) /\ queues h' !! q' = Some qf /\
    Fiber.memoizedState ff =
      applyAll props inst (Queue.baseState qr)
        (filter (fun e => ~ lessUrgent (Update.expirationTime e.2) D) es) /\
    ~ lessUrgent (Fiber.expirationTime ff) NoWork /\
    (forall e, e ∈ es -> lessUrgent (Update.expirationTime e.2) D ->
       ~ lessUrgent (Fiber.expirationTime ff) (Update.expirationTime e.2)) /\
    ((forall e, e ∈ es -> ~ lessUrgent (Update.expirationTime e.2) D) ->
       Fiber.expirationTime ff = NoWork /\
       Queue.firstUpdate qf = None /\ Queue.firstCapturedUpdate qf = None).
Proof.
  intros (Hf & Hq & Hc & Hl & Hlc & Hsh & Htl & Hfl & Hflc).
  split; [done|]. split; [unfold lessUrgent; lia|].
  split; [unfold lessUrgent; lia|].
  destruct (wp_elim _ _ _
    (processUpdateQueue_spec NoWork Callback ShouldCapture DidCapture fuel
       wip q props inst D h fb qr l lc Hf Hq Hc Hl Hlc Hsh Htl Hfl Hflc))
    as ([] & h' & Hrun & q' & fbw & Hon & Hres & _).
  destruct Hres
    as (_ & _ & (qf & Hqf & _ & Hfu & Hfcu & _) & _ & (ff & Hff & Hm & He & _) & _).
  destruct (passLocals_fields NoWork props inst D qr (entries (updates h) l)
              (entries (updates h) lc)) as (R & X & F & FC & _).
  set (es := entries (updates h) l) in *.
  set (cs := entries (updates h) lc) in *.
  exists h', q', qf, ff. cbv zeta.
  split; [done|]. split; [done|]. split; [by exists fbw|]. split; [done|].
  rewrite Hm, He, R, X. split.
  { rewrite filter_app, <- !appliedBy_not_lessUrgent. unfold applyAll.
    by rewrite foldl_app. }
  split.
  { unfold lessUrgent. pose proof (mostUrgent_ge NoWork (skippedBy D (es ++ cs))).
    lia. }
  split.
  { intros e Hin Hless. unfold lessUrgent.
    pose proof (mostUrgent_bound NoWork (skippedBy D (es ++ cs)) e) as Hb.
    rewrite elem_of_skippedBy in Hb. specialize (Hb (conj Hin Hless)). lia. }
  intros Hnone.
  assert (skippedBy D (es ++ cs) = []) as Hsk.
  { apply skipped_none. intros e Hin. specialize (Hnone e Hin).
    unfold lessUrgent in Hnone. lia. }
  rewrite Hsk. split; [done|].
  rewrite skippedBy_app in Hsk. apply app_eq_nil in Hsk as [H1 H2].
  apply remaining_nil in H1, H2. rewrite Hfu, Hfcu, F, FC, H1, H2. done.
Qed.

(** C2, as amended. After a pass, on the queue that the pass wrote:
    - if a record of the normal list was skipped, the new base state is the
      result computed just before the first of them, which is the new
      [firstUpdate] head;
    - if only records of the captured list were skipped, the new base state
      is the result computed just before the first of them, which is the new
      [firstCapturedUpdate] head, while [firstUpdate] and [lastUpdate] are
      empty;
    - if a record was skipped, [NoWork] being no more urgent than a skipped
      deadline, the remaining priority written to the fiber is the most
      urgent deadline among all skipped records;
    - if no record of either list was skipped, the new base state is the
      final result state, both heads are empty and both tails are reset to
      empty. *)
Theorem C2_pass_write_back
    fuel wip q props inst D h fb qr l lc :
  replayable fuel h wip q fb qr l lc ->
  exists h' q' qf ff,
    let es := entries (updates h) l in
    let cs := entries (updates h) lc in
    let base := Queue.baseState qr in
    processUpdateQueue NoWork Callback ShouldCapture DidCapture fuel wip q
      props inst D h = Done tt h' /\
    (exists fbw, replayedOn h wip q fb q' fbw) /\
    queues h' !! q' = Some qf /\ fibers h' !! wip = Some ff /\
    (forall e rest, remaining D es = e :: rest ->
       insufficient D e = true /\
       appliedBy D (settled D es) = settled D es /\
       Queue.baseState qf = applyAll props inst base (settled D es) /\
       Queue.firstUpdate qf = Some e.1) /\
    (forall e rest, remaining D es = [] -> remaining D cs = e :: rest ->
       insufficient D e = true /\
       appliedBy D (es ++ settled D cs) = es ++ settled D cs /\
       Queue.baseState qf = applyAll props inst base (es ++ settled D cs) /\
       Queue.firstCapturedUpdate qf = Some e.1 /\
       Queue.firstUpdate qf = None /\ Queue.lastUpdate qf = None) /\
    (skippedBy D (es ++ cs) <> [] ->
     (forall e, e ∈ skippedBy D (es ++ cs) ->
                ~ lessUrgent (Update.expirationTime e.2) NoWork) ->
     mostUrgentAmong (Fiber.expirationTime ff) (skippedBy D (es ++ cs))) /\
    (skippedBy D (es ++ cs) = [] ->
     Queue.baseState qf = Fiber.memoizedState ff /\
     Queue.firstUpdate qf = None /\ Queue.firstCapturedUpdate qf = None /\
     Queue.lastUpdate qf = None /\ Queue.lastCapturedUpdate qf = None).
Proof.
  intros (Hf & Hq & Hc & Hl & Hlc & Hsh & Htl & Hfl & Hflc).
  destruct (wp_elim _ _ _
    (processUpdateQueue_spec NoWork Callback ShouldCapture DidCapture fuel
       wip q props inst D h fb qr l lc Hf Hq Hc Hl Hlc Hsh Htl Hfl Hflc))
    as ([] & h' & Hrun & q' & fbw & Hon & Hres & _).
  destruct Hres
    as (_ & _ & (qf & Hqf & Hb & Hfu & Hfcu & Hlu & Hlcu & _) & _ &
        (ff & Hff & Hm & He & _) & _).
  destruct (passLocals_fields NoWork props inst D qr (entries (updates h) l)
              (entries (updates h) lc)) as (R & X & F & FC & B).
  set (es := entries (updates h) l) in *.
  set (cs := entries (updates h) lc) in *.
  set (sF := passLocals NoWork props inst D qr es cs) in *.
  exists h', q', qf, ff. cbv zeta.
  split; [done|]. split; [by exists fbw|]. split; [done|]. split; [done|].
  split.
  { intros e rest Hrem. rewrite Hb, Hfu, F, B, Hrem.
    split; [by eapply remaining_head|]. split; [apply applied_settled|]. done. }
  split.
  { intros e rest Hrem Hremc. rewrite Hb, Hfu, Hfcu, Hlu, F, FC, B, Hrem, Hremc.
    assert (appliedBy D es = es) as Hall
      by (by apply applied_all, remaining_nil).
    split; [by eapply remaining_head|].
    split.
    { unfold appliedBy. rewrite filter_app. fold (appliedBy D es).
      fold (appliedBy D (settled D cs)). by rewrite Hall, applied_settled. }
    rewrite Hall. unfold applyAll. rewrite foldl_app. done. }
  split.
  { intros Hne Hlow. rewrite He, X. apply mostUrgent_among; [done|].
    intros e Hin. specialize (Hlow e Hin). unfold lessUrgent in Hlow. lia. }
  intros Hsk. rewrite Hb, Hfu, Hfcu, Hlu, Hlcu, F, FC, B, Hm.
  rewrite skippedBy_app in Hsk. apply app_eq_nil in Hsk as [H1 H2].
  apply remaining_nil in H1, H2. rewrite H1, H2. done.
Qed.

Lemma remaining_entries D us l :
  exists i,
    remaining D (entries us l) = drop i (entries us l) /\
    (remaining D (entries us l)).*1 = drop i l /\
    entries us (drop i l) = remaining D (entries us l).
Proof.
  destruct (remaining_drop D (entries us l)) as [i Hi]. exists i.
  split; [done|]. rewrite Hi. split.
  - by rewrite fmap_drop, entries_fst.
  - unfold entries. apply fmap_drop.
Qed.

Lemma elem_of_remaining D es e : e ∈ remaining D es -> e ∈ es.
Proof.
  intros He. rewrite <- (settled_remaining D es). apply elem_of_app. by right.
Qed.

Lemma renderAt_step fuel wip props inst D h q fb qr l :
  replayable fuel h wip q fb qr l [] -> Fiber.updateQueue fb = Some q ->
  wp (renderAt NoWork Callback ShouldCapture DidCapture fuel wip props inst D)
     h
     (fun _ h' =>
        exists q' fb' qr',
          let es := entries (updates h) l in
          replayable fuel h' wip q' fb' qr' (remaining D es).*1 [] /\
          Fiber.updateQueue fb' = Some q' /\
          entries (updates h') (remaining D es).*1 = remaining D es /\
          applyAll props inst (Queue.baseState qr') (remaining D es) =
            applyAll props inst (Queue.baseState qr) es /\
          Fiber.memoizedState fb' =
            applyAll props inst (Queue.baseState qr) (appliedBy D es)).
Proof.
  intros (Hf & Hq & Hc & Hl & Hlc & Hsh & Htl & Hfl & Hflc) Huq.
  unfold renderAt. wp_go. eapply wp_readFiber; [exact Hf|]. rewrite Huq.
  eapply wp_mono;
    [exact (processUpdateQueue_spec NoWork Callback ShouldCapture DidCapture
              fuel wip q props inst D h fb qr l [] Hf Hq Hc Hl Hlc Hsh Htl
              Hfl Hflc)|].
  intros _ h' (q' & fbw & Hon & Hres & _). cbv beta.
  destruct Hres
    as (HU & _ & (qf & Hqf & Hb & Hfu & Hfcu & _ & _ & Htl') & HFo &
        (ff & Hff & Hm & _ & Halt & Huq') & _).
  destruct (passLocals_fields NoWork props inst D qr (entries (updates h) l)
              (entries (updates h) [])) as (R & _ & F & FC & B).
  set (es := entries (updates h) l) in *.
  destruct (remaining_entries D (updates h) l) as (i & Hdrop & Hfst & Hent).
  fold es in Hdrop, Hfst, Hent.
  exists q', ff, qf. cbv zeta.
  assert (Fiber.alternate fbw = Fiber.alternate fb /\
          Fiber.updateQueue fbw = Some q') as [Ha Hu].
  { destruct Hon as [(_ & -> & ->)|(_ & _ & ->)]; by split. }
  split.
  { unfold replayable. split; [done|]. split; [done|].
    split.
    { intros c Hcc. rewrite Halt, Ha in Hcc.
      destruct (decide (c = wip)) as [->|Hne]; [by eexists|].
      rewrite HFo by done. by apply Hc. }
    split.
    { rewrite Hfu, F, Hfst. apply (chain_strip (updates h)); [done|].
      exact (linked_drop _ _ _ _ i Hl). }
    split; [by rewrite Hfcu, FC|]. split; [done|]. split; [done|].
    split; [|simpl; lia]. rewrite Hfst, length_drop. lia. }
  split; [congruence|].
  split.
  { rewrite Hfst, (entries_strip _ _ _ HU). done. }
  split.
  { rewrite Hb, B.
    change (remaining D (entries (updates h) []))
      with (@nil (addr * Update.t)).
    destruct (remaining D es) as [|e r] eqn:Hrem.
    - rewrite R.
      change (appliedBy D (entries (updates h) []))
        with (@nil (addr * Update.t)).
      rewrite (applied_all D es) by (by apply remaining_nil). done.
    - rewrite <- Hrem. unfold applyAll. rewrite <- foldl_app.
      by rewrite settled_remaining. }
  rewrite Hm, R. done.
Qed.

Lemma renderLevels_converges fuel wip props inst levels :
  forall h q fb qr l,
    replayable fuel h wip q fb qr l [] -> Fiber.updateQueue fb = Some q ->
    levels <> [] ->
    (forall D0, last levels = Some D0 ->
       forall e, e ∈ entries (updates h) l -> D0 <= Update.expirationTime e.2) ->
    wp (renderLevels NoWork Callback ShouldCapture DidCapture fuel wip props
          inst levels) h
       (fun _ h' =>
          memoizedStateOf h' wip =
            Some (applyAll props inst (Queue.baseState qr)
                    (entries (updates h) l))).
Proof.
  induction levels as [|D levels IH]; intros h q fb qr l Hre Huq Hne Hlast;
    [done|].
  cbn [renderLevels]. apply wp_bind.
  eapply wp_mono; [by eapply renderAt_step|].
  intros _ h' (q' & fb' & qr' & Hre' & Huq' & Hent & Happ & Hm). cbv beta.
  destruct levels as [|D2 levels].
  - apply wp_ret. unfold memoizedStateOf.
    destruct Hre' as (-> & _). simpl. rewrite Hm.
    rewrite applied_all; [done|]. apply skipped_none. by apply Hlast.
  - eapply wp_mono; [eapply (IH h' q' fb' qr'); [exact Hre'|done|done|]|].
    + intros D0 HD0 e He. apply (Hlast D0); [by rewrite last_cons_cons|].
      rewrite Hent in He. by eapply elem_of_remaining.
    + intros _ h2 ->. cbv beta. by rewrite Hent, Happ.
Qed.

Lemma StronglySorted_last {A} (R : relation A) (l : list A) y :
  StronglySorted R l -> last l = Some y ->
  forall x, x ∈ l -> x = y \/ R x y.
Proof.
  induction 1 as [|a l Hs IH Hall]; intros Hlast x Hx.
  - by apply elem_of_nil in Hx.
  - destruct l as [|b l].
    + simpl in Hlast. injection Hlast as <-.
      apply list_elem_of_singleton in Hx. by left.
    + rewrite last_cons_cons in Hlast.
      apply elem_of_cons in Hx as [->|Hx]; [|by apply IH].
      right. apply (proj1 (Forall_forall _ _) Hall).
      by apply last_Some_elem_of.
Qed.

Lemma priorityLevels_nonempty es : es <> [] -> priorityLevels es <> [].
Proof.
  intros Hne Hnil. unfold priorityLevels in Hnil.
  pose proof (merge_sort_Permutation urgentFirst
    (remove_dups ((fun e : addr * Update.t => Update.expirationTime e.2) <$> es)))
    as Hp.
  rewrite Hnil in Hp. symmetry in Hp. apply Permutation_nil_r in Hp.
  destruct es as [|e es]; [done|].
  assert (Update.expirationTime e.2 ∈
          remove_dups ((fun e : addr * Update.t => Update.expirationTime e.2)
                         <$> e :: es)) as Hin.
  { apply elem_of_remove_dups. rewrite fmap_cons. left. }
  rewrite Hp in Hin. by apply elem_of_nil in Hin.
Qed.

Lemma priorityLevels_last es D0 :
  last (priorityLevels es) = Some D0 ->
  forall e, e ∈ es -> D0 <= Update.expirationTime e.2.
Proof.
  intros Hlast e He. unfold priorityLevels in Hlast.
  set (xs := remove_dups
               ((fun e : addr * Update.t => Update.expirationTime e.2) <$> es))
    in *.
  assert (Transitive urgentFirst) as Htr
    by (intros a b c; unfold urgentFirst; lia).
  assert (Total urgentFirst) as Htot
    by (intros a b; unfold urgentFirst; lia).
  pose proof (StronglySorted_merge_sort urgentFirst xs) as Hs.
  assert (Update.expirationTime e.2 ∈ merge_sort urgentFirst xs) as Hin.
  { rewrite merge_sort_Permutation. apply elem_of_remove_dups.
    apply list_elem_of_fmap. by exists e. }
  destruct (StronglySorted_last _ _ _ Hs Hlast _ Hin) as [->|Hr];
    [lia|exact Hr].
Qed.

(** C1, as amended. Convergence. For a queue of enqueued records whose
    captured list is empty and whose normal list is not, the queue of the
    fiber, one pass at
    a deadline that makes every record eligible and a series of passes, one
    per distinct deadline of the records from the most urgent level to the
    least urgent one, each on the base state and the remaining list that
    the pass before it left, both return, and both leave the same result
    state in the fiber: every record applied once, in insertion order, to
    the base state. *)
Theorem C1_convergence fuel wip q props inst D0 h fb qr l :
  replayable fuel h wip q fb qr l [] -> Fiber.updateQueue fb = Some q ->
  l <> [] ->
  (forall e, e ∈ entries (updates h) l ->
             ~ lessUrgent (Update.expirationTime e.2) D0) ->
  exists h1 h2,
    processUpdateQueue NoWork Callback ShouldCapture DidCapture fuel wip q
      props inst D0 h = Done tt h1 /\
    renderLevels NoWork Callback ShouldCapture DidCapture fuel wip props inst
      (priorityLevels (entries (updates h) l)) h = Done tt h2 /\
    memoizedStateOf h1 wip = memoizedStateOf h2 wip /\
    memoizedStateOf h2 wip =
      Some (applyAll props inst (Queue.baseState qr) (entries (updates h) l)).
Proof.
  intros Hre Huq Hne Hall.
  assert (forall e, e ∈ entries (updates h) l ->
                    D0 <= Update.expirationTime e.2) as Hall'.
  { intros e He. specialize (Hall e He). unfold lessUrgent in Hall. lia. }
  destruct (wp_elim _ _ _
    (renderLevels_converges fuel wip props inst [D0] h q fb qr l Hre Huq
       ltac:(done) ltac:(by intros D [= <-])))
    as ([] & h1 & Hrun1 & Hm1).
  destruct (wp_elim _ _ _
    (renderLevels_converges fuel wip props inst
       (priorityLevels (entries (updates h) l)) h q fb qr l Hre Huq
       ltac:(apply priorityLevels_nonempty; by destruct l)
       ltac:(apply priorityLevels_last)))
    as ([] & h2 & Hrun2 & Hm2).
  exists h1, h2. split.
  { cbn [renderLevels] in Hrun1. unfold renderAt, bind, readFiber in Hrun1.
    destruct Hre as (Hf & _). rewrite Hf, Huq in Hrun1.
    destruct (processUpdateQueue _ _ _ _ _ _ _ _ _ _ h) as [[] h1'| | |];
      try done. }
  split; [done|]. split; congruence.
Qed.

Lemma Object_assign_merge prev partial :
  exists props',
    Object_assign ∅ [prev; partial] = VObject props' /\
    forall k,
      props' !! k =
        match ownEnumerable partial !! k with
        | Some v => Some v
        | None => ownEnumerable prev !! k
        end.
Proof.
  eexists. split; [reflexivity|]. intros k. simpl.
  rewrite !lookup_union, lookup_empty.
  destruct (ownEnumerable partial !! k), (ownEnumerable prev !! k); done.
Qed.

(** C7. [getStateFromUpdate] on a record of kind MERGE ([UpdateState])
    whose partial state (the payload, or what the payload function returns
    on the instance, the previous state and the props) is [null] or
    [undefined] returns the previous state and leaves the store as it is;
    when the partial state is present it returns [Object.assign] of the
    previous state and then the partial state onto a new empty object, an
    object whose every key holds the value of the partial state if the
    partial state has that key and else that of the previous state; on a
    record of kind REPLACE ([ReplaceState]) it returns the payload, or what
    the payload function returns, whatever the previous state. *)
Theorem C7_merge_and_replace wip q a u prev props inst h :
  updates h !! a = Some u ->
  let partial :=
    match Update.payload u with
    | PFunction f => f inst prev props
    | PValue v => v
    end in
  (Update.tag u = UpdateState ->
   (partial = VNull \/ partial = VUndefined) ->
   getStateFromUpdate ShouldCapture DidCapture wip q a prev props inst h
     = Done prev h) /\
  (Update.tag u = UpdateState ->
   partial <> VNull -> partial <> VUndefined ->
   getStateFromUpdate ShouldCapture DidCapture wip q a prev props inst h
     = Done (Object_assign ∅ [prev; partial]) h /\
   exists props',
     Object_assign ∅ [prev; partial] = VObject props' /\
     forall k,
       props' !! k =
         match ownEnumerable partial !! k with
         | Some v => Some v
         | None => ownEnumerable prev !! k
         end) /\
  (Update.tag u = ReplaceState ->
   getStateFromUpdate ShouldCapture DidCapture wip q a prev props inst h
     = Done partial h).
Proof.
  intros Ha partial. unfold getStateFromUpdate, bind, readUpdate. rewrite Ha.
  split; [|split].
  - intros -> Hp. unfold mergePartialState. fold partial.
    by destruct Hp as [-> | ->].
  - intros -> Hn Hu. split; [|apply Object_assign_merge].
    unfold mergePartialState. fold partial. by destruct partial.
  - intros ->. subst partial. by destruct (Update.payload u).
Qed.

(** C10. When the queue of the work-in-progress fiber is the very queue
    object of the current fiber, [enqueueCapturedUpdate] and
    [processUpdateQueue] both return, and both first give the
    work-in-progress fiber a clone at an address new to the store and write
    to that clone alone: the queue object of the current fiber keeps its
    record (base state, heads and tails of both lists, effect pointers),
    every other fiber keeps its record, and the [next] links of all update
    records stay as they were. The captured update is the head and the tail
    of the captured list of the clone only. *)
Theorem C10_clone_before_write
    fuel wip q props inst D captured h fb qr l :
  fibers h !! wip = Some fb -> Fiber.updateQueue fb = Some q ->
  queues h !! q = Some qr -> sharedWithCurrent h wip q ->
  chain (updates h) (Queue.firstUpdate qr) l -> (length l <= fuel)%nat ->
  (exists h' q' qc,
     enqueueCapturedUpdate wip captured h = Done tt h' /\
     queues h !! q' = None /\
     Fiber.updateQueue <$> fibers h' !! wip = Some (Some q') /\
     queues h' !! q = Some qr /\
     (forall x, x <> wip -> fibers h' !! x = fibers h !! x) /\
     updates h' = updates h /\
     queues h' !! q' = Some qc /\
     Queue.firstCapturedUpdate qc = Some captured /\
     Queue.lastCapturedUpdate qc = Some captured /\
     Queue.baseState qc = Queue.baseState qr /\
     Queue.firstUpdate qc = Queue.firstUpdate qr /\
     Queue.lastUpdate qc = Queue.lastUpdate qr) /\
  (exists h' q',
     processUpdateQueue NoWork Callback ShouldCapture DidCapture fuel wip q
       props inst D h = Done tt h' /\
     queues h !! q' = None /\
     Fiber.updateQueue <$> fibers h' !! wip = Some (Some q') /\
     queues h' !! q = Some qr /\
     (forall x, x <> wip -> fibers h' !! x = fibers h !! x) /\
     stripEffect <$> updates h' = stripEffect <$> updates h /\
     chain (updates h') (Queue.firstUpdate qr) l).
Proof.
  intros Hf Huq Hq Hs Hl Hfl. split.
  - destruct (ensure_shared wip q h qr fb Hf Hq Hs) as (q' & Hfresh & Hens).
    assert (q' <> q) as Hne by congruence.
    set (qw := Queue.mk (Queue.baseState qr) (Queue.firstUpdate qr)
                 (Queue.lastUpdate qr) None None None None None None) in *.
    assert (wp (enqueueCapturedUpdate wip captured) h
              (fun _ h' =>
                 h' = with_queues
                        (<[q' := Queue.set_firstCapturedUpdate (Some captured)
                                   (Queue.set_lastCapturedUpdate
                                      (Some captured) qw)]>
                           (<[q' := qw]> (queues h)))
                        (with_fibers
                           (<[wip := Fiber.set_updateQueue (Some q') fb]>
                              (fibers h))
                           (with_queues (<[q' := qw]> (queues h)) h))))
      as Hwp.
    { unfold enqueueCapturedUpdate.
      wp_go. eapply wp_readFiber; [exact Hf|]. rewrite Huq.
      eapply wp_bind_done; [exact Hens|].
      wp_go. eapply wp_readQueue; [heap_simpl; apply lookup_insert_eq|].
      cbn [Queue.lastCapturedUpdate qw].
      eapply wp_modifyQueue; [heap_simpl; apply lookup_insert_eq|]. done. }
    apply wp_elim in Hwp as ([] & h' & Hrun & ->).
    eexists _, q', _. split; [exact Hrun|]. heap_simpl.
    split; [done|]. rewrite !lookup_insert_eq.
    split; [done|]. split; [by rewrite !lookup_insert_ne|].
    split; [intros x Hx; by rewrite lookup_insert_ne|]. done.
  - destruct (ensure_shared wip q (with_hasForceUpdate false h) qr fb Hf Hq Hs)
      as (q' & Hfresh & Hens). heap_simpl.
    assert (q' <> q) as Hne by congruence.
    set (qw := Queue.mk (Queue.baseState qr) (Queue.firstUpdate qr)
                 (Queue.lastUpdate qr) None None None None None None) in *.
    destruct (wp_elim _ _ _
      (processUpdateQueue_run NoWork Callback ShouldCapture DidCapture fuel
         wip q q' props inst D h _ qw (Fiber.set_updateQueue (Some q') fb)
         l [] Hens (lookup_insert_eq _ _ _) (lookup_insert_eq _ _ _) Hl
         eq_refl ltac:(split; intros e He; done) Hfl ltac:(simpl; lia)))
      as ([] & h' & Hrun & Hres & _).
    destruct Hres as (HU & HQo & _ & HFo & (ff & Hff & _ & _ & _ & Huq') & _).
    heap_simpl. exists h', q'.
    split; [done|]. split; [done|].
    split; [rewrite Hff; simpl; by rewrite Huq'|].
    split; [rewrite HQo by done; by rewrite lookup_insert_ne|].
    split; [intros x Hx; rewrite HFo by done; by rewrite lookup_insert_ne|].
    split; [done|]. by apply (chain_strip (updates h)).
Qed.

End Claims.

(** ** Committing the effects *)

Lemma wpx_bind {A B} (m : M A) (k : A -> M B) h Q E :
  wpx m h (fun a h' => wpx (k a) h' Q E) E -> wpx (bind m k) h Q E.
Proof. unfold wpx, bind. destruct (m h); auto. Qed.

Lemma wpx_mono {A} (m : M A) h (Q Q' : A -> Heap -> Prop)
    (E E' : string -> Heap -> Prop) :
  wpx m h Q E -> (forall a h', Q a h' -> Q' a h') ->
  (forall msg h', E msg h' -> E' msg h') -> wpx m h Q' E'.
Proof. unfold wpx. destruct (m h); auto. Qed.

Lemma wp_wpx {A} (m : M A) h Q E : wp m h Q -> wpx m h Q E.
Proof. unfold wp, wpx. destruct (m h); tauto. Qed.

Ltac wpx_go :=
  lazymatch goal with
  | |- wpx (bind _ _) _ _ _ => apply wpx_bind; wpx_go
  | _ => idtac
  end.

Lemma stripCallback_lookup (us us' : gmap addr Update.t) a :
  stripCallback <$> us' = stripCallback <$> us ->
  stripCallback <$> us' !! a = stripCallback <$> us !! a.
Proof. intros H. by rewrite <- !lookup_fmap, H. Qed.

Lemma effectChain_stripCallback (us us' : gmap addr Update.t) p l :
  stripCallback <$> us' = stripCallback <$> us ->
  effectChain us p l -> effectChain us' p l.
Proof.
  intros H. apply linked_ext. intros x _.
  apply (stripCallback_lookup _ _ x) in H.
  destruct (us' !! x) as [[]|], (us !! x) as [[]|];
    unfold stripCallback, Update.set_callback in *; simpl in *; congruence.
Qed.

Lemma chain_stripCallback (us us' : gmap addr Update.t) p l :
  stripCallback <$> us' = stripCallback <$> us ->
  chain us p l -> chain us' p l.
Proof.
  intros H. apply linked_ext. intros x _.
  apply (stripCallback_lookup _ _ x) in H.
  destruct (us' !! x) as [[]|], (us !! x) as [[]|];
    unfold stripCallback, Update.set_callback in *; simpl in *; congruence.
Qed.

Lemma entries_agree (us us' : gmap addr Update.t) l :
  (forall x, x ∈ l -> us' !! x = us !! x) -> entries us' l = entries us l.
Proof.
  intros H. unfold entries. apply list_fmap_ext. intros i a Ha. f_equal.
  rewrite !lookup_total_alt, H; [done|]. by eapply list_elem_of_lookup_2.
Qed.

Lemma effectsCommitted_refl l h : effectsCommitted l [] h h.
Proof.
  repeat split; try done. intros x Hx. by apply elem_of_nil in Hx.
Qed.

Lemma callsOf_cons inst e es :
  callsOf inst (e :: es) =
  match callbackId (Update.callback e.2) with
  | Some id => (id, inst) :: callsOf inst es
  | None => callsOf inst es
  end.
Proof. unfold callsOf. simpl. by destruct (callbackId _). Qed.

(** [commitUpdateEffects] on a well-formed effect list: it returns when
    every callback on the list is callable or [null], having logged the
    callable ones in list order and cleared them; it throws at the first
    callback that is neither, having logged the callable ones in front of
    it. *)
Lemma commitUpdateEffects_wpx inst l : forall fuel p h,
  effectChain (updates h) p l -> (length l <= fuel)%nat ->
  wpx (commitUpdateEffects fuel p inst) h
    (fun _ h' =>
       Forall (fun e => callable e = true) (entries (updates h) l) /\
       calls h' = calls h ++ callsOf inst (entries (updates h) l) /\
       effectsCommitted l l h h')
    (fun msg h' =>
       exists l1 a l2,
         l = l1 ++ a :: l2 /\
         Forall (fun e => callable e = true) (entries (updates h) l1) /\
         callable (a, updates h !!! a) = false /\
         msg = invalidCallbackMessage
                 (shownCallback (Update.callback (updates h !!! a))) /\
         calls h' = calls h ++ callsOf inst (entries (updates h) l1) /\
         effectsCommitted l (l1 ++ [a]) h h').
Proof.
  induction l as [|a l IH]; intros fuel p h Hch Hfuel.
  - apply linked_head in Hch. simpl in Hch. subst p. destruct fuel; simpl.
    all: split; [constructor|]; split; [by rewrite app_nil_r|];
      apply effectsCommitted_refl.
  - pose proof (linked_NoDup _ _ _ _ Hch) as Hnd.
    apply NoDup_cons in Hnd as [Hnotin _].
    apply linked_cons in Hch as [-> (u & Hu & Hch)].
    destruct fuel as [|fuel]; [simpl in Hfuel; lia|].
    cbn [commitUpdateEffects].
    wpx_go. apply wp_wpx. eapply wp_readUpdate; [exact Hu|].
    rewrite (entries_cons _ _ _ _ Hu).
    assert (updates h !!! a = u) as Htot by (by apply lookup_total_correct).
    destruct (Update.callback u) as [|id|shown] eqn:Hcb.
    + wpx_go. apply wp_wpx, wp_ret.
      wpx_go. apply wp_wpx. eapply wp_readUpdate; [exact Hu|].
      eapply wpx_mono; [apply IH; [exact Hch|simpl in Hfuel; lia]|..].
      * intros _ h' (Hall & Hcalls & HU & Hoff & Hdone & HQ & HF).
        split; [constructor; [unfold callable; simpl; by rewrite Hcb|done]|].
        split; [rewrite callsOf_cons; simpl; by rewrite Hcb|].
        split; [done|]. split; [intros x Hx; apply Hoff; set_solver|].
        split; [|done].
        intros x Hx. apply elem_of_cons in Hx as [->|Hx]; [|by apply Hdone].
        rewrite Hoff, Hu by done. simpl. by rewrite Hcb.
      * intros msg h' (l1 & a0 & l2 & -> & Hall & Hbad & -> & Hcalls &
                        HU & Hoff & Hdone & HQ & HF).
        exists (a :: l1), a0, l2. split; [done|].
        split.
        { rewrite (entries_cons _ _ _ _ Hu). constructor; [|done].
          unfold callable. simpl. by rewrite Hcb. }
        split; [done|]. split; [done|].
        split.
        { rewrite (entries_cons _ _ _ _ Hu), callsOf_cons. simpl.
          by rewrite Hcb. }
        split; [done|]. split; [intros x Hx; apply Hoff; set_solver|].
        split; [|done].
        intros x Hx. simpl in Hx.
        apply elem_of_cons in Hx as [->|Hx]; [|by apply Hdone].
        rewrite Hoff, Hu by done. simpl. by rewrite Hcb.
    + wpx_go. apply wp_wpx. eapply wp_modifyUpdate; [exact Hu|].
      apply wp_wpx. unfold wp, callCallback. heap_simpl.
      wpx_go. apply wp_wpx.
      eapply wp_readUpdate; [heap_simpl; apply lookup_insert_eq|].
      cbn [Update.nextEffect Update.set_callback].
      set (h1 := with_calls _ _).
      assert (stripCallback <$> updates h1 = stripCallback <$> updates h) as HU1.
      { unfold h1. heap_simpl. rewrite fmap_insert. apply insert_id.
        by rewrite lookup_fmap, Hu. }
      assert (forall x, x <> a -> updates h1 !! x = updates h !! x) as Hoff1.
      { intros x Hx. unfold h1. heap_simpl. by rewrite lookup_insert_ne. }
      assert (entries (updates h1) l = entries (updates h) l) as Hent.
      { apply entries_agree. intros x Hx. apply Hoff1. congruence. }
      eapply wpx_mono;
        [apply IH; [by apply (effectChain_stripCallback (updates h))
                   |simpl in Hfuel; lia]|..].
      * intros _ h' (Hall & Hcalls & HU & Hoff & Hdone & HQ & HF).
        rewrite Hent in Hall, Hcalls.
        split; [constructor; [unfold callable; simpl; by rewrite Hcb|done]|].
        split.
        { rewrite Hcalls, callsOf_cons. simpl. rewrite Hcb. simpl.
          unfold h1. heap_simpl. by rewrite <- app_assoc. }
        split; [congruence|].
        split; [intros x Hx; rewrite Hoff, Hoff1; set_solver|].
        split; [|done].
        intros x Hx. apply elem_of_cons in Hx as [->|Hx]; [|by apply Hdone].
        rewrite Hoff by done. unfold h1. heap_simpl.
        by rewrite lookup_insert_eq.
      * intros msg h' (l1 & a0 & l2 & -> & Hall & Hbad & -> & Hcalls &
                        HU & Hoff & Hdone & HQ & HF).
        assert (a0 <> a) as Hne by (intros ->; apply Hnotin; set_solver).
        rewrite (entries_agree (updates h) (updates h1) l1) in Hall, Hcalls
          by (intros x Hx; apply Hoff1; intros ->; apply Hnotin; set_solver).
        assert (updates h1 !!! a0 = updates h !!! a0) as Ha0
          by (by rewrite !lookup_total_alt, Hoff1).
        rewrite Ha0 in Hbad.
        exists (a :: l1), a0, l2. split; [done|].
        split.
        { rewrite (entries_cons _ _ _ _ Hu). constructor; [|done].
          unfold callable. simpl. by rewrite Hcb. }
        split; [done|]. split; [by rewrite Ha0|].
        split.
        { rewrite Hcalls, (entries_cons _ _ _ _ Hu), callsOf_cons. simpl.
          rewrite Hcb. simpl. unfold h1. heap_simpl. by rewrite <- app_assoc. }
        split; [congruence|].
        split; [intros x Hx; rewrite Hoff, Hoff1; set_solver|].
        split; [|done].
        intros x Hx. simpl in Hx.
        apply elem_of_cons in Hx as [->|Hx]; [|by apply Hdone].
        rewrite Hoff by done. unfold h1. heap_simpl.
        by rewrite lookup_insert_eq.
    + wpx_go. apply wp_wpx. eapply wp_modifyUpdate; [exact Hu|].
      unfold wpx, callCallback, throw.
      exists [], a, l. split; [done|]. split; [constructor|].
      rewrite Htot. unfold callable. simpl. rewrite Hcb.
      split; [done|]. split; [done|]. unfold effectsCommitted. heap_simpl.
      split; [by rewrite app_nil_r|].
      split.
      { rewrite fmap_insert. apply insert_id. by rewrite lookup_fmap, Hu. }
      split; [intros x Hx; rewrite lookup_insert_ne; set_solver|].
      split; [|done].
      intros x Hx. apply list_elem_of_singleton in Hx as ->.
      by rewrite lookup_insert_eq.
Qed.

Section Commit.
Variables (NoWork Callback ShouldCapture DidCapture : Z).

Lemma callsOf_agree inst (us us' : gmap addr Update.t) l :
  (forall x, x ∈ l ->
     Update.callback <$> us' !! x = Update.callback <$> us !! x) ->
  callsOf inst (entries us' l) = callsOf inst (entries us l) /\
  (Forall (fun e => callable e = true) (entries us' l) <->
   Forall (fun e => callable e = true) (entries us l)).
Proof.
  induction l as [|a l IH]; intros H; [done|].
  destruct IH as [IH1 IH2]; [intros x Hx; apply H; by right|].
  pose proof (H a (list_elem_of_here _ _)) as Ha.
  assert (Update.callback (us' !!! a) = Update.callback (us !!! a)) as Hc.
  { rewrite !lookup_total_alt.
    destruct (us' !! a), (us !! a); simpl in *; congruence. }
  unfold entries in *. rewrite !fmap_cons, !callsOf_cons, !Forall_cons.
  unfold callable at 1 3. simpl. rewrite Hc, IH1, IH2. done.
Qed.

Lemma callsOf_app inst es1 es2 :
  callsOf inst (es1 ++ es2) = callsOf inst es1 ++ callsOf inst es2.
Proof. unfold callsOf. apply omap_app. Qed.

Lemma entries_app us l1 l2 :
  entries us (l1 ++ l2) = entries us l1 ++ entries us l2.
Proof. unfold entries. apply fmap_app. Qed.

Lemma stripCallback_next (us us' : gmap addr Update.t) :
  stripCallback <$> us' = stripCallback <$> us ->
  forall x, Update.next <$> us' !! x = Update.next <$> us !! x.
Proof.
  intros H x. apply (stripCallback_lookup _ _ x) in H.
  destruct (us' !! x) as [[]|], (us !! x) as [[]|];
    unfold stripCallback, Update.set_callback in *; simpl in *; congruence.
Qed.

(** The first statement of [commitUpdateQueue], the join of the captured
    list to the normal list. *)
Lemma commit_join_wp fuel q h qr l lc le lce
    (Q : unit -> Heap -> Prop) :
  committable fuel h q qr l lc le lce ->
  (forall h1 qf,
     commitQueueResult q qr l lc h1 ->
     queues h1 !! q = Some qf ->
     Queue.firstEffect qf = Queue.firstEffect qr ->
     Queue.firstCapturedEffect qf = Queue.firstCapturedEffect qr ->
     (forall x, Update.nextEffect <$> updates h1 !! x
                = Update.nextEffect <$> updates h !! x) ->
     (forall x, Update.callback <$> updates h1 !! x
                = Update.callback <$> updates h !! x) ->
     (forall x, x <> q -> queues h1 !! x = queues h !! x) ->
     fibers h1 = fibers h -> calls h1 = calls h ->
     Q tt h1) ->
  wp (match Queue.firstCapturedUpdate qr with
      | Some firstCaptured =>
          let* _ :=
            match Queue.lastUpdate qr with
            | Some last =>
                let* _ :=
                  modifyUpdate last (Update.set_next (Some firstCaptured)) in
                modifyQueue q
                  (fun q => Queue.set_lastUpdate (Queue.lastCapturedUpdate q) q)
            | None => ret tt
            end in
          modifyQueue q
            (fun q => Queue.set_firstCapturedUpdate None
                        (Queue.set_lastCapturedUpdate None q))
      | None => ret tt
      end) h Q.
Proof.
  intros (Hq & Hl & Hlast & Hlc & Hdisj & Hle & Hlce & Hedisj & _) HQ.
  destruct lc as [|c lc].
  { apply linked_head in Hlc. simpl in Hlc. rewrite Hlc. apply wp_ret.
    apply (HQ h qr); try done. exists qr. by rewrite Hlc. }
  pose proof (linked_head _ _ _ _ Hlc) as Hfc. simpl in Hfc. rewrite Hfc.
  destruct l as [|a l].
  { simpl in Hlast. rewrite Hlast. wp_go. apply wp_ret.
    eapply wp_modifyQueue; [exact Hq|]. heap_simpl.
    eapply (HQ _ (Queue.set_firstCapturedUpdate None
                    (Queue.set_lastCapturedUpdate None qr))); heap_simpl.
    - eexists. split; [apply lookup_insert_eq|]. simpl.
      apply linked_head in Hl. simpl in Hl. by rewrite Hl.
    - apply lookup_insert_eq.
    - done.
    - done.
    - done.
    - done.
    - intros x Hx. by rewrite lookup_insert_ne.
    - done.
    - done. }
  destruct (last (a :: l)) as [t|] eqn:Ht;
    [|by apply last_None in Ht].
  rewrite Hlast.
  assert (t ∈ a :: l) as Htin by (by apply last_Some_elem_of).
  destruct (linked_lookup _ _ _ _ _ Hl Htin) as [ut Hut].
  wp_go. eapply wp_modifyUpdate; [exact Hut|].
  wp_go. eapply wp_modifyQueue; [exact Hq|].
  eapply wp_modifyQueue; [heap_simpl; apply lookup_insert_eq|]. heap_simpl.
  eapply (HQ _ (Queue.set_firstCapturedUpdate None
                  (Queue.set_lastCapturedUpdate None
                     (Queue.set_lastUpdate (Queue.lastCapturedUpdate qr) qr))));
    heap_simpl.
  - eexists. split; [apply lookup_insert_eq|]. simpl.
    do 5 (split; [done|]).
    eapply (linked_app _ (updates h) _ _ (a :: l) t (Some c) (c :: lc));
      [exact Hl|exact Ht| | |].
    + intros x Hx Hne. by rewrite lookup_insert_ne.
    + by rewrite lookup_insert_eq.
    + rewrite Hfc in Hlc. eapply linked_ext; [|exact Hlc]. intros x Hx.
      rewrite lookup_insert_ne; [done|]. intros ->. by apply (Hdisj x).
  - apply lookup_insert_eq.
  - done.
  - done.
  - intros x. destruct (decide (x = t)) as [->|Hne].
    + by rewrite lookup_insert_eq, Hut.
    + by rewrite lookup_insert_ne.
  - intros x. destruct (decide (x = t)) as [->|Hne].
    + by rewrite lookup_insert_eq, Hut.
    + by rewrite lookup_insert_ne.
  - intros x Hx. by rewrite !lookup_insert_ne.
  - done.
  - done.
Qed.

Lemma wpx_elim {A} (m : M A) h Q E :
  wpx m h Q E ->
  (exists a h', m h = Done a h' /\ Q a h') \/
  (exists msg h', m h = Throw msg h' /\ E msg h').
Proof. unfold wpx. destruct (m h); try tauto; eauto. Qed.

(** [commitUpdateQueue] on a well-formed queue: the captured list is joined
    or dropped; then either every callback of the two effect lists is
    callable and all are logged, the normal effects first, each list in its
    order, cleared, and the effect pointers reset; or the first callback
    that is not callable throws the invariant error. *)
Lemma commitUpdateQueue_wpx fuel fw q inst D h qr l lc le lce :
  committable fuel h q qr l lc le lce ->
  wpx (commitUpdateQueue fuel fw q inst D) h
    (fun _ h' =>
       Forall (fun e => callable e = true) (entries (updates h) (le ++ lce)) /\
       calls h' = calls h ++ callsOf inst (entries (updates h) (le ++ lce)) /\
       commitQueueResult q qr l lc h' /\
       (forall x, x ∈ le ++ lce ->
          Update.callback <$> updates h' !! x = Some CNull) /\
       (forall x, x ∉ le ++ lce ->
          Update.callback <$> updates h' !! x
          = Update.callback <$> updates h !! x) /\
       (exists qf, queues h' !! q = Some qf /\
          effectPointers false qf = (None, None) /\
          effectPointers true qf = (None, None)) /\
       fibers h' = fibers h)
    (fun msg h' =>
       ~ Forall (fun e => callable e = true)
           (entries (updates h) (le ++ lce)) /\
       (exists shown, msg = invalidCallbackMessage shown) /\
       commitQueueResult q qr l lc h').
Proof.
  intros Hc. pose proof Hc as
    (Hq & Hl & Hlast & Hlc & Hdisj & Hle & Hlce & Hedisj & Hfle & Hflce).
  unfold commitUpdateQueue.
  wpx_go. apply wp_wpx. eapply wp_readQueue; [exact Hq|].
  wpx_go. apply wp_wpx. eapply commit_join_wp; [exact Hc|].
  intros h1 qf Hres Hqf Hfe Hfce Hne1 Hcb1 HQo1 HF1 HC1.
  wpx_go. apply wp_wpx. eapply wp_readQueue; [exact Hqf|]. rewrite Hfe.
  assert (effectChain (updates h1) (Queue.firstEffect qr) le) as Hle1
    by (eapply linked_ext; [|exact Hle]; intros x _; apply Hne1).
  assert (effectChain (updates h1) (Queue.firstCapturedEffect qr) lce) as Hlce1
    by (eapply linked_ext; [|exact Hlce]; intros x _; apply Hne1).
  destruct (callsOf_agree inst (updates h) (updates h1) le
              (fun x _ => Hcb1 x)) as [Hcalls_le Hall_le].
  destruct (callsOf_agree inst (updates h) (updates h1) lce
              (fun x _ => Hcb1 x)) as [Hcalls_lce Hall_lce].
  apply wpx_bind.
  eapply wpx_mono; [exact (commitUpdateEffects_wpx inst le fuel _ h1 Hle1 Hfle)|..].
  2:{ intros msg h2 (l1 & a & l2 & -> & Hall & Hbad & -> & Hcalls & HU2 & Hoff2
                       & _ & HQ2 & HF2).
      rewrite entries_app, Forall_app.
      split.
      { intros [Hall' _]. apply Hall_le in Hall'.
        rewrite entries_app in Hall'. apply Forall_app in Hall' as [_ Hall'].
        unfold entries in Hall'. rewrite fmap_cons in Hall'.
        apply Forall_cons in Hall' as [Hall' _].
        unfold callable in *. simpl in *. congruence. }
      split; [by eexists|].
      destruct Hres as (qf' & Hqf' & Hres). exists qf'.
      rewrite HQ2. split; [done|].
      destruct Hres as (? & ? & Hres). do 2 (split; [done|]).
      destruct lc as [|c lc], l as [|b l];
        destruct Hres as (? & ? & ? & Hch);
        (split; [done|]); (split; [done|]); (split; [done|]);
        by apply (chain_stripCallback (updates h1)). }
  intros _ h2 (Hall2 & Hcalls2 & HU2 & Hoff2 & Hdone2 & HQ2 & HF2). cbv beta.
  wpx_go. apply wp_wpx.
  eapply wp_modifyQueue; [by rewrite HQ2|].
  wpx_go. apply wp_wpx.
  eapply wp_readQueue; [heap_simpl; apply lookup_insert_eq|].
  cbn [Queue.firstCapturedEffect Queue.set_firstEffect Queue.set_lastEffect].
  rewrite Hfce.
  set (h3 := with_queues _ h2).
  assert (effectChain (updates h3) (Queue.firstCapturedEffect qr) lce) as Hlce3
    by (by apply (effectChain_stripCallback (updates h1))).
  assert (entries (updates h3) lce = entries (updates h1) lce) as Hent3.
  { apply entries_agree. intros x Hx. apply Hoff2. intros Hin.
    by apply (Hedisj x). }
  apply wpx_bind.
  eapply wpx_mono;
    [exact (commitUpdateEffects_wpx inst lce fuel _ h3 Hlce3 Hflce)|..].
  2:{ intros msg h4 (l1 & a & l2 & -> & Hall & Hbad & -> & Hcalls & HU4 & Hoff4
                       & _ & HQ4 & HF4).
      rewrite entries_app, Forall_app.
      split.
      { intros [_ Hall']. apply Hall_lce in Hall'. rewrite <- Hent3 in Hall'.
        rewrite entries_app in Hall'. apply Forall_app in Hall' as [_ Hall'].
        unfold entries in Hall'. rewrite fmap_cons in Hall'.
        apply Forall_cons in Hall' as [Hall' _].
        unfold callable in *. simpl in *. congruence. }
      split; [by eexists|].
      destruct Hres as (qf' & Hqf' & Hres).
      assert (qf' = qf) as -> by congruence.
      eexists. rewrite HQ4. unfold h3. heap_simpl.
      split; [apply lookup_insert_eq|]. simpl.
      destruct Hres as (? & ? & Hres). do 2 (split; [done|]).
      assert (stripCallback <$> updates h4 = stripCallback <$> updates h1)
        as HU41 by (rewrite HU4; unfold h3; heap_simpl; done).
      destruct lc as [|c lc], l as [|b l];
        destruct Hres as (? & ? & ? & Hch);
        (split; [done|]); (split; [done|]); (split; [done|]);
        by apply (chain_stripCallback (updates h1)). }
  intros _ h4 (Hall4 & Hcalls4 & HU4 & Hoff4 & Hdone4 & HQ4 & HF4). cbv beta.
  eapply wp_wpx, wp_modifyQueue.
  { rewrite HQ4. unfold h3. heap_simpl. apply lookup_insert_eq. }
  heap_simpl. rewrite Hent3 in Hall4, Hcalls4.
  rewrite entries_app, callsOf_app, Forall_app.
  assert (stripCallback <$> updates h4 = stripCallback <$> updates h1)
    as HU41 by (rewrite HU4; unfold h3; heap_simpl; done).
  split; [split; [by apply Hall_le|by apply Hall_lce]|].
  split.
  { rewrite Hcalls4. unfold h3. heap_simpl.
    rewrite Hcalls2, HC1, Hcalls_le, Hcalls_lce. by rewrite app_assoc. }
  split.
  { destruct Hres as (qf' & Hqf' & Hres).
    assert (qf' = qf) as -> by congruence.
    eexists. split; [apply lookup_insert_eq|]. simpl.
    destruct Hres as (? & ? & Hres). do 2 (split; [done|]).
    destruct lc as [|c lc], l as [|b l];
      destruct Hres as (? & ? & ? & Hch);
      (split; [done|]); (split; [done|]); (split; [done|]);
      by apply (chain_stripCallback (updates h1)). }
  split.
  { intros x Hx. apply elem_of_app in Hx as [Hx|Hx].
    - destruct (decide (x ∈ lce)) as [Hin|Hnin]; [by apply Hdone4|].
      rewrite Hoff4 by done. unfold h3. heap_simpl. by apply Hdone2.
    - by apply Hdone4. }
  split.
  { intros x Hx. rewrite Hoff4 by set_solver. unfold h3. heap_simpl.
    rewrite Hoff2 by set_solver. apply Hcb1. }
  split.
  { eexists. split; [apply lookup_insert_eq|]. done. }
  rewrite HF4. unfold h3. heap_simpl. congruence.
Qed.

(** C3, as amended. For a finished queue whose captured list is not empty
    at commit time, [commitUpdateQueue] comes to an end, returning or
    throwing the invalid-callback error, and in either case it has cleared
    the captured pointers; when the normal list is not empty it has joined
    the whole captured list to the end of the normal list, so that every
    captured record is on the list from [firstUpdate], whose tail is the
    former captured tail; when the normal list is empty ([lastUpdate] is
    [null]) it has left the normal list empty, and the captured list is on
    no list of the queue. *)
Theorem C3_captured_list_joined fuel fw q inst D h qr l lc le lce :
  committable fuel h q qr l lc le lce -> lc <> [] ->
  exists h' qf,
    (commitUpdateQueue fuel fw q inst D h = Done tt h' \/
     exists msg, commitUpdateQueue fuel fw q inst D h = Throw msg h') /\
    queues h' !! q = Some qf /\
    Queue.firstCapturedUpdate qf = None /\
    Queue.lastCapturedUpdate qf = None /\
    Queue.firstUpdate qf = Queue.firstUpdate qr /\
    (l <> [] ->
     chain (updates h') (Queue.firstUpdate qf) (l ++ lc) /\
     Queue.lastUpdate qf = Queue.lastCapturedUpdate qr) /\
    (l = [] ->
     Queue.firstUpdate qf = None /\ Queue.lastUpdate qf = None /\
     chain (updates h') (Queue.firstUpdate qf) []).
Proof.
  intros Hc Hne.
  assert (forall h', commitQueueResult q qr l lc h' ->
    exists qf,
      queues h' !! q = Some qf /\
      Queue.firstCapturedUpdate qf = None /\
      Queue.lastCapturedUpdate qf = None /\
      Queue.firstUpdate qf = Queue.firstUpdate qr /\
      (l <> [] ->
       chain (updates h') (Queue.firstUpdate qf) (l ++ lc) /\
       Queue.lastUpdate qf = Queue.lastCapturedUpdate qr) /\
      (l = [] ->
       Queue.firstUpdate qf = None /\ Queue.lastUpdate qf = None /\
       chain (updates h') (Queue.firstUpdate qf) [])) as Hres.
  { intros h' (qf & Hqf & _ & Hfu & Hcase). exists qf.
    destruct lc as [|c lc]; [done|].
    destruct l as [|a l]; destruct Hcase as (Hlu & Hfc & Hlc & Hch).
    - do 4 (split; [done|]). split; [done|]. intros _.
      split; [|done]. simpl in Hch. done.
    - do 4 (split; [done|]). split; [|done]. intros _.
      split; done. }
  destruct (wpx_elim _ _ _ _
    (commitUpdateQueue_wpx fuel fw q inst D h qr l lc le lce Hc))
    as [([] & h' & Hrun & _ & _ & Hr & _)|(msg & h' & Hrun & _ & _ & Hr)];
    destruct (Hres h' Hr) as (qf & Hqf); exists h', qf; (split; [|done]).
  - by left.
  - right. by exists msg.
Qed.

(** C4. [enqueueUpdate] on a fiber whose alternate exists, both holding
    queues that are distinct objects with non-empty lists ending in one and
    the same record [t]: the call returns; it allocates no record and no
    queue, and writes one record only, the [next] link of [t], so the
    record [u] handed in is appended once, physically; the [lastUpdate] of
    both queues is [u]; the list from the [firstUpdate] of either queue is
    its former list followed by [u], which therefore holds [u] exactly
    once: a replay of either queue meets [u] once, after all earlier
    records, never twice and never not at all. *)
Theorem C4_append_once_to_shared_tail
    fiber alternate q1 q2 u h fb ab r1 r2 l1 l2 t ur :
  fibers h !! fiber = Some fb -> Fiber.alternate fb = Some alternate ->
  fibers h !! alternate = Some ab ->
  Fiber.updateQueue fb = Some q1 -> Fiber.updateQueue ab = Some q2 ->
  q1 <> q2 ->
  queues h !! q1 = Some r1 -> queues h !! q2 = Some r2 ->
  chain (updates h) (Queue.firstUpdate r1) l1 ->
  chain (updates h) (Queue.firstUpdate r2) l2 ->
  Queue.lastUpdate r1 = Some t -> Queue.lastUpdate r2 = Some t ->
  last l1 = Some t -> last l2 = Some t ->
  updates h !! u = Some ur -> Update.next ur = None ->
  u ∉ l1 -> u ∉ l2 ->
  exists h' r1' r2' ut,
    enqueueUpdate fiber u h = Done tt h' /\
    updates h !! t = Some ut /\
    updates h' = <[t := Update.set_next (Some u) ut]> (updates h) /\
    dom (updates h') = dom (updates h) /\
    dom (queues h') = dom (queues h) /\
    queues h' !! q1 = Some r1' /\ queues h' !! q2 = Some r2' /\
    Queue.lastUpdate r1' = Some u /\ Queue.lastUpdate r2' = Some u /\
    chain (updates h') (Queue.firstUpdate r1') (l1 ++ [u]) /\
    chain (updates h') (Queue.firstUpdate r2') (l2 ++ [u]) /\
    NoDup (l1 ++ [u]) /\ NoDup (l2 ++ [u]).
Proof.
  intros Hf Halt Ha Hq1 Hq2 Hne Hr1 Hr2 Hl1 Hl2 Ht1 Ht2 Hlast1 Hlast2 Hu Hnext
    Hu1 Hu2.
  assert (t ∈ l1) as Htin by (by apply last_Some_elem_of).
  destruct (linked_lookup _ _ _ _ _ Hl1 Htin) as [ut Hut].
  assert (u <> t) as Hut_ne by congruence.
  set (us' := <[t := Update.set_next (Some u) ut]> (updates h)).
  set (qs' := <[q2 := Queue.set_lastUpdate (Some u) r2]>
                (<[q1 := Queue.set_lastUpdate (Some u) r1]> (queues h))).
  assert (wp (enqueueUpdate fiber u) h
            (fun _ h' => h' = with_queues qs'
                                (with_queues
                                   (<[q1 := Queue.set_lastUpdate (Some u) r1]>
                                      (queues h))
                                   (with_updates us' h)))) as Hwp.
  { unfold enqueueUpdate.
    wp_go. eapply wp_readFiber; [exact Hf|]. rewrite Halt.
    wp_go. eapply wp_readFiber; [exact Ha|]. rewrite Hq1, Hq2.
    apply wp_ret. cbv beta iota. rewrite decide_False by done.
    wp_go. eapply wp_readQueue; [exact Hr1|].
    wp_go. eapply wp_readQueue; [exact Hr2|]. rewrite Ht1, Ht2.
    unfold appendUpdateToQueue.
    wp_go. eapply wp_readQueue; [exact Hr1|]. rewrite Ht1.
    wp_go. eapply wp_modifyUpdate; [exact Hut|].
    eapply wp_modifyQueue; [exact Hr1|].
    eapply wp_modifyQueue; [heap_simpl; by rewrite lookup_insert_ne|].
    done. }
  apply wp_elim in Hwp as ([] & h' & Hrun & ->).
  assert (forall l p, chain (updates h) p l -> last l = Some t -> u ∉ l ->
                      chain us' p (l ++ [u])) as Happ.
  { intros l p Hl Hlast Hnin.
    eapply (linked_app _ (updates h) us' p l t (Some u) [u]);
      [exact Hl|exact Hlast| | |].
    - intros x Hx Hxt. unfold us'. by rewrite lookup_insert_ne.
    - unfold us'. by rewrite lookup_insert_eq.
    - simpl. split; [done|]. unfold us'.
      by rewrite lookup_insert_ne, Hu by done. }
  eexists. exists (Queue.set_lastUpdate (Some u) r1),
    (Queue.set_lastUpdate (Some u) r2), ut.
  split; [exact Hrun|]. heap_simpl. split; [done|]. split; [done|].
  split.
  { unfold us'. rewrite dom_insert_L.
    assert (t ∈ dom (updates h)) by (apply elem_of_dom; eauto). set_solver. }
  split.
  { unfold qs'. rewrite !dom_insert_L.
    assert (q1 ∈ dom (queues h)) by (apply elem_of_dom; eauto).
    assert (q2 ∈ dom (queues h)) by (apply elem_of_dom; eauto). set_solver. }
  unfold qs'.
  split; [by rewrite lookup_insert_ne, lookup_insert_eq|].
  split; [by rewrite lookup_insert_eq|].
  split; [done|]. split; [done|].
  split; [by apply Happ|]. split; [by apply Happ|].
  split; apply NoDup_app; (split; [by eapply linked_NoDup|]);
    (split; [|apply NoDup_singleton]);
    intros x Hx Hx'; apply list_elem_of_singleton in Hx'; congruence.
Qed.

Lemma entries_of_effects D us l :
  entries us (effectsOf D (entries us l)) =
  filter (fun e => hasCallback e = true) (appliedBy D (entries us l)).
Proof.
  unfold effectsOf, appliedBy. rewrite list_filter_filter.
  induction l as [|a l IH]; [done|].
  unfold entries in *. rewrite fmap_cons, !filter_cons.
  destruct (decide _) as [[H1 H2]|Hn].
  - rewrite decide_True by done. rewrite !fmap_cons. simpl. by rewrite IH.
  - rewrite decide_False by tauto. apply IH.
Qed.

Lemma effectsOf_length D us l :
  (length (effectsOf D (entries us l)) <= length l)%nat.
Proof.
  unfold effectsOf. rewrite length_fmap.
  etrans; [apply length_filter|]. unfold entries. by rewrite length_fmap.
Qed.

Lemma last_drop_nonempty {A} (l : list A) i :
  drop i l <> [] -> last (drop i l) = last l.
Proof.
  revert i. induction l as [|a l IH]; intros [|i] Hne; try done.
  simpl in *. rewrite IH by done.
  destruct l as [|b l]; [by destruct i|done].
Qed.

Lemma remaining_fst_subseteq D us l x :
  x ∈ (remaining D (entries us l)).*1 -> x ∈ l.
Proof.
  destruct (remaining_entries D us l) as (i & _ & -> & _).
  intros Hx. by apply (subseteq_drop i l).
Qed.

Lemma effectsOf_in D us l x : x ∈ effectsOf D (entries us l) -> x ∈ l.
Proof.
  intros Hx. apply effectsOf_subseteq in Hx. by rewrite entries_fst in Hx.
Qed.

Lemma renderAndCommit_wpx fuel wip q props inst D h fb qr l lc :
  replayable fuel h wip q fb qr l lc -> Fiber.updateQueue fb = Some q ->
  effectPointers false qr = (None, None) ->
  effectPointers true qr = (None, None) ->
  (forall x, x ∈ l -> x ∉ lc) -> Queue.lastUpdate qr = last l ->
  let applied :=
    appliedWithCallback D (entries (updates h) l) (entries (updates h) lc) in
  wpx (renderAndCommit NoWork Callback ShouldCapture DidCapture fuel wip props
         inst D) h
    (fun _ h2 =>
       Forall (fun e => callable e = true) applied /\
       calls h2 = calls h ++ callsOf inst applied /\
       (forall e, e ∈ applied ->
          Update.callback <$> updates h2 !! e.1 = Some CNull))
    (fun msg h2 =>
       ~ Forall (fun e => callable e = true) applied /\
       exists shown, msg = invalidCallbackMessage shown).
Proof.
  intros Hre Huq Hne Hce Hdisj Hlast applied.
  pose proof Hre as (Hf & Hq & Hc & Hl & Hlc & Hsh & Htl & Hfl & Hflc).
  unfold renderAndCommit. apply wpx_bind. unfold renderAt.
  apply wpx_bind, wp_wpx. eapply wp_readFiber; [exact Hf|]. rewrite Huq.
  apply wp_wpx. eapply wp_mono;
    [exact (processUpdateQueue_spec NoWork Callback ShouldCapture DidCapture
              fuel wip q props inst D h fb qr l lc Hf Hq Hc Hl Hlc Hsh Htl
              Hfl Hflc)|].
  intros _ h1 (q' & fbw & Hon & Hres & Heff). cbv beta.
  specialize (Heff Hne Hce Hdisj).
  destruct Hres
    as (HU & _ & (qf & Hqf & Hb & Hfu & Hfcu & Hlu & Hlcu & Htl') & HFo &
        (ff & Hff & Hm & _ & Halt & Huq') & HC).
  destruct Heff as (qf' & Hqf' & Hle & Hlce).
  assert (qf' = qf) as -> by congruence.
  destruct (passLocals_fields NoWork props inst D qr (entries (updates h) l)
              (entries (updates h) lc)) as (_ & _ & F & FC & _).
  set (es := entries (updates h) l) in *.
  set (cs := entries (updates h) lc) in *.
  assert (Fiber.updateQueue fbw = Some q') as Hu.
  { destruct Hon as [(_ & -> & ->)|(_ & _ & ->)]; done. }
  wpx_go. apply wp_wpx. eapply wp_readFiber; [exact Hff|]. rewrite Huq', Hu.
  destruct (remaining_entries D (updates h) l) as (i & _ & Hfst & _).
  destruct (remaining_entries D (updates h) lc) as (j & _ & Hfstc & _).
  fold es in Hfst. fold cs in Hfstc.
  assert (committable fuel h1 q' qf (remaining D es).*1 (remaining D cs).*1
            (effectsOf D es) (effectsOf D cs)) as Hcom.
  { unfold committable. split; [done|].
    split.
    { rewrite Hfu, F, Hfst. apply (chain_strip (updates h)); [done|].
      exact (linked_drop _ _ _ _ i Hl). }
    split.
    { rewrite Hlu, F, Hfst. destruct (decide (drop i l = [])) as [Hd|Hd].
      - by rewrite Hd.
      - rewrite (last_drop_nonempty l i Hd), Hlast.
        by destruct (drop i l). }
    split.
    { rewrite Hfcu, FC, Hfstc. apply (chain_strip (updates h)); [done|].
      exact (linked_drop _ _ _ _ j Hlc). }
    split.
    { intros x Hx Hx'. apply remaining_fst_subseteq in Hx, Hx'.
      by apply (Hdisj x). }
    split; [done|]. split; [done|].
    split.
    { intros x Hx Hx'. apply effectsOf_in in Hx, Hx'. by apply (Hdisj x). }
    split; (etrans; [apply effectsOf_length|done]). }
  assert (entries (updates h1) (effectsOf D es ++ effectsOf D cs) = applied)
    as Happlied.
  { rewrite (entries_strip _ _ _ HU), entries_app.
    unfold es, cs. rewrite !entries_of_effects.
    unfold applied, appliedWithCallback. by rewrite filter_app. }
  eapply wpx_mono;
    [exact (commitUpdateQueue_wpx fuel wip q' inst D h1 qf _ _ _ _ Hcom)|..].
  - intros _ h2 (Hall & Hcalls & _ & Hdone & _). rewrite Happlied in Hall, Hcalls.
    split; [done|]. split; [congruence|].
    intros e He. apply Hdone.
    rewrite <- (entries_fst (updates h1) (effectsOf D es ++ effectsOf D cs)).
    rewrite Happlied. apply list_elem_of_fmap. by exists e.
  - intros msg h2 (Hbad & Hmsg & _). rewrite Happlied in Hbad. done.
Qed.

Lemma appliedWithCallback_NoDup D us p pc l lc :
  chain us p l -> chain us pc lc -> (forall x, x ∈ l -> x ∉ lc) ->
  NoDup (appliedWithCallback D (entries us l) (entries us lc)).*1.
Proof.
  intros Hl Hlc Hdisj.
  assert (NoDup (entries us l ++ entries us lc).*1) as Hnd.
  { rewrite fmap_app, !entries_fst. apply NoDup_app.
    split; [exact (linked_NoDup _ _ _ _ Hl)|].
    split; [done|]. exact (linked_NoDup _ _ _ _ Hlc). }
  apply (sublist_NoDup _ _ Hnd). apply fmap_sublist.
  unfold appliedWithCallback, appliedBy.
  etrans; [apply sublist_filter|].
  apply sublist_app; apply sublist_filter.
Qed.

(** C6. A pass of [processUpdateQueue] at [D] over a well-formed queue with
    empty effect lists, followed by [commitUpdateQueue]. The pass alone (a
    pass that is abandoned) returns and invokes no callback. When every
    callback of the records that the pass applied is [null] or callable,
    pass and commit return, and the callbacks invoked are those of the
    applied records that hold one, each once, with the instance as [this]:
    the ones of the normal list first, then those of the captured list,
    each list in its order of insertion; no record is on that list twice,
    and afterwards the callback of each of these records is [null], so a
    later commit cannot invoke it again. When an applied record holds a
    callback that is neither [null] nor callable, the commit throws the
    invariant error and does not return normally. *)
Theorem C6_callbacks_once_at_commit fuel wip q props inst D h fb qr l lc :
  replayable fuel h wip q fb qr l lc -> Fiber.updateQueue fb = Some q ->
  effectPointers false qr = (None, None) ->
  effectPointers true qr = (None, None) ->
  (forall x, x ∈ l -> x ∉ lc) -> Queue.lastUpdate qr = last l ->
  let applied :=
    appliedWithCallback D (entries (updates h) l) (entries (updates h) lc) in
  (exists h1,
     renderAt NoWork Callback ShouldCapture DidCapture fuel wip props inst D h
       = Done tt h1 /\
     calls h1 = calls h) /\
  NoDup applied.*1 /\
  (Forall (fun e => callable e = true) applied ->
   exists h2,
     renderAndCommit NoWork Callback ShouldCapture DidCapture fuel wip props
       inst D h = Done tt h2 /\
     calls h2 = calls h ++ callsOf inst applied /\
     forall e, e ∈ applied ->
       Update.callback <$> updates h2 !! e.1 = Some CNull) /\
  (~ Forall (fun e => callable e = true) applied ->
   exists shown h2,
     renderAndCommit NoWork Callback ShouldCapture DidCapture fuel wip props
       inst D h = Throw (invalidCallbackMessage shown) h2).
Proof.
  intros Hre Huq Hne Hce Hdisj Hlast applied.
  pose proof Hre as (Hf & Hq & Hc & Hl & Hlc & Hsh & Htl & Hfl & Hflc).
  split.
  { assert (wp (renderAt NoWork Callback ShouldCapture DidCapture fuel wip
                  props inst D) h (fun _ h1 => calls h1 = calls h)) as Hwp.
    { unfold renderAt. wp_go. eapply wp_readFiber; [exact Hf|]. rewrite Huq.
      eapply wp_mono;
        [exact (processUpdateQueue_spec NoWork Callback ShouldCapture
                  DidCapture fuel wip q props inst D h fb qr l lc Hf Hq Hc Hl
                  Hlc Hsh Htl Hfl Hflc)|].
      intros _ h1 (q' & fbw & _ & Hres & _). cbv beta.
      by destruct Hres as (_ & _ & _ & _ & _ & HC). }
    apply wp_elim in Hwp as ([] & h1 & Hrun & HC). by exists h1. }
  split; [exact (appliedWithCallback_NoDup D _ _ _ _ _ Hl Hlc Hdisj)|].
  pose proof (renderAndCommit_wpx fuel wip q props inst D h fb qr l lc Hre Huq
                Hne Hce Hdisj Hlast) as Hwpx.
  cbv zeta in Hwpx. fold applied in Hwpx.
  apply wpx_elim in Hwpx
    as [([] & h2 & Hrun & Hall & Hcalls & Hdone)
       |(msg & h2 & Hrun & Hbad & shown & ->)].
  - split; [|done]. intros _. by exists h2.
  - split; [done|]. intros _. by exists shown, h2.
Qed.

End Commit.


(** * The claims on example stores *)

Ltac replayable_example :=
  unfold replayable;
  repeat match goal with
  | |- _ /\ _ => split
  | |- _ !! _ = Some _ => reflexivity
  | |- forall c, Fiber.alternate _ = Some c -> _ =>
      let Hc := fresh in
      intros ? Hc; vm_compute in Hc;
      first [discriminate Hc | injection Hc as <-; eexists; reflexivity]
  | |- chain _ _ _ => vm_compute; repeat split
  | |- effectTailsAllocated _ _ =>
      let He := fresh in
      split; intros ? He; vm_compute in He; discriminate He
  | |- (_ <= _)%nat => simpl; lia
  end.

Lemma exampleHeap_private : ~ sharedWithCurrent exampleHeap 0%nat 0%nat.
Proof.
  intros (fb & c & fc & H1 & H2 & _). vm_compute in H1.
  injection H1 as <-. discriminate.
Qed.

Lemma exampleHeap_replayable :
  replayable 4 exampleHeap 0%nat 0%nat exampleFiber exampleQueue
    [10; 11; 12; 13]%nat [14; 15]%nat.
Proof.
  replayable_example. intros Hs. by destruct exampleHeap_private.
Defined.

(** C8 on the example queue: a pass at 2 applies A and C, then E. *)
Lemma C8_witness :
  exists h' ff,
    processUpdateQueue 0 32 1024 64 4 0%nat 0%nat VNull VNull 2 exampleHeap
      = Done tt h' /\
    fibers h' !! 0%nat = Some ff /\
    Fiber.memoizedState ff = VString "ACE" /\
    Fiber.expirationTime ff = 1.
Proof.
  apply (C8_captured_after_normal 0 32 1024 64 4 0%nat 0%nat VNull VNull 2
           exampleHeap exampleFiber exampleQueue
           [10; 11; 12; 13]%nat [14; 15]%nat exampleHeap_replayable).
Defined.

(** Against C5 as specified: alone in a queue, the record of deadline 1 is
    skipped by a pass at 2, although 1 is below 2. *)
Lemma C5_counterexample :
  ~ (forall deadline D,
       skipsAlone deadline D <-> lessUrgentAsSpecified deadline D).
Proof.
  intros Hclaim. destruct (Hclaim 1 2) as [Himp _].
  assert (skipsAlone 1 2) as Hskip.
  { eexists. split; [vm_compute; reflexivity|]. split; reflexivity. }
  apply Himp in Hskip. unfold lessUrgentAsSpecified in Hskip. lia.
Qed.

(** C5 on the example queue, at the deadline 2. *)
Lemma C5_witness :
  exists h' ff,
    processUpdateQueue 0 32 1024 64 4 0%nat 0%nat VNull VNull 2 exampleHeap
      = Done tt h' /\
    fibers h' !! 0%nat = Some ff /\
    Fiber.memoizedState ff = VString "ACE" /\
    ~ lessUrgent (Fiber.expirationTime ff) 0.
Proof.
  destruct (C5_skip_rule 0 32 1024 64 4 0%nat 0%nat VNull VNull 2
              exampleHeap exampleFiber exampleQueue
              [10; 11; 12; 13]%nat [14; 15]%nat exampleHeap_replayable)
    as (_ & _ & _ & h' & q' & qf & ff & Hrun & Hff & _ & _ & Hm & Hnw & _).
  exists h', ff. split; [exact Hrun|]. split; [exact Hff|].
  split; [exact Hm|exact Hnw].
Defined.

(** Against C2 as specified: the only skipped record, a captured one, is
    not the new [firstUpdate] head, which is empty. *)
Lemma C2_counterexample :
  exists h',
    processUpdateQueue 0 32 1024 64 1 0%nat 0%nat VNull VNull 2
      capturedOnlyHeap = Done tt h' /\
    (skippedBy 2 (entries (updates capturedOnlyHeap) [14%nat])).*1
      = [14%nat] /\
    Queue.firstUpdate <$> queues h' !! 0%nat <> Some (Some 14%nat) /\
    Queue.firstUpdate <$> queues h' !! 0%nat = Some None /\
    Queue.firstCapturedUpdate <$> queues h' !! 0%nat = Some (Some 14%nat).
Proof.
  eexists. split; [vm_compute; reflexivity|].
  split; [vm_compute; reflexivity|].
  split; [intros H; vm_compute in H; discriminate H|].
  split; vm_compute; reflexivity.
Qed.

(** C2 on the example queue: a pass at 2 freezes the base state at A, in
    front of B1, and leaves the remaining priority 1. *)
Lemma C2_witness :
  exists h' qf ff,
    processUpdateQueue 0 32 1024 64 4 0%nat 0%nat VNull VNull 2 exampleHeap
      = Done tt h' /\
    queues h' !! 0%nat = Some qf /\ fibers h' !! 0%nat = Some ff /\
    Queue.baseState qf = VString "A" /\
    Queue.firstUpdate qf = Some 11%nat /\
    Fiber.expirationTime ff = 1.
Proof.
  destruct (C2_pass_write_back 0 32 1024 64 4 0%nat 0%nat VNull VNull 2
              exampleHeap exampleFiber exampleQueue
              [10; 11; 12; 13]%nat [14; 15]%nat exampleHeap_replayable)
    as (h' & q' & qf & ff & Hrun & (fbw & Hon) & Hqf & Hff & Hn & _ & Hagg & _).
  destruct Hon as [(_ & -> & _)|(Hs & _)];
    [|by destruct exampleHeap_private].
  destruct (Hn (11%nat, stripEffect (exampleUpdates !!! 11%nat))
              [(12%nat, stripEffect (exampleUpdates !!! 12%nat));
               (13%nat, stripEffect (exampleUpdates !!! 13%nat))])
    as (_ & _ & Hb & Hfu); [vm_compute; reflexivity|].
  destruct Hagg as [(e & He & Hx) _].
  { intros H. vm_compute in H. discriminate H. }
  { apply Forall_forall. apply (bool_decide_unpack _). vm_compute. exact I. }
  exists h', qf, ff. split; [exact Hrun|]. split; [exact Hqf|].
  split; [exact Hff|]. split; [exact Hb|]. split; [exact Hfu|].
  rewrite <- Hx. revert e He Hx.
  assert (Forall (fun e : addr * Update.t => Update.expirationTime e.2 = 1)
            (skippedBy 2
               (entries (updates exampleHeap) [10; 11; 12; 13]%nat ++
                entries (updates exampleHeap) [14; 15]%nat))) as Hall.
  { apply (bool_decide_unpack _). vm_compute. exact I. }
  intros e He _. by apply (proj1 (Forall_forall _ _) Hall).
Defined.

Lemma sharedHeap_replayable :
  replayable 4 sharedHeap 0%nat 0%nat workInProgressFiber sharedQueue
    [10; 11; 12; 13]%nat [].
Proof. replayable_example. done. Defined.

(** Against C1 as specified: with the normal record A1 and the captured
    record E2, the passes at 2 and then at 1 end in the state A, one pass
    at 1 in the state AE. *)
Lemma C1_counterexample :
  exists h1 h2,
    priorityLevels (entries (updates capturedAheadHeap) [10; 14]%nat)
      = [2; 1] /\
    processUpdateQueue 0 32 1024 64 2 0%nat 0%nat VNull VNull 1
      capturedAheadHeap = Done tt h1 /\
    renderLevels 0 32 1024 64 2 0%nat VNull VNull [2; 1] capturedAheadHeap
      = Done tt h2 /\
    memoizedStateOf h1 0%nat = Some (VString "AE") /\
    memoizedStateOf h2 0%nat = Some (VString "A") /\
    memoizedStateOf h1 0%nat <> memoizedStateOf h2 0%nat.
Proof.
  eexists. eexists. split; [vm_compute; reflexivity|].
  split; [vm_compute; reflexivity|]. split; [vm_compute; reflexivity|].
  split; [vm_compute; reflexivity|]. split; [vm_compute; reflexivity|].
  intros H. vm_compute in H. discriminate H.
Qed.


(** C1 on the shared example queue: one pass at 1 and the passes at 2 and
    then at 1 both end in ABCD. *)
Lemma C1_witness :
  exists h1 h2,
    processUpdateQueue 0 32 1024 64 4 0%nat 0%nat VNull VNull 1 sharedHeap
      = Done tt h1 /\
    renderLevels 0 32 1024 64 4 0%nat VNull VNull [2; 1] sharedHeap
      = Done tt h2 /\
    memoizedStateOf h1 0%nat = memoizedStateOf h2 0%nat /\
    memoizedStateOf h2 0%nat = Some (VString "ABCD").
Proof.
  apply (C1_convergence 0 32 1024 64 4 0%nat 0%nat VNull VNull 1 sharedHeap
           workInProgressFiber sharedQueue [10; 11; 12; 13]%nat
           sharedHeap_replayable).
  - reflexivity.
  - discriminate.
  - apply Forall_forall. apply (bool_decide_unpack _). vm_compute. exact I.
Defined.

Ltac apart :=
  apply Forall_forall; apply (bool_decide_unpack _); vm_compute; exact I.

Lemma exampleHeap_committable :
  committable 0 exampleHeap 0%nat exampleQueue [10; 11; 12; 13]%nat
    [14; 15]%nat [] [].
Proof.
  unfold committable. split; [reflexivity|].
  split; [vm_compute; repeat split|]. split; [reflexivity|].
  split; [vm_compute; repeat split|]. split; [apart|].
  split; [reflexivity|]. split; [reflexivity|]. split; [apart|].
  split; simpl; lia.
Defined.

(** Against C3 as specified: a pass at 2 over a queue that holds the
    captured record E1 alone leaves work pending at priority 1, and the
    commit then clears the captured pointers without joining E1 to the
    normal list. *)
Lemma C3_counterexample :
  exists h1 h2,
    processUpdateQueue 0 32 1024 64 1 0%nat 0%nat VNull VNull 2
      capturedOnlyHeap = Done tt h1 /\
    Fiber.expirationTime <$> fibers h1 !! 0%nat = Some 1 /\
    Queue.firstCapturedUpdate <$> queues h1 !! 0%nat = Some (Some 14%nat) /\
    commitUpdateQueue 1 0%nat 0%nat VNull 2 h1 = Done tt h2 /\
    Queue.firstCapturedUpdate <$> queues h2 !! 0%nat = Some None /\
    Queue.lastCapturedUpdate <$> queues h2 !! 0%nat = Some None /\
    Queue.lastUpdate <$> queues h2 !! 0%nat = Some None /\
    ~ (exists qf l,
         queues h2 !! 0%nat = Some qf /\
         chain (updates h2) (Queue.firstUpdate qf) l /\ 14%nat ∈ l).
Proof.
  eexists. eexists. split; [vm_compute; reflexivity|].
  split; [vm_compute; reflexivity|]. split; [vm_compute; reflexivity|].
  split; [vm_compute; reflexivity|]. split; [vm_compute; reflexivity|].
  split; [vm_compute; reflexivity|]. split; [vm_compute; reflexivity|].
  intros (qf & l & Hqf & Hl & Hin). vm_compute in Hqf. injection Hqf as <-.
  destruct l as [|a l]; [by apply elem_of_nil in Hin|].
  destruct Hl as [Hl _]. discriminate Hl.
Qed.

(** C3 on the example queue: the commit joins E and F to A, B, C, D. *)
Lemma C3_witness :
  exists h' qf,
    commitUpdateQueue 0 0%nat 0%nat VNull 2 exampleHeap = Done tt h' /\
    queues h' !! 0%nat = Some qf /\
    Queue.firstCapturedUpdate qf = None /\
    chain (updates h') (Queue.firstUpdate qf) [10; 11; 12; 13; 14; 15]%nat /\
    Queue.lastUpdate qf = Some 15%nat.
Proof.
  destruct (C3_captured_list_joined 0 0%nat 0%nat VNull 2 exampleHeap
              exampleQueue [10; 11; 12; 13]%nat [14; 15]%nat [] []
              exampleHeap_committable)
    as (h' & qf & Hrun & Hqf & Hfc & _ & _ & Hjoin & _); [discriminate|].
  destruct Hjoin as [Hch Hlast]; [discriminate|].
  exists h', qf.
  destruct Hrun as [Hrun|[msg Hrun]]; [|vm_compute in Hrun; discriminate Hrun].
  split; [exact Hrun|]. split; [exact Hqf|]. split; [exact Hfc|].
  split; [exact Hch|exact Hlast].
Defined.

(** C4 on two queues that end in D1: G1 is appended once and is the tail of
    both. *)
Lemma C4_witness :
  exists h' r1' r2',
    enqueueUpdate 0%nat 16%nat twoQueuesHeap = Done tt h' /\
    queues h' !! 0%nat = Some r1' /\ queues h' !! 1%nat = Some r2' /\
    Queue.lastUpdate r1' = Some 16%nat /\
    Queue.lastUpdate r2' = Some 16%nat /\
    chain (updates h') (Queue.firstUpdate r1') [10; 11; 12; 13; 16]%nat /\
    chain (updates h') (Queue.firstUpdate r2') [12; 13; 16]%nat.
Proof.
  destruct (C4_append_once_to_shared_tail 0%nat 1%nat 0%nat 1%nat 16%nat
              twoQueuesHeap
              (Fiber.mk (Some 1%nat) (Some 0%nat) (VString "") 0 0)
              (Fiber.mk (Some 0%nat) (Some 1%nat) (VString "AB") 0 0)
              sharedQueue
              (Queue.mk (VString "AB") (Some 12%nat) (Some 13%nat) None None
                 None None None None)
              [10; 11; 12; 13]%nat [12; 13]%nat 13%nat
              (letter 1 "G" CNull None))
    as (h' & r1' & r2' & ut & Hrun & _ & _ & _ & _ & Hr1 & Hr2 & Hl1 & Hl2 &
        Hc1 & Hc2 & _);
    try reflexivity.
  - lia.
  - vm_compute. repeat split.
  - vm_compute. repeat split.
  - apply (bool_decide_unpack _). vm_compute. exact I.
  - apply (bool_decide_unpack _). vm_compute. exact I.
  - exists h', r1', r2'. repeat (split; [assumption|]). assumption.
Defined.

Lemma invalidCallbackHeap_replayable :
  replayable 4 invalidCallbackHeap 0%nat 0%nat exampleFiber exampleQueue
    [10; 11; 12; 13]%nat [14; 15]%nat.
Proof.
  replayable_example. intros (fb & c & fc & H1 & H2 & _). vm_compute in H1.
  injection H1 as <-. discriminate.
Defined.

(** C6 on the example queue at the deadline 2: the callbacks of A, C and E
    are invoked, in this order; with a callback on D that is not callable,
    the commit throws. *)
Lemma C6_witness :
  (exists h2,
     renderAndCommit 0 32 1024 64 4 0%nat VNull VNull 2 exampleHeap
       = Done tt h2 /\
     calls h2 = [(1%nat, VNull); (3%nat, VNull); (4%nat, VNull)]) /\
  (exists shown h2,
     renderAndCommit 0 32 1024 64 4 0%nat VNull VNull 2 invalidCallbackHeap
       = Throw (invalidCallbackMessage shown) h2).
Proof.
  split.
  - destruct (C6_callbacks_once_at_commit 0 32 1024 64 4 0%nat 0%nat VNull
                VNull 2 exampleHeap exampleFiber exampleQueue
                [10; 11; 12; 13]%nat [14; 15]%nat exampleHeap_replayable)
      as (_ & _ & Hok & _); [reflexivity|reflexivity|reflexivity|apart|
                             reflexivity|].
    destruct Hok as (h2 & Hrun & Hcalls & _).
    { apply (bool_decide_unpack _). vm_compute. exact I. }
    exists h2. split; [exact Hrun|exact Hcalls].
  - destruct (C6_callbacks_once_at_commit 0 32 1024 64 4 0%nat 0%nat VNull
                VNull 2 invalidCallbackHeap exampleFiber exampleQueue
                [10; 11; 12; 13]%nat [14; 15]%nat
                invalidCallbackHeap_replayable)
      as (_ & _ & _ & Hbad); [reflexivity|reflexivity|reflexivity|apart|
                              reflexivity|].
    apply Hbad. intros Hall.
    apply (bool_decide_pack _) in Hall. vm_compute in Hall. exact Hall.
Defined.

(** C7 on a MERGE record with an object payload, one with a [null]
    payload, and a REPLACE record. *)
Lemma C7_witness :
  getStateFromUpdate 1024 64 0%nat 0%nat 20%nat previousState VNull VNull
    mergeHeap
  = Done (VObject {[ "a" := VNumber 1; "b" := VNumber 2 ]}) mergeHeap /\
  getStateFromUpdate 1024 64 0%nat 0%nat 21%nat previousState VNull VNull
    mergeHeap
  = Done previousState mergeHeap /\
  getStateFromUpdate 1024 64 0%nat 0%nat 22%nat previousState VNull VNull
    mergeHeap
  = Done (VString "R") mergeHeap.
Proof.
  split; [|split].
  - destruct (C7_merge_and_replace 1024 64 0%nat 0%nat 20%nat
                (Update.mk 1 UpdateState
                   (PValue (VObject {[ "b" := VNumber 2 ]})) CNull None None)
                previousState VNull VNull mergeHeap eq_refl)
      as (_ & Hmerge & _).
    destruct Hmerge as [Hrun _]; [reflexivity|discriminate|discriminate|].
    rewrite Hrun. vm_compute. reflexivity.
  - destruct (C7_merge_and_replace 1024 64 0%nat 0%nat 21%nat
                (Update.mk 1 UpdateState (PValue VNull) CNull None None)
                previousState VNull VNull mergeHeap eq_refl)
      as (Hnull & _).
    apply Hnull; [reflexivity|by left].
  - destruct (C7_merge_and_replace 1024 64 0%nat 0%nat 22%nat
                (Update.mk 1 ReplaceState (PValue (VString "R")) CNull None
                   None)
                previousState VNull VNull mergeHeap eq_refl)
      as (_ & _ & Hreplace).
    apply Hreplace. reflexivity.
Defined.

(** C9 on a resolved queue of base state ABCD. *)
Lemma C9_witness :
  exists h' qf,
    processUpdateQueue 0 32 1024 64 0 0%nat 0%nat VNull VNull 2 resolvedHeap
      = Done tt h' /\
    memoizedStateOf h' 0%nat = Some (VString "ABCD") /\
    queues h' !! 0%nat = Some qf /\
    Queue.baseState qf = VString "ABCD" /\ Queue.firstUpdate qf = None.
Proof.
  destruct (C9_replay_of_resolved_queue_is_noop 0 32 1024 64 0 0%nat 0%nat
              VNull VNull 2 resolvedHeap exampleFiber
              (Queue.mk (VString "ABCD") None None None None None None None
                 None))
    as (h' & q' & qf & Hrun & Hm & Hq' & Hqf & Hb & Hfu & _);
    [reflexivity|reflexivity|intros c Hc; discriminate Hc|reflexivity|
     reflexivity|].
  exists h', qf. split; [exact Hrun|]. split; [exact Hm|].
  destruct Hq' as [->|((fb & c & fc & H1 & H2 & _) & _)].
  - split; [exact Hqf|]. split; [exact Hb|exact Hfu].
  - vm_compute in H1. injection H1 as <-. discriminate H2.
Defined.

Lemma sharedHeap_shared : sharedWithCurrent sharedHeap 0%nat 0%nat.
Proof.
  exists workInProgressFiber, 1%nat, currentFiber. repeat split; reflexivity.
Defined.

(** C10 on the shared example queue: the queue of the current fiber keeps
    its record. *)
Lemma C10_witness :
  (exists h',
     enqueueCapturedUpdate 0%nat 14%nat sharedHeap = Done tt h' /\
     queues h' !! 0%nat = Some sharedQueue /\
     fibers h' !! 1%nat = Some currentFiber) /\
  (exists h',
     processUpdateQueue 0 32 1024 64 4 0%nat 0%nat VNull VNull 2 sharedHeap
       = Done tt h' /\
     queues h' !! 0%nat = Some sharedQueue /\
     fibers h' !! 1%nat = Some currentFiber).
Proof.
  destruct (C10_clone_before_write 0 32 1024 64 4 0%nat 0%nat VNull VNull 2
              14%nat sharedHeap workInProgressFiber sharedQueue
              [10; 11; 12; 13]%nat)
    as [(h1 & q1 & qc & Hrun1 & _ & _ & Hq1 & Hf1 & _)
        (h2 & q2 & Hrun2 & _ & _ & Hq2 & Hf2 & _)];
    [reflexivity|reflexivity|reflexivity|exact sharedHeap_shared|
     vm_compute; repeat split|simpl; lia|].
  split.
  - exists h1. split; [exact Hrun1|]. split; [exact Hq1|].
    rewrite Hf1 by discriminate. reflexivity.
  - exists h2. split; [exact Hrun2|]. split; [exact Hq2|].
    rewrite Hf2 by discriminate. reflexivity.
Defined.

(** * Enqueueing *)

Lemma insert_alter_lookup {A} (f : A -> A) (m : gmap addr A) i x :
  m !! i = Some x -> <[i := f x]> m = alter f i m.
Proof.
  intros Hi. apply map_eq. intros j. destruct (decide (i = j)) as [->|Hne].
  - by rewrite lookup_insert_eq, lookup_alter_eq, Hi.
  - by rewrite lookup_insert_ne, lookup_alter_ne.
Qed.

Lemma linkAfter_next t u us x :
  Some x <> t -> linkAfter t u us !! x = us !! x.
Proof.
  destruct t as [t|]; simpl; [|done]. intros Hne.
  apply lookup_alter_ne. congruence.
Qed.

(** Linking [u] behind the last record of a list appends it. *)
Lemma chain_linkAfter us p l u ur :
  chain us p l -> us !! u = Some ur -> Update.next ur = None -> u ∉ l ->
  chain (linkAfter (last l) u us) (match l with [] => Some u | _ => p end)
        (l ++ [u]).
Proof.
  intros Hl Hu Hnext Hnin. destruct (last l) as [t|] eqn:Hlast.
  - assert (t ∈ l) as Htin by (by apply last_Some_elem_of).
    destruct (linked_lookup _ _ _ _ _ Hl Htin) as [ut Hut].
    assert (u <> t) as Hne by congruence.
    destruct l as [|a l]; [done|].
    eapply (linked_app _ us _ p (a :: l) t (Some u) [u]);
      [exact Hl|exact Hlast| | |].
    + intros x Hx Hxt. simpl. by rewrite lookup_alter_ne.
    + simpl. by rewrite lookup_alter_eq, Hut.
    + simpl. split; [done|]. by rewrite lookup_alter_ne, Hu by done.
  - apply last_None in Hlast. subst l. simpl. split; [done|].
    by rewrite Hu.
Qed.

Lemma appendUpdateToQueue_wp q u h qr l ur (Q : unit -> Heap -> Prop) :
  queues h !! q = Some qr ->
  chain (updates h) (Queue.firstUpdate qr) l -> Queue.lastUpdate qr = last l ->
  updates h !! u = Some ur -> Update.next ur = None -> u ∉ l ->
  (forall h', appended q u l h h' -> Q tt h') ->
  wp (appendUpdateToQueue q u) h Q.
Proof.
  intros Hq Hl Hlast Hu Hnext Hnin HQ. unfold appendUpdateToQueue.
  wp_go. eapply wp_readQueue; [exact Hq|].
  pose proof (chain_linkAfter _ _ _ _ _ Hl Hu Hnext Hnin) as Hch.
  rewrite Hlast. destruct (last l) as [t|] eqn:Ht.
  - assert (t ∈ l) as Htin by (by apply last_Some_elem_of).
    destruct (linked_lookup _ _ _ _ _ Hl Htin) as [ut Hut].
    wp_go. eapply wp_modifyUpdate; [exact Hut|].
    eapply wp_modifyQueue; [exact Hq|]. apply HQ.
    unfold appended. heap_simpl. rewrite Ht.
    rewrite (insert_alter_lookup _ _ _ _ Hut).
    split; [done|]. split.
    { eexists. split; [apply lookup_insert_eq|]. simpl.
      split; [by destruct l|]. by rewrite last_snoc. }
    rewrite lookup_insert_eq, Hq. split; [done|].
    split; [intros x Hx; by rewrite lookup_insert_ne|]. done.
  - apply last_None in Ht. subst l.
    eapply wp_modifyQueue; [exact Hq|]. apply HQ.
    unfold appended. heap_simpl.
    split; [done|]. split.
    { eexists. split; [apply lookup_insert_eq|]. simpl. done. }
    rewrite lookup_insert_eq, Hq. split; [done|].
    split; [intros x Hx; by rewrite lookup_insert_ne|]. done.
Qed.

(** X1. [enqueueUpdate] on a fiber without alternate. The call returns and
    the fiber holds a queue whose list is the list that waited on the fiber
    followed by the new record, which is its [lastUpdate]. A fiber that had
    no queue receives one at an address new to the store, whose base state
    is the fiber's [memoizedState] and whose other lists are empty; a fiber
    that had a queue keeps it, with every field but the two list pointers.
    The one record written is the former tail, in its [next]; no other
    queue changes, and no callback is invoked. *)
Theorem enqueueUpdate_single_fiber fiber u h fb l ur :
  fibers h !! fiber = Some fb -> Fiber.alternate fb = None ->
  pending h fb l ->
  updates h !! u = Some ur -> Update.next ur = None -> u ∉ l ->
  exists h' q,
    enqueueUpdate fiber u h = Done tt h' /\
    Fiber.updateQueue <$> fibers h' !! fiber = Some (Some q) /\
    listOf h' q (l ++ [u]) /\
    match Fiber.updateQueue fb with
    | Some q0 =>
        q = q0 /\ fibers h' = fibers h /\
        unlisted <$> queues h' !! q = unlisted <$> queues h !! q
    | None =>
        queues h !! q = None /\
        unlisted <$> queues h' !! q =
          Some (Queue.mk (Fiber.memoizedState fb) None None None None None
                  None None None) /\
        fibers h' = <[fiber := Fiber.set_updateQueue (Some q) fb]> (fibers h)
    end /\
    updates h' = linkAfter (last l) u (updates h) /\
    (forall x, x <> q -> queues h' !! x = queues h !! x) /\
    calls h' = calls h.
Proof.
  intros Hf Halt Hp Hu Hnext Hnin.
  assert (wp (enqueueUpdate fiber u) h
            (fun _ h' =>
               exists q,
                 Fiber.updateQueue <$> fibers h' !! fiber = Some (Some q) /\
                 listOf h' q (l ++ [u]) /\
                 match Fiber.updateQueue fb with
                 | Some q0 =>
                     q = q0 /\ fibers h' = fibers h /\
                     unlisted <$> queues h' !! q = unlisted <$> queues h !! q
                 | None =>
                     queues h !! q = None /\
                     unlisted <$> queues h' !! q =
                       Some (Queue.mk (Fiber.memoizedState fb) None None None
                               None None None None None) /\
                     fibers h' =
                       <[fiber := Fiber.set_updateQueue (Some q) fb]> (fibers h)
                 end /\
                 updates h' = linkAfter (last l) u (updates h) /\
                 (forall x, x <> q -> queues h' !! x = queues h !! x) /\
                 calls h' = calls h)) as Hwp.
  { unfold enqueueUpdate.
    wp_go. eapply wp_readFiber; [exact Hf|]. wp_go. rewrite Halt.
    unfold pending in Hp. destruct (Fiber.updateQueue fb) as [q0|] eqn:Huq.
    - destruct Hp as (qr & Hq & Hl & Hlast). apply wp_ret. cbv beta iota.
      eapply appendUpdateToQueue_wp; [exact Hq|exact Hl|exact Hlast|exact Hu
                                     |exact Hnext|exact Hnin|].
      intros h' (HU & Hlist & Hun & Hoth & HF & HC & _).
      exists q0. rewrite HF, Hf. simpl. rewrite Huq. done.
    - subst l. wp_go. unfold createUpdateQueue. apply wp_allocQueue.
      intros q Hfresh.
      wp_go. eapply wp_modifyFiber; [heap_simpl; exact Hf|].
      apply wp_ret. cbv beta iota.
      eapply (appendUpdateToQueue_wp q u _ _ [] ur);
        [heap_simpl; apply lookup_insert_eq|done|done|heap_simpl; exact Hu
        |exact Hnext|exact Hnin|].
      intros h' (HU & Hlist & Hun & Hoth & HF & HC & _). heap_simpl.
      exists q. rewrite HF, lookup_insert_eq. simpl.
      split; [done|]. split; [done|].
      split.
      { split; [done|]. rewrite lookup_insert_eq in Hun. done. }
      split; [done|]. split; [|done].
      intros x Hx. rewrite Hoth by done. by rewrite lookup_insert_ne. }
  apply wp_elim in Hwp as ([] & h' & Hrun & q & Hres). by exists h', q.
Qed.

Lemma listOf_fun h q l1 l2 : listOf h q l1 -> listOf h q l2 -> l1 = l2.
Proof.
  intros (r1 & Hr1 & Hl1 & _) (r2 & Hr2 & Hl2 & _).
  assert (r2 = r1) as -> by congruence. by eapply linked_fun.
Qed.

Lemma listOf_ext h h' q l :
  queues h' !! q = queues h !! q ->
  (forall x, x ∈ l -> Update.next <$> updates h' !! x
                      = Update.next <$> updates h !! x) ->
  listOf h q l -> listOf h' q l.
Proof.
  intros HQ HU (qr & Hq & Hl & Hlast). exists qr.
  split; [congruence|]. split; [|done]. by eapply linked_ext.
Qed.

(** The second half of [enqueueUpdate]: the appends to one queue or to the
    two queues of a pair. *)
Lemma appendToPair_wp q1 q2 u h l1 l2 ur (Q : unit -> Heap -> Prop) :
  listOf h q1 l1 -> listOf h q2 l2 ->
  (q1 <> q2 -> l1 <> [] -> l2 <> [] -> last l1 = last l2) ->
  updates h !! u = Some ur -> Update.next ur = None -> u ∉ l1 -> u ∉ l2 ->
  (forall h', pairAppended q1 q2 u l1 l2 h h' -> Q tt h') ->
  wp (if decide (q1 = q2) then appendUpdateToQueue q1 u
      else
        let* q1r := readQueue q1 in
        let* q2r := readQueue q2 in
        match Queue.lastUpdate q1r, Queue.lastUpdate q2r with
        | Some _, Some _ =>
            let* _ := appendUpdateToQueue q1 u in
            modifyQueue q2 (Queue.set_lastUpdate (Some u))
        | _, _ =>
            let* _ := appendUpdateToQueue q1 u in
            appendUpdateToQueue q2 u
        end) h Q.
Proof.
  intros H1 H2 Htails Hu Hnext Hn1 Hn2 HQ.
  destruct (decide (q1 = q2)) as [<-|Hne].
  - assert (l2 = l1) as -> by (by eapply listOf_fun).
    destruct H1 as (r1 & Hr1 & Hl1 & Hlast1).
    eapply appendUpdateToQueue_wp; [exact Hr1|exact Hl1|exact Hlast1|exact Hu
                                   |exact Hnext|exact Hn1|].
    intros h' (HU & Hlist & Hun & Hoth & HF & HC & _). apply HQ.
    unfold pairAppended, sharedTail. split.
    { rewrite HU. by destruct (last l1). }
    repeat (split; [done|]). split; [|done]. intros x Hx _. by apply Hoth.
  - pose proof H1 as (r1 & Hr1 & Hl1 & Hlast1).
    pose proof H2 as (r2 & Hr2 & Hl2 & Hlast2).
    wp_go. eapply wp_readQueue; [exact Hr1|].
    wp_go. eapply wp_readQueue; [exact Hr2|].
    rewrite Hlast1, Hlast2.
    destruct (last l1) as [t1|] eqn:Ht1, (last l2) as [t2|] eqn:Ht2.
    + assert (t2 = t1) as ->.
      { assert (Some t1 = Some t2) as [= ->]; [|done].
        apply Htails; [done|by intros ->|by intros ->]. }
      wp_go.
      eapply appendUpdateToQueue_wp; [exact Hr1|exact Hl1|first [exact Hlast1|congruence]
                                     |exact Hu|exact Hnext|exact Hn1|].
      intros h1 (HU & Hlist & Hun & Hoth & HF & HC & _).
      eapply wp_modifyQueue; [by rewrite Hoth, Hr2|]. apply HQ.
      unfold pairAppended, sharedTail. heap_simpl. rewrite Ht1 in HU |- *.
      split; [done|]. split.
      { eapply listOf_ext; [| |exact Hlist]; heap_simpl.
        - by rewrite lookup_insert_ne.
        - done. }
      split.
      { eexists. split; [apply lookup_insert_eq|]. simpl.
        split; [|by rewrite last_snoc].
        pose proof (chain_linkAfter _ _ _ _ _ Hl2 Hu Hnext Hn2) as Hch.
        rewrite Ht2 in Hch. rewrite HU. by destruct l2. }
      split; [by rewrite lookup_insert_ne|].
      split; [by rewrite lookup_insert_eq, Hr2|].
      split; [|done]. intros x Hx1 Hx2. rewrite lookup_insert_ne by done.
      by apply Hoth.
    + apply last_None in Ht2. subst l2. wp_go.
      eapply appendUpdateToQueue_wp; [exact Hr1|exact Hl1|first [exact Hlast1|congruence]
                                     |exact Hu|exact Hnext|exact Hn1|].
      intros h1 (HU & Hlist & Hun & Hoth & HF & HC & _).
      assert (u <> t1) as Hut.
      { intros ->. by apply Hn1, last_Some_elem_of. }
      eapply (appendUpdateToQueue_wp q2 u h1 r2 [] ur);
        [by rewrite Hoth|done|done| |exact Hnext|exact Hn2|].
      { rewrite HU, Ht1. simpl. by rewrite lookup_alter_ne. }
      intros h2 (HU2 & Hlist2 & Hun2 & Hoth2 & HF2 & HC2 & _). apply HQ.
      unfold pairAppended, sharedTail. rewrite Ht1. simpl in HU2.
      split; [by rewrite HU2, HU, Ht1|].
      split.
      { eapply listOf_ext; [| |exact Hlist].
        - by apply Hoth2.
        - intros x _. by rewrite HU2. }
      split; [done|]. split; [by rewrite Hoth2, Hun|].
      split; [by rewrite Hun2, Hoth|].
      split; [|split; congruence].
      intros x Hx1 Hx2. by rewrite Hoth2, Hoth.
    + apply last_None in Ht1. subst l1. wp_go.
      eapply appendUpdateToQueue_wp; [exact Hr1|exact Hl1|first [exact Hlast1|congruence]
                                     |exact Hu|exact Hnext|exact Hn1|].
      intros h1 (HU & Hlist & Hun & Hoth & HF & HC & _). simpl in HU.
      eapply (appendUpdateToQueue_wp q2 u h1 r2 l2 ur);
        [by rewrite Hoth|by rewrite HU|by rewrite Ht2|by rewrite HU
        |exact Hnext|exact Hn2|].
      intros h2 (HU2 & Hlist2 & Hun2 & Hoth2 & HF2 & HC2 & _). apply HQ.
      unfold pairAppended, sharedTail. simpl. rewrite Ht2 in HU2 |- *.
      assert (u <> t2) as Hut.
      { intros ->. by apply Hn2, last_Some_elem_of. }
      split; [by rewrite HU2, HU|].
      split.
      { eapply listOf_ext; [| |exact Hlist].
        - by apply Hoth2.
        - intros x Hx. apply list_elem_of_singleton in Hx as ->.
          rewrite HU2. simpl. by rewrite lookup_alter_ne. }
      split; [done|]. split; [by rewrite Hoth2, Hun|].
      split; [by rewrite Hun2, Hoth|].
      split; [|split; congruence].
      intros x Hx1 Hx2. by rewrite Hoth2, Hoth.
    + apply last_None in Ht1, Ht2. subst l1 l2. wp_go.
      eapply appendUpdateToQueue_wp; [exact Hr1|exact Hl1|first [exact Hlast1|congruence]
                                     |exact Hu|exact Hnext|exact Hn1|].
      intros h1 (HU & Hlist & Hun & Hoth & HF & HC & _). simpl in HU.
      eapply (appendUpdateToQueue_wp q2 u h1 r2 [] ur);
        [by rewrite Hoth|done|done|by rewrite HU|exact Hnext|exact Hn2|].
      intros h2 (HU2 & Hlist2 & Hun2 & Hoth2 & HF2 & HC2 & _). apply HQ.
      unfold pairAppended, sharedTail. simpl. simpl in HU2.
      split; [by rewrite HU2, HU|].
      split.
      { eapply listOf_ext; [| |exact Hlist].
        - by apply Hoth2.
        - intros x _. by rewrite HU2. }
      split; [done|]. split; [by rewrite Hoth2, Hun|].
      split; [by rewrite Hun2, Hoth|].
      split; [|split; congruence].
      intros x Hx1 Hx2. by rewrite Hoth2, Hoth.
Qed.

(** X2. [enqueueUpdate] on a fiber with an alternate, the two fibers being
    distinct objects whose lists, when both hold a queue of their own and
    both lists are non-empty, end in the same record. The call returns and
    both fibers hold a queue afterwards; a fiber that had none received a
    fresh queue on its [memoizedState] when neither had one, and else a
    clone of the other fiber's queue, whose list it inherits. The list of
    either queue is its former (or inherited) list followed by the new
    record, the [lastUpdate] of both. At most one record is written, the
    shared tail in its [next]; every other field of the two queue records
    is as found or as seeded, and no other queue or fiber changes. *)
Theorem enqueueUpdate_pair fiber alt u h fb ab l1 l2 ur :
  fibers h !! fiber = Some fb -> Fiber.alternate fb = Some alt ->
  fibers h !! alt = Some ab -> fiber <> alt ->
  pending h fb l1 -> pending h ab l2 ->
  (forall q1 q2,
     Fiber.updateQueue fb = Some q1 -> Fiber.updateQueue ab = Some q2 ->
     q1 <> q2 -> l1 <> [] -> l2 <> [] -> last l1 = last l2) ->
  updates h !! u = Some ur -> Update.next ur = None -> u ∉ l1 -> u ∉ l2 ->
  let k1 := match Fiber.updateQueue fb with Some _ => l1 | None => l2 end in
  let k2 := match Fiber.updateQueue ab with Some _ => l2 | None => l1 end in
  exists h' q1 q2,
    enqueueUpdate fiber u h = Done tt h' /\
    Fiber.updateQueue <$> fibers h' !! fiber = Some (Some q1) /\
    Fiber.updateQueue <$> fibers h' !! alt = Some (Some q2) /\
    listOf h' q1 (k1 ++ [u]) /\ listOf h' q2 (k2 ++ [u]) /\
    updates h' = linkAfter (sharedTail l1 l2) u (updates h) /\
    unlisted <$> queues h' !! q1 = unlisted <$> seedQueue h fb ab /\
    unlisted <$> queues h' !! q2 = unlisted <$> seedQueue h ab fb /\
    (Fiber.updateQueue fb = None -> queues h !! q1 = None) /\
    (Fiber.updateQueue ab = None -> queues h !! q2 = None) /\
    (forall x, is_Some (queues h !! x) -> x <> q1 -> x <> q2 ->
               queues h' !! x = queues h !! x) /\
    (forall x, x <> fiber -> x <> alt -> fibers h' !! x = fibers h !! x) /\
    calls h' = calls h.
Proof.
  intros Hf Halt Ha Hne Hp1 Hp2 Htails Hu Hnext Hn1 Hn2 k1 k2.
  assert (wp (enqueueUpdate fiber u) h
    (fun _ h' =>
       exists q1 q2,
         Fiber.updateQueue <$> fibers h' !! fiber = Some (Some q1) /\
         Fiber.updateQueue <$> fibers h' !! alt = Some (Some q2) /\
         listOf h' q1 (k1 ++ [u]) /\ listOf h' q2 (k2 ++ [u]) /\
         updates h' = linkAfter (sharedTail l1 l2) u (updates h) /\
         unlisted <$> queues h' !! q1 = unlisted <$> seedQueue h fb ab /\
         unlisted <$> queues h' !! q2 = unlisted <$> seedQueue h ab fb /\
         (Fiber.updateQueue fb = None -> queues h !! q1 = None) /\
         (Fiber.updateQueue ab = None -> queues h !! q2 = None) /\
         (forall x, is_Some (queues h !! x) -> x <> q1 -> x <> q2 ->
                    queues h' !! x = queues h !! x) /\
         (forall x, x <> fiber -> x <> alt ->
                    fibers h' !! x = fibers h !! x) /\
         calls h' = calls h)) as Hwp.
  { unfold enqueueUpdate.
    wp_go. eapply wp_readFiber; [exact Hf|]. wp_go. rewrite Halt.
    wp_go. eapply wp_readFiber; [exact Ha|].
    unfold pending in Hp1, Hp2. unfold seedQueue. subst k1 k2.
    destruct (Fiber.updateQueue fb) as [q1|] eqn:Hq1,
             (Fiber.updateQueue ab) as [q2|] eqn:Hq2.
    - (* Both fibers hold a queue. *)
      apply wp_ret. cbv beta iota.
      eapply appendToPair_wp; [exact Hp1|exact Hp2|by apply Htails|exact Hu
                              |exact Hnext|exact Hn1|exact Hn2|].
      intros h' (HU & L1 & L2 & U1 & U2 & Hoth & HF & HC).
      exists q1, q2. rewrite HF, Hf, Ha. simpl. rewrite Hq1, Hq2.
      do 7 (split; [done|]). split; [done|]. split; [done|].
      split; [intros x _; apply Hoth|]. done.
    - (* Only [fiber] holds a queue: the alternate receives a clone. *)
      subst l2. destruct Hp1 as (r1 & Hr1 & Hl1 & Hlast1).
      wp_go. unfold cloneUpdateQueue.
      wp_go. eapply wp_readQueue; [exact Hr1|].
      apply wp_allocQueue. intros q2 Hfresh.
      assert (q1 <> q2) as Hq12 by congruence.
      wp_go. eapply wp_modifyFiber; [heap_simpl; exact Ha|].
      apply wp_ret. cbv beta iota.
      eapply (appendToPair_wp q1 q2 u _ l1 l1 ur); heap_simpl.
      + exists r1. heap_simpl. by rewrite lookup_insert_ne.
      + eexists. heap_simpl. split; [apply lookup_insert_eq|]. done.
      + done.
      + exact Hu.
      + exact Hnext.
      + exact Hn1.
      + exact Hn1.
      + intros h' (HU & L1 & L2 & U1 & U2 & Hoth & HF & HC). heap_simpl.
        exists q1, q2. rewrite HF, lookup_insert_eq.
        rewrite lookup_insert_ne, Hf by done. simpl. rewrite Hq1.
        do 4 (split; [done|]).
        split.
        { rewrite HU. unfold sharedTail. simpl. by destruct (last l1). }
        split; [by rewrite U1, lookup_insert_ne|].
        split; [by rewrite U2, lookup_insert_eq, Hr1|].
        split; [done|]. split; [done|].
        split.
        { intros x _ Hx1 Hx2. rewrite Hoth by done.
          by rewrite lookup_insert_ne. }
        split; [|done]. intros x Hx1 Hx2. by rewrite lookup_insert_ne.
    - (* Only the alternate holds a queue: [fiber] receives a clone. *)
      subst l1. destruct Hp2 as (r2 & Hr2 & Hl2 & Hlast2).
      wp_go. unfold cloneUpdateQueue.
      wp_go. eapply wp_readQueue; [exact Hr2|].
      apply wp_allocQueue. intros q1 Hfresh.
      assert (q1 <> q2) as Hq12 by congruence.
      wp_go. eapply wp_modifyFiber; [heap_simpl; exact Hf|].
      apply wp_ret. cbv beta iota.
      eapply (appendToPair_wp q1 q2 u _ l2 l2 ur); heap_simpl.
      + eexists. heap_simpl. split; [apply lookup_insert_eq|]. done.
      + exists r2. heap_simpl. by rewrite lookup_insert_ne.
      + done.
      + exact Hu.
      + exact Hnext.
      + exact Hn2.
      + exact Hn2.
      + intros h' (HU & L1 & L2 & U1 & U2 & Hoth & HF & HC). heap_simpl.
        exists q1, q2. rewrite HF, lookup_insert_eq.
        rewrite lookup_insert_ne, Ha by done. simpl. rewrite Hq2.
        do 4 (split; [done|]).
        split.
        { rewrite HU. unfold sharedTail. simpl. by destruct (last l2). }
        split; [by rewrite U1, lookup_insert_eq, Hr2|].
        split; [by rewrite U2, lookup_insert_ne|].
        split; [done|]. split; [done|].
        split.
        { intros x _ Hx1 Hx2. rewrite Hoth by done.
          by rewrite lookup_insert_ne. }
        split; [|done]. intros x Hx1 Hx2. by rewrite lookup_insert_ne.
    - (* Neither fiber holds a queue. *)
      subst l1 l2.
      wp_go. unfold createUpdateQueue. apply wp_allocQueue. intros q1 Hfresh1.
      wp_go. eapply wp_modifyFiber; [heap_simpl; exact Hf|].
      wp_go. eapply wp_readFiber;
        [heap_simpl; rewrite lookup_insert_ne by done; exact Ha|].
      wp_go. apply wp_allocQueue. heap_simpl. intros q2 Hfresh2.
      assert (q1 <> q2) as Hq12.
      { intros ->. by rewrite lookup_insert_eq in Hfresh2. }
      rewrite lookup_insert_ne in Hfresh2 by done.
      wp_go. eapply wp_modifyFiber;
        [heap_simpl; rewrite lookup_insert_ne by done; exact Ha|].
      apply wp_ret. cbv beta iota.
      eapply (appendToPair_wp q1 q2 u _ [] [] ur); heap_simpl.
      + eexists. heap_simpl.
        split; [rewrite lookup_insert_ne by done; apply lookup_insert_eq|].
        done.
      + eexists. heap_simpl. split; [apply lookup_insert_eq|]. done.
      + done.
      + exact Hu.
      + exact Hnext.
      + exact Hn1.
      + exact Hn1.
      + intros h' (HU & L1 & L2 & U1 & U2 & Hoth & HF & HC). heap_simpl.
        exists q1, q2. rewrite HF, lookup_insert_eq.
        rewrite lookup_insert_ne, lookup_insert_eq by done. simpl.
        do 5 (split; [done|]).
        split.
        { rewrite U1, lookup_insert_ne, lookup_insert_eq by done. done. }
        split; [by rewrite U2, lookup_insert_eq|].
        split; [done|]. split; [done|].
        split.
        { intros x _ Hx1 Hx2. rewrite Hoth by done.
          by rewrite !lookup_insert_ne. }
        split; [|done]. intros x Hx1 Hx2. by rewrite !lookup_insert_ne. }
  apply wp_elim in Hwp as ([] & h' & Hrun & q1 & q2 & Hres).
  by exists h', q1, q2.
Qed.

(** X3. [enqueueCapturedUpdate] on a work-in-progress fiber whose queue, if
    it has one, is not the queue of its current fiber. The call returns and
    the captured list of the fiber's queue is the former captured list
    followed by the new record, which is its [lastCapturedUpdate]. A fiber
    without queue receives one at a new address, on its [memoizedState],
    with an empty normal list; a fiber with a queue of its own keeps it,
    with its base state, its normal list and its effect pointers. The one
    record written is the former captured tail, in its [next]; no fiber
    other than the work-in-progress one and no other queue changes. *)
Theorem enqueueCapturedUpdate_appends wip u h fb lc ur :
  fibers h !! wip = Some fb ->
  (forall c, Fiber.alternate fb = Some c -> is_Some (fibers h !! c)) ->
  (forall q, Fiber.updateQueue fb = Some q -> ~ sharedWithCurrent h wip q) ->
  capturedPending h fb lc ->
  updates h !! u = Some ur -> Update.next ur = None -> u ∉ lc ->
  exists h' q qr',
    enqueueCapturedUpdate wip u h = Done tt h' /\
    Fiber.updateQueue <$> fibers h' !! wip = Some (Some q) /\
    queues h' !! q = Some qr' /\
    chain (updates h') (Queue.firstCapturedUpdate qr') (lc ++ [u]) /\
    Queue.lastCapturedUpdate qr' = Some u /\
    match Fiber.updateQueue fb with
    | Some q0 =>
        q = q0 /\ fibers h' = fibers h /\
        Some (uncaptured qr') = uncaptured <$> queues h !! q
    | None =>
        queues h !! q = None /\
        uncaptured qr' =
          Queue.mk (Fiber.memoizedState fb) None None None None None None
            None None /\
        fibers h' = <[wip := Fiber.set_updateQueue (Some q) fb]> (fibers h)
    end /\
    updates h' = linkAfter (last lc) u (updates h) /\
    (forall x, x <> q -> queues h' !! x = queues h !! x) /\
    calls h' = calls h.
Proof.
  intros Hf Hc Hns Hp Hu Hnext Hnin.
  assert (forall q qr (h1 : Heap) (Q : unit -> Heap -> Prop),
    queues h1 !! q = Some qr -> updates h1 = updates h ->
    chain (updates h) (Queue.firstCapturedUpdate qr) lc ->
    Queue.lastCapturedUpdate qr = last lc ->
    (forall h' qr',
       queues h' = <[q := qr']> (queues h1) ->
       chain (updates h') (Queue.firstCapturedUpdate qr') (lc ++ [u]) ->
       Queue.lastCapturedUpdate qr' = Some u ->
       uncaptured qr' = uncaptured qr ->
       updates h' = linkAfter (last lc) u (updates h) ->
       fibers h' = fibers h1 -> calls h' = calls h1 -> Q tt h') ->
    wp (let* q0 := readQueue q in
        match Queue.lastCapturedUpdate q0 with
        | None =>
            modifyQueue q
              (fun q0 => Queue.set_firstCapturedUpdate (Some u)
                           (Queue.set_lastCapturedUpdate (Some u) q0))
        | Some last =>
            let* _ := modifyUpdate last (Update.set_next (Some u)) in
            modifyQueue q (Queue.set_lastCapturedUpdate (Some u))
        end) h1 Q) as Happend.
  { intros q qr h1 Q Hq HU1 Hl Hlast HQ.
    pose proof (chain_linkAfter _ _ _ _ _ Hl Hu Hnext Hnin) as Hch.
    wp_go. eapply wp_readQueue; [exact Hq|]. rewrite Hlast.
    destruct (last lc) as [t|] eqn:Ht.
    - assert (t ∈ lc) as Htin by (by apply last_Some_elem_of).
      destruct (linked_lookup _ _ _ _ _ Hl Htin) as [ut Hut].
      wp_go. eapply wp_modifyUpdate; [by rewrite HU1|].
      eapply wp_modifyQueue; [exact Hq|].
      eapply HQ; heap_simpl; try done;
        rewrite HU1, (insert_alter_lookup _ _ _ _ Hut); [|done].
      destruct lc; [done|exact Hch].
    - apply last_None in Ht. subst lc.
      eapply wp_modifyQueue; [exact Hq|].
      eapply HQ; heap_simpl; rewrite ?HU1; try done; exact Hch. }
  assert (wp (enqueueCapturedUpdate wip u) h
    (fun _ h' =>
       exists q qr',
         Fiber.updateQueue <$> fibers h' !! wip = Some (Some q) /\
         queues h' !! q = Some qr' /\
         chain (updates h') (Queue.firstCapturedUpdate qr') (lc ++ [u]) /\
         Queue.lastCapturedUpdate qr' = Some u /\
         match Fiber.updateQueue fb with
         | Some q0 =>
             q = q0 /\ fibers h' = fibers h /\
             Some (uncaptured qr') = uncaptured <$> queues h !! q
         | None =>
             queues h !! q = None /\
             uncaptured qr' =
               Queue.mk (Fiber.memoizedState fb) None None None None None
                 None None None /\
             fibers h' =
               <[wip := Fiber.set_updateQueue (Some q) fb]> (fibers h)
         end /\
         updates h' = linkAfter (last lc) u (updates h) /\
         (forall x, x <> q -> queues h' !! x = queues h !! x) /\
         calls h' = calls h)) as Hwp.
  { unfold enqueueCapturedUpdate.
    wp_go. eapply wp_readFiber; [exact Hf|]. wp_go.
    unfold capturedPending in Hp.
    destruct (Fiber.updateQueue fb) as [q0|] eqn:Huq.
    - destruct Hp as (qr & Hq & Hl & Hlast).
      eapply wp_intro;
        [exact (ensure_private wip q0 h fb Hf Hc (Hns q0 eq_refl))|].
      eapply Happend; [exact Hq|done|exact Hl|exact Hlast|].
      intros h' qr' HQ' Hch Hlc Hun HU HF HC.
      exists q0, qr'. rewrite HF, Hf, HQ', lookup_insert_eq. simpl.
      rewrite Huq, Hq. simpl. rewrite Hun.
      repeat (split; [done|]). split; [|done].
      intros x Hx. by rewrite lookup_insert_ne.
    - subst lc. wp_go. unfold createUpdateQueue. apply wp_allocQueue.
      intros q Hfresh.
      wp_go. eapply wp_modifyFiber; [heap_simpl; exact Hf|]. apply wp_ret.
      eapply Happend; heap_simpl; [apply lookup_insert_eq|done|done|done|].
      intros h' qr' HQ' Hch Hlc Hun HU HF HC. heap_simpl.
      exists q, qr'. rewrite HF, HQ', !lookup_insert_eq. simpl.
      repeat (split; [done|]). split; [|done].
      intros x Hx. by rewrite !lookup_insert_ne. }
  apply wp_elim in Hwp as ([] & h' & Hrun & q & qr' & Hres).
  by exists h', q, qr'.
Qed.

(** * More on [getStateFromUpdate] *)

Section GetState.
Variables (ShouldCapture DidCapture : Z).


Lemma mergePartialState_value u v prev props inst :
  Update.payload u = PValue v ->
  mergePartialState u prev props inst =
  match v with
  | VNull | VUndefined => prev
  | _ => VObject (ownEnumerable v ∪ ownEnumerable prev)
  end.
Proof.
  intros Hp. unfold mergePartialState, Object_assign. rewrite Hp. simpl.
  rewrite (right_id_L ∅ (∪)). by destruct v.
Qed.

(** X5. Replaying a MERGE record whose payload is a value, not a
    function, on the state it has just produced changes nothing: the
    shallow merge is idempotent. *)
Theorem merge_of_value_is_idempotent wip q a u v prev props inst h :
  updates h !! a = Some u -> Update.tag u = UpdateState ->
  Update.payload u = PValue v ->
  exists s,
    getStateFromUpdate ShouldCapture DidCapture wip q a prev props inst h
      = Done s h /\
    getStateFromUpdate ShouldCapture DidCapture wip q a s props inst h
      = Done s h.
Proof.
  intros Ha Ht Hp. unfold getStateFromUpdate, bind, readUpdate.
  rewrite Ha, Ht. exists (mergePartialState u prev props inst).
  split; [done|]. unfold ret. f_equal.
  rewrite !(mergePartialState_value u v) by done.
  destruct v; try done; simpl;
    by rewrite (assoc_L (∪)), (idemp_L (∪)).
Qed.

(** X6. Two MERGE records whose payloads are values that share no key
    commute: replayed in either order they lead from any state to the same
    state. *)
Theorem merges_of_disjoint_values_commute
    wip q a1 a2 u1 u2 v1 v2 prev props inst h :
  updates h !! a1 = Some u1 -> updates h !! a2 = Some u2 ->
  Update.tag u1 = UpdateState -> Update.tag u2 = UpdateState ->
  Update.payload u1 = PValue v1 -> Update.payload u2 = PValue v2 ->
  v1 <> VNull -> v1 <> VUndefined -> v2 <> VNull -> v2 <> VUndefined ->
  ownEnumerable v1 ##ₘ ownEnumerable v2 ->
  exists s12 s21 s,
    getStateFromUpdate ShouldCapture DidCapture wip q a1 prev props inst h
      = Done s12 h /\
    getStateFromUpdate ShouldCapture DidCapture wip q a2 s12 props inst h
      = Done s h /\
    getStateFromUpdate ShouldCapture DidCapture wip q a2 prev props inst h
      = Done s21 h /\
    getStateFromUpdate ShouldCapture DidCapture wip q a1 s21 props inst h
      = Done s h.
Proof.
  intros H1 H2 Ht1 Ht2 Hp1 Hp2 Hn1 Hu1 Hn2 Hu2 Hdisj.
  unfold getStateFromUpdate, bind, readUpdate. rewrite H1, H2, Ht1, Ht2.
  eexists _, _, _. split; [reflexivity|]. split; [reflexivity|].
  split; [reflexivity|]. unfold ret. f_equal.
  rewrite !(mergePartialState_value u1 v1), !(mergePartialState_value u2 v2)
    by done.
  destruct v1, v2; try done; simpl in *; f_equal;
    rewrite !(assoc_L (∪)); f_equal; by apply map_union_comm.
Qed.

End GetState.

(** * The flags of a pass *)

Lemma wlp_bind {A B} (m : M A) (k : A -> M B) h R :
  wlp m h (fun a h' => wlp (k a) h' R) -> wlp (bind m k) h R.
Proof.
  unfold wlp, bind. intros Hm b h' Hrun.
  destruct (m h) as [a h1| | |] eqn:E; try done. by eapply Hm.
Qed.

Lemma wlp_ret {A} (a : A) h (R : A -> Heap -> Prop) : R a h -> wlp (ret a) h R.
Proof. intros HR a' h' [= <- <-]. done. Qed.

Lemma wlp_mono {A} (m : M A) h (R R' : A -> Heap -> Prop) :
  wlp m h R -> (forall a h', R a h' -> R' a h') -> wlp m h R'.
Proof. unfold wlp. eauto. Qed.

Lemma wlp_readUpdate a h R :
  (forall u, updates h !! a = Some u -> R u h) -> wlp (readUpdate a) h R.
Proof.
  unfold wlp, readUpdate. intros HR u h'.
  destruct (updates h !! a) eqn:E; [|done]. intros [= <- <-]. by apply HR.
Qed.

Lemma wlp_readQueue a h R :
  (forall q, queues h !! a = Some q -> R q h) -> wlp (readQueue a) h R.
Proof.
  unfold wlp, readQueue. intros HR u h'.
  destruct (queues h !! a) eqn:E; [|done]. intros [= <- <-]. by apply HR.
Qed.

Lemma wlp_modifyUpdate a f h (R : unit -> Heap -> Prop) :
  (forall u, updates h !! a = Some u ->
             R tt (with_updates (<[a := f u]> (updates h)) h)) ->
  wlp (modifyUpdate a f) h R.
Proof.
  unfold wlp, modifyUpdate. intros HR [] h'.
  destruct (updates h !! a) eqn:E; [|done]. intros [= <-]. by apply HR.
Qed.

Lemma wlp_modifyQueue a f h (R : unit -> Heap -> Prop) :
  (forall q, queues h !! a = Some q ->
             R tt (with_queues (<[a := f q]> (queues h)) h)) ->
  wlp (modifyQueue a f) h R.
Proof.
  unfold wlp, modifyQueue. intros HR [] h'.
  destruct (queues h !! a) eqn:E; [|done]. intros [= <-]. by apply HR.
Qed.

Lemma wlp_modifyFiber a f h (R : unit -> Heap -> Prop) :
  (forall fb, fibers h !! a = Some fb ->
              R tt (with_fibers (<[a := f fb]> (fibers h)) h)) ->
  wlp (modifyFiber a f) h R.
Proof.
  unfold wlp, modifyFiber. intros HR [] h'.
  destruct (fibers h !! a) eqn:E; [|done]. intros [= <-]. by apply HR.
Qed.

Lemma wp_wlp {A} (m : M A) h Q R :
  wp m h Q -> wlp m h R -> wp m h (fun a h' => Q a h' /\ R a h').
Proof.
  unfold wp, wlp. destruct (m h) as [a h'| | |]; try done.
  intros HQ HR. split; [done|]. by apply HR.
Qed.

Ltac wlp_go :=
  lazymatch goal with
  | |- wlp (bind _ _) _ _ => apply wlp_bind; wlp_go
  | _ => idtac
  end.

Section Flags.
Variables (NoWork Callback ShouldCapture DidCapture : Z).

Lemma getStateFromUpdate_flags wip q a u prev props inst h :
  updates h !! a = Some u ->
  wlp (getStateFromUpdate ShouldCapture DidCapture wip q a prev props inst) h
    (fun _ h' =>
       updates h' = updates h /\
       flagsOf wip h' =
         ((flagsOf wip h).1 || forces (a, u),
          (fun t =>
             if captures (a, u)
             then Z.lor (Z.land t (Z.lnot ShouldCapture)) DidCapture
             else t) <$> (flagsOf wip h).2)).
Proof.
  intros Hu. unfold getStateFromUpdate. wlp_go. apply wlp_readUpdate.
  intros u' Hu'. assert (u' = u) as -> by congruence.
  unfold flagsOf, forces, captures. cbn [snd fst].
  destruct (Update.tag u) eqn:Ht.
  - apply wlp_ret. split; [done|]. rewrite orb_false_r.
    by destruct (fibers h !! wip).
  - destruct (Update.payload u); apply wlp_ret; (split; [done|]);
      rewrite orb_false_r; by destruct (fibers h !! wip).
  - wlp_go. intros [] h1 [= <-]. apply wlp_ret. heap_simpl.
    split; [done|]. rewrite orb_true_r. by destruct (fibers h !! wip).
  - wlp_go. apply wlp_modifyFiber. intros fb Hfb. apply wlp_ret.
    heap_simpl. split; [done|].
    rewrite orb_false_r, lookup_insert_eq, Hfb. done.
Qed.

Lemma appendEffect_flagsOf c wip q a h :
  wlp (appendEffect c Callback wip q a) h
    (fun _ h' =>
       flagsOf wip h' =
       ((flagsOf wip h).1, (fun t => Z.lor t Callback) <$> (flagsOf wip h).2)).
Proof.
  unfold appendEffect, flagsOf. cbn [fst snd].
  wlp_go. apply wlp_modifyFiber. intros fb Hfb.
  wlp_go. apply wlp_modifyUpdate. intros ua Hua.
  wlp_go. apply wlp_readQueue. intros qr Hqr. heap_simpl.
  assert (Fiber.effectTag <$>
            <[wip := Fiber.set_effectTag (Z.lor (Fiber.effectTag fb) Callback)
                       fb]> (fibers h) !! wip
          = (fun t => Z.lor t Callback) <$> (Fiber.effectTag <$> fibers h !! wip))
    as Htag by (by rewrite lookup_insert_eq, Hfb).
  destruct ((effectPointers c qr).2).
  - wlp_go. apply wlp_modifyUpdate. intros ul Hul.
    apply wlp_modifyQueue. intros qr' Hqr'. heap_simpl. by rewrite Htag.
  - apply wlp_modifyQueue. intros qr' Hqr'. heap_simpl. by rewrite Htag.
Qed.

Lemma flagsAfter_skip D o e :
  insufficient D e = true ->
  flagsAfter Callback ShouldCapture DidCapture D o e = o.
Proof. unfold flagsAfter. by intros ->. Qed.

Lemma flagsAfter_apply D o e :
  insufficient D e = false ->
  flagsAfter Callback ShouldCapture DidCapture D o e =
  (o.1 || forces e,
   (fun t => tagAfter Callback ShouldCapture DidCapture t e) <$> o.2).
Proof. unfold flagsAfter. by intros ->. Qed.

(** The statements of either loop body after the test, on the flags. *)
Lemma applyUpdate_flags c wip q props inst D a u s h :
  updates h !! a = Some u -> (Update.expirationTime u <? D) = false ->
  wlp (let* r :=
         getStateFromUpdate ShouldCapture DidCapture wip q a (resultState s)
           props inst in
       let s := set_resultState r s in
       let* u := readUpdate a in
       let* _ :=
         match Update.callback u with
         | CNull => ret tt
         | _ => appendEffect c Callback wip q a
         end in
       let* u := readUpdate a in
       ret (set_update (Update.next u) s)) h
    (fun _ h' =>
       flagsOf wip h' =
       flagsAfter Callback ShouldCapture DidCapture D (flagsOf wip h)
         (a, stripEffect u)).
Proof.
  intros Hu HD. rewrite flagsAfter_apply by done.
  wlp_go. eapply wlp_mono; [by apply getStateFromUpdate_flags|].
  intros r h1 [HU1 Hfl1]. cbv beta zeta.
  wlp_go. apply wlp_readUpdate. intros u' Hu'.
  assert (u' = u) as -> by congruence.
  unfold tagAfter, hasCallback, forces, captures in *. cbn [fst snd] in *.
  cbn [stripEffect Update.set_nextEffect Update.tag Update.callback].
  destruct (Update.callback u) eqn:Hcb.
  - wlp_go. apply wlp_ret.
    wlp_go. apply wlp_readUpdate. intros u2 _. apply wlp_ret.
    rewrite Hfl1. done.
  - apply wlp_bind. eapply wlp_mono; [apply appendEffect_flagsOf|].
    intros [] h2 Hfl2. cbv beta.
    wlp_go. apply wlp_readUpdate. intros u2 _. apply wlp_ret.
    rewrite Hfl2, Hfl1. cbn [fst snd].
    by destruct ((flagsOf wip h).2).
  - apply wlp_bind. eapply wlp_mono; [apply appendEffect_flagsOf|].
    intros [] h2 Hfl2. cbv beta.
    wlp_go. apply wlp_readUpdate. intros u2 _. apply wlp_ret.
    rewrite Hfl2, Hfl1. cbn [fst snd].
    by destruct ((flagsOf wip h).2).
Qed.

Lemma processNormalUpdate_flags wip q props inst D a u s h :
  updates h !! a = Some u ->
  wlp (processNormalUpdate Callback ShouldCapture DidCapture wip q props inst
         D a s) h
    (fun _ h' =>
       flagsOf wip h' =
       flagsAfter Callback ShouldCapture DidCapture D (flagsOf wip h)
         (a, stripEffect u)).
Proof.
  intros Hu. unfold processNormalUpdate.
  wlp_go. apply wlp_readUpdate. intros u' Hu'.
  assert (u' = u) as -> by congruence.
  destruct (Update.expirationTime u <? D) eqn:HD.
  - wlp_go. apply wlp_readUpdate. intros u2 _. apply wlp_ret.
    by rewrite flagsAfter_skip.
  - exact (applyUpdate_flags false wip q props inst D a u s h Hu HD).
Qed.

Lemma processCapturedUpdate_flags wip q props inst D a u s h :
  updates h !! a = Some u ->
  wlp (processCapturedUpdate Callback ShouldCapture DidCapture wip q props
         inst D a s) h
    (fun _ h' =>
       flagsOf wip h' =
       flagsAfter Callback ShouldCapture DidCapture D (flagsOf wip h)
         (a, stripEffect u)).
Proof.
  intros Hu. unfold processCapturedUpdate.
  wlp_go. apply wlp_readUpdate. intros u' Hu'.
  assert (u' = u) as -> by congruence.
  destruct (Update.expirationTime u <? D) eqn:HD.
  - wlp_go. apply wlp_readUpdate. intros u2 _. apply wlp_ret.
    by rewrite flagsAfter_skip.
  - exact (applyUpdate_flags true wip q props inst D a u s h Hu HD).
Qed.

(** Either loop, with the flags it leaves. *)
Lemma whileUpdate_flags c body step wip q D :
  (forall a s h u fb qr,
     updates h !! a = Some u -> fibers h !! wip = Some fb ->
     queues h !! q = Some qr -> effectTailsAllocated (updates h) qr ->
     wp (body a s) h
        (fun s' h' =>
           s' = step s (a, stripEffect u) /\
           loopFrame wip q h h' /\ tailsAllocated q h' /\
           effectsLinked c q [a] (effectsOf D [(a, stripEffect u)]) h h')) ->
  (forall a s h u,
     updates h !! a = Some u ->
     wlp (body a s) h
       (fun _ h' =>
          flagsOf wip h' =
          flagsAfter Callback ShouldCapture DidCapture D (flagsOf wip h)
            (a, stripEffect u))) ->
  (forall s e, update (step s e) = Update.next e.2) ->
  forall l fuel s h,
    chain (updates h) (update s) l -> (length l <= fuel)%nat ->
    is_Some (fibers h !! wip) -> is_Some (queues h !! q) ->
    tailsAllocated q h ->
    wp (whileUpdate fuel body s) h
       (fun s' h' =>
          s' = foldl step s (entries (updates h) l) /\
          loopFrame wip q h h' /\ tailsAllocated q h' /\
          flagsOf wip h' =
          foldl (flagsAfter Callback ShouldCapture DidCapture D)
            (flagsOf wip h) (entries (updates h) l)).
Proof.
  intros Hbody Hflags Hstep.
  induction l as [|a l IH]; intros fuel s h Hch Hfuel Hf Hq Htl.
  - simpl in Hch. destruct fuel; simpl; rewrite Hch; apply wp_ret;
      (split; [done|]); (split; [apply loopFrame_refl|]); done.
  - apply linked_cons in Hch as [Hs (u & Hu & Hch)].
    destruct fuel as [|fuel]; [simpl in Hfuel; lia|].
    cbn [whileUpdate]. rewrite Hs.
    destruct Hf as [fb Hf], Hq as [qr Hq].
    apply wp_bind. eapply wp_mono;
      [exact (wp_wlp _ _ _ _ (Hbody a s h u fb qr Hu Hf Hq (Htl _ Hq))
                (Hflags a s h u Hu))|].
    intros s1 h1 [(-> & Hfr & Htl1 & _) Hfl1]. cbv beta.
    pose proof Hfr as (HU & _ & HQ & _ & HF & _).
    eapply wp_mono.
    { apply IH.
      - rewrite Hstep. simpl. by apply (chain_strip (updates h)).
      - simpl in Hfuel. lia.
      - rewrite Hf in HF. destruct (fibers h1 !! wip); [eauto|done].
      - rewrite Hq in HQ. destruct (queues h1 !! q); [eauto|done].
      - done. }
    intros s2 h2 (-> & Hfr2 & Htl2 & Hfl2). cbv beta.
    rewrite (entries_cons _ _ _ _ Hu), (entries_strip _ _ _ HU). simpl.
    split; [done|]. split; [by eapply loopFrame_trans|]. split; [done|].
    by rewrite Hfl2, Hfl1, (entries_strip _ _ _ HU).
Qed.

(** The flags that a pass leaves, from those that its first loop finds. *)
Lemma processUpdateQueue_run_flags fuel wip q q' props inst D h h1 qw fbw
    l lc :
  ensureWorkInProgressQueueIsAClone wip q (with_hasForceUpdate false h)
    = Done q' h1 ->
  queues h1 !! q' = Some qw -> fibers h1 !! wip = Some fbw ->
  chain (updates h1) (Queue.firstUpdate qw) l ->
  chain (updates h1) (Queue.firstCapturedUpdate qw) lc ->
  effectTailsAllocated (updates h1) qw ->
  (length l <= fuel)%nat -> (length lc <= fuel)%nat ->
  wp (processUpdateQueue NoWork Callback ShouldCapture DidCapture fuel wip q
        props inst D) h
     (fun _ h' =>
        let o :=
          foldl (flagsAfter Callback ShouldCapture DidCapture D)
            (flagsOf wip h1)
            (entries (updates h1) l ++ entries (updates h1) lc) in
        flagsOf wip h' =
        (o.1,
         (fun t =>
            match remaining D (entries (updates h1) lc) with
            | [] => t
            | _ :: _ => Z.lor t Callback
            end) <$> o.2)).
Proof.
  intros Hens Hq Hf Hl Hlc Htl Hfl Hflc. unfold processUpdateQueue.
  apply wp_bind, wp_setHasForceUpdate.
  eapply wp_bind_done; [exact Hens|].
  wp_go. eapply wp_readQueue; [exact Hq|].
  wp_go. eapply wp_mono.
  { eapply (whileUpdate_flags false _ (normalStep props inst D) wip q' D
              (processNormalUpdate_wp Callback ShouldCapture DidCapture wip q'
                 props inst D)
              (fun a s h u => processNormalUpdate_flags wip q' props inst D a
                                u s h)
              (normalStep_update props inst D) l); eauto.
    intros qr Hqr. congruence. }
  intros s2 h2 (Hs2 & Hfr2 & Htl2 & Hfl2). cbv beta.
  pose proof Hfr2 as (HU2 & _ & HQ2 & _ & HF2 & _).
  rewrite Hq in HQ2. rewrite Hf in HF2.
  destruct (queues h2 !! q') as [qr2|] eqn:Hq2; [|done].
  destruct (fibers h2 !! wip) as [fb2|] eqn:Hf2; [|done].
  simpl in HQ2, HF2. apply (inj Some) in HQ2. apply (inj Some) in HF2.
  apply stripQueue_eq in HQ2 as (Hq2a & Hq2b & Hq2c & Hq2d & Hq2e).
  wp_go. eapply wp_readQueue; [exact Hq2|].
  wp_go. eapply wp_mono.
  { eapply (whileUpdate_flags true _ (capturedStep props inst D) wip q' D
              (processCapturedUpdate_wp Callback ShouldCapture DidCapture wip
                 q' props inst D)
              (fun a s h u => processCapturedUpdate_flags wip q' props inst D
                                a u s h)
              (capturedStep_update props inst D) lc); eauto.
    simpl. rewrite Hq2d. by apply (chain_strip (updates h1)). }
  intros s3 h3 (Hs3 & Hfr3 & Htl3 & Hfl3). cbv beta.
  rewrite (entries_strip _ _ _ HU2) in Hs3, Hfl3.
  rewrite Hq2d in Hs3. subst s2.
  change (foldl _ (set_update _ _) _)
    with (passLocals NoWork props inst D qw (entries (updates h1) l)
            (entries (updates h1) lc)) in Hs3.
  destruct (passLocals_fields NoWork props inst D qw (entries (updates h1) l)
              (entries (updates h1) lc)) as (_ & _ & F & FC & _).
  set (sF := passLocals _ _ _ _ _ _ _) in *. subst s3.
  rewrite Hfl2, <- foldl_app in Hfl3. clear Hfl2.
  set (o := foldl _ (flagsOf wip h1) (_ ++ _)) in *.
  pose proof Hfr3 as (_ & _ & HQ3 & _ & HF3 & _).
  rewrite Hq2 in HQ3. rewrite Hf2 in HF3.
  destruct (queues h3 !! q') as [qr3|] eqn:Hq3; [|done].
  destruct (fibers h3 !! wip) as [fb3|] eqn:Hf3; [|done].
  assert (o = (hasForceUpdate h3, Some (Fiber.effectTag fb3))) as Ho.
  { unfold flagsOf in Hfl3. rewrite Hf3 in Hfl3. exact (eq_sym Hfl3). }
  clear Hfl3. clearbody o sF. subst o. cbn [fst snd fmap option_fmap option_map].
  assert (match remaining D (entries (updates h1) lc) with
          | [] => newFirstCapturedUpdate sF = None
          | _ :: _ => is_Some (newFirstCapturedUpdate sF)
          end) as Hrem.
  { rewrite FC. destruct (remaining D (entries (updates h1) lc)); simpl; eauto. }
  destruct (newFirstUpdate sF) as [nf|] eqn:E1,
           (newFirstCapturedUpdate sF) as [nfc|] eqn:E2.
  all: destruct (remaining D (entries (updates h1) lc)) as [|e0 r0];
    try done; try (by destruct Hrem).
  all: wp_go;
    repeat first
      [ apply wp_ret
      | eapply wp_modifyQueue;
        [heap_simpl; first [exact Hq3 | apply lookup_insert_eq]|]
      | eapply wp_modifyFiber;
        [heap_simpl; first [exact Hf3 | apply lookup_insert_eq]|] ];
    wp_go;
    repeat first
      [ eapply wp_modifyQueue;
        [heap_simpl; first [exact Hq3 | apply lookup_insert_eq]|]; wp_go
      | eapply wp_modifyFiber;
        [heap_simpl; first [exact Hf3 | apply lookup_insert_eq]|]; wp_go ].
  all: unfold flagsOf; heap_simpl; rewrite ?lookup_insert_eq; done.
Qed.

Lemma processUpdateQueue_flags fuel wip q props inst D h fb qr l lc :
  replayable fuel h wip q fb qr l lc ->
  wp (processUpdateQueue NoWork Callback ShouldCapture DidCapture fuel wip q
        props inst D) h
     (fun _ h' =>
        let o :=
          foldl (flagsAfter Callback ShouldCapture DidCapture D)
            (false, Some (Fiber.effectTag fb))
            (entries (updates h) l ++ entries (updates h) lc) in
        flagsOf wip h' =
        (o.1,
         (fun t =>
            match remaining D (entries (updates h) lc) with
            | [] => t
            | _ :: _ => Z.lor t Callback
            end) <$> o.2)).
Proof.
  intros (Hf & Hq & Hc & Hl & Hlc & Hsh & Htl & Hfl & Hflc).
  destruct (sharedWithCurrent_dec h wip q fb Hf Hc) as [Hs|Hs].
  - specialize (Hsh Hs). subst lc. simpl in Hlc.
    destruct (ensure_shared wip q (with_hasForceUpdate false h) qr fb Hf Hq)
      as (q' & Hfresh & Hens); [done|].
    heap_simpl.
    set (qw := Queue.mk (Queue.baseState qr) (Queue.firstUpdate qr)
                 (Queue.lastUpdate qr) None None None None None None) in *.
    eapply wp_mono.
    { eapply (processUpdateQueue_run_flags fuel wip q q' props inst D h _ qw
                (Fiber.set_updateQueue (Some q') fb) l []);
        [exact Hens|heap_simpl; apply lookup_insert_eq
        |heap_simpl; apply lookup_insert_eq|exact Hl|done| |done|simpl; lia].
      split; intros e He; done. }
    intros [] h' Hres. cbv beta zeta in *. rewrite Hres.
    unfold flagsOf. heap_simpl. by rewrite lookup_insert_eq.
  - pose proof (ensure_private wip q (with_hasForceUpdate false h) fb Hf Hc Hs)
      as Hens.
    eapply wp_mono.
    { eapply (processUpdateQueue_run_flags fuel wip q q props inst D h _ qr
                fb l lc); [exact Hens|done..]. }
    intros [] h' Hres. cbv beta zeta in *. rewrite Hres.
    unfold flagsOf. heap_simpl. by rewrite Hf.
Qed.

Lemma flags_fold_force D es o :
  (foldl (flagsAfter Callback ShouldCapture DidCapture D) o es).1 =
  o.1 || existsb forces (appliedBy D es).
Proof.
  revert o. induction es as [|e es IH]; intros o; simpl.
  - by rewrite orb_false_r.
  - rewrite IH, appliedBy_cons. unfold flagsAfter.
    destruct (insufficient D e); simpl; [done|]. by rewrite orb_assoc.
Qed.


Lemma appliedBy_app D es cs :
  appliedBy D (es ++ cs) = appliedBy D es ++ appliedBy D cs.
Proof. unfold appliedBy. apply filter_app. Qed.

(** X7. The force flag of a pass. [processUpdateQueue] lowers
    [hasForceUpdate] before it replays, so that what
    [checkHasForceUpdateAfterProcessing] returns after the pass owes
    nothing to the flag before it: it is [true] exactly when the pass
    applied a [ForceUpdate] record, of either list; a [ForceUpdate] record
    that the pass skipped does not raise it. *)
Theorem pass_force_flag fuel wip q props inst D h fb qr l lc :
  replayable fuel h wip q fb qr l lc ->
  exists h',
    processUpdateQueue NoWork Callback ShouldCapture DidCapture fuel wip q
      props inst D h = Done tt h' /\
    checkHasForceUpdateAfterProcessing h' =
      Done (existsb forces
              (appliedBy D (entries (updates h) l ++ entries (updates h) lc)))
           h'.
Proof.
  intros Hre.
  destruct (wp_elim _ _ _
              (processUpdateQueue_flags fuel wip q props inst D h fb qr l lc
                 Hre)) as ([] & h' & Hrun & Hfl).
  exists h'. split; [done|]. unfold checkHasForceUpdateAfterProcessing.
  f_equal. cbv zeta in Hfl. apply (f_equal fst) in Hfl.
  unfold flagsOf in Hfl. cbn [fst] in Hfl. by rewrite Hfl, flags_fold_force.
Qed.









(** X9. The remaining priority after a pass at the deadline [D] is
    [NoWork], or it is the deadline of a record that the pass skipped, and
    then it is less urgent than [D]: a later pass at the remaining priority
    is never a pass at [D] or above again. *)
Theorem pass_remaining_priority_below fuel wip q props inst D h fb qr l lc :
  replayable fuel h wip q fb qr l lc ->
  exists h' ff,
    processUpdateQueue NoWork Callback ShouldCapture DidCapture fuel wip q
      props inst D h = Done tt h' /\
    fibers h' !! wip = Some ff /\
    (Fiber.expirationTime ff = NoWork \/
     lessUrgent (Fiber.expirationTime ff) D /\
     exists e,
       e ∈ skippedBy D (entries (updates h) l ++ entries (updates h) lc) /\
       Update.expirationTime e.2 = Fiber.expirationTime ff).
Proof.
  intros (Hf & Hq & Hc & Hl & Hlc & Hsh & Htl & Hfl & Hflc).
  destruct (wp_elim _ _ _
    (processUpdateQueue_spec NoWork Callback ShouldCapture DidCapture fuel
       wip q props inst D h fb qr l lc Hf Hq Hc Hl Hlc Hsh Htl Hfl Hflc))
    as ([] & h' & Hrun & q' & fbw & _ & Hres & _).
  destruct Hres as (_ & _ & _ & _ & (ff & Hff & _ & He & _) & _).
  destruct (passLocals_fields NoWork props inst D qr (entries (updates h) l)
              (entries (updates h) lc)) as (_ & X & _).
  exists h', ff. split; [done|]. split; [done|]. rewrite He, X.
  destruct (mostUrgent_attained NoWork
              (skippedBy D (entries (updates h) l ++ entries (updates h) lc)))
    as [->|(e & Hin & Heq)]; [by left|].
  right. split; [|by exists e].
  rewrite <- Heq. apply elem_of_skippedBy in Hin as [_ Hless]. done.
Qed.

End Flags.

(** * Passes in sequence *)

Section Rebase.
Variables (NoWork Callback ShouldCapture DidCapture : Z).

(** X10. The levels in between do not matter. For a queue with an empty
    captured list, any series of passes, at any deadlines in any order,
    whose last pass is at a deadline that makes every record eligible,
    returns and leaves in the fiber the base state with every record
    applied once, in insertion order. *)
Theorem passes_converge_whatever_the_levels
    fuel wip q props inst levels D0 h fb qr l :
  replayable fuel h wip q fb qr l [] -> Fiber.updateQueue fb = Some q ->
  last levels = Some D0 ->
  (forall e, e ∈ entries (updates h) l ->
             ~ lessUrgent (Update.expirationTime e.2) D0) ->
  exists h',
    renderLevels NoWork Callback ShouldCapture DidCapture fuel wip props inst
      levels h = Done tt h' /\
    memoizedStateOf h' wip =
      Some (applyAll props inst (Queue.baseState qr) (entries (updates h) l)).
Proof.
  intros Hre Huq Hlast Hall.
  destruct (wp_elim _ _ _
    (renderLevels_converges NoWork Callback ShouldCapture DidCapture fuel wip
       props inst levels h q fb qr l Hre Huq
       ltac:(by intros ->)
       ltac:(intros D HD e He; rewrite Hlast in HD; injection HD as <-;
             specialize (Hall e He); unfold lessUrgent in Hall; lia)))
    as ([] & h' & Hrun & Hm).
  by exists h'.
Qed.

Lemma renderAt_exact fuel wip props inst D h q fb qr l :
  replayable fuel h wip q fb qr l [] -> Fiber.updateQueue fb = Some q ->
  wp (renderAt NoWork Callback ShouldCapture DidCapture fuel wip props inst D)
     h
     (fun _ h' =>
        exists q' fb' qr',
          let es := entries (updates h) l in
          replayable fuel h' wip q' fb' qr' (remaining D es).*1 [] /\
          Fiber.updateQueue fb' = Some q' /\
          entries (updates h') (remaining D es).*1 = remaining D es /\
          Queue.baseState qr' =
            applyAll props inst (Queue.baseState qr) (settled D es) /\
          Fiber.memoizedState fb' =
            applyAll props inst (Queue.baseState qr) (appliedBy D es) /\
          Fiber.expirationTime fb' = mostUrgent NoWork (skippedBy D es)).
Proof.
  intros (Hf & Hq & Hc & Hl & Hlc & Hsh & Htl & Hfl & Hflc) Huq.
  unfold renderAt. wp_go. eapply wp_readFiber; [exact Hf|]. rewrite Huq.
  eapply wp_mono;
    [exact (processUpdateQueue_spec NoWork Callback ShouldCapture DidCapture
              fuel wip q props inst D h fb qr l [] Hf Hq Hc Hl Hlc Hsh Htl
              Hfl Hflc)|].
  intros _ h' (q' & fbw & Hon & Hres & _). cbv beta.
  destruct Hres
    as (HU & _ & (qf & Hqf & Hb & Hfu & Hfcu & _ & _ & Htl') & HFo &
        (ff & Hff & Hm & He & Halt & Huq') & _).
  destruct (passLocals_fields NoWork props inst D qr (entries (updates h) l)
              (entries (updates h) [])) as (R & X & F & FC & B).
  change (entries (updates h) []) with (@nil (addr * Update.t)) in *.
  rewrite app_nil_r in X.
  set (es := entries (updates h) l) in *.
  destruct (remaining_entries D (updates h) l) as (i & Hdrop & Hfst & Hent).
  fold es in Hdrop, Hfst, Hent.
  exists q', ff, qf. cbv zeta.
  assert (Fiber.alternate fbw = Fiber.alternate fb /\
          Fiber.updateQueue fbw = Some q') as [Ha Hu].
  { destruct Hon as [(_ & -> & ->)|(_ & _ & ->)]; by split. }
  split.
  { unfold replayable. split; [done|]. split; [done|].
    split.
    { intros c Hcc. rewrite Halt, Ha in Hcc.
      destruct (decide (c = wip)) as [->|Hne]; [by eexists|].
      rewrite HFo by done. by apply Hc. }
    split.
    { rewrite Hfu, F, Hfst. apply (chain_strip (updates h)); [done|].
      exact (linked_drop _ _ _ _ i Hl). }
    split; [by rewrite Hfcu, FC|]. split; [done|]. split; [done|].
    split; [|simpl; lia]. rewrite Hfst, length_drop. lia. }
  split; [congruence|].
  split.
  { rewrite Hfst, (entries_strip _ _ _ HU). done. }
  split.
  { rewrite Hb, B.
    destruct (remaining D es) as [|e r] eqn:Hrem; [|done].
    cbn [remaining]. rewrite R.
    change (appliedBy D []) with (@nil (addr * Update.t)).
    unfold applyAll at 1. cbn [foldl].
    assert (settled D es = es) as ->.
    { pose proof (settled_remaining D es) as Hsr.
      by rewrite Hrem, app_nil_r in Hsr. }
    rewrite (applied_all D es) by (by apply remaining_nil). done. }
  split; [by rewrite Hm, R|]. by rewrite He, X.
Qed.

Section TwoLevels.
Variables (D1 D2 : Z).
Hypothesis Hlevels : D2 <= D1.

Lemma insufficient_mono e : insufficient D1 e = false -> insufficient D2 e = false.
Proof. unfold insufficient. rewrite !Z.ltb_ge. lia. Qed.

Lemma remaining_remaining es : remaining D2 (remaining D1 es) = remaining D2 es.
Proof.
  induction es as [|e es IH]; [done|]. simpl.
  destruct (insufficient D1 e) eqn:E1; [done|].
  by rewrite (insufficient_mono e E1).
Qed.

Lemma settled_settled es :
  settled D2 es = settled D1 es ++ settled D2 (remaining D1 es).
Proof.
  induction es as [|e es IH]; [done|]. simpl.
  destruct (insufficient D1 e) eqn:E1; [done|].
  rewrite (insufficient_mono e E1). simpl. by f_equal.
Qed.

Lemma appliedBy_settled es :
  appliedBy D2 es = settled D1 es ++ appliedBy D2 (remaining D1 es).
Proof.
  induction es as [|e es IH]; [done|]. simpl.
  destruct (insufficient D1 e) eqn:E1; [done|].
  rewrite appliedBy_cons, (insufficient_mono e E1). simpl. by f_equal.
Qed.

Lemma skippedBy_remaining es :
  skippedBy D2 (remaining D1 es) = skippedBy D2 es.
Proof.
  induction es as [|e es IH]; [done|]. simpl.
  destruct (insufficient D1 e) eqn:E1; [done|].
  by rewrite skippedBy_cons, (insufficient_mono e E1).
Qed.

End TwoLevels.

(** X11. Two passes as one. For a queue with an empty captured list, a
    pass at a deadline [D1] followed by a pass at a deadline [D2] that is
    no more urgent leaves what a single pass at [D2] leaves: the same
    result state and remaining priority in the fiber, and in its queue the
    same base state and the same remaining records, from the same head.
    With [D2 = D1]: a pass repeated at the same deadline changes none of
    these. *)
Theorem two_passes_as_one fuel wip q props inst D1 D2 h fb qr l :
  replayable fuel h wip q fb qr l [] -> Fiber.updateQueue fb = Some q ->
  D2 <= D1 ->
  exists h1 h2 f1 f2 q1 q2 r1 r2 rest,
    renderLevels NoWork Callback ShouldCapture DidCapture fuel wip props inst
      [D2] h = Done tt h1 /\
    renderLevels NoWork Callback ShouldCapture DidCapture fuel wip props inst
      [D1; D2] h = Done tt h2 /\
    fibers h1 !! wip = Some f1 /\ fibers h2 !! wip = Some f2 /\
    Fiber.memoizedState f2 = Fiber.memoizedState f1 /\
    Fiber.expirationTime f2 = Fiber.expirationTime f1 /\
    Fiber.updateQueue f1 = Some q1 /\ Fiber.updateQueue f2 = Some q2 /\
    queues h1 !! q1 = Some r1 /\ queues h2 !! q2 = Some r2 /\
    Queue.baseState r2 = Queue.baseState r1 /\
    Queue.firstUpdate r2 = Queue.firstUpdate r1 /\
    chain (updates h1) (Queue.firstUpdate r1) rest /\
    chain (updates h2) (Queue.firstUpdate r2) rest /\
    rest = (remaining D2 (entries (updates h) l)).*1.
Proof.
  intros Hre Huq Hlevels. cbn [renderLevels].
  destruct (wp_elim _ _ _ (renderAt_exact fuel wip props inst D2 h q fb qr l
                             Hre Huq))
    as ([] & h1 & Hrun1 & q1 & f1 & r1 & Hre1 & Huq1 & Hent1 & Hb1 & Hm1 & He1).
  destruct (wp_elim _ _ _ (renderAt_exact fuel wip props inst D1 h q fb qr l
                             Hre Huq))
    as ([] & ha & Hruna & qa & fa & ra & Hrea & Huqa & Henta & Hba & Hma & Hea).
  destruct (wp_elim _ _ _ (renderAt_exact fuel wip props inst D2 ha qa fa ra
                             _ Hrea Huqa))
    as ([] & h2 & Hrun2 & q2 & f2 & r2 & Hre2 & Huq2 & Hent2 & Hb2 & Hm2 & He2).
  cbv zeta in *. rewrite Henta in Hre2, Hent2, Hb2, Hm2, He2.
  set (es := entries (updates h) l) in *.
  rewrite (remaining_remaining D1 D2 Hlevels) in Hre2, Hent2.
  exists h1, h2, f1, f2, q1, q2, r1, r2, (remaining D2 es).*1.
  unfold bind. rewrite Hrun1, Hruna, Hrun2. unfold ret.
  split; [done|]. split; [done|].
  pose proof Hre1 as (Hf1 & Hq1 & _ & Hl1 & _).
  pose proof Hre2 as (Hf2 & Hq2 & _ & Hl2 & _).
  split; [done|]. split; [done|].
  split.
  { rewrite Hm2, Hm1, Hba, (appliedBy_settled D1 D2 Hlevels es).
    unfold applyAll. by rewrite foldl_app. }
  split.
  { by rewrite He2, He1, (skippedBy_remaining D1 D2 Hlevels). }
  do 4 (split; [done|]).
  split.
  { rewrite Hb2, Hb1, Hba, (settled_settled D1 D2 Hlevels es).
    unfold applyAll. by rewrite foldl_app. }
  split.
  { apply linked_head in Hl1, Hl2. congruence. }
  done.
Qed.

End Rebase.

(** * Enqueueing, then replaying *)

Lemma nextState_next u n prev props inst :
  nextState (Update.set_next n u) prev props inst = nextState u prev props inst.
Proof. done. Qed.

Lemma applyAll_applied_ext props inst D es es' : forall b,
  Forall2 (fun e e' => Update.set_next None e.2 = Update.set_next None e'.2)
    es es' ->
  applyAll props inst b (appliedBy D es) =
  applyAll props inst b (appliedBy D es').
Proof.
  intros b H. revert b. induction H as [|e e' es es' He _ IH]; intros b; [done|].
  assert (insufficient D e = insufficient D e') as Hi.
  { pose proof (f_equal Update.expirationTime He) as He'. simpl in He'.
    unfold insufficient. by rewrite He'. }
  rewrite !appliedBy_cons, Hi. destruct (insufficient D e'); [apply IH|].
  unfold applyAll in *. simpl. rewrite IH. f_equal.
  rewrite <- (nextState_next e.2 None), <- (nextState_next e'.2 None).
  by rewrite He.
Qed.

Lemma entries_linkAfter t u us l :
  Forall2 (fun e e' => Update.set_next None e.2 = Update.set_next None e'.2)
    (entries (linkAfter t u us) l) (entries us l).
Proof.
  unfold entries. apply Forall2_fmap, Forall_Forall2_diag, Forall_forall.
  intros x _. simpl. destruct t as [t|]; simpl; [|done].
  rewrite !lookup_total_alt. destruct (decide (t = x)) as [->|Hne].
  - rewrite lookup_alter_eq. by destruct (us !! x).
  - by rewrite lookup_alter_ne.
Qed.

Section EnqueueThenReplay.
Variables (NoWork Callback ShouldCapture DidCapture : Z).

(** X12. Enqueue, then replay. On a fiber without alternate whose queue,
    if it has one, holds no captured update and no pending effect,
    [enqueueUpdate] followed by a pass at [D] returns, and the state that
    the pass leaves in the fiber is the base state with the records of the
    former list and then the new record applied, in this order, each if its
    deadline is sufficient at [D]. The base state is that of the queue, and
    the fiber's [memoizedState] when the enqueue had to create the
    queue. *)
Theorem enqueue_then_pass fuel fiber u props inst D h fb l ur :
  fibers h !! fiber = Some fb -> Fiber.alternate fb = None ->
  pending h fb l ->
  (forall q qr, Fiber.updateQueue fb = Some q -> queues h !! q = Some qr ->
     Queue.firstCapturedUpdate qr = None /\
     Queue.lastEffect qr = None /\ Queue.lastCapturedEffect qr = None) ->
  updates h !! u = Some ur -> Update.next ur = None -> u ∉ l ->
  (length l < fuel)%nat ->
  let base :=
    match Fiber.updateQueue fb ≫= (fun q => queues h !! q) with
    | Some qr => Queue.baseState qr
    | None => Fiber.memoizedState fb
    end in
  exists h',
    (let* _ := enqueueUpdate fiber u in
     renderAt NoWork Callback ShouldCapture DidCapture fuel fiber props inst D)
      h = Done tt h' /\
    memoizedStateOf h' fiber =
      Some (applyAll props inst base
              (appliedBy D (entries (updates h) (l ++ [u])))).
Proof.
  intros Hf Halt Hp Hclean Hu Hnext Hnin Hfuel base.
  destruct (enqueueUpdate_single_fiber fiber u h fb l ur Hf Halt Hp Hu Hnext
              Hnin)
    as (h1 & q & Hrun1 & Hfq & (qr1 & Hq1 & Hl1 & Hlast1) & Hcase & HU & Hoth
        & HC).
  destruct (fibers h1 !! fiber) as [fb1|] eqn:Hf1; [|done].
  simpl in Hfq. injection Hfq as Hfq.
  assert (Fiber.alternate fb1 = None /\
          Queue.firstCapturedUpdate qr1 = None /\
          Queue.lastEffect qr1 = None /\ Queue.lastCapturedEffect qr1 = None /\
          Queue.baseState qr1 = base) as (Halt1 & Hfc1 & Hle1 & Hlce1 & Hb1).
  { subst base. unfold pending in Hp.
    destruct (Fiber.updateQueue fb) as [q0|] eqn:Huq.
    - destruct Hcase as (-> & HF & Hun).
      destruct Hp as (qr0 & Hq0 & _). simpl.
      rewrite Hq1, Hq0 in Hun. simpl in Hun. apply (inj Some) in Hun.
      destruct (Hclean q0 qr0 eq_refl Hq0) as (C1 & C2 & C3).
      rewrite Hq0. rewrite HF, Hf in Hf1. injection Hf1 as <-.
      split; [done|].
      apply (f_equal Queue.firstCapturedUpdate) in Hun as E1.
      apply (f_equal Queue.lastEffect) in Hun as E2.
      apply (f_equal Queue.lastCapturedEffect) in Hun as E3.
      apply (f_equal Queue.baseState) in Hun as E4.
      simpl in E1, E2, E3, E4. by rewrite E1, E2, E3, E4.
    - destruct Hcase as (Hfresh & Hun & HF). simpl.
      rewrite Hq1 in Hun. simpl in Hun. apply (inj Some) in Hun.
      rewrite HF, lookup_insert_eq in Hf1. injection Hf1 as <-.
      split; [done|].
      apply (f_equal Queue.firstCapturedUpdate) in Hun as E1.
      apply (f_equal Queue.lastEffect) in Hun as E2.
      apply (f_equal Queue.lastCapturedEffect) in Hun as E3.
      apply (f_equal Queue.baseState) in Hun as E4.
      simpl in E1, E2, E3, E4. by rewrite E1, E2, E3, E4. }
  assert (replayable fuel h1 fiber q fb1 qr1 (l ++ [u]) []) as Hre.
  { unfold replayable. do 2 (split; [done|]).
    split; [intros c Hc; congruence|]. split; [done|].
    split; [by rewrite Hfc1|]. split; [done|].
    split; [split; intros e He; congruence|].
    split; [rewrite length_app; simpl; lia|simpl; lia]. }
  destruct (wp_elim _ _ _
    (renderAt_exact NoWork Callback ShouldCapture DidCapture fuel fiber props
       inst D h1 q fb1 qr1 (l ++ [u]) Hre Hfq))
    as ([] & h2 & Hrun2 & q' & fb' & qr' & Hre2 & _ & _ & _ & Hm & _).
  exists h2. unfold bind. rewrite Hrun1. split; [exact Hrun2|].
  destruct Hre2 as (Hf2 & _). unfold memoizedStateOf. rewrite Hf2. simpl.
  f_equal. cbv zeta in Hm. rewrite Hm, Hb1, HU.
  apply applyAll_applied_ext, entries_linkAfter.
Qed.

End EnqueueThenReplay.

(** * More on the commit *)

Lemma heap_eta h :
  mkHeap (updates h) (queues h) (fibers h) (hasForceUpdate h) (calls h) = h.
Proof. by destruct h. Qed.

(** A commit of a queue with no captured update and no effect finds
    nothing to do. *)
Lemma commitUpdateQueue_clean fuel fw q inst D h qf :
  queues h !! q = Some qf ->
  Queue.firstCapturedUpdate qf = None ->
  effectPointers false qf = (None, None) ->
  effectPointers true qf = (None, None) ->
  commitUpdateQueue fuel fw q inst D h = Done tt h.
Proof.
  intros Hq Hfc [= He1 He2] [= Hc1 Hc2].
  assert (forall (f : Queue.t -> Queue.t) (h0 : Heap),
            h0 = h -> f qf = qf -> modifyQueue q f h0 = Done tt h) as Hmod.
  { intros f h0 -> Hfq. unfold modifyQueue. rewrite Hq, Hfq.
    rewrite insert_id by done. unfold with_queues. by rewrite heap_eta. }
  assert (forall e, commitUpdateEffects fuel None e = ret tt) as Hnone
    by (intros e; by destruct fuel).
  unfold commitUpdateQueue, bind, readQueue. rewrite Hq, Hfc. simpl.
  rewrite Hq, He1, Hnone. simpl.
  rewrite (Hmod _ h eq_refl);
    [|destruct qf; unfold Queue.set_firstEffect, Queue.set_lastEffect;
      simpl in *; congruence].
  rewrite Hq, Hc1, Hnone. simpl.
  apply Hmod; [done|].
  destruct qf; unfold Queue.set_firstCapturedEffect,
    Queue.set_lastCapturedEffect; simpl in *; congruence.
Qed.

(** X13. A commit leaves nothing for a second commit. When every callback
    on the two effect lists of a well-formed queue is callable or [null],
    [commitUpdateQueue] returns, and a second [commitUpdateQueue] on the
    store it leaves returns that very store: no callback is invoked again,
    no list is joined again. *)
Theorem commit_again_changes_nothing fuel fw q inst D h qr l lc le lce :
  committable fuel h q qr l lc le lce ->
  Forall (fun e => callable e = true) (entries (updates h) (le ++ lce)) ->
  exists h',
    commitUpdateQueue fuel fw q inst D h = Done tt h' /\
    calls h' = calls h ++ callsOf inst (entries (updates h) (le ++ lce)) /\
    commitUpdateQueue fuel fw q inst D h' = Done tt h'.
Proof.
  intros Hc Hall. pose proof Hc as (_ & _ & _ & Hlc & _).
  destruct (wpx_elim _ _ _ _
    (commitUpdateQueue_wpx fuel fw q inst D h qr l lc le lce Hc))
    as [([] & h' & Hrun & _ & Hcalls & Hres & _ & _ & (qf & Hqf & He & Hce) & _)
       |(msg & h' & _ & Hbad & _)]; [|done].
  exists h'. split; [done|]. split; [done|].
  apply (commitUpdateQueue_clean fuel fw q inst D h' qf); try done.
  destruct Hres as (qf' & Hqf' & _ & _ & Hcase).
  assert (qf' = qf) as -> by congruence.
  destruct lc as [|c lc].
  - destruct Hcase as (_ & -> & _). by apply linked_head in Hlc.
  - destruct l; by destruct Hcase as (_ & -> & _).
Qed.

(** [commitUpdateEffects] as far as a callback that is not callable. *)
Lemma commitUpdateEffects_throws inst l1 : forall fuel p h a l2 shown,
  effectChain (updates h) p (l1 ++ a :: l2) -> (length l1 < fuel)%nat ->
  Forall (fun e => callable e = true) (entries (updates h) l1) ->
  Update.callback <$> updates h !! a = Some (CNotCallable shown) ->
  exists h1,
    commitUpdateEffects fuel p inst h
      = Throw (invalidCallbackMessage shown) h1 /\
    calls h1 = calls h ++ callsOf inst (entries (updates h) l1) /\
    (forall x, x ∈ l1 ++ [a] ->
       Update.callback <$> updates h1 !! x = Some CNull) /\
    (forall x, x ∉ l1 ++ [a] -> updates h1 !! x = updates h !! x) /\
    stripCallback <$> updates h1 = stripCallback <$> updates h /\
    queues h1 = queues h /\ fibers h1 = fibers h.
Proof.
  induction l1 as [|b l1 IH]; intros fuel p h a l2 shown Hch Hfuel Hall Ha.
  - simpl in Hch. apply linked_cons in Hch as [-> (u & Hu & _)].
    rewrite Hu in Ha. simpl in Ha. injection Ha as Ha.
    destruct fuel as [|fuel]; [simpl in Hfuel; lia|].
    cbn [commitUpdateEffects]. unfold bind, readUpdate, modifyUpdate.
    rewrite Hu, Ha, Hu. simpl.
    eexists. split; [reflexivity|]. heap_simpl.
    split; [by rewrite app_nil_r|].
    split.
    { intros x Hx. apply list_elem_of_singleton in Hx as ->.
      by rewrite lookup_insert_eq. }
    split.
    { intros x Hx. rewrite lookup_insert_ne; [done|]. set_solver. }
    split; [|done].
    rewrite fmap_insert. apply insert_id. by rewrite lookup_fmap, Hu.
  - pose proof (linked_NoDup _ _ _ _ Hch) as Hnd. simpl in Hnd.
    apply NoDup_cons in Hnd as [Hnotin _].
    simpl in Hch. apply linked_cons in Hch as [-> (u & Hu & Hch)].
    destruct fuel as [|fuel]; [simpl in Hfuel; lia|].
    rewrite (entries_cons _ _ _ _ Hu) in Hall. apply Forall_cons in Hall as [Hb Hall].
    unfold callable in Hb. simpl in Hb.
    assert (a <> b) as Hab by (intros ->; apply Hnotin; set_solver).
    cbn [commitUpdateEffects].
    destruct (Update.callback u) as [|id|s] eqn:Hcb; [| |done].
    + unfold bind at 1. unfold readUpdate at 1. rewrite Hu, Hcb.
      unfold bind at 1. cbn [ret]. unfold bind at 1, readUpdate at 1.
      rewrite Hu.
      destruct (IH fuel (Update.nextEffect u) h a l2 shown Hch
                  ltac:(simpl in Hfuel; lia) Hall Ha)
        as (h1 & Hrun & Hcalls & Hdone & Hoff & HU & HQ & HF).
      exists h1. split; [exact Hrun|].
      split.
      { rewrite (entries_cons _ _ _ _ Hu), callsOf_cons. simpl.
        by rewrite Hcb. }
      split.
      { intros x Hx. simpl in Hx.
        apply elem_of_cons in Hx as [->|Hx]; [|by apply Hdone].
        rewrite Hoff, Hu; [by simpl; rewrite Hcb|].
        intros Hin. apply Hnotin. set_solver. }
      split; [intros x Hx; apply Hoff; set_solver|]. done.
    + unfold bind at 1. unfold readUpdate at 1. rewrite Hu, Hcb.
      unfold bind at 1, bind at 1, modifyUpdate at 1. rewrite Hu.
      unfold callCallback. unfold bind at 1, readUpdate at 1. heap_simpl.
      rewrite lookup_insert_eq. cbn [Update.nextEffect Update.set_callback].
      set (h0 := with_calls _ _).
      assert (forall x, x <> b -> updates h0 !! x = updates h !! x) as Hoff0.
      { intros x Hx. unfold h0. heap_simpl. by rewrite lookup_insert_ne. }
      assert (stripCallback <$> updates h0 = stripCallback <$> updates h)
        as HU0.
      { unfold h0. heap_simpl. rewrite fmap_insert. apply insert_id.
        by rewrite lookup_fmap, Hu. }
      assert (entries (updates h0) l1 = entries (updates h) l1) as Hent.
      { apply entries_agree. intros x Hx. apply Hoff0. intros ->.
        apply Hnotin. set_solver. }
      destruct (IH fuel (Update.nextEffect u) h0 a l2 shown)
        as (h1 & Hrun & Hcalls & Hdone & Hoff & HU & HQ & HF).
      { by apply (effectChain_stripCallback (updates h)). }
      { simpl in Hfuel. lia. }
      { by rewrite Hent. }
      { by rewrite Hoff0. }
      exists h1. split; [exact Hrun|].
      split.
      { rewrite Hcalls, Hent, (entries_cons _ _ _ _ Hu), callsOf_cons. simpl.
        rewrite Hcb. simpl. unfold h0. heap_simpl. by rewrite <- app_assoc. }
      split.
      { intros x Hx. simpl in Hx.
        apply elem_of_cons in Hx as [->|Hx]; [|by apply Hdone].
        rewrite Hoff; [unfold h0; heap_simpl; by rewrite lookup_insert_eq|].
        intros Hin. apply Hnotin. set_solver. }
      split.
      { intros x Hx. rewrite Hoff, Hoff0; set_solver. }
      split; [congruence|]. done.
Qed.

(** X14. A commit that fails can be tried again. When the effect list
    reaches a callback that is not callable, [commitUpdateEffects] throws
    after it has invoked the callbacks in front of it, and it has cleared
    the offending callback like those it invoked, the records behind being
    as they were. Running [commitUpdateEffects] again from the same head
    then invokes the callbacks behind the offending record, and none of
    those in front a second time: over both runs every callable callback
    is invoked once, in list order. *)
Theorem commitUpdateEffects_again_after_throw
    fuel p inst h l1 a l2 shown :
  effectChain (updates h) p (l1 ++ a :: l2) ->
  (length (l1 ++ a :: l2) <= fuel)%nat ->
  Forall (fun e => callable e = true) (entries (updates h) (l1 ++ l2)) ->
  Update.callback <$> updates h !! a = Some (CNotCallable shown) ->
  exists h1 h2,
    commitUpdateEffects fuel p inst h
      = Throw (invalidCallbackMessage shown) h1 /\
    calls h1 = calls h ++ callsOf inst (entries (updates h) l1) /\
    Update.callback <$> updates h1 !! a = Some CNull /\
    commitUpdateEffects fuel p inst h1 = Done tt h2 /\
    calls h2 = calls h ++ callsOf inst (entries (updates h) (l1 ++ l2)) /\
    (forall x, x ∈ l1 ++ a :: l2 ->
       Update.callback <$> updates h2 !! x = Some CNull).
Proof.
  intros Hch Hfuel Hall Ha.
  rewrite entries_app, Forall_app in Hall. destruct Hall as [Hall1 Hall2].
  pose proof (linked_NoDup _ _ _ _ Hch) as Hnd.
  destruct (commitUpdateEffects_throws inst l1 fuel p h a l2 shown Hch
              ltac:(rewrite length_app in Hfuel; simpl in Hfuel; lia)
              Hall1 Ha)
    as (h1 & Hrun & Hcalls & Hdone & Hoff & HU & HQ & HF).
  assert (entries (updates h1) l2 = entries (updates h) l2) as Hent2.
  { apply entries_agree. intros x Hx. apply Hoff. intros Hin.
    apply NoDup_app in Hnd as (_ & Hd & Hnd2).
    apply NoDup_cons in Hnd2 as [Ha2 _].
    apply elem_of_app in Hin as [Hin|Hin].
    - apply (Hd x Hin). by right.
    - apply list_elem_of_singleton in Hin as ->. done. }
  assert (forall x, x ∈ l1 ++ [a] ->
            forall e, e = (x, stripEffect (updates h1 !!! x)) ->
              callable e = true /\ callbackId (Update.callback e.2) = None)
    as Hnull.
  { intros x Hx e ->. specialize (Hdone x Hx).
    rewrite lookup_total_alt.
    destruct (updates h1 !! x) as [ux|]; [|done]. simpl in Hdone.
    injection Hdone as Hcb. unfold callable. simpl. by rewrite Hcb. }
  assert (Forall (fun e => callable e = true) (entries (updates h1) (l1 ++ [a]))
          /\ callsOf inst (entries (updates h1) (l1 ++ [a])) = []) as [Hc1 Hc2].
  { clear -Hnull. induction (l1 ++ [a]) as [|x l IH]; [done|].
    destruct IH as [IH1 IH2]; [intros y Hy; apply Hnull; by right|].
    destruct (Hnull x (list_elem_of_here _ _) _ eq_refl) as [H1 H2].
    unfold entries. rewrite fmap_cons. split.
    - constructor; done.
    - rewrite callsOf_cons. simpl in *. by rewrite H2. }
  assert (l1 ++ a :: l2 = (l1 ++ [a]) ++ l2) as Hsplit
    by (by rewrite <- app_assoc).
  destruct (wpx_elim _ _ _ _
    (commitUpdateEffects_wpx inst (l1 ++ a :: l2) fuel p h1
       (effectChain_stripCallback _ _ _ _ HU Hch) Hfuel))
    as [([] & h2 & Hrun2 & _ & Hcalls2 & _ & _ & Hdone2 & _)
       |(msg & h2 & _ & l1' & a' & l2' & Hl & Hall' & Hbad & _)].
  - exists h1, h2. split; [done|]. split; [done|].
    split; [apply Hdone; set_solver|]. split; [done|].
    split; [|done].
    rewrite Hcalls2, Hcalls, Hsplit.
    rewrite (entries_app _ (l1 ++ [a]) l2), (entries_app _ l1 l2).
    rewrite !callsOf_app, Hc2, Hent2. simpl. by rewrite <- app_assoc.
  - exfalso.
    assert (Forall (fun e => callable e = true)
              (entries (updates h1) (l1 ++ a :: l2))) as Hall3.
    { rewrite Hsplit, entries_app, Forall_app, Hent2. done. }
    rewrite Hl, entries_app, Forall_app in Hall3. destruct Hall3 as [_ Hall3].
    unfold entries in Hall3. rewrite fmap_cons in Hall3.
    apply Forall_cons in Hall3 as [Hgood _].
    unfold callable in Hgood, Hbad. simpl in Hgood, Hbad.
    by rewrite Hbad in Hgood.
Qed.

(** * The modes of [ReactTypeOfMode.js] *)

(** X15. The three modes are bits of their own: mixing a mode into any
    mode value with [|] makes the test [&] of that mode yield the mode,
    and leaves the test of either other mode as it was; and [NoContext]
    holds none of them. *)
Theorem modes_are_independent_bits (mode m m' : TypeOfMode) :
  m ∈ [ConcurrentMode; StrictMode; ProfileMode] ->
  m' ∈ [ConcurrentMode; StrictMode; ProfileMode] ->
  Z.land (Z.lor mode m') m = (if decide (m = m') then m else Z.land mode m) /\
  Z.land NoContext m = NoContext.
Proof.
  intros Hm Hm'. split; [|done].
  rewrite Z.land_lor_distr_l.
  assert (forall a b : Z, Z.lor (Z.land a b) b = b) as Habs.
  { intros a b. apply Z.bits_inj'. intros n Hn.
    rewrite Z.lor_spec, Z.land_spec.
    by destruct (Z.testbit a n), (Z.testbit b n). }
  rewrite !elem_of_cons, elem_of_nil in Hm, Hm'.
  destruct Hm as [->|[->|[->|[]]]], Hm' as [->|[->|[->|[]]]];
    case_decide; try done;
    first [apply Habs | by rewrite Z.lor_0_r].
Qed.

Lemma modes_are_independent_bits_witness :
  Z.land (Z.lor (Z.lor ConcurrentMode StrictMode) ProfileMode) StrictMode
    = StrictMode /\
  Z.land (Z.lor ConcurrentMode ProfileMode) StrictMode = NoContext.
Proof.
  split.
  - destruct (modes_are_independent_bits (Z.lor ConcurrentMode StrictMode)
                StrictMode ProfileMode) as [H _].
    + apply (bool_decide_unpack _). vm_compute. exact I.
    + apply (bool_decide_unpack _). vm_compute. exact I.
    + rewrite H. reflexivity.
  - destruct (modes_are_independent_bits ConcurrentMode StrictMode
                ProfileMode) as [H _].
    + apply (bool_decide_unpack _). vm_compute. exact I.
    + apply (bool_decide_unpack _). vm_compute. exact I.
    + rewrite H. reflexivity.
Defined.

(** * What a pass leaves alone *)

Section Frame.
Variables (NoWork Callback ShouldCapture DidCapture : Z).

(** X16. What a pass never does. [processUpdateQueue] on a well-formed
    queue returns without invoking a callback; it allocates and removes no
    record, and of a record it rewrites nothing but [nextEffect]: deadline,
    kind, payload, callback and [next] stay; it writes one queue only, the
    queue handed in or, when that is the queue of the current fiber, its
    clone at a new address, which it makes the queue of the fiber; and it
    writes one fiber only, the work-in-progress one, whose [alternate]
    stays. *)
Theorem pass_leaves_the_rest fuel wip q props inst D h fb qr l lc :
  replayable fuel h wip q fb qr l lc ->
  exists h' q' ff,
    processUpdateQueue NoWork Callback ShouldCapture DidCapture fuel wip q
      props inst D h = Done tt h' /\
    calls h' = calls h /\
    stripEffect <$> updates h' = stripEffect <$> updates h /\
    (~ sharedWithCurrent h wip q /\ q' = q /\
     Fiber.updateQueue ff = Fiber.updateQueue fb \/
     sharedWithCurrent h wip q /\ queues h !! q' = None /\
     Fiber.updateQueue ff = Some q') /\
    (forall x, x <> q' -> queues h' !! x = queues h !! x) /\
    (forall x, x <> wip -> fibers h' !! x = fibers h !! x) /\
    fibers h' !! wip = Some ff /\
    Fiber.alternate ff = Fiber.alternate fb.
Proof.
  intros (Hf & Hq & Hc & Hl & Hlc & Hsh & Htl & Hfl & Hflc).
  destruct (wp_elim _ _ _
    (processUpdateQueue_spec NoWork Callback ShouldCapture DidCapture fuel
       wip q props inst D h fb qr l lc Hf Hq Hc Hl Hlc Hsh Htl Hfl Hflc))
    as ([] & h' & Hrun & q' & fbw & Hon & Hres & _).
  destruct Hres as (HU & HQo & _ & HFo & (ff & Hff & _ & _ & Ha & Hu) & HC).
  exists h', q', ff. do 3 (split; [done|]).
  split.
  { destruct Hon as [(Hs & -> & ->)|(Hs & Hfresh & ->)]; [left|right]; done. }
  do 3 (split; [done|]).
  destruct Hon as [(_ & _ & ->)|(_ & _ & ->)]; by rewrite Ha.
Qed.

End Frame.

(** * A record enqueued twice *)

Lemma chain_next_in us p l a :
  chain us p l -> a ∈ l ->
  exists r, us !! a = Some r /\
    (last l = Some a \/ exists b, Update.next r = Some b /\ b ∈ l).
Proof.
  revert p. induction l as [|x l IH]; intros p Hl Ha; [by apply elem_of_nil in Ha|].
  apply linked_cons in Hl as [-> (r & Hr & Hl)].
  destruct l as [|y l].
  - apply list_elem_of_singleton in Ha as ->. exists r. split; [done|by left].
  - apply elem_of_cons in Ha as [->|Ha].
    + exists r. split; [done|]. right. exists y.
      apply linked_head in Hl. simpl in Hl. split; [done|set_solver].
    + destruct (IH _ Hl Ha) as (r' & Hr' & [Hlast|(b & Hb & Hin)]);
        exists r'; (split; [done|]); [by left|].
      right. exists b. split; [done|set_solver].
Qed.

Lemma circular_linkAfter us p l t u :
  chain us p l -> last l = Some t -> u ∈ l ->
  circular (linkAfter (Some t) u us) l.
Proof.
  intros Hl Ht Hu a Ha. simpl.
  destruct (chain_next_in _ _ _ _ Hl Ha) as (r & Hr & Hcase).
  destruct (decide (a = t)) as [->|Hne].
  - exists (Update.set_next (Some u) r), u.
    rewrite lookup_alter_eq, Hr. done.
  - destruct Hcase as [Hlast|(b & Hb & Hin)]; [congruence|].
    exists r, b. by rewrite lookup_alter_ne.
Qed.

Lemma circular_ext us us' l :
  stripEffect <$> us' = stripEffect <$> us -> circular us l -> circular us' l.
Proof.
  intros Heq Hc a Ha. destruct (Hc a Ha) as (r & b & Hr & Hb & Hin).
  pose proof (f_equal (fun m => m !! a) Heq) as Hlk. simpl in Hlk.
  rewrite !lookup_fmap, Hr in Hlk.
  destruct (us' !! a) as [r'|]; [|done]. exists r', b.
  split; [done|]. split; [|done].
  apply (inj Some) in Hlk. rewrite <- Hb.
  by destruct r', r; simplify_eq/=.
Qed.

Section Circular.
Variable NoWork : Z.
Variables Callback ShouldCapture DidCapture : Z.

(** The first loop of a pass never leaves a circle: it runs out of any
    fuel. *)
Lemma whileUpdate_circular wip q props inst D l fuel :
  forall s h a,
    update s = Some a -> a ∈ l -> circular (updates h) l ->
    is_Some (fibers h !! wip) -> is_Some (queues h !! q) ->
    tailsAllocated q h ->
    whileUpdate fuel
      (processNormalUpdate Callback ShouldCapture DidCapture wip q props inst
         D) s h = OutOfFuel.
Proof.
  induction fuel as [|fuel IH]; intros s h a Hs Ha Hc [fb Hf] [qr Hq] Htl;
    simpl; rewrite Hs; [done|].
  destruct (Hc a Ha) as (r & b & Hr & Hb & Hin).
  pose proof (processNormalUpdate_wp Callback ShouldCapture DidCapture
                wip q props inst D a s h r fb qr Hr Hf Hq (Htl _ Hq)) as Hwp.
  unfold wp in Hwp. unfold bind.
  destruct (processNormalUpdate _ _ _ _ _ _ _ _ _ _ h) as [s' h'| | |];
    try done.
  destruct Hwp as (-> & (HU & HQo & HQ & HFo & HF & HC) & Htl' & _).
  apply (IH _ _ b).
  - unfold normalStep. by destruct (insufficient _ _).
  - done.
  - by apply (circular_ext (updates h)).
  - rewrite Hf in HF. by destruct (fibers h' !! wip).
  - rewrite Hq in HQ. by destruct (queues h' !! q).
  - done.
Qed.

(** X17. A record enqueued a second time closes the list into a circle.
    When [enqueueUpdate] is handed a record that is on the list of the
    fiber already, it returns as ever, having made that record the [next]
    of the tail: from then on every record of the list leads to another
    one, none to [null], and no pass on the queue comes to an end, whatever
    its deadline. *)
Theorem enqueue_twice_never_replays fiber u props inst D h fb q qr l :
  fibers h !! fiber = Some fb -> Fiber.alternate fb = None ->
  Fiber.updateQueue fb = Some q -> queues h !! q = Some qr ->
  chain (updates h) (Queue.firstUpdate qr) l -> Queue.lastUpdate qr = last l ->
  effectTailsAllocated (updates h) qr ->
  u ∈ l ->
  exists h',
    enqueueUpdate fiber u h = Done tt h' /\
    updates h' = linkAfter (last l) u (updates h) /\
    circular (updates h') l /\
    forall fuel,
      renderAt NoWork Callback ShouldCapture DidCapture fuel fiber props inst
        D h' = OutOfFuel.
Proof.
  intros Hf Halt Huq Hq Hl Hlast Htl Hu.
  destruct (last l) as [t|] eqn:Ht;
    [|apply last_None in Ht; subst l; by apply elem_of_nil in Hu].
  assert (t ∈ l) as Htin by (by apply last_Some_elem_of).
  destruct (linked_lookup _ _ _ _ _ Hl Htin) as [ut Hut].
  set (h' := with_queues (<[q := Queue.set_lastUpdate (Some u) qr]> (queues h))
               (with_updates (<[t := Update.set_next (Some u) ut]> (updates h))
                  h)).
  assert (updates h' = linkAfter (Some t) u (updates h)) as HU.
  { unfold h'. heap_simpl. apply (insert_alter_lookup _ _ _ _ Hut). }
  assert (circular (updates h') l) as Hcirc.
  { rewrite HU. by eapply circular_linkAfter. }
  exists h'. split.
  { unfold enqueueUpdate, bind, readFiber. rewrite Hf, Halt, Huq. simpl.
    unfold appendUpdateToQueue, bind, readQueue. rewrite Hq, Hlast.
    unfold modifyUpdate. rewrite Hut. unfold modifyQueue. heap_simpl.
    by rewrite Hq. }
  split; [done|]. split; [done|]. intros fuel.
  assert (fibers h' !! fiber = Some fb) as Hf' by (unfold h'; by heap_simpl).
  assert (queues h' !! q = Some (Queue.set_lastUpdate (Some u) qr)) as Hq'
    by (unfold h'; heap_simpl; apply lookup_insert_eq).
  destruct l as [|a l]; [by apply elem_of_nil in Hu|].
  apply linked_cons in Hl as [Hhead _].
  unfold renderAt, bind, readFiber. rewrite Hf', Huq.
  unfold processUpdateQueue, bind, setHasForceUpdate,
    ensureWorkInProgressQueueIsAClone, bind, readFiber, readQueue.
  heap_simpl. rewrite Hf', Halt. unfold ret. heap_simpl. rewrite Hq'.
  rewrite (whileUpdate_circular fiber q props inst D (a :: l) fuel _ _ a);
    [done|simpl; exact Hhead|set_solver|exact Hcirc|heap_simpl; by rewrite Hf'
    |heap_simpl; by rewrite Hq'|].
  intros qr0 Hqr0. heap_simpl. rewrite Hq' in Hqr0. injection Hqr0 as <-.
  destruct Htl as [H1 H2]. split; intros e He; simpl in He.
  - destruct (H1 e He) as [x Hx]. unfold h'. heap_simpl.
    destruct (decide (e = t)) as [->|Hne];
      [rewrite lookup_insert_eq|rewrite lookup_insert_ne by done]; eauto.
  - destruct (H2 e He) as [x Hx]. unfold h'. heap_simpl.
    destruct (decide (e = t)) as [->|Hne];
      [rewrite lookup_insert_eq|rewrite lookup_insert_ne by done]; eauto.
Qed.

End Circular.


(** * What no operation writes *)

Lemma keeps_bind {A B} J (m : M A) (k : A -> M B) :
  keeps J m -> (forall a, keeps J (k a)) -> keeps J (bind m k).
Proof.
  intros Hm Hk h HJ. specialize (Hm h HJ). unfold bind.
  destruct (m h) as [a h1|msg h1| |]; simpl in *; try done. by apply Hk.
Qed.

Lemma keeps_ret {A} J (a : A) : keeps J (ret a).
Proof. by intros h HJ. Qed.

Lemma keeps_throw {A} J msg : keeps J (throw (A := A) msg).
Proof. by intros h HJ. Qed.

Lemma keeps_readUpdate J a : keeps J (readUpdate a).
Proof. intros h HJ. unfold readUpdate. by destruct (updates h !! a). Qed.

Lemma keeps_readQueue J a : keeps J (readQueue a).
Proof. intros h HJ. unfold readQueue. by destruct (queues h !! a). Qed.

Lemma keeps_readFiber J a : keeps J (readFiber a).
Proof. intros h HJ. unfold readFiber. by destruct (fibers h !! a). Qed.

(** A property of the store that no write to a queue, to a fiber or to the
    force flag disturbs, nor a write to a record that leaves what the
    record says, is kept by every operation that invokes no callback. *)
Section Keeps.
Variable J : Heap -> Prop.
Hypothesis J_updates :
  forall h a u f,
    updates h !! a = Some u -> content (f u) = content u ->
    J h -> J (with_updates (<[a := f u]> (updates h)) h).
Hypothesis J_queues : forall h m, J h -> J (with_queues m h).
Hypothesis J_fibers : forall h m, J h -> J (with_fibers m h).
Hypothesis J_force : forall h b, J h -> J (with_hasForceUpdate b h).

Lemma keeps_modifyUpdate a f :
  (forall u, content (f u) = content u) -> keeps J (modifyUpdate a f).
Proof.
  intros Hf h HJ. unfold modifyUpdate.
  destruct (updates h !! a) as [u|] eqn:Hu; [|done]. simpl. by apply J_updates.
Qed.

Lemma keeps_modifyQueue a f : keeps J (modifyQueue a f).
Proof.
  intros h HJ. unfold modifyQueue.
  destruct (queues h !! a); [|done]. simpl. by apply J_queues.
Qed.

Lemma keeps_modifyFiber a f : keeps J (modifyFiber a f).
Proof.
  intros h HJ. unfold modifyFiber.
  destruct (fibers h !! a); [|done]. simpl. by apply J_fibers.
Qed.

Lemma keeps_allocQueue q : keeps J (allocQueue q).
Proof. intros h HJ. simpl. by apply J_queues. Qed.

Lemma keeps_setHasForceUpdate b : keeps J (setHasForceUpdate b).
Proof. intros h HJ. simpl. by apply J_force. Qed.

Ltac keeps_go :=
  repeat first
    [ apply keeps_ret
    | apply keeps_throw
    | apply keeps_readUpdate
    | apply keeps_readQueue
    | apply keeps_readFiber
    | apply keeps_modifyQueue
    | apply keeps_modifyFiber
    | apply keeps_allocQueue
    | apply keeps_setHasForceUpdate
    | apply keeps_modifyUpdate; [by intros []]
    | apply keeps_bind; [|intros ?]
    | match goal with
      | |- keeps _ (match ?x with _ => _ end) => destruct x
      end ].

Lemma keeps_appendUpdateToQueue q u : keeps J (appendUpdateToQueue q u).
Proof. unfold appendUpdateToQueue. keeps_go. Qed.

Lemma keeps_cloneUpdateQueue q : keeps J (cloneUpdateQueue q).
Proof. unfold cloneUpdateQueue. keeps_go. Qed.

Lemma keeps_enqueueUpdate fiber u : keeps J (enqueueUpdate fiber u).
Proof.
  unfold enqueueUpdate, createUpdateQueue.
  pose proof keeps_appendUpdateToQueue. pose proof keeps_cloneUpdateQueue.
  keeps_go; done.
Qed.

Lemma keeps_ensure wip q :
  keeps J (ensureWorkInProgressQueueIsAClone wip q).
Proof.
  unfold ensureWorkInProgressQueueIsAClone.
  pose proof keeps_cloneUpdateQueue. keeps_go; done.
Qed.

Lemma keeps_enqueueCapturedUpdate wip u :
  keeps J (enqueueCapturedUpdate wip u).
Proof.
  unfold enqueueCapturedUpdate, createUpdateQueue.
  pose proof keeps_ensure. keeps_go; done.
Qed.

Lemma keeps_whileUpdate fuel body :
  (forall a s, keeps J (body a s)) ->
  forall s, keeps J (whileUpdate fuel body s).
Proof.
  intros Hbody. induction fuel as [|fuel IH]; intros s; simpl;
    destruct (update s); try apply keeps_ret; [by intros h HJ|].
  apply keeps_bind; [apply Hbody|apply IH].
Qed.

Variable NoWork : Z.
Variables Callback ShouldCapture DidCapture : Z.

Lemma keeps_getStateFromUpdate wip q a prev props inst :
  keeps J
    (getStateFromUpdate ShouldCapture DidCapture wip q a prev props inst).
Proof. unfold getStateFromUpdate. keeps_go. Qed.

Lemma keeps_processUpdateQueue fuel wip q props inst D :
  keeps J
    (processUpdateQueue NoWork Callback ShouldCapture DidCapture fuel wip q
       props inst D).
Proof.
  unfold processUpdateQueue.
  pose proof keeps_ensure. pose proof keeps_getStateFromUpdate.
  assert (forall q a s,
            keeps J
              (processNormalUpdate Callback ShouldCapture DidCapture wip q
                 props inst D a s)) as Hn.
  { intros q0 a s. unfold processNormalUpdate. keeps_go; done. }
  assert (forall q a s,
            keeps J
              (processCapturedUpdate Callback ShouldCapture DidCapture wip q
                 props inst D a s)) as Hc.
  { intros q0 a s. unfold processCapturedUpdate. keeps_go; done. }
  keeps_go; try done; by apply keeps_whileUpdate.
Qed.

(** The commit keeps the property as well when a call of a callback does
    not disturb it. *)
Hypothesis J_call :
  forall h e, J h -> J (with_calls (calls h ++ [e]) h).

Lemma keeps_callCallback cb v : keeps J (callCallback cb v).
Proof. intros h HJ. destruct cb; simpl; try done. by apply J_call. Qed.

Lemma keeps_commitUpdateEffects fuel inst :
  forall p, keeps J (commitUpdateEffects fuel p inst).
Proof.
  induction fuel as [|fuel IH]; intros [e|]; simpl; try apply keeps_ret;
    [by intros h HJ|].
  pose proof keeps_callCallback. keeps_go; try done; apply IH.
Qed.

Lemma keeps_commitUpdateQueue fuel fw q inst D :
  keeps J (commitUpdateQueue fuel fw q inst D).
Proof.
  unfold commitUpdateQueue. pose proof (keeps_commitUpdateEffects fuel inst).
  keeps_go; done.
Qed.

End Keeps.

Lemma contentIs_updates c h a u f :
  updates h !! a = Some u -> content (f u) = content u ->
  contentIs c h -> contentIs c (with_updates (<[a := f u]> (updates h)) h).
Proof.
  unfold contentIs. intros Hu Hf HJ. heap_simpl.
  rewrite fmap_insert, Hf, <- HJ. apply insert_id. by rewrite lookup_fmap, Hu.
Qed.

Lemma content_commitUpdateQueue c fuel fw q inst D :
  keeps (contentIs c) (commitUpdateQueue fuel fw q inst D).
Proof.
  apply keeps_commitUpdateQueue; try done. apply contentIs_updates.
Qed.

(** X18. No operation on the queue rewrites what a record says. Whatever
    the store, when [enqueueUpdate], [enqueueCapturedUpdate],
    [processUpdateQueue] or [commitUpdateQueue] returns or throws, the store
    holds the records it held, no more and no fewer, each with the
    deadline, the kind and the payload it had: the operations write the
    links and the callback of a record, nothing else of it. *)
Theorem operations_keep_what_records_say
    NoWork Callback ShouldCapture DidCapture fuel fiber u q props inst D h :
  leaves (enqueueUpdate fiber u h) (contentIs (content <$> updates h)) /\
  leaves (enqueueCapturedUpdate fiber u h)
    (contentIs (content <$> updates h)) /\
  leaves (processUpdateQueue NoWork Callback ShouldCapture DidCapture fuel
            fiber q props inst D h) (contentIs (content <$> updates h)) /\
  leaves (commitUpdateQueue fuel fiber q inst D h)
    (contentIs (content <$> updates h)).
Proof.
  split; [apply keeps_enqueueUpdate; try done; apply contentIs_updates|].
  split;
    [apply keeps_enqueueCapturedUpdate; try done; apply contentIs_updates|].
  split; [apply keeps_processUpdateQueue; try done; apply contentIs_updates|].
  by apply content_commitUpdateQueue.
Qed.

(** X20. Callbacks are invoked by the commit, and by nothing else. Whatever
    the store, [enqueueUpdate], [enqueueCapturedUpdate] and
    [processUpdateQueue] leave the log of invoked callbacks as it is, so
    that a pass can be run again, or dropped, with no call made; and
    [commitUpdateQueue], whether it returns or throws, adds to the end of
    the log and rewrites no entry of it. *)
Theorem callbacks_are_invoked_by_the_commit_alone
    NoWork Callback ShouldCapture DidCapture fuel fiber u q props inst D h :
  leaves (enqueueUpdate fiber u h) (fun h' => calls h' = calls h) /\
  leaves (enqueueCapturedUpdate fiber u h) (fun h' => calls h' = calls h) /\
  leaves (processUpdateQueue NoWork Callback ShouldCapture DidCapture fuel
            fiber q props inst D h) (fun h' => calls h' = calls h) /\
  leaves (commitUpdateQueue fuel fiber q inst D h)
    (fun h' => calls h `prefix_of` calls h').
Proof.
  split; [by apply (keeps_enqueueUpdate (fun h' => calls h' = calls h))|].
  split;
    [by apply (keeps_enqueueCapturedUpdate (fun h' => calls h' = calls h))|].
  split;
    [by apply (keeps_processUpdateQueue (fun h' => calls h' = calls h))|].
  apply (keeps_commitUpdateQueue (fun h' => calls h `prefix_of` calls h'));
    try done.
  intros h1 e Hp. simpl. by apply prefix_app_r.
Qed.

(** * A pass, the commit, and the pass after *)

Lemma content_lookup (us us' : gmap addr Update.t) a :
  content <$> us' = content <$> us ->
  content (stripEffect (us' !!! a)) = content (stripEffect (us !!! a)).
Proof.
  intros Hc. pose proof (f_equal (fun m => m !! a) Hc) as Hlk. simpl in Hlk.
  rewrite !lookup_fmap in Hlk. rewrite !lookup_total_alt.
  destruct (us' !! a), (us !! a); simpl in *; try done.
  by apply (inj Some) in Hlk.
Qed.

Lemma content_of_strip (us us' : gmap addr Update.t) :
  stripEffect <$> us' = stripEffect <$> us -> content <$> us' = content <$> us.
Proof.
  intros H. apply map_eq. intros a. apply (strip_lookup _ _ a) in H.
  rewrite !lookup_fmap.
  destruct (us' !! a) as [[]|], (us !! a) as [[]|]; simpl in *; try done.
  unfold stripEffect, Update.set_nextEffect, content in *. simpl in *.
  congruence.
Qed.

Lemma nextState_content u u' prev props inst :
  content u = content u' ->
  nextState u prev props inst = nextState u' prev props inst.
Proof.
  destruct u, u'. unfold content, nextState, mergePartialState. simpl.
  by intros [= -> -> ->].
Qed.

Lemma applyAll_appliedBy_content props inst D us us' l : forall b,
  content <$> us' = content <$> us ->
  applyAll props inst b (appliedBy D (entries us' l)) =
  applyAll props inst b (appliedBy D (entries us l)).
Proof.
  intros b Hc. revert b. induction l as [|a l IH]; intros b; [done|].
  unfold entries in *. rewrite !fmap_cons, !appliedBy_cons.
  pose proof (content_lookup us us' a Hc) as Ha.
  unfold insufficient. cbn [snd].
  assert (Update.expirationTime (stripEffect (us' !!! a)) =
          Update.expirationTime (stripEffect (us !!! a))) as ->
    by (unfold content in Ha; congruence).
  destruct (_ <? D); [apply IH|].
  unfold applyAll in *. simpl. rewrite (nextState_content _ _ _ _ _ Ha).
  apply IH.
Qed.

Section CommitThenReplay.
Variable NoWork : Z.
Variables Callback ShouldCapture DidCapture : Z.

(** X19. A captured update that a pass skipped is replayed after the
    commit. When a pass at [D] leaves normal work over, the pass, the
    commit and a further pass at [D2] return one after the other, and the
    last pass leaves in the fiber the state that the first pass reached
    before its first skipped normal record, with the records left of the
    normal list and then those left of the captured list, from its first
    skipped record on, applied in this order, each if its deadline is
    sufficient at [D2]: the commit has put the captured records that were
    left behind the normal ones. *)
Theorem skipped_captured_replayed_after_commit
    fuel wip q props inst D D2 h fb qr l lc :
  replayable fuel h wip q fb qr l lc -> Fiber.updateQueue fb = Some q ->
  effectPointers false qr = (None, None) ->
  effectPointers true qr = (None, None) ->
  (forall x, x ∈ l -> x ∉ lc) -> Queue.lastUpdate qr = last l ->
  (length l + length lc <= fuel)%nat ->
  Forall (fun e => callable e = true)
    (appliedWithCallback D (entries (updates h) l) (entries (updates h) lc)) ->
  skippedBy D (entries (updates h) l) <> [] ->
  exists h',
    (let* _ :=
       renderAndCommit NoWork Callback ShouldCapture DidCapture fuel wip props
         inst D in
     renderAt NoWork Callback ShouldCapture DidCapture fuel wip props inst D2)
      h = Done tt h' /\
    memoizedStateOf h' wip =
      Some (applyAll props inst
              (applyAll props inst (Queue.baseState qr)
                 (settled D (entries (updates h) l)))
              (appliedBy D2
                 (remaining D (entries (updates h) l) ++
                  remaining D (entries (updates h) lc)))).
Proof.
  intros Hre Huq Hne Hce Hdisj Hlast Hfuel Hall Hskip.
  pose proof Hre as (Hf & Hq & Hc & Hl & Hlc & Hsh & Htl & Hfl & Hflc).
  (* the first pass *)
  destruct (wp_elim _ _ _
    (processUpdateQueue_spec NoWork Callback ShouldCapture DidCapture
       fuel wip q props inst D h fb qr l lc Hf Hq Hc Hl Hlc Hsh Htl Hfl Hflc))
    as ([] & h1 & Hrun1 & q' & fbw & Hon & Hres & Heff).
  specialize (Heff Hne Hce Hdisj).
  destruct Hres
    as (HU & _ & (qf & Hqf & Hb & Hfu & Hfcu & Hlu & Hlcu & Htl') & HFo &
        (ff & Hff & Hm & _ & Halt & Huq') & HC).
  destruct Heff as (qf' & Hqf' & Hle & Hlce).
  assert (qf' = qf) as -> by congruence.
  destruct (passLocals_fields NoWork props inst D qr (entries (updates h) l)
              (entries (updates h) lc)) as (_ & _ & F & FC & FB).
  set (es := entries (updates h) l) in *.
  set (cs := entries (updates h) lc) in *.
  assert (Fiber.updateQueue fbw = Some q') as Hu.
  { destruct Hon as [(_ & -> & ->)|(_ & _ & ->)]; done. }
  assert (Fiber.alternate fbw = Fiber.alternate fb) as Halt'.
  { destruct Hon as [(_ & _ & ->)|(_ & _ & ->)]; done. }
  destruct (remaining_entries D (updates h) l) as (i & _ & Hfst & Hent).
  destruct (remaining_entries D (updates h) lc) as (j & _ & Hfstc & Hentc).
  fold es in Hfst, Hent. fold cs in Hfstc, Hentc.
  assert (committable fuel h1 q' qf (remaining D es).*1 (remaining D cs).*1
            (effectsOf D es) (effectsOf D cs)) as Hcom.
  { unfold committable. split; [done|].
    split.
    { rewrite Hfu, F, Hfst. apply (chain_strip (updates h)); [done|].
      exact (linked_drop _ _ _ _ i Hl). }
    split.
    { rewrite Hlu, F, Hfst. destruct (decide (drop i l = [])) as [Hd|Hd].
      - by rewrite Hd.
      - rewrite (last_drop_nonempty l i Hd), Hlast.
        by destruct (drop i l). }
    split.
    { rewrite Hfcu, FC, Hfstc. apply (chain_strip (updates h)); [done|].
      exact (linked_drop _ _ _ _ j Hlc). }
    split.
    { intros x Hx Hx'. apply remaining_fst_subseteq in Hx, Hx'.
      by apply (Hdisj x). }
    split; [done|]. split; [done|].
    split.
    { intros x Hx Hx'. apply effectsOf_in in Hx, Hx'. by apply (Hdisj x). }
    split; (etrans; [apply effectsOf_length|done]). }
  assert (entries (updates h1) (effectsOf D es ++ effectsOf D cs)
          = appliedWithCallback D es cs) as Happlied.
  { rewrite (entries_strip _ _ _ HU), entries_app.
    unfold es, cs. rewrite !entries_of_effects.
    unfold appliedWithCallback. by rewrite filter_app. }
  (* the commit *)
  destruct (wpx_elim _ _ _ _
    (commitUpdateQueue_wpx fuel wip q' inst D h1 qf _ _ _ _ Hcom))
    as [([] & h2 & Hrun2 & _ & _ & Hcres & _ & _ & (qf2 & Hqf2 & He2 & Hce2)
         & HF2)
       |(msg & h2 & _ & Hbad & _)];
    [|rewrite Happlied in Hbad; done].
  pose proof (content_commitUpdateQueue (content <$> updates h1) fuel wip q'
                inst D h1 eq_refl) as Hcont.
  rewrite Hrun2 in Hcont. simpl in Hcont. unfold contentIs in Hcont.
  assert (content <$> updates h2 = content <$> updates h) as Hcont2
    by (rewrite Hcont; by apply content_of_strip).
  clear Hcont.
  (* the queue after the commit *)
  destruct Hcres as (qfx & Hqfx & Hb2 & Hfu2 & Hcase).
  assert (qfx = qf2) as -> by congruence.
  rewrite Hfst, Hfstc in Hcase.
  assert (drop i l <> []) as Hleft.
  { intros Hd. apply Hskip, remaining_nil.
    apply (f_equal (entries (updates h))) in Hd. by rewrite Hent in Hd. }
  assert (chain (updates h2) (Queue.firstUpdate qf2) (drop i l ++ drop j lc) /\
          Queue.firstCapturedUpdate qf2 = None) as [Hl2 Hfc2].
  { destruct (drop j lc) as [|c0 lc0] eqn:Hdj.
    - destruct Hcase as (_ & Hfc & _ & Hch). rewrite app_nil_r.
      split; [done|]. rewrite Hfc, Hfcu, FC, Hfstc. done.
    - destruct (drop i l) as [|a0 l0]; [done|].
      destruct Hcase as (_ & Hfc & _ & Hch). done. }
  (* the second pass *)
  assert (fibers h2 !! wip = Some ff) as Hff2 by (by rewrite HF2).
  assert (forall c0, Fiber.alternate ff = Some c0 -> is_Some (fibers h2 !! c0))
    as Hc2.
  { intros c0 Hc0. rewrite HF2. destruct (decide (c0 = wip)) as [->|Hne0].
    - by rewrite Hff.
    - rewrite HFo by done. apply Hc. congruence. }
  assert (chain (updates h2) (Queue.firstCapturedUpdate qf2) []) as Hlc2
    by (by rewrite Hfc2).
  assert (effectTailsAllocated (updates h2) qf2) as Htl2.
  { injection He2 as _ He2. injection Hce2 as _ Hce2.
    split; intros e He; congruence. }
  assert (length (drop i l ++ drop j lc) <= fuel)%nat as Hfl2
    by (rewrite length_app, !length_drop; lia).
  destruct (wp_elim _ _ _
    (processUpdateQueue_spec NoWork Callback ShouldCapture DidCapture
       fuel wip q' props inst D2 h2 ff qf2 (drop i l ++ drop j lc) []
       Hff2 Hqf2 Hc2 Hl2 Hlc2 (fun _ => eq_refl) Htl2 Hfl2 (Nat.le_0_l _)))
    as ([] & h3 & Hrun3 & q3 & fbw3 & _ & Hres3 & _).
  destruct Hres3 as (_ & _ & _ & _ & (ff3 & Hff3 & Hm3 & _) & _).
  exists h3. split.
  { unfold renderAndCommit, renderAt, bind, readFiber.
    rewrite Hf, Huq, Hrun1, Hff, Huq', Hu, Hrun2, Hff2, Huq', Hu. exact Hrun3. }
  unfold memoizedStateOf. rewrite Hff3. simpl. f_equal. rewrite Hm3.
  destruct (passLocals_fields NoWork props inst D2 qf2
              (entries (updates h2) (drop i l ++ drop j lc))
              (entries (updates h2) [])) as (-> & _).
  cbn [entries fmap list_fmap appliedBy filter list_filter applyAll foldl].
  rewrite (applyAll_appliedBy_content _ _ _ _ _ _ _ Hcont2).
  rewrite entries_app, Hent, Hentc, Hb2, Hb, FB.
  destruct (remaining D es) eqn:Hrem; [|done].
  rewrite <- Hent in Hrem. by destruct (drop i l).
Qed.

End CommitThenReplay.

(** * Two queues that share no tail *)

(** X21. What [enqueueUpdate] relies on. For a pair of fibers with queues
    of their own, both non-empty, [enqueueUpdate] writes one link only, the
    [next] of the tail of the first fiber's list, and takes the lists to
    end in the same record. When they do not, and the tail of the first
    list is not on the second list at all, the call returns with the record
    appended to the first fiber's list and named as [lastUpdate] by both
    queues, while the list of the alternate, from its [firstUpdate], is the
    list it was: the record is not on it, and a pass on that queue does not
    reach it. *)
Theorem enqueueUpdate_without_shared_tail
    fiber alt u h fb ab q1 q2 l1 l2 t1 ur :
  fibers h !! fiber = Some fb -> Fiber.alternate fb = Some alt ->
  fibers h !! alt = Some ab ->
  Fiber.updateQueue fb = Some q1 -> Fiber.updateQueue ab = Some q2 ->
  q1 <> q2 ->
  listOf h q1 l1 -> listOf h q2 l2 ->
  last l1 = Some t1 -> l2 <> [] -> t1 ∉ l2 ->
  updates h !! u = Some ur -> Update.next ur = None -> u ∉ l1 -> u ∉ l2 ->
  exists h' qr2,
    enqueueUpdate fiber u h = Done tt h' /\
    updates h' = linkAfter (Some t1) u (updates h) /\
    listOf h' q1 (l1 ++ [u]) /\
    queues h' !! q2 = Some qr2 /\
    Queue.lastUpdate qr2 = Some u /\
    chain (updates h') (Queue.firstUpdate qr2) l2.
Proof.
  intros Hf Halt Ha Hu1 Hu2 Hne L1 L2 Ht1 Hne2 Hnin2 Hu Hnext Hn1 Hn2.
  pose proof L1 as (r1 & Hr1 & Hl1 & Hlast1).
  pose proof L2 as (r2 & Hr2 & Hl2 & Hlast2).
  assert (wp (enqueueUpdate fiber u) h
            (fun _ h' =>
               updates h' = linkAfter (Some t1) u (updates h) /\
               listOf h' q1 (l1 ++ [u]) /\
               queues h' !! q2 = Some (Queue.set_lastUpdate (Some u) r2)))
    as Hwp.
  { unfold enqueueUpdate.
    wp_go. eapply wp_readFiber; [exact Hf|]. wp_go. rewrite Halt.
    wp_go. eapply wp_readFiber; [exact Ha|]. rewrite Hu1, Hu2.
    apply wp_ret. cbv beta iota. destruct (decide (q1 = q2)); [done|].
    wp_go. eapply wp_readQueue; [exact Hr1|].
    wp_go. eapply wp_readQueue; [exact Hr2|].
    rewrite Hlast1, Hlast2, Ht1.
    destruct (last l2) as [t2|] eqn:Ht2;
      [|apply last_None in Ht2; done].
    wp_go. eapply appendUpdateToQueue_wp;
      [exact Hr1|exact Hl1|exact Hlast1|exact Hu|exact Hnext|exact Hn1|].
    intros h1 (HU & Hlist & _ & Hoth & _). rewrite Ht1 in HU.
    eapply wp_modifyQueue; [rewrite Hoth by done; exact Hr2|].
    heap_simpl. split; [done|]. split; [|apply lookup_insert_eq].
    eapply listOf_ext; [| |exact Hlist]; heap_simpl; [|done].
    by rewrite lookup_insert_ne. }
  apply wp_elim in Hwp as ([] & h' & Hrun & HU & Hlist & Hq2).
  exists h', (Queue.set_lastUpdate (Some u) r2).
  do 4 (split; [done|]). split; [done|]. simpl.
  eapply linked_ext; [|exact Hl2].
  intros x Hx. rewrite HU, linkAfter_next; [done|].
  intros [= ->]. done.
Qed.

(** * A pass repeated before the commit *)

Lemma wp_conj {A} (m : M A) h Q R :
  wp m h Q -> wp m h R -> wp m h (fun a h' => Q a h' /\ R a h').
Proof. unfold wp. destruct (m h); tauto. Qed.

Lemma effectsOf_app D es cs :
  effectsOf D (es ++ cs) = effectsOf D es ++ effectsOf D cs.
Proof. unfold effectsOf. by rewrite filter_app, fmap_app. Qed.

Lemma entries_one us a : entries us [a] = [(a, stripEffect (us !!! a))].
Proof. done. Qed.

Lemma entries_step us a l :
  entries us (a :: l) = entries us [a] ++ entries us l.
Proof. done. Qed.

(** A turn on a record that is skipped or holds no callback writes
    nothing. *)
Lemma effectStep_quiet D q st a :
  effectsOf D (entries st.1 [a]) = [] -> effectStep D q st a = st.
Proof.
  rewrite entries_one, effectsOf_one. unfold effectStep.
  rewrite lookup_total_alt.
  destruct (st.1 !! a) as [r|]; [|done]. destruct (st.2 !! q) as [qr|]; [|done].
  unfold insufficient, hasCallback. simpl.
  destruct (Update.expirationTime r <? D); [done|].
  by destruct (Update.callback r).
Qed.

(** A turn on a record that is applied and holds a callback. *)
Lemma effectStep_append D q st a r qr :
  effectsOf D (entries st.1 [a]) <> [] ->
  st.1 !! a = Some r -> st.2 !! q = Some qr ->
  effectStep D q st a =
    match Queue.lastEffect qr with
    | None =>
        (<[a := Update.set_nextEffect None r]> st.1,
         <[q := Queue.set_firstEffect (Some a)
                  (Queue.set_lastEffect (Some a) qr)]> st.2)
    | Some le =>
        (alter (Update.set_nextEffect (Some a)) le
           (<[a := Update.set_nextEffect None r]> st.1),
         <[q := Queue.set_lastEffect (Some a) qr]> st.2)
    end.
Proof.
  rewrite entries_one, effectsOf_one, lookup_total_alt. unfold effectStep.
  intros Hne Hr Hq. rewrite Hr, Hq in *.
  unfold insufficient, hasCallback in *. simpl in *.
  destruct (Update.expirationTime r <? D); [done|].
  by destruct (Update.callback r).
Qed.

Lemma effectStep_strip D q st a :
  stripEffect <$> (effectStep D q st a).1 = stripEffect <$> st.1.
Proof.
  unfold effectStep.
  destruct (st.1 !! a) as [r|] eqn:Hr; [|done].
  destruct (st.2 !! q) as [qr|]; [|done].
  destruct (_ || _); [done|].
  assert (stripEffect <$> <[a := Update.set_nextEffect None r]> st.1
          = stripEffect <$> st.1) as H1.
  { rewrite fmap_insert. apply insert_id. by rewrite lookup_fmap, Hr. }
  destruct (Queue.lastEffect qr) as [le|]; simpl; [|done].
  rewrite <- H1. apply map_eq. intros x. rewrite !lookup_fmap.
  destruct (decide (le = x)) as [->|Hne].
  - rewrite lookup_alter_eq.
    by destruct (<[a:=Update.set_nextEffect None r]> st.1 !! x).
  - by rewrite lookup_alter_ne.
Qed.

Lemma effectsOf_one_cases D us a :
  effectsOf D (entries us [a]) = [] \/ effectsOf D (entries us [a]) = [a].
Proof.
  rewrite entries_one, effectsOf_one.
  destruct (insufficient _ _); [by left|].
  destruct (hasCallback _); [by right|by left].
Qed.

Lemma effectsOf_one_allocated D us a :
  effectsOf D (entries us [a]) <> [] -> is_Some (us !! a).
Proof.
  rewrite entries_one, effectsOf_one, lookup_total_alt.
  destruct (us !! a); [eauto|]. simpl.
  unfold insufficient, hasCallback. simpl. by destruct (0 <? D).
Qed.

(** Turns on records that are skipped or hold no callback write nothing. *)
Lemma effectSteps_quiet D q l : forall st,
  effectsOf D (entries st.1 l) = [] -> foldl (effectStep D q) st l = st.
Proof.
  induction l as [|a l IH]; intros st H; [done|].
  rewrite entries_step, effectsOf_app in H.
  apply app_eq_nil in H as [Ha Hl]. simpl.
  rewrite (effectStep_quiet _ _ _ _ Ha). by apply IH.
Qed.

(** The tail of the effect list after the turns on the records [l]. *)
Lemma effectSteps_last D q l : forall st qr,
  st.2 !! q = Some qr ->
  exists qr',
    (foldl (effectStep D q) st l).2 !! q = Some qr' /\
    Queue.lastEffect qr' =
      match last (effectsOf D (entries st.1 l)) with
      | Some x => Some x
      | None => Queue.lastEffect qr
      end.
Proof.
  induction l as [|a l IH]; intros st qr Hq; [by exists qr|].
  rewrite entries_step, effectsOf_app, last_app. cbn [foldl].
  destruct (effectsOf_one_cases D st.1 a) as [Ha|Ha].
  - rewrite (effectStep_quiet _ _ _ _ Ha), Ha.
    destruct (IH st qr Hq) as (qr' & H1 & H2). exists qr'.
    split; [done|]. rewrite H2. by destruct (last _).
  - assert (effectsOf D (entries st.1 [a]) <> []) as Hne by (by rewrite Ha).
    destruct (effectsOf_one_allocated _ _ _ Hne) as [r Hr].
    pose proof (effectStep_strip D q st a) as Hst.
    rewrite (effectStep_append _ _ _ _ _ _ Hne Hr Hq) in *.
    set (st' := match Queue.lastEffect qr with
                | Some le => _ | None => _ end) in *.
    assert (exists qr1, st'.2 !! q = Some qr1 /\
                        Queue.lastEffect qr1 = Some a) as (qr1 & Hq1 & Hl1).
    { unfold st'. destruct (Queue.lastEffect qr); simpl; eexists;
        (split; [apply lookup_insert_eq|done]). }
    destruct (IH st' qr1 Hq1) as (qr' & Hq' & Hlast).
    exists qr'. split; [exact Hq'|]. rewrite Hlast, (entries_strip _ _ _ Hst), Hl1.
    rewrite Ha. by destruct (last (effectsOf D (entries st.1 l))).
Qed.

(** The turns of a pass that applies one record with a callback, the
    record that is the tail of the effect list already: the record becomes
    its own [nextEffect]. *)
Lemma effectSteps_close D q u r qr l : forall st,
  st.1 !! u = Some r -> st.2 !! q = Some qr ->
  Queue.lastEffect qr = Some u ->
  effectsOf D (entries st.1 l) = [u] ->
  foldl (effectStep D q) st l =
    (<[u := Update.set_nextEffect (Some u) r]> st.1,
     <[q := Queue.set_lastEffect (Some u) qr]> st.2).
Proof.
  induction l as [|a l IH]; intros st Hr Hq Hle H; [done|].
  rewrite entries_step, effectsOf_app in H. cbn [foldl].
  destruct (effectsOf_one_cases D st.1 a) as [Ha|Ha].
  - rewrite (effectStep_quiet _ _ _ _ Ha). rewrite Ha in H. by apply IH.
  - rewrite Ha in H. injection H as -> Hrest.
    assert (effectsOf D (entries st.1 [u]) <> []) as Hne by (by rewrite Ha).
    pose proof (effectStep_strip D q st u) as Hst.
    rewrite (effectStep_append _ _ _ _ _ _ Hne Hr Hq), Hle in *.
    simpl in Hst.
    assert (alter (Update.set_nextEffect (Some u)) u
              (<[u := Update.set_nextEffect None r]> st.1)
            = <[u := Update.set_nextEffect (Some u) r]> st.1) as Halt.
    { apply map_eq. intros x. destruct (decide (u = x)) as [->|Hne'].
      - by rewrite lookup_alter_eq, !lookup_insert_eq.
      - by rewrite lookup_alter_ne, !lookup_insert_ne. }
    rewrite Halt in *. apply effectSteps_quiet. simpl.
    by rewrite (entries_strip _ _ _ Hst).
Qed.

(** [commitUpdateEffects] on a record that is its own [nextEffect]. *)
Lemma commitUpdateEffects_self u inst : forall fuel h r,
  updates h !! u = Some r -> Update.nextEffect r = Some u ->
  callable (u, r) = true ->
  commitUpdateEffects fuel (Some u) inst h = OutOfFuel.
Proof.
  induction fuel as [|fuel IH]; intros h r Hr Hn Hc; [done|].
  simpl. unfold bind, readUpdate. rewrite Hr.
  pose proof Hc as Hc'. unfold callable in Hc'. simpl in Hc'.
  destruct (Update.callback r) eqn:Hcb; [| |done].
  - simpl. rewrite Hr, Hn. by apply (IH h r).
  - unfold modifyUpdate. rewrite Hr. simpl. heap_simpl.
    rewrite lookup_insert_eq. simpl. rewrite Hn.
    eapply IH; [heap_simpl; apply lookup_insert_eq|done..].
Qed.

(** [commitUpdateEffects] on an effect list that leads into such a
    record. *)
Lemma commitUpdateEffects_lasso us u inst : forall pre p h,
  effectChain us p (pre ++ [u]) ->
  (forall x, x ∈ pre ->
     exists r, updates h !! x = Some r /\ callable (x, r) = true /\
               Some (Update.nextEffect r) = Update.nextEffect <$> us !! x) ->
  (exists r, updates h !! u = Some r /\ Update.nextEffect r = Some u /\
             callable (u, r) = true) ->
  forall fuel, commitUpdateEffects fuel p inst h = OutOfFuel.
Proof.
  induction pre as [|a pre IH]; intros p h Hch Hpre (r & Hr & Hn & Hc) fuel.
  - apply linked_head in Hch. simpl in Hch. subst p.
    by eapply commitUpdateEffects_self.
  - pose proof (linked_NoDup _ _ _ _ Hch) as Hnd. simpl in Hnd.
    apply NoDup_cons in Hnd as [Hnin _].
    apply linked_cons in Hch as [-> (ra & Hra & Hch)].
    destruct fuel as [|fuel]; [done|].
    destruct (Hpre a) as (r0 & Hr0 & Hc0 & Hn0); [set_solver|].
    rewrite Hra in Hn0. simpl in Hn0. injection Hn0 as Hn0.
    assert (a <> u) as Hau by set_solver.
    simpl. unfold bind, readUpdate. rewrite Hr0.
    unfold callable in Hc0. simpl in Hc0.
    destruct (Update.callback r0) eqn:Hcb; [| |done].
    + simpl. rewrite Hr0, Hn0. apply IH; [done| |eauto].
      intros x Hx. apply Hpre. set_solver.
    + unfold modifyUpdate. rewrite Hr0. simpl. heap_simpl.
      rewrite lookup_insert_eq. simpl. rewrite Hn0.
      apply IH; [done| |].
      * intros x Hx. heap_simpl.
        rewrite lookup_insert_ne by set_solver. apply Hpre. set_solver.
      * exists r. heap_simpl. by rewrite lookup_insert_ne.
Qed.

Lemma callable_of_entries (us us' : gmap addr Update.t) l x r :
  stripEffect <$> us' = stripEffect <$> us ->
  Forall (fun e => callable e = true) (entries us l) ->
  x ∈ l -> us' !! x = Some r -> callable (x, r) = true.
Proof.
  intros HU Hall Hx Hr. rewrite Forall_forall in Hall.
  assert ((x, stripEffect (us !!! x)) ∈ entries us l) as Hin.
  { unfold entries. apply list_elem_of_fmap. by exists x. }
  specialize (Hall _ Hin). unfold callable in *. simpl in *.
  apply (strip_lookup _ _ x) in HU. rewrite Hr in HU.
  rewrite lookup_total_alt in Hall.
  destruct (us !! x) as [r0|]; [|done]. simpl in *. apply (inj Some) in HU.
  replace (Update.callback r) with (Update.callback r0); [done|].
  destruct r, r0; unfold stripEffect, Update.set_nextEffect in HU;
    simpl in *; congruence.
Qed.

Section PassAgainBeforeCommit.
Variable NoWork : Z.
Variables Callback ShouldCapture DidCapture : Z.

Lemma getStateFromUpdate_writes wip q a prev props inst h :
  wlp (getStateFromUpdate ShouldCapture DidCapture wip q a prev props inst) h
    (fun _ h' => updates h' = updates h /\ queues h' = queues h).
Proof.
  unfold getStateFromUpdate. wlp_go. apply wlp_readUpdate. intros u Hu.
  destruct (Update.tag u).
  - by apply wlp_ret.
  - destruct (Update.payload u); by apply wlp_ret.
  - wlp_go. intros [] h1 [= <-]. by apply wlp_ret.
  - wlp_go. apply wlp_modifyFiber. intros fb Hfb. by apply wlp_ret.
Qed.

Lemma processNormalUpdate_writes wip q props inst D a s h :
  wlp (processNormalUpdate Callback ShouldCapture DidCapture wip q props inst
         D a s) h
    (fun _ h' =>
       (updates h', queues h') = effectStep D q (updates h, queues h) a).
Proof.
  unfold processNormalUpdate, effectStep, insufficient, hasCallback.
  cbn [fst snd].
  wlp_go. apply wlp_readUpdate. intros r Hr. rewrite Hr.
  destruct (Update.expirationTime r <? D) eqn:HD.
  - wlp_go. apply wlp_readUpdate. intros ? _. apply wlp_ret.
    by destruct (queues h !! q).
  - wlp_go. eapply wlp_mono; [apply getStateFromUpdate_writes|].
    intros v h1 [HU1 HQ1]. cbv beta zeta.
    wlp_go. apply wlp_readUpdate. intros r1 Hr1.
    assert (r1 = r) as -> by congruence.
    destruct (Update.callback r) eqn:Hcb.
    + wlp_go. apply wlp_ret.
      wlp_go. apply wlp_readUpdate. intros ? _. apply wlp_ret.
      rewrite HU1, HQ1. by destruct (queues h !! q).
    + wlp_go. apply wlp_modifyFiber. intros fb Hfb.
      wlp_go. apply wlp_modifyUpdate. intros r2 Hr2.
      wlp_go. apply wlp_readQueue. intros qr Hqr. heap_simpl.
      assert (r2 = r) as -> by congruence.
      rewrite HQ1 in Hqr. rewrite Hqr. simpl.
      destruct (Queue.lastEffect qr) as [le|].
      * wlp_go. apply wlp_modifyUpdate. intros rl Hrl.
        apply wlp_modifyQueue. intros qr2 Hqr2. heap_simpl.
        wlp_go. apply wlp_readUpdate. intros ? _. apply wlp_ret.
        heap_simpl. assert (qr2 = qr) as -> by congruence.
        rewrite (insert_alter_lookup _ _ _ _ Hrl), HU1, HQ1. done.
      * apply wlp_modifyQueue. intros qr2 Hqr2. heap_simpl.
        wlp_go. apply wlp_readUpdate. intros ? _. apply wlp_ret.
        heap_simpl. assert (qr2 = qr) as -> by congruence.
        rewrite HU1, HQ1. done.
    + wlp_go. apply wlp_modifyFiber. intros fb Hfb.
      wlp_go. apply wlp_modifyUpdate. intros r2 Hr2.
      wlp_go. apply wlp_readQueue. intros qr Hqr. heap_simpl.
      assert (r2 = r) as -> by congruence.
      rewrite HQ1 in Hqr. rewrite Hqr. simpl.
      destruct (Queue.lastEffect qr) as [le|].
      * wlp_go. apply wlp_modifyUpdate. intros rl Hrl.
        apply wlp_modifyQueue. intros qr2 Hqr2. heap_simpl.
        wlp_go. apply wlp_readUpdate. intros ? _. apply wlp_ret.
        heap_simpl. assert (qr2 = qr) as -> by congruence.
        rewrite (insert_alter_lookup _ _ _ _ Hrl), HU1, HQ1. done.
      * apply wlp_modifyQueue. intros qr2 Hqr2. heap_simpl.
        wlp_go. apply wlp_readUpdate. intros ? _. apply wlp_ret.
        heap_simpl. assert (qr2 = qr) as -> by congruence.
        rewrite HU1, HQ1. done.
Qed.

(** The first loop, with what it writes to the records and the queues. *)
Lemma whileUpdate_writes wip q props inst D :
  forall l fuel s h,
    chain (updates h) (update s) l -> (length l <= fuel)%nat ->
    is_Some (fibers h !! wip) -> is_Some (queues h !! q) ->
    tailsAllocated q h ->
    wp (whileUpdate fuel
          (processNormalUpdate Callback ShouldCapture DidCapture wip q props
             inst D) s) h
       (fun s' h' =>
          s' = foldl (normalStep props inst D) s (entries (updates h) l) /\
          loopFrame wip q h h' /\ tailsAllocated q h' /\
          (updates h', queues h') =
            foldl (effectStep D q) (updates h, queues h) l).
Proof.
  induction l as [|a l IH]; intros fuel s h Hch Hfuel Hf Hq Htl.
  - simpl in Hch. destruct fuel; simpl; rewrite Hch; apply wp_ret;
      (split; [done|]); (split; [apply loopFrame_refl|]); done.
  - apply linked_cons in Hch as [Hs (u & Hu & Hch)].
    destruct fuel as [|fuel]; [simpl in Hfuel; lia|].
    cbn [whileUpdate]. rewrite Hs.
    destruct Hf as [fb Hf], Hq as [qr Hq].
    apply wp_bind. eapply wp_mono;
      [exact (wp_wlp _ _ _ _
                (processNormalUpdate_wp Callback ShouldCapture DidCapture wip
                   q props inst D a s h u fb qr Hu Hf Hq (Htl _ Hq))
                (processNormalUpdate_writes wip q props inst D a s h))|].
    intros s1 h1 [(-> & Hfr & Htl1 & _) Hw1]. cbv beta.
    pose proof Hfr as (HU & _ & HQ & _ & HF & _).
    eapply wp_mono.
    { apply IH.
      - rewrite normalStep_update. simpl. by apply (chain_strip (updates h)).
      - simpl in Hfuel. lia.
      - rewrite Hf in HF. destruct (fibers h1 !! wip); [eauto|done].
      - rewrite Hq in HQ. destruct (queues h1 !! q); [eauto|done].
      - done. }
    intros s2 h2 (-> & Hfr2 & Htl2 & Hw2). cbv beta.
    rewrite (entries_cons _ _ _ _ Hu), (entries_strip _ _ _ HU). simpl.
    split; [done|]. split; [by eapply loopFrame_trans|]. split; [done|].
    by rewrite Hw2, Hw1.
Qed.

(** A pass on a queue that the fiber does not share, with no captured
    update: what it leaves of the records and of the effect pointers. *)
Lemma processUpdateQueue_writes fuel wip q props inst D h fb qr l :
  replayable fuel h wip q fb qr l [] -> ~ sharedWithCurrent h wip q ->
  wp (processUpdateQueue NoWork Callback ShouldCapture DidCapture fuel wip q
        props inst D) h
     (fun _ h' =>
        updates h' = (foldl (effectStep D q) (updates h, queues h) l).1 /\
        effectPointers false <$> queues h' !! q =
          effectPointers false <$>
            (foldl (effectStep D q) (updates h, queues h) l).2 !! q).
Proof.
  intros (Hf & Hq & Hc & Hl & Hlc & Hsh & Htl & Hfl & Hflc) Hns.
  pose proof (ensure_private wip q (with_hasForceUpdate false h) fb Hf Hc Hns)
    as Hens.
  unfold processUpdateQueue.
  apply wp_bind, wp_setHasForceUpdate.
  eapply wp_bind_done; [exact Hens|].
  wp_go. eapply wp_readQueue; [exact Hq|].
  wp_go. eapply wp_mono.
  { eapply (whileUpdate_writes wip q props inst D l); eauto.
    intros qr0 Hqr0. heap_simpl. congruence. }
  intros s2 h2 (Hs2 & Hfr2 & Htl2 & Hw2). cbv beta. heap_simpl.
  pose proof Hfr2 as (HU2 & _ & HQ2 & _ & HF2 & _). heap_simpl.
  rewrite Hq in HQ2. rewrite Hf in HF2.
  destruct (queues h2 !! q) as [qr2|] eqn:Hq2; [|done].
  destruct (fibers h2 !! wip) as [fb2|] eqn:Hf2; [|done].
  simpl in HQ2. apply (inj Some) in HQ2.
  apply stripQueue_eq in HQ2 as (_ & _ & _ & Hq2d & _).
  simpl in Hlc. rewrite Hlc in Hq2d.
  wp_go. eapply wp_readQueue; [exact Hq2|].
  apply wp_bind. eapply wp_intro; [apply whileUpdate_null; simpl; exact Hq2d|].
  pose proof (f_equal fst Hw2) as HwU. pose proof (f_equal snd Hw2) as HwQ.
  simpl in HwU, HwQ. rewrite <- HwU, <- HwQ. clear Hw2 HwU HwQ.
  cbn [newFirstUpdate newFirstCapturedUpdate set_update].
  destruct (newFirstUpdate s2) as [nf|],
           (newFirstCapturedUpdate s2) as [nfc|].
  all: wp_go;
    repeat first
      [ apply wp_ret
      | eapply wp_modifyQueue;
        [heap_simpl; first [exact Hq2 | apply lookup_insert_eq]|]
      | eapply wp_modifyFiber;
        [heap_simpl; first [exact Hf2 | apply lookup_insert_eq]|] ];
    wp_go;
    repeat first
      [ eapply wp_modifyQueue;
        [heap_simpl; first [exact Hq2 | apply lookup_insert_eq]|]; wp_go
      | eapply wp_modifyFiber;
        [heap_simpl; first [exact Hf2 | apply lookup_insert_eq]|]; wp_go ].
  all: heap_simpl; rewrite ?lookup_insert_eq, ?Hq2; done.
Qed.

(** X22. A pass repeated before the commit can close the effect list into
    a circle. Take a queue that the fiber does not share, with no captured
    update and no pending effect, and a pass at [D] whose last applied
    record with a callback is [u]. When a second pass, at [D2], runs on the
    queue before any commit and the one record with a callback that it
    applies is [u] again, both passes return, but the second has put [u]
    behind the tail of the effect list, which is [u] itself: [u] is its own
    [nextEffect]. The callbacks being callable, [commitUpdateQueue] then
    never comes to the end of the effect list: it runs out of any fuel. *)
Theorem second_pass_before_commit_closes_the_effect_list
    fuel wip q props inst D D2 h fb qr l u :
  replayable fuel h wip q fb qr l [] -> ~ sharedWithCurrent h wip q ->
  effectPointers false qr = (None, None) ->
  effectPointers true qr = (None, None) ->
  last (effectsOf D (entries (updates h) l)) = Some u ->
  effectsOf D2 (remaining D (entries (updates h) l)) = [u] ->
  Forall (fun e => callable e = true)
    (entries (updates h) (effectsOf D (entries (updates h) l))) ->
  exists h1 h2,
    processUpdateQueue NoWork Callback ShouldCapture DidCapture fuel wip q
      props inst D h = Done tt h1 /\
    processUpdateQueue NoWork Callback ShouldCapture DidCapture fuel wip q
      props inst D2 h1 = Done tt h2 /\
    Update.nextEffect <$> updates h2 !! u = Some (Some u) /\
    forall fuel', commitUpdateQueue fuel' wip q inst D2 h2 = OutOfFuel.
Proof.
  intros Hre Hns Hne Hce Hlast Honly Hcall.
  pose proof Hre as (Hf & Hq & Hc & Hl & Hlc & Hsh & Htl & Hfl & Hflc).
  (* the first pass *)
  destruct (wp_elim _ _ _
    (wp_conj _ _ _ _
       (processUpdateQueue_spec NoWork Callback ShouldCapture DidCapture
          fuel wip q props inst D h fb qr l [] Hf Hq Hc Hl Hlc Hsh Htl Hfl
          Hflc)
       (processUpdateQueue_writes fuel wip q props inst D h fb qr l Hre Hns)))
    as ([] & h1 & Hrun1 & (q' & fbw & Hon & Hres & Heff) & HW1 & HP1).
  destruct Hon as [(_ & -> & ->)|(Hs & _)]; [|done].
  destruct (Heff Hne Hce) as (qf' & Hqf' & Hle & _);
    [intros x _ Hx; by apply elem_of_nil in Hx|]. clear Heff.
  destruct Hres
    as (HU & _ & (qf & Hqf & _ & Hfu & Hfcu & Hlu & _ & Htl') & HFo &
        (ff & Hff & _ & _ & Halt & Huq') & _).
  assert (qf' = qf) as -> by congruence.
  destruct (passLocals_fields NoWork props inst D qr (entries (updates h) l)
              (entries (updates h) [])) as (_ & _ & F & FC & _).
  set (es := entries (updates h) l) in *.
  destruct (effectSteps_last D q l (updates h, queues h) qr Hq)
    as (qr' & Hq' & Hl').
  cbn [fst] in Hl'. fold es in Hl'. rewrite Hlast in Hl'.
  rewrite Hqf, Hq' in HP1. simpl in HP1. injection HP1 as Hfe1 Hle1.
  rewrite Hl' in Hle1. clear Hq' Hl'.
  destruct (remaining_entries D (updates h) l) as (i & _ & Hfst & Hent).
  fold es in Hfst, Hent.
  (* the second pass *)
  assert (replayable fuel h1 wip q ff qf (drop i l) []) as Hre2.
  { split; [done|]. split; [done|]. split.
    { intros c0 Hc0. destruct (decide (c0 = wip)) as [->|Hne0].
      - by rewrite Hff.
      - rewrite HFo by done. apply Hc. congruence. }
    split.
    { rewrite Hfu, F, Hfst. apply (chain_strip (updates h)); [done|].
      exact (linked_drop _ _ _ _ i Hl). }
    split; [by rewrite Hfcu, FC|].
    split; [done|]. split; [done|].
    split; [rewrite length_drop; lia|simpl; lia]. }
  assert (~ sharedWithCurrent h1 wip q) as Hns2.
  { intros (fb' & c0 & fc & H1 & H2 & H3 & H4). apply Hns.
    assert (fb' = ff) as -> by congruence.
    exists fb, c0. destruct (decide (c0 = wip)) as [->|Hne0].
    - exists fb. split; [done|]. split; [congruence|]. split; [done|].
      assert (fc = ff) as -> by congruence. congruence.
    - exists fc. split; [done|]. split; [congruence|].
      rewrite <- HFo by done. done. }
  pose proof Hre2 as (_ & _ & Hc2 & Hl2 & Hlc2 & Hsh2 & _ & Hfl2 & Hflc2).
  destruct (wp_elim _ _ _
    (wp_conj _ _ _ _
       (processUpdateQueue_spec NoWork Callback ShouldCapture DidCapture
          fuel wip q props inst D2 h1 ff qf (drop i l) [] Hff Hqf Hc2 Hl2
          Hlc2 Hsh2 Htl' Hfl2 Hflc2)
       (processUpdateQueue_writes fuel wip q props inst D2 h1 ff qf
          (drop i l) Hre2 Hns2)))
    as ([] & h2 & Hrun2 & (q2 & fbw2 & Hon2 & Hres2 & _) & HW2 & HP2).
  destruct Hon2 as [(_ & -> & _)|(Hs & _)]; [|done].
  destruct Hres2 as (_ & _ & (qf2 & Hqf2 & _ & _ & Hfcu2 & _) & _).
  destruct (passLocals_fields NoWork props inst D2 qf
              (entries (updates h1) (drop i l)) (entries (updates h1) []))
    as (_ & _ & _ & FC2 & _).
  rewrite FC2 in Hfcu2. simpl in Hfcu2. clear FC2.
  (* the effect list *)
  apply last_Some in Hlast as [pre Hpre]. rewrite Hpre in Hle, Hcall.
  assert (u ∈ pre ++ [u]) as Hu by set_solver.
  destruct (linked_lookup _ _ _ _ _ Hle Hu) as [r1 Hr1].
  assert (effectsOf D2 (entries (updates h1) (drop i l)) = [u]) as Honly1
    by (by rewrite (entries_strip _ _ _ HU), Hent).
  rewrite (effectSteps_close D2 q u r1 qf (drop i l) (updates h1, queues h1)
             Hr1 Hqf Hle1 Honly1) in HW2, HP2.
  cbn [fst snd] in HW2, HP2.
  rewrite Hqf2, lookup_insert_eq in HP2. simpl in HP2.
  injection HP2 as Hfe2 _.
  exists h1, h2. split; [done|]. split; [done|].
  split; [by rewrite HW2, lookup_insert_eq|].
  intros fuel'. unfold commitUpdateQueue, bind, readQueue.
  rewrite Hqf2, Hfcu2. simpl. rewrite Hqf2.
  pose proof (linked_NoDup _ _ _ _ Hle) as Hnd.
  apply NoDup_app in Hnd as (_ & Hapart & _).
  rewrite (commitUpdateEffects_lasso (updates h1) u inst pre); [done| | |].
  - by rewrite Hfe2.
  - intros x Hx. assert (x <> u) as Hxu by (intros ->; apply (Hapart u Hx); set_solver).
    assert (x ∈ pre ++ [u]) as Hx' by set_solver.
    destruct (linked_lookup _ _ _ _ _ Hle Hx') as [r Hr].
    exists r. rewrite HW2, lookup_insert_ne by done.
    split; [done|]. split; [|by rewrite Hr].
    by apply (callable_of_entries (updates h) (updates h1) (pre ++ [u])).
  - exists (Update.set_nextEffect (Some u) r1).
    rewrite HW2, lookup_insert_eq. split; [done|]. split; [done|].
    by apply (callable_of_entries (updates h) (updates h1) (pre ++ [u]) u r1).
Qed.

End PassAgainBeforeCommit.

(** * The further properties on example stores *)

Lemma enqueueUpdate_single_fiber_witness :
  exists h' q,
    enqueueUpdate 0%nat 16%nat enqueueHeap = Done tt h' /\
    listOf h' q [10; 16]%nat /\ q = 0%nat.
Proof.
  destruct (enqueueUpdate_single_fiber 0%nat 16%nat enqueueHeap exampleFiber
              [10%nat] (letter 1 "G" CNull None))
    as (h' & q & Hrun & _ & Hlist & Hq & _);
    [reflexivity|reflexivity| |reflexivity|reflexivity| |].
  - eexists. split; [reflexivity|]. split; [|reflexivity].
    vm_compute. repeat split.
  - apply (bool_decide_unpack _). vm_compute. exact I.
  - exists h', q. split; [exact Hrun|]. split; [exact Hlist|].
    exact (proj1 Hq).
Defined.

Lemma enqueueUpdate_pair_witness :
  exists h' q1 q2,
    enqueueUpdate 0%nat 16%nat twoQueuesHeap = Done tt h' /\
    listOf h' q1 [10; 11; 12; 13; 16]%nat /\
    listOf h' q2 [12; 13; 16]%nat.
Proof.
  destruct (enqueueUpdate_pair 0%nat 1%nat 16%nat twoQueuesHeap
              (Fiber.mk (Some 1%nat) (Some 0%nat) (VString "") 0 0)
              (Fiber.mk (Some 0%nat) (Some 1%nat) (VString "AB") 0 0)
              [10; 11; 12; 13]%nat [12; 13]%nat (letter 1 "G" CNull None))
    as (h' & q1 & q2 & Hrun & _ & _ & L1 & L2 & _);
    [reflexivity|reflexivity|reflexivity|lia| | | |reflexivity|reflexivity
    | | |].
  - eexists. split; [reflexivity|]. split; [|reflexivity].
    vm_compute. repeat split.
  - eexists. split; [reflexivity|]. split; [|reflexivity].
    vm_compute. repeat split.
  - intros ? ? _ _ _ _ _. reflexivity.
  - apply (bool_decide_unpack _). vm_compute. exact I.
  - apply (bool_decide_unpack _). vm_compute. exact I.
  - exists h', q1, q2. split; [exact Hrun|]. split; [exact L1|exact L2].
Defined.

Lemma enqueueHeap_private : ~ sharedWithCurrent enqueueHeap 0%nat 0%nat.
Proof.
  intros (fb & c & fc & H1 & H2 & _). vm_compute in H1.
  injection H1 as <-. discriminate.
Qed.

Lemma enqueueCapturedUpdate_appends_witness :
  exists h' q qr',
    enqueueCapturedUpdate 0%nat 16%nat enqueueHeap = Done tt h' /\
    queues h' !! q = Some qr' /\
    Queue.firstCapturedUpdate qr' = Some 16%nat /\
    Queue.lastCapturedUpdate qr' = Some 16%nat /\
    q = 0%nat.
Proof.
  destruct (enqueueCapturedUpdate_appends 0%nat 16%nat enqueueHeap
              exampleFiber [] (letter 1 "G" CNull None))
    as (h' & q & qr' & Hrun & _ & Hq & Hch & Hlast & Hcase & _);
    [reflexivity|intros c Hc; discriminate Hc| | |reflexivity|reflexivity| |].
  - intros q [= <-]. exact enqueueHeap_private.
  - eexists. split; [reflexivity|]. split; reflexivity.
  - apply not_elem_of_nil.
  - exists h', q, qr'. split; [exact Hrun|]. split; [exact Hq|].
    split; [exact (proj1 Hch)|]. split; [exact Hlast|exact (proj1 Hcase)].
Defined.


Lemma merge_of_value_is_idempotent_witness :
  exists s,
    getStateFromUpdate 1024 64 0%nat 0%nat 20%nat previousState VNull VNull
      disjointMergeHeap = Done s disjointMergeHeap /\
    getStateFromUpdate 1024 64 0%nat 0%nat 20%nat s VNull VNull
      disjointMergeHeap = Done s disjointMergeHeap.
Proof.
  apply (merge_of_value_is_idempotent 1024 64 0%nat 0%nat 20%nat
           (Update.mk 1 UpdateState
              (PValue (VObject {[ "b" := VNumber 2 ]})) CNull None None)
           (VObject {[ "b" := VNumber 2 ]}) previousState VNull VNull
           disjointMergeHeap); reflexivity.
Defined.

Lemma merges_of_disjoint_values_commute_witness :
  exists s12 s21 s,
    getStateFromUpdate 1024 64 0%nat 0%nat 20%nat previousState VNull VNull
      disjointMergeHeap = Done s12 disjointMergeHeap /\
    getStateFromUpdate 1024 64 0%nat 0%nat 23%nat s12 VNull VNull
      disjointMergeHeap = Done s disjointMergeHeap /\
    getStateFromUpdate 1024 64 0%nat 0%nat 23%nat previousState VNull VNull
      disjointMergeHeap = Done s21 disjointMergeHeap /\
    getStateFromUpdate 1024 64 0%nat 0%nat 20%nat s21 VNull VNull
      disjointMergeHeap = Done s disjointMergeHeap.
Proof.
  apply (merges_of_disjoint_values_commute 1024 64 0%nat 0%nat 20%nat 23%nat
           (Update.mk 1 UpdateState
              (PValue (VObject {[ "b" := VNumber 2 ]})) CNull None None)
           (Update.mk 1 UpdateState
              (PValue (VObject {[ "c" := VNumber 3 ]})) CNull None None)
           (VObject {[ "b" := VNumber 2 ]}) (VObject {[ "c" := VNumber 3 ]})
           previousState VNull VNull disjointMergeHeap);
    try reflexivity; try discriminate.
  simpl. apply map_disjoint_singleton_l. apply lookup_singleton_ne.
  discriminate.
Defined.

Lemma captureHeap_replayable :
  replayable 3 captureHeap 0%nat 0%nat
    (Fiber.mk None (Some 0%nat) (VObject ∅) 0 1024)
    (Queue.mk (VObject ∅) (Some 30%nat) (Some 32%nat) None None None None
       None None)
    [30; 31; 32]%nat [].
Proof.
  replayable_example. intros (fb & c & fc & H1 & H2 & _). vm_compute in H1.
  injection H1 as <-. discriminate.
Defined.

Lemma pass_force_flag_witness :
  exists h',
    processUpdateQueue 0 32 1024 64 3 0%nat 0%nat VNull VNull 2 captureHeap
      = Done tt h' /\
    checkHasForceUpdateAfterProcessing h' = Done true h'.
Proof.
  apply (pass_force_flag 0 32 1024 64 3 0%nat 0%nat VNull VNull 2 captureHeap
           _ _ _ _ captureHeap_replayable).
Defined.


Lemma pass_remaining_priority_below_witness :
  exists h' ff,
    processUpdateQueue 0 32 1024 64 4 0%nat 0%nat VNull VNull 2 exampleHeap
      = Done tt h' /\
    fibers h' !! 0%nat = Some ff /\
    (Fiber.expirationTime ff = 0 \/ lessUrgent (Fiber.expirationTime ff) 2).
Proof.
  destruct (pass_remaining_priority_below 0 32 1024 64 4 0%nat 0%nat VNull
              VNull 2 exampleHeap _ _ _ _ exampleHeap_replayable)
    as (h' & ff & Hrun & Hff & Hcase).
  exists h', ff. split; [exact Hrun|]. split; [exact Hff|].
  destruct Hcase as [H0|[Hless _]]; [left|right]; assumption.
Defined.

Lemma passes_converge_whatever_the_levels_witness :
  exists h',
    renderLevels 0 32 1024 64 4 0%nat VNull VNull [1; 2; 1] sharedHeap
      = Done tt h' /\
    memoizedStateOf h' 0%nat = Some (VString "ABCD").
Proof.
  apply (passes_converge_whatever_the_levels 0 32 1024 64 4 0%nat 0%nat VNull
           VNull [1; 2; 1] 1 sharedHeap workInProgressFiber sharedQueue
           [10; 11; 12; 13]%nat sharedHeap_replayable).
  - reflexivity.
  - reflexivity.
  - apply Forall_forall. apply (bool_decide_unpack _). vm_compute. exact I.
Defined.

Lemma two_passes_as_one_witness :
  exists h1 h2 f1 f2,
    renderLevels 0 32 1024 64 4 0%nat VNull VNull [1] sharedHeap
      = Done tt h1 /\
    renderLevels 0 32 1024 64 4 0%nat VNull VNull [2; 1] sharedHeap
      = Done tt h2 /\
    fibers h1 !! 0%nat = Some f1 /\ fibers h2 !! 0%nat = Some f2 /\
    Fiber.memoizedState f2 = Fiber.memoizedState f1 /\
    Fiber.expirationTime f2 = Fiber.expirationTime f1.
Proof.
  destruct (two_passes_as_one 0 32 1024 64 4 0%nat 0%nat VNull VNull 2 1
              sharedHeap workInProgressFiber sharedQueue [10; 11; 12; 13]%nat
              sharedHeap_replayable eq_refl)
    as (h1 & h2 & f1 & f2 & q1 & q2 & r1 & r2 & rest & Hrun1 & Hrun2 & Hf1 &
        Hf2 & Hm & He & _); [lia|].
  exists h1, h2, f1, f2. split; [exact Hrun1|]. split; [exact Hrun2|].
  split; [exact Hf1|]. split; [exact Hf2|]. split; [exact Hm|exact He].
Defined.

Lemma enqueue_then_pass_witness :
  exists h',
    (let* _ := enqueueUpdate 0%nat 16%nat in
     renderAt 0 32 1024 64 2 0%nat VNull VNull 1) enqueueHeap = Done tt h' /\
    memoizedStateOf h' 0%nat = Some (VString "AG").
Proof.
  apply (enqueue_then_pass 0 32 1024 64 2 0%nat 16%nat VNull VNull 1
           enqueueHeap exampleFiber [10%nat] (letter 1 "G" CNull None)).
  - reflexivity.
  - reflexivity.
  - eexists. split; [reflexivity|]. split; [|reflexivity].
    vm_compute. repeat split.
  - intros q qr [= <-] Hq. vm_compute in Hq. injection Hq as <-.
    repeat split.
  - reflexivity.
  - reflexivity.
  - apply (bool_decide_unpack _). vm_compute. exact I.
  - simpl. lia.
Defined.

Lemma effectsHeap_committable c :
  committable 3 (effectsHeap c) 0%nat
    (Queue.mk (VString "ABC") None None None None (Some 10%nat) (Some 12%nat)
       None None)
    [] [] [10; 11; 12]%nat [].
Proof.
  unfold committable. split; [reflexivity|].
  split; [reflexivity|]. split; [reflexivity|].
  split; [reflexivity|]. split; [intros x Hx; by apply elem_of_nil in Hx|].
  split; [vm_compute; repeat split|]. split; [reflexivity|].
  split; [intros x _; apply not_elem_of_nil|].
  split; simpl; lia.
Defined.

Lemma commit_again_changes_nothing_witness :
  exists h',
    commitUpdateQueue 3 0%nat 0%nat VNull 2 (effectsHeap (CFunction 2))
      = Done tt h' /\
    calls h' = [(1%nat, VNull); (2%nat, VNull); (3%nat, VNull)] /\
    commitUpdateQueue 3 0%nat 0%nat VNull 2 h' = Done tt h'.
Proof.
  apply (commit_again_changes_nothing 3 0%nat 0%nat VNull 2
           (effectsHeap (CFunction 2)) _ [] [] [10; 11; 12]%nat []
           (effectsHeap_committable (CFunction 2))).
  apply (bool_decide_unpack _). vm_compute. exact I.
Defined.

Lemma commitUpdateEffects_again_after_throw_witness :
  exists h1 h2,
    commitUpdateEffects 3 (Some 10%nat) VNull
      (effectsHeap (CNotCallable "42"))
      = Throw (invalidCallbackMessage "42") h1 /\
    calls h1 = [(1%nat, VNull)] /\
    commitUpdateEffects 3 (Some 10%nat) VNull h1 = Done tt h2 /\
    calls h2 = [(1%nat, VNull); (3%nat, VNull)].
Proof.
  destruct (commitUpdateEffects_again_after_throw 3 (Some 10%nat) VNull
              (effectsHeap (CNotCallable "42")) [10%nat] 11%nat [12%nat]
              "42")
    as (h1 & h2 & Hrun1 & Hc1 & _ & Hrun2 & Hc2 & _).
  - vm_compute. repeat split.
  - simpl. lia.
  - apply (bool_decide_unpack _). vm_compute. exact I.
  - reflexivity.
  - exists h1, h2. split; [exact Hrun1|]. split; [exact Hc1|].
    split; [exact Hrun2|exact Hc2].
Defined.

Lemma pass_leaves_the_rest_witness :
  exists h',
    processUpdateQueue 0 32 1024 64 4 0%nat 0%nat VNull VNull 2 exampleHeap
      = Done tt h' /\
    calls h' = [] /\
    stripEffect <$> updates h' = stripEffect <$> exampleUpdates.
Proof.
  destruct (pass_leaves_the_rest 0 32 1024 64 4 0%nat 0%nat VNull VNull 2
              exampleHeap _ _ _ _ exampleHeap_replayable)
    as (h' & q' & ff & Hrun & HC & HU & _).
  exists h'. split; [exact Hrun|]. split; [exact HC|exact HU].
Defined.

Lemma enqueue_twice_never_replays_witness :
  exists h',
    enqueueUpdate 0%nat 10%nat enqueueHeap = Done tt h' /\
    forall fuel,
      renderAt 0 32 1024 64 fuel 0%nat VNull VNull 1 h' = OutOfFuel.
Proof.
  destruct (enqueue_twice_never_replays 0 32 1024 64 0%nat 10%nat VNull VNull
              1 enqueueHeap exampleFiber 0%nat
              (Queue.mk (VString "") (Some 10%nat) (Some 10%nat) None None
                 None None None None) [10%nat])
    as (h' & Hrun & _ & _ & Hloop);
    [reflexivity|reflexivity|reflexivity|reflexivity| |reflexivity| |
    |].
  - vm_compute. repeat split.
  - split; intros e He; discriminate.
  - apply (bool_decide_unpack _). vm_compute. exact I.
  - exists h'. split; [exact Hrun|exact Hloop].
Defined.

Lemma exampleHeap_replayable_twice :
  replayable 6 exampleHeap 0%nat 0%nat exampleFiber exampleQueue
    [10; 11; 12; 13]%nat [14; 15]%nat.
Proof.
  replayable_example. intros Hs. by destruct exampleHeap_private.
Defined.

(** X19 on the example queue: the pass at 2 applies A, C and E and skips B,
    D and F; after the commit the pass at 1 replays B, C, D and then F on
    the state A. *)
Lemma skipped_captured_replayed_after_commit_witness :
  exists h',
    (let* _ := renderAndCommit 0 32 1024 64 6 0%nat VNull VNull 2 in
     renderAt 0 32 1024 64 6 0%nat VNull VNull 1) exampleHeap = Done tt h' /\
    memoizedStateOf h' 0%nat = Some (VString "ABCDF").
Proof.
  destruct (skipped_captured_replayed_after_commit 0 32 1024 64 6 0%nat 0%nat
              VNull VNull 2 1 exampleHeap exampleFiber exampleQueue
              [10; 11; 12; 13]%nat [14; 15]%nat exampleHeap_replayable_twice)
    as (h' & Hrun & Hst);
    [reflexivity|reflexivity|reflexivity|apart|reflexivity|simpl; lia| | |].
  - apply (bool_decide_unpack _). vm_compute. exact I.
  - vm_compute. discriminate.
  - exists h'. split; [exact Hrun|]. rewrite Hst. vm_compute. reflexivity.
Defined.

(** X21 on two queues with the lists A1 and E1: the record G1 is enqueued
    on the fiber 0; the list of the queue 1 is still E1 alone. *)
Lemma enqueueUpdate_without_shared_tail_witness :
  exists h' qr2,
    enqueueUpdate 0%nat 16%nat apartQueuesHeap = Done tt h' /\
    listOf h' 0%nat [10; 16]%nat /\
    queues h' !! 1%nat = Some qr2 /\
    Queue.lastUpdate qr2 = Some 16%nat /\
    chain (updates h') (Queue.firstUpdate qr2) [14%nat].
Proof.
  destruct (enqueueUpdate_without_shared_tail 0%nat 1%nat 16%nat
              apartQueuesHeap
              (Fiber.mk (Some 1%nat) (Some 0%nat) (VString "") 0 0)
              (Fiber.mk (Some 0%nat) (Some 1%nat) (VString "") 0 0)
              0%nat 1%nat [10%nat] [14%nat] 10%nat (letter 1 "G" CNull None))
    as (h' & qr2 & Hrun & _ & L1 & Hq2 & Hlast & Hch);
    [reflexivity|reflexivity|reflexivity|reflexivity|reflexivity|lia
    | | |reflexivity|discriminate| |reflexivity|reflexivity| | |].
  - eexists. split; [reflexivity|]. split; [|reflexivity].
    vm_compute. repeat split.
  - eexists. split; [reflexivity|]. split; [|reflexivity].
    vm_compute. repeat split.
  - apply (bool_decide_unpack _). vm_compute. exact I.
  - apply (bool_decide_unpack _). vm_compute. exact I.
  - apply (bool_decide_unpack _). vm_compute. exact I.
  - exists h', qr2. split; [exact Hrun|]. split; [exact L1|].
    split; [exact Hq2|]. split; [exact Hlast|exact Hch].
Defined.

Lemma callbackBehindHeap_private :
  ~ sharedWithCurrent callbackBehindHeap 0%nat 0%nat.
Proof.
  intros (fb & c & fc & H1 & H2 & _). vm_compute in H1.
  injection H1 as <-. discriminate.
Qed.

Lemma callbackBehindHeap_replayable :
  replayable 2 callbackBehindHeap 0%nat 0%nat exampleFiber
    (Queue.mk (VString "") (Some 11%nat) (Some 12%nat) None None
       None None None None) [11; 12]%nat [].
Proof.
  replayable_example. intros Hs. by destruct callbackBehindHeap_private.
Defined.

(** X22 on the list B1 - C2: two passes at 2 skip B and apply C, whose
    callback the commit then calls without end. *)
Lemma second_pass_before_commit_closes_the_effect_list_witness :
  exists h1 h2,
    processUpdateQueue 0 32 1024 64 2 0%nat 0%nat VNull VNull 2
      callbackBehindHeap = Done tt h1 /\
    processUpdateQueue 0 32 1024 64 2 0%nat 0%nat VNull VNull 2 h1
      = Done tt h2 /\
    Update.nextEffect <$> updates h2 !! 12%nat = Some (Some 12%nat) /\
    forall fuel', commitUpdateQueue fuel' 0%nat 0%nat VNull 2 h2 = OutOfFuel.
Proof.
  apply (second_pass_before_commit_closes_the_effect_list 0 32 1024 64 2
           0%nat 0%nat VNull VNull 2 2 callbackBehindHeap exampleFiber _
           [11; 12]%nat 12%nat callbackBehindHeap_replayable
           callbackBehindHeap_private);
    [reflexivity|reflexivity|reflexivity|reflexivity|].
  apply (bool_decide_unpack _). vm_compute. exact I.
Defined.
